(* ===== verification/_CoqProject ===== *)
-Q . S2P
Prelude.v
Text.v
Digest.v
Messages.v
Clock.v
Config.v
State.v
Queue.v
Bounds.v
Stream.v
StreamFacts.v
Sample.v
Flow.v
Terminals.v
Dispatch.v
DispatchFacts.v
Admission.v
Handlers.v
Drain.v
Spec.v
SpecFacts.v
Session.v
Link.v
SessionFacts.v
Registration.v
Supervisor.v
LinkFacts.v
System.v
Lifecycle.v
Callbacks.v
Operations.v
Sources.v
