(* ===== verification/Prelude.v ===== *)
(** * Adapter Runtime client: verification library

    The program is a C++ client that lives inside an adapter process and talks to
    a Host over gRPC.  It reads a one-time bootstrap file, registers once, opens a
    pair of streams (Control and Work), applies the instance specification the
    Host sends, runs Work requests on the application's handlers, and keeps every
    terminal result until the Host acknowledges it.  All state is in one object,
    [Client::Impl], behind one mutex; a supervisor thread, a reader and a writer
    per stream, a pool of dispatch workers and the application's own threads
    share it.

    ** How the model is built

    The state is the record [Impl] of State.v (the members of
    [src/src/client_impl.hpp]); an operation is a computation [C A := Impl → A *
    Impl]; a function that works under the mutex and then goes on without it is
    split into its critical section ([.._locked]) and the whole function.
    Cancellation flags, which jobs, tokens and application share, are addresses in
    a heap of the state.  Integers are [Z] at their machine width with explicit
    wrap-around ([u32], [u64]).

    What is not in the sources is a parameter.  The class [Protobuf] (Messages.v)
    stands for the generated messages and their library (sizes, encodings,
    parsing, comparison); [Environment] (State.v) for the application's callbacks
    ([invoke]), for the other threads running whenever the mutex is free
    ([preempt]) and while a thread waits ([wait_until]); [Transport] (Session.v)
    and [Streams] (Link.v) for gRPC.  [Rely I] says that the environment keeps the
    invariant [I]; [Sequential] that other threads are idle and callbacks leave
    the client's state alone.  Theorems name the ones they need; each has a
    witness in a concrete environment (Sample.v).

    ** Files

    - Prelude: machine integers, the state monad, record updates, the [keeps]
      (invariant) and [hoare] judgements with their rules and hints, sums over
      maps and lists.
    - Text ([internal.hpp], [bootstrap.cpp]): canonical text, identifiers, digests,
      contract keys, the runtime target.
    - Digest ([digest.cpp]): SHA-256 and the terminal digest.
    - Messages ([internal.hpp], [client.hpp], [client.cpp]): the messages as
      records, payload and error validators, application-facing results.
    - Clock ([internal.hpp], [session_state.cpp]): deadlines, heartbeat, backoff.
    - Config ([client.cpp], [bootstrap.cpp], [spec.cpp]): the bootstrap file,
      [BindCapability], [ValidateConfig], [ValidateInstanceSpec].
    - State ([client_impl.hpp], parts of [session.cpp], [spec.cpp]): the state, the
      environment, failure signalling.
    - Queue ([queue.cpp]), with its invariant in Bounds: frame headers, outbound
      queues, the replay table.
    - Stream ([stream.cpp]), with StreamFacts and Flow: sources, credit,
      acknowledgement, cancellation, drain, remote stop.
    - Terminals: the life of a retained terminal.
    - Dispatch ([dispatch.cpp], [source_dispatch.cpp]), with DispatchFacts,
      Admission, Handlers and Drain: admission, workers, handlers.
    - Spec ([spec.cpp]), with SpecFacts: specification transitions.
    - Session ([session.cpp], [session_state.cpp]), with SessionFacts, Registration
      and Supervisor: registration, connection pairs, the supervisor, start, stop.
    - Link ([control.cpp], [work.cpp]), with LinkFacts: the four stream threads.
    - System: the interleaving of all threads as a step relation.
    - Lifecycle: the abstract life cycle of a Work identity, and its refinement.
    - Callbacks, Operations, Sources: the order of application callbacks and of the
      frames of an operation; the answer to a source.
    - Sample: concrete states and environments for the witnesses.

    ** What is proved

    - Of every reachable state of the whole system (System): all queues, the replay
      table with its reservations and the sources stay inside their entry and byte
      budgets with exact counters; one Register call per process; nothing stale
      survives a stop or a pair.  The system refines an abstract machine of five
      events (Lifecycle), so no path forgets a terminal before its acknowledgement.
    - Of Work: admission is exact; a reserved terminal can always be retained;
      every dispatched job is answered by a terminal of its endpoint's contract or
      the session ends; redelivery replays the retained terminal; acknowledgement
      releases exactly one terminal and inverts the commit.
    - Of callbacks: an operation announces itself, runs its handler once and ends in
      one terminal; capabilities are started, made ready and stopped in brackets on
      every failure path; the loss of a session is told once, after the stop.
    - Of sources: every pending source is answered once; credit is neither lost nor invented and data leaves in order.
    - Of specifications: an accepted one is exactly what was registered, and its
      application is atomic whatever the callbacks do.
    - Of the session: pair replacement keeps what the session owns and drops what
      the pair owned; the reconnect budget ends the supervisor's loop; an accepted
      registration leaves room for every frame within the negotiated limits;
      frames are fenced by identity and sequence.
    - Of the foundations: the incremental SHA-256 is SHA-256, the terminal digest
      binds type and content, the runtime target and bootstrap file are checked as
      documented, deadlines, heartbeats and backoff are right at machine width.
    - Behaviours that depart from the intent, with executions that show them:
      drain completion that is never reported, a redelivery during drain that
      preempts a result, an identity no acknowledgement can release, a backoff that
      wraps to zero (Drain, Clock).

    ** Bounds and fuel

    Loops over data are structural or run on fuel that the caller computes from
    the data: [component_loop] and [update_loop] take as many steps as there
    are characters or bytes, [release_loop] as many as there are tokens.  They never
    run out: the theorems about their callers are unconditional.  The service
    loops ([supervise], the readers and writers, [DispatchLoop]) run as long as the
    program does; [fuel] counts their iterations, and [None] means "still
    running".  Safety of them is proved for every fuel; for the supervisor a fuel
    that is enough is computed from the reconnect budget.  [std::size_t] is 64
    bits wide.  The theorems assume the configured limits are [size_t] values and
    the negotiated ones [uint32_t] values, which their C++ types give.

    ** Not modelled

    - gRPC and protobuf themselves, thread creation and joining (System has them as
      phases), the mutexes (a critical section is one step) and condition
      variables (a wait is [wait_until]); timing beyond the clock values the code
      reads.
    - [Start] and [Stop] called concurrently with each other.
    - The [FileDescriptor] wrapper of [client.cpp] and the forwarding methods of
      [Client]; the effect of [SecureErase] on memory other than the string itself.
    - Exceptions other than those of application callbacks (allocation failure). *)

From Stdlib Require Export ZArith Lia.
From Stdlib Require Ascii.
Export Ascii (ascii(..), N_of_ascii, ascii_of_N).
Export (notations) Ascii.
From stdpp Require Export base gmap strings list sorting fin_maps.

#[global] Open Scope Z_scope.

(** ** Machine integers

    [std::uint32_t], [std::uint64_t] and [std::size_t] are [Z] kept in range by
    an explicit wrap-around; [std::size_t] is 64 bits wide, as on every
    platform the package is built for. *)

Definition u32_max : Z := 2 ^ 32 - 1.
Definition u64_max : Z := 2 ^ 64 - 1.
Definition size_max : Z := u64_max.
Definition i64_max : Z := 2 ^ 63 - 1.
Definition i64_min : Z := - 2 ^ 63.

Definition u32 (z : Z) : Z := z mod 2 ^ 32.
Definition u64 (z : Z) : Z := z mod 2 ^ 64.

Definition in_u32 (z : Z) : Prop := 0 ≤ z ≤ u32_max.
Definition in_u64 (z : Z) : Prop := 0 ≤ z ≤ u64_max.
Definition in_i64 (z : Z) : Prop := i64_min ≤ z ≤ i64_max.

Lemma u64_max_value : u64_max = 18446744073709551615.
Proof. reflexivity. Qed.

Lemma u32_max_value : u32_max = 4294967295.
Proof. reflexivity. Qed.

Lemma u64_id z : in_u64 z → u64 z = z.
Proof. intros [? ?]. apply Z.mod_small. unfold u64_max in *. lia. Qed.

Lemma u32_id z : in_u32 z → u32 z = z.
Proof. intros [? ?]. apply Z.mod_small. unfold u32_max in *. lia. Qed.

Lemma u64_range z : in_u64 (u64 z).
Proof.
  unfold in_u64, u64, u64_max.
  pose proof (Z.mod_pos_bound z (2 ^ 64) ltac:(lia)). lia.
Qed.

Lemma u64_le z : 0 ≤ z → u64 z ≤ z.
Proof. intros. apply Z.mod_le; lia. Qed.

Lemma u32_range z : in_u32 (u32 z).
Proof.
  unfold in_u32, u32, u32_max.
  pose proof (Z.mod_pos_bound z (2 ^ 32) ltac:(lia)). lia.
Qed.

(** ** Record update

    [s <| field := v |>] replaces one field of a record.  A record type
    registers how it is rebuilt from its own projections ([Eta]); the setter of
    a projection is that term with the projection replaced. *)

Class Eta (R : Type) := eta : R → R.
Class Setter {R F : Type} (field : R → F) := update : (F → F) → R → R.
#[global] Arguments update {R F} field {_} _ _.

Ltac solve_setter :=
  lazymatch goal with
  | |- @Setter ?R ?F ?field =>
      let inst := constr:(_ : Eta R) in
      let rebuilt := eval hnf in (@eta R inst) in
      lazymatch eval pattern field in rebuilt with
      | ?ctx field =>
          let term := eval cbv beta in
            (fun (h : F -> F) => ctx (fun r : R => h (field r))) in
          exact term
      end
  end.

#[export] Hint Extern 1 (Setter _) => solve_setter : typeclass_instances.

Declare Scope record_scope.
Notation "s <| field := v |>" := (update field (fun _ => v) s)
  (at level 12, left associativity, field at next level) : record_scope.
#[global] Open Scope record_scope.

(** ** State-passing computations

    A function of the client that runs under [mutex_] reads and writes the
    fields of [Client::Impl]; it is a computation [M S A] with
    [S] the state.  [hoare P m Q] is the total-correctness triple of such a
    computation and [keeps I m] says that it preserves [I]. *)

Definition M (S A : Type) : Type := S → A * S.

#[export] Instance M_ret {S} : MRet (M S) := λ A x s, (x, s).
#[export] Instance M_bind {S} : MBind (M S) := λ A B k m s,
  let r := m s in k r.1 r.2.

Definition gets {S A} (f : S → A) : M S A := λ s, (f s, s).
Definition modify {S} (f : S → S) : M S unit := λ s, (tt, f s).

(** [when b m] is [if (b) m;]. *)
Definition when {S} (b : bool) (m : M S unit) : M S unit := if b then m else mret tt.

(** [for_each f xs] is [for (const auto& x : xs) f(x);]. *)
Fixpoint for_each {S A} (f : A → M S unit) (xs : list A) : M S unit :=
  match xs with
  | [] => mret tt
  | x :: xs => f x ;; for_each f xs
  end.

Definition hoare {S A} (P : S → Prop) (m : M S A) (Q : A → S → Prop) : Prop :=
  ∀ s, P s → Q (m s).1 (m s).2.
Definition keeps {S A} (I : S → Prop) (m : M S A) : Prop := hoare I m (λ _, I).

Section hoare_rules.
Context {S : Type}.
Implicit Types P I : S → Prop.

Lemma hoare_bind {A B} P (m : M S A) (R : A → S → Prop) (k : A → M S B) Q :
  hoare P m R → (∀ a, hoare (R a) (k a) Q) → hoare P (m ≫= k) Q.
Proof. intros Hm Hk s HP. apply Hk, Hm, HP. Qed.

Lemma hoare_consequence {A} P P' (m : M S A) Q Q' :
  hoare P' m Q' → (∀ s, P s → P' s) → (∀ a s, Q' a s → Q a s) → hoare P m Q.
Proof. intros Hm HP HQ s Hs. apply HQ, Hm, HP, Hs. Qed.

(** A fact about the value moves into the context. *)
Lemma hoare_pure {A} (φ : Prop) P (m : M S A) Q :
  (φ → hoare P m Q) → hoare (λ s, φ ∧ P s) m Q.
Proof. intros Hm s [Hφ Hs]. by apply Hm. Qed.

Lemma keeps_ret {A} I (a : A) : keeps I (mret a).
Proof. by intros s. Qed.

Lemma keeps_gets {A} I (f : S → A) : keeps I (gets f).
Proof. by intros s. Qed.

Lemma keeps_modify I f : (∀ s, I s → I (f s)) → keeps I (modify f).
Proof. intros Hf s Hs. by apply Hf. Qed.

Lemma keeps_bind {A B} I (m : M S A) (k : A → M S B) :
  keeps I m → (∀ a, keeps I (k a)) → keeps I (m ≫= k).
Proof. intros Hm Hk. by apply (hoare_bind I m (λ _, I)). Qed.

Lemma keeps_when I b (m : M S unit) : keeps I m → keeps I (when b m).
Proof. destruct b; [done|]. intros _. apply keeps_ret. Qed.

Lemma keeps_if {A} I (b : bool) (m1 m2 : M S A) :
  keeps I m1 → keeps I m2 → keeps I (if b then m1 else m2).
Proof. by destruct b. Qed.

Lemma keeps_for_each {A} I (f : A → M S unit) xs :
  (∀ x, keeps I (f x)) → keeps I (for_each f xs).
Proof.
  intros Hf. induction xs as [|x xs IH]; simpl; [apply keeps_ret|].
  by apply keeps_bind.
Qed.

Lemma keeps_and {A} I J (m : M S A) :
  keeps I m → keeps J m → keeps (λ s, I s ∧ J s) m.
Proof. intros HI HJ s [? ?]. split; [by apply HI|by apply HJ]. Qed.
End hoare_rules.

(** ** Sums over the values of a map *)

Section map_sum.
Context {K V : Type} `{Countable K}.
Implicit Types (m : gmap K V) (f : V → Z).

Definition map_sum f m : Z := map_fold (λ _ v acc, f v + acc) 0 m.

Lemma map_sum_empty f : map_sum f (∅ : gmap K V) = 0.
Proof. apply map_fold_empty. Qed.

Lemma map_sum_insert f m k v :
  m !! k = None → map_sum f (<[k:=v]> m) = f v + map_sum f m.
Proof.
  intros. unfold map_sum.
  apply (map_fold_insert_L (λ _ v acc, f v + acc)); [intros; lia|done].
Qed.

Lemma map_sum_delete f m k v :
  m !! k = Some v → map_sum f (delete k m) = map_sum f m - f v.
Proof.
  intros Hk. unfold map_sum.
  rewrite (map_fold_delete_L (λ _ v acc, f v + acc) 0 k v m); [lia| |done].
  intros. lia.
Qed.

Lemma map_sum_replace f m k v v' :
  m !! k = Some v → map_sum f (<[k:=v']> m) = map_sum f m - f v + f v'.
Proof.
  intros Hk. rewrite <-insert_delete_eq, map_sum_insert.
  - rewrite (map_sum_delete f m k v Hk). lia.
  - apply lookup_delete_eq.
Qed.

Lemma map_sum_nonneg f m :
  (∀ k v, m !! k = Some v → 0 ≤ f v) → 0 ≤ map_sum f m.
Proof.
  unfold map_sum. intros Hf.
  apply (map_fold_weak_ind (λ acc m', (∀ k v, m' !! k = Some v → 0 ≤ f v) → 0 ≤ acc)).
  - lia.
  - intros k v m' acc Hk IH Hpos.
    assert (0 ≤ f v) by (apply (Hpos k), lookup_insert_eq).
    assert (0 ≤ acc); [|lia]. apply IH. intros k' v' Hk'.
    apply (Hpos k'). rewrite lookup_insert_ne; [done|]. by intros ->; simplify_eq.
  - done.
Qed.

Lemma map_sum_lookup_le f m k v :
  (∀ k v, m !! k = Some v → 0 ≤ f v) → m !! k = Some v → f v ≤ map_sum f m.
Proof.
  intros Hpos Hk.
  pose proof (map_sum_delete f m k v Hk) as Hd.
  assert (0 ≤ map_sum f (delete k m)); [|lia].
  apply map_sum_nonneg. intros k' v' [_ ?]%lookup_delete_Some. eauto.
Qed.
End map_sum.

(** [std::map] iterates in the order of its keys, [std::less<std::string>]: the
    lexicographic order on unsigned characters that [String.le] is. *)
Definition key_le {V} (x y : string * V) : Prop := String.le x.1 y.1.
#[export] Instance key_le_dec {V} : RelDecision (@key_le V).
Proof. intros x y. unfold key_le. apply _. Defined.

Definition entries {V} (m : gmap string V) : list (string * V) :=
  merge_sort key_le (map_to_list m).

Lemma entries_permutation {V} (m : gmap string V) : entries m ≡ₚ map_to_list m.
Proof. apply merge_sort_Permutation. Qed.

Lemma elem_of_entries {V} (m : gmap string V) k v :
  (k, v) ∈ entries m ↔ m !! k = Some v.
Proof. rewrite entries_permutation. apply elem_of_map_to_list. Qed.

Lemma entries_nil {V} (m : gmap string V) : entries m = [] ↔ m = ∅.
Proof.
  split.
  - intros Hnil. apply map_to_list_empty_iff, Permutation_nil_r.
    by rewrite <-entries_permutation, Hnil.
  - intros ->. unfold entries. by rewrite map_to_list_empty.
Qed.

Lemma size_insert_le {V} (m : gmap string V) k v :
  (size (<[k:=v]> m) ≤ S (size m))%nat.
Proof. rewrite map_size_insert. destruct (m !! k); simpl; lia. Qed.

Lemma size_delete_Some {V} (m : gmap string V) k v :
  m !! k = Some v → size m = S (size (delete k m)).
Proof.
  intros Hk. rewrite map_size_delete, Hk. simpl.
  assert (size m ≠ 0%nat); [|lia].
  rewrite map_size_ne_0_lookup. by eexists _, _.
Qed.

(** ** Sums over a queue *)

Definition list_sum {A} (f : A → Z) (l : list A) : Z :=
  foldr (λ x acc, f x + acc) 0 l.

Lemma list_sum_app {A} (f : A → Z) l k :
  list_sum f (l ++ k) = list_sum f l + list_sum f k.
Proof. induction l as [|x l IH]; simpl; [lia|]. rewrite IH. lia. Qed.

Lemma list_sum_nonneg {A} (f : A → Z) l :
  Forall (λ x, 0 ≤ f x) l → 0 ≤ list_sum f l.
Proof. induction 1; simpl; lia. Qed.

(** ** Byte strings *)

Definition str_size (s : string) : Z := Z.of_nat (String.length s).

Definition str_empty (s : string) : bool :=
  match s with EmptyString => true | _ => false end.

Lemma str_empty_spec s : str_empty s = true ↔ s = "".
Proof. by destruct s. Qed.

Lemma str_size_nonneg s : 0 ≤ str_size s.
Proof. unfold str_size. lia. Qed.

Lemma string_length_app s t :
  String.length (s +:+ t) = (String.length s + String.length t)%nat.
Proof. induction s as [|c s IH]; [done|]. exact (f_equal S IH). Qed.

Lemma str_size_app s t : str_size (s +:+ t) = str_size s + str_size t.
Proof. unfold str_size. rewrite string_length_app. lia. Qed.

Abbreviation chars := String.list_ascii_of_string.

Lemma chars_app s t : chars (s +:+ t) = chars s ++ chars t.
Proof. induction s as [|c s IH]; [done|]. exact (f_equal (cons c) IH). Qed.

Lemma chars_inj s t : chars s = chars t → s = t.
Proof.
  revert t. induction s as [|c s IH]; intros [|d t] Heq; simplify_eq/=; [done|].
  f_equal. by apply IH.
Qed.

Lemma length_chars s : length (chars s) = String.length s.
Proof. induction s as [|c s IH]; [done|]. exact (f_equal S IH). Qed.

Lemma chars_of_list l : chars (String.string_of_list_ascii l) = l.
Proof. apply String.list_ascii_of_string_of_list_ascii. Qed.

(** ** Boolean quantifiers *)

Lemma forallb_Forall {A} (f : A → bool) l :
  forallb f l = true ↔ Forall (λ x, f x = true) l.
Proof. rewrite List.forallb_forall, List.Forall_forall. done. Qed.

Lemma existsb_elem {A} (f : A → bool) l :
  existsb f l = true ↔ ∃ x, x ∈ l ∧ f x = true.
Proof. rewrite List.existsb_exists. by setoid_rewrite list_elem_of_In. Qed.

(** ** Automation *)

(** Destruct the innermost [if]/[match] of the goal, keeping its equation. *)
Ltac case_all := repeat (case_match; simplify_eq/=).

(** Boolean guards of the code to propositions. *)
Ltac guards :=
  repeat match goal with
  | H : context [orb _ _ = true] |- _ => rewrite orb_true_iff in H
  | H : context [orb _ _ = false] |- _ => rewrite orb_false_iff in H
  | H : context [andb _ _ = true] |- _ => rewrite andb_true_iff in H
  | H : context [andb _ _ = false] |- _ => rewrite andb_false_iff in H
  | H : context [negb _ = true] |- _ => rewrite negb_true_iff in H
  | H : context [negb _ = false] |- _ => rewrite negb_false_iff in H
  | H : context [(_ <=? _) = true] |- _ => rewrite Z.leb_le in H
  | H : context [(_ <=? _) = false] |- _ => rewrite Z.leb_gt in H
  | H : context [(_ <? _) = true] |- _ => rewrite Z.ltb_lt in H
  | H : context [(_ <? _) = false] |- _ => rewrite Z.ltb_ge in H
  | H : context [(_ =? _) = true] |- _ => rewrite Z.eqb_eq in H
  | H : context [(_ =? _) = false] |- _ => rewrite Z.eqb_neq in H
  | H : context [bool_decide _ = true] |- _ => rewrite bool_decide_eq_true in H
  | H : context [bool_decide _ = false] |- _ => rewrite bool_decide_eq_false in H
  | H : _ ∧ _ |- _ => destruct H
  end.

(** The rules that take a computation apart; a component adds the lemma of each
    of its operations. *)
Create HintDb keeps.
#[export] Hint Constants Opaque : keeps.
#[export] Hint Resolve keeps_ret keeps_gets keeps_when keeps_if keeps_for_each : keeps.
#[export] Hint Extern 2 (keeps _ (_ ≫= _)) => (apply keeps_bind; [|intros ?]) : keeps.

Create HintDb machine.
#[export] Hint Resolve u64_range u32_range str_size_nonneg : machine.
