(* ===== verification/Text.v ===== *)
(** * Canonical text, identifiers, contract keys and the runtime target

    The predicates of [src/src/internal.hpp] and [src/src/bootstrap.cpp] that
    decide which strings the client accepts from the bootstrap file, the Host
    and the application, each proved equivalent to the language it describes. *)

From stdpp Require Import pretty.
From S2P Require Import Prelude.

(** The outcome of a [bool f(..., std::string* error)] validator. *)
Inductive Verdict : Type :=
| Accepted
| Refused (error : string).

#[export] Instance Verdict_eq_dec : EqDecision Verdict.
Proof. solve_decision. Defined.

(** ** Characters *)

Definition char_in (lo hi c : ascii) : bool :=
  (N_of_ascii lo <=? N_of_ascii c)%N && (N_of_ascii c <=? N_of_ascii hi)%N.

Definition IsLowerAlpha (value : ascii) : bool := char_in "a" "z" value.
Definition is_digit (c : ascii) : bool := char_in "0" "9" c.
Definition is_alphanumeric (c : ascii) : bool := IsLowerAlpha c || is_digit c.
Definition is_separator (c : ascii) : bool :=
  bool_decide (c = "."%char) || bool_decide (c = "_"%char) || bool_decide (c = "-"%char).
Definition is_lower_hex (c : ascii) : bool := is_digit c || char_in "a" "f" c.

Definition NUL : ascii := "000".
Definition LF : ascii := "010".
Definition CR : ascii := "013".

Definition is_ascii_whitespace (c : ascii) : bool :=
  bool_decide (c = " "%char) || bool_decide (c = "009"%char) ||
  bool_decide (c = "011"%char) || bool_decide (c = "012"%char) ||
  bool_decide (c = CR) || bool_decide (c = LF).

(** ** [internal::IsCanonicalText] *)

Definition IsCanonicalText (value : string) : bool :=
  match chars value with
  | [] => false
  | front :: rest =>
      if is_ascii_whitespace front || is_ascii_whitespace (default front (last rest))
      then false
      else bool_decide (NUL ∉ chars value) && bool_decide (CR ∉ chars value)
           && bool_decide (LF ∉ chars value)
  end.

(** ** [internal::IsCanonicalIdentifier] *)

(** The loop over the characters; [separator] says the previous one was. *)
Fixpoint identifier_loop (separator : bool) (value : list ascii) : bool :=
  match value with
  | [] => negb separator
  | character :: rest =>
      if is_alphanumeric character then identifier_loop false rest
      else if is_separator character && negb separator
      then identifier_loop true rest
      else false
  end.

Definition IsCanonicalIdentifier (value : string) : bool :=
  match chars value with
  | [] => false
  | front :: _ =>
      if negb (IsLowerAlpha front) then false
      else identifier_loop false (chars value)
  end.

(** ** [internal::IsCanonicalSha256], [IsCanonicalInstanceId] *)

Definition IsCanonicalSha256 (value : string) : bool :=
  if negb (str_size value =? 71) ||
     negb (bool_decide (take 7 (chars value) = chars "sha256:"))
  then false
  else forallb is_lower_hex (drop 7 (chars value)).

Definition IsCanonicalDigest (value : string) : bool := IsCanonicalSha256 value.

Definition IsCanonicalInstanceId (value : string) : bool :=
  if negb (str_size value =? 36) ||
     negb (bool_decide (take 4 (chars value) = chars "ari-"))
  then false
  else forallb is_lower_hex (drop 4 (chars value)).

(** ** [IsCanonicalCapabilityId] *)

(** The loop over the indices; [start] says the character is the first or
    follows a dot. *)
Fixpoint capability_loop (start : bool) (value : list ascii) : bool :=
  match value with
  | [] => true
  | character :: rest =>
      if start && negb (IsLowerAlpha character) then false
      else capability_loop (bool_decide (character = "."%char)) rest
  end.

Definition IsCanonicalCapabilityId (value : string) : bool :=
  if bool_decide ("."%char ∉ chars value) || negb (IsCanonicalIdentifier value)
  then false
  else capability_loop true (chars value).

(** ** [internal::ContractKey] *)

Definition to_string (z : Z) : string := pretty (Z.to_N z).

Definition newline : string := String LF "".

Definition ContractKey (capability_id : string) (contract_version : Z)
    (contract_digest : string) : string :=
  capability_id +:+ newline +:+ to_string contract_version +:+ newline +:+
  contract_digest.

(** ** [internal::ValidateRuntimeTarget] *)

(** [s.find(c)] on the characters from the current position on. *)
Fixpoint find_char (c : ascii) (s : list ascii) : option nat :=
  match s with
  | [] => None
  | d :: rest =>
      if decide (d = c) then Some 0%nat else S <$> find_char c rest
  end.

Definition canonical_component (component : list ascii) : bool :=
  negb (bool_decide (component = [])) &&
  negb (bool_decide (component = chars ".")) &&
  negb (bool_decide (component = chars "..")).

(** The [while] loop; [rest] is [socket_path] from [component_start] on. *)
Fixpoint component_loop (fuel : nat) (rest : list ascii) : bool :=
  match fuel with
  | O => true
  | S fuel =>
      match rest with
      | [] => true
      | _ =>
          let separator := find_char "/" rest in
          let component := take (default (length rest) separator) rest in
          if negb (canonical_component component) then false
          else
            match separator with
            | None => true
            | Some index => component_loop fuel (drop (S index) rest)
            end
      end
  end.

Definition canonical_socket_error : string :=
  "unix target must contain a canonical absolute socket path".

(** The checks on [socket_path], after the scheme was cut off. *)
Definition ValidateSocketPath (socket_path : list ascii) : Verdict :=
  if (Z.of_nat (length socket_path) <=? 1) ||
     negb (bool_decide (head socket_path = Some "/"%char)) ||
     bool_decide (last socket_path = Some "/"%char)
  then Refused canonical_socket_error
  else if component_loop (length socket_path) (drop 1 socket_path)
  then Accepted
  else Refused canonical_socket_error.

Definition ValidateRuntimeTarget (runtime_target : string) : Verdict :=
  let target := chars runtime_target in
  if bool_decide (take 7 target = chars "unix://") then ValidateSocketPath (drop 7 target)
  else if bool_decide (take 5 target = chars "unix:") then ValidateSocketPath (drop 5 target)
  else Refused "runtime_target must use the unix scheme".

(** ** What the predicates decide *)

(** Canonical identifiers: a lower-case letter followed by alphanumeric words
    with single separators between them. *)
Inductive identifier_tail : list ascii → Prop :=
| tail_end : identifier_tail []
| tail_word c l : is_alphanumeric c = true → identifier_tail l → identifier_tail (c :: l)
| tail_separator c d l :
    is_separator c = true → is_alphanumeric d = true →
    identifier_tail l → identifier_tail (c :: d :: l).

Lemma separator_not_alphanumeric c : is_separator c = true → is_alphanumeric c = false.
Proof.
  unfold is_separator. intros Hc. guards.
  destruct Hc as [[Hc|Hc]|Hc]; guards; by subst.
Qed.

Lemma identifier_loop_false l : identifier_loop false l = true ↔ identifier_tail l.
Proof.
  split.
  - revert l. fix IH 1. intros [|c l]; simpl; [constructor|].
    destruct (is_alphanumeric c) eqn:Hc; [intros H; constructor; [done|by apply IH]|].
    rewrite andb_true_r. destruct (is_separator c) eqn:Hs; [|done].
    destruct l as [|d l]; simpl; [done|].
    destruct (is_alphanumeric d) eqn:Hd.
    + intros H. apply tail_separator; [done..|]. by apply IH.
    + by rewrite andb_false_r.
  - induction 1 as [|c l Hc _ IH|c d l Hc Hd _ IH]; simpl; [done|by rewrite Hc|].
    by rewrite (separator_not_alphanumeric _ Hc), Hc, Hd.
Qed.

Lemma lower_alpha_alphanumeric c : IsLowerAlpha c = true → is_alphanumeric c = true.
Proof. unfold is_alphanumeric. by intros ->. Qed.

Lemma IsCanonicalIdentifier_spec value :
  IsCanonicalIdentifier value = true ↔
  ∃ front rest, chars value = front :: rest ∧
    IsLowerAlpha front = true ∧ identifier_tail rest.
Proof.
  unfold IsCanonicalIdentifier. destruct (chars value) as [|c l]; [naive_solver|].
  destruct (IsLowerAlpha c) eqn:Hc; simpl; [|naive_solver congruence].
  rewrite (lower_alpha_alphanumeric _ Hc), identifier_loop_false. naive_solver.
Qed.

Lemma identifier_tail_chars l c :
  identifier_tail l → c ∈ l → is_alphanumeric c = true ∨ is_separator c = true.
Proof. induction 1; set_solver. Qed.

Lemma IsCanonicalIdentifier_char value c :
  IsCanonicalIdentifier value = true → c ∈ chars value →
  is_alphanumeric c = true ∨ is_separator c = true.
Proof.
  intros (front & rest & -> & Hf & Hr)%IsCanonicalIdentifier_spec [->|Hc]%elem_of_cons.
  - left. by apply lower_alpha_alphanumeric.
  - by eapply identifier_tail_chars.
Qed.

Lemma IsCanonicalIdentifier_no_newline value :
  IsCanonicalIdentifier value = true → LF ∉ chars value.
Proof. intros Hv Hin. by destruct (IsCanonicalIdentifier_char _ _ Hv Hin). Qed.

Lemma IsCanonicalIdentifier_nonempty value :
  IsCanonicalIdentifier value = true → str_empty value = false.
Proof. by destruct value. Qed.

(** Canonical digests: [sha256:] and 64 lower-case hexadecimal digits. *)
Lemma IsCanonicalSha256_spec value :
  IsCanonicalSha256 value = true ↔
  ∃ hex, chars value = chars "sha256:" ++ hex ∧ length hex = 64%nat ∧
    Forall (λ c, is_lower_hex c = true) hex.
Proof.
  unfold IsCanonicalSha256, str_size. rewrite <-length_chars.
  destruct (negb _ || negb _) eqn:Hg.
  - split; [done|]. intros (hex & Hv & Hlen & _). rewrite Hv in Hg.
    apply orb_true_iff in Hg as [Hg|Hg]; apply negb_true_iff in Hg.
    + apply Z.eqb_neq in Hg. rewrite length_app in Hg. simpl in Hg. lia.
    + apply bool_decide_eq_false in Hg. done.
  - guards. rewrite forallb_Forall. split.
    + intros Hall. exists (drop 7 (chars value)). split_and!.
      * by rewrite <-H0, take_drop.
      * rewrite length_drop. lia.
      * done.
    + intros (hex & Hv & Hlen & Hall). rewrite Hv. simpl. by rewrite drop_0.
Qed.

Lemma IsCanonicalSha256_no_newline value :
  IsCanonicalSha256 value = true → LF ∉ chars value.
Proof.
  intros (hex & -> & _ & Hall)%IsCanonicalSha256_spec [Hin|Hin]%elem_of_app.
  - vm_compute in Hin. set_solver.
  - rewrite Forall_forall in Hall. by specialize (Hall _ Hin).
Qed.

Lemma IsCanonicalSha256_size value :
  IsCanonicalSha256 value = true → str_size value = 71.
Proof.
  intros (hex & Hv & Hlen & _)%IsCanonicalSha256_spec. unfold str_size.
  rewrite <-length_chars, Hv, length_app, Hlen. done.
Qed.

(** Canonical text: nonempty, no white space at either end, no NUL, CR or LF. *)
Lemma IsCanonicalText_spec value :
  IsCanonicalText value = true ↔
  ∃ front back, head (chars value) = Some front ∧ last (chars value) = Some back ∧
    is_ascii_whitespace front = false ∧ is_ascii_whitespace back = false ∧
    (NUL ∉ chars value) ∧ (CR ∉ chars value) ∧ (LF ∉ chars value).
Proof.
  unfold IsCanonicalText. destruct (chars value) as [|c l]; [naive_solver|].
  assert (last (c :: l) = Some (default c (last l))) as ->.
  { rewrite last_cons. by destruct (last l). }
  destruct (is_ascii_whitespace c) eqn:Hc; simpl; [naive_solver congruence|].
  destruct (is_ascii_whitespace (default c (last l))) eqn:Hl; simpl; [naive_solver congruence|].
  rewrite !andb_true_iff, !bool_decide_eq_true. naive_solver.
Qed.

(** *** Contract keys *)

Lemma pretty_N_go_digits x s :
  Forall (λ c, is_digit c = true) (chars s) →
  Forall (λ c, is_digit c = true) (chars (pretty_N_go x s)).
Proof.
  revert s. induction (N.lt_wf_0 x) as [x _ IH]; intros s Hs.
  destruct (decide (x = 0)%N) as [->|Hx]; [done|].
  rewrite pretty_N_go_step by lia. apply IH; [apply N.div_lt; lia|].
  simpl. constructor; [|done]. unfold pretty_N_char. by repeat case_match.
Qed.

Lemma to_string_no_newline z : LF ∉ chars (to_string z).
Proof.
  assert (Forall (λ c, is_digit c = true) (chars (to_string z))) as Hall.
  { unfold to_string, pretty, pretty_N. case_decide; [by repeat constructor|].
    by apply pretty_N_go_digits. }
  intros Hin. rewrite Forall_forall in Hall. by specialize (Hall _ Hin).
Qed.

Lemma to_string_inj x y : 0 ≤ x → 0 ≤ y → to_string x = to_string y → x = y.
Proof. unfold to_string. intros ?? Heq. apply (inj (@pretty N _)) in Heq. lia. Qed.

Definition newlines (l : list ascii) : nat := length (filter (.= LF) l).

Lemma newlines_app l k : newlines (l ++ k) = (newlines l + newlines k)%nat.
Proof. unfold newlines. by rewrite filter_app, length_app. Qed.

Lemma newlines_LF l : newlines (LF :: l) = S (newlines l).
Proof. unfold newlines. by rewrite filter_cons_True. Qed.

Lemma newlines_0 l : newlines l = 0%nat ↔ LF ∉ l.
Proof.
  unfold newlines. split.
  - intros Hlen Hin. apply nil_length_inv in Hlen.
    assert (LF ∈ filter (.= LF) l) as Hf by (by apply list_elem_of_filter).
    rewrite Hlen in Hf. set_solver.
  - induction l as [|c l IH]; [done|]. intros Hin.
    rewrite filter_cons_False by set_solver. apply IH. set_solver.
Qed.

Lemma newline_split_inj a a' b b' :
  LF ∉ a → LF ∉ a' → a ++ LF :: b = a' ++ LF :: b' → a = a' ∧ b = b'.
Proof.
  revert a'. induction a as [|c a IH]; intros [|c' a'] Ha Ha' Heq; simplify_eq/=;
    [done|set_solver|set_solver|].
  destruct (IH a') as [-> ->]; [set_solver..|done|done].
Qed.

Lemma chars_ContractKey id version digest :
  chars (ContractKey id version digest) =
  chars id ++ LF :: chars (to_string version) ++ LF :: chars digest.
Proof. unfold ContractKey, newline. by rewrite !chars_app. Qed.

(** A key built from a canonical identity determines the whole triple: any
    other triple with the same key, canonical or not, is that identity. *)
Lemma ContractKey_exact id version digest id' version' digest' :
  IsCanonicalIdentifier id = true → IsCanonicalSha256 digest = true →
  in_u32 version → in_u32 version' →
  ContractKey id version digest = ContractKey id' version' digest' →
  id = id' ∧ version = version' ∧ digest = digest'.
Proof.
  intros Hid%IsCanonicalIdentifier_no_newline Hdigest%IsCanonicalSha256_no_newline
    [Hv _] [Hv' _] Heq.
  apply (f_equal chars) in Heq. rewrite !chars_ContractKey in Heq.
  pose proof (to_string_no_newline version) as Hs.
  pose proof (to_string_no_newline version') as Hs'.
  assert (newlines (chars id') = 0 ∧ newlines (chars digest') = 0)%nat as [Hid' Hdigest'].
  { pose proof (f_equal newlines Heq) as Hn.
    rewrite !newlines_app, !newlines_LF, !newlines_app, !newlines_LF in Hn.
    apply newlines_0 in Hid, Hdigest, Hs, Hs'. lia. }
  apply newlines_0 in Hid', Hdigest'.
  apply newline_split_inj in Heq as [Hi Heq]; [|done..].
  apply newline_split_inj in Heq as [Hver Hd]; [|done..].
  split_and!; [by apply chars_inj| |by apply chars_inj].
  by apply to_string_inj, chars_inj.
Qed.

(** *** The runtime target *)

Definition component (c : list ascii) : Prop :=
  canonical_component c = true ∧ "/"%char ∉ c.

Fixpoint join_path (components : list (list ascii)) : list ascii :=
  match components with
  | [] => []
  | [c] => c
  | c :: rest => c ++ "/"%char :: join_path rest
  end.

Lemma find_char_Some c l i :
  find_char c l = Some i → l = take i l ++ c :: drop (S i) l ∧ c ∉ take i l.
Proof.
  revert i. induction l as [|d l IH]; intros i Hf; simpl in Hf; [done|].
  case_decide as Hd; [simplify_eq/=; set_solver|].
  apply fmap_Some in Hf as (j & Hj & ->). destruct (IH j Hj) as [Hl Hn].
  simpl. split; [congruence|set_solver].
Qed.

Lemma find_char_None c l : find_char c l = None → c ∉ l.
Proof.
  induction l as [|d l IH]; simpl; [set_solver|].
  case_decide; [done|]. rewrite fmap_None. set_solver.
Qed.

Lemma find_char_app c a b : c ∉ a → find_char c (a ++ c :: b) = Some (length a).
Proof.
  induction a as [|d a IH]; simpl; [by rewrite decide_True|].
  intros Hn. rewrite decide_False by set_solver. rewrite IH by set_solver. done.
Qed.

Lemma find_char_notin c l : c ∉ l → find_char c l = None.
Proof.
  induction l as [|d l IH]; simpl; [done|].
  intros Hn. rewrite decide_False by set_solver. rewrite IH by set_solver. done.
Qed.

Lemma component_nonempty c : component c → c ≠ [].
Proof. intros [Hc _] ->. done. Qed.

Lemma join_path_last comps :
  comps ≠ [] → Forall component comps → join_path comps ≠ [] ∧
  last (join_path comps) ≠ Some "/"%char ∧ head (join_path comps) ≠ Some "/"%char.
Proof.
  intros Hne Hall. induction Hall as [|c comps Hc Hall IH]; [done|].
  pose proof (component_nonempty c Hc) as Hcne. destruct Hc as [_ Hslash].
  destruct comps as [|c' comps].
  - simpl. split_and!; [done| |].
    + intros Hl. apply last_Some_elem_of in Hl. set_solver.
    + destruct c; set_solver.
  - destruct IH as (Hn & Hl & _); [done|].
    change (join_path (c :: c' :: comps)) with (c ++ "/"%char :: join_path (c' :: comps)).
    split_and!.
    + by destruct c.
    + rewrite last_app_cons. destruct (join_path (c' :: comps)); [done|].
      by rewrite last_cons_cons.
    + destruct c; set_solver.
Qed.

#[local] Arguments component_loop : simpl never.

Lemma component_loop_step fuel rest :
  rest ≠ [] →
  component_loop (S fuel) rest =
  if negb (canonical_component (take (default (length rest) (find_char "/" rest)) rest))
  then false
  else match find_char "/" rest with
       | None => true
       | Some index => component_loop fuel (drop (S index) rest)
       end.
Proof. by destruct rest. Qed.

Lemma last_drop_slash rest i :
  last rest ≠ Some "/"%char → rest = take i rest ++ "/"%char :: drop (S i) rest →
  drop (S i) rest ≠ [] ∧ last (drop (S i) rest) ≠ Some "/"%char.
Proof.
  intros Hlast Hsplit. rewrite Hsplit, last_app_cons in Hlast.
  destruct (drop (S i) rest); [done|]. by rewrite last_cons_cons in Hlast.
Qed.

Lemma component_loop_sound fuel rest :
  (length rest ≤ fuel)%nat → rest ≠ [] → last rest ≠ Some "/"%char →
  component_loop fuel rest = true →
  ∃ comps, comps ≠ [] ∧ Forall component comps ∧ rest = join_path comps.
Proof.
  revert rest. induction fuel as [|fuel IH]; intros rest Hlen Hne Hlast.
  { destruct rest; simpl in Hlen; [done|lia]. }
  rewrite component_loop_step by done.
  destruct (find_char "/" rest) as [i|] eqn:Hf; simpl default.
  - apply find_char_Some in Hf as [Hsplit Hnotin].
    destruct (canonical_component (take i rest)) eqn:Hc; [|done]. intros Hloop.
    destruct (last_drop_slash rest i Hlast Hsplit) as [Hdne Hdlast].
    destruct (IH (drop (S i) rest)) as (comps & Hcne & Hall & Hjoin); [|done..|].
    { rewrite length_drop. destruct rest; simpl in *; [done|lia]. }
    exists (take i rest :: comps). split_and!; [done|by constructor|].
    destruct comps as [|c comps]; [done|]. rewrite Hsplit at 1. by rewrite Hjoin.
  - apply find_char_None in Hf. rewrite firstn_all.
    destruct (canonical_component rest) eqn:Hc; [|done].
    exists [rest]. split_and!; [done| |done]. by repeat constructor.
Qed.

Lemma component_loop_complete fuel comps :
  (length (join_path comps) ≤ fuel)%nat → comps ≠ [] → Forall component comps →
  component_loop fuel (join_path comps) = true.
Proof.
  intros Hlen Hne Hall. revert fuel Hlen.
  induction Hall as [|c comps Hc Hall IH]; intros fuel Hlen; [done|].
  destruct (join_path_last (c :: comps)) as [Hjne _]; [done|by constructor|].
  destruct fuel as [|fuel].
  { destruct (join_path (c :: comps)); simpl in *; [done|lia]. }
  rewrite component_loop_step by done. destruct Hc as [Hcan Hslash].
  destruct comps as [|c' comps].
  - simpl. rewrite (find_char_notin _ _ Hslash). simpl default.
    by rewrite firstn_all, Hcan.
  - change (join_path (c :: c' :: comps)) with (c ++ "/"%char :: join_path (c' :: comps)) in *.
    rewrite (find_char_app _ _ _ Hslash). simpl default.
    rewrite take_app_length, Hcan. cbn [negb].
    rewrite (cons_middle "/"%char c), app_assoc, drop_app_length'
      by (rewrite length_app; simpl; lia).
    apply IH; [done|]. rewrite length_app in Hlen. cbn [length] in Hlen. lia.
Qed.

Lemma ValidateSocketPath_spec path :
  ValidateSocketPath path = Accepted ↔
  ∃ comps, comps ≠ [] ∧ Forall component comps ∧ path = "/"%char :: join_path comps.
Proof.
  unfold ValidateSocketPath. split.
  - destruct (_ || _ || _) eqn:Hg; [done|]. guards.
    destruct path as [|c [|d path]]; simpl in *; [done|lia|]. simplify_eq.
    case_match eqn:Hloop; [|done]. intros _.
    apply (component_loop_sound (S (S (length path)))) in Hloop as (comps & ? & ? & ->);
      [by eauto|simpl; lia|done|done].
  - intros (comps & Hne & Hall & ->).
    destruct (join_path_last comps Hne Hall) as (Hn & Hl & _).
    rewrite (last_cons "/"%char (join_path comps)).
    destruct (last (join_path comps)) as [b|] eqn:Hb; [|by apply last_None in Hb].
    rewrite (bool_decide_eq_true_2 (head _ = _)) by done.
    rewrite (bool_decide_eq_false_2 (Some b = _)) by congruence.
    rewrite (proj2 (Z.leb_gt _ _)) by (destruct (join_path comps); simpl in *; done || lia).
    simpl orb. cbn [drop]. rewrite drop_0, component_loop_complete; [done|simpl; lia|done..].
Qed.

Lemma scheme_split scheme target :
  take (length (chars scheme)) (chars target) = chars scheme →
  ValidateSocketPath (drop (length (chars scheme)) (chars target)) = Accepted ↔
  ∃ comps, comps ≠ [] ∧ Forall component comps ∧
    chars target = chars scheme ++ "/"%char :: join_path comps.
Proof.
  intros Htake. rewrite ValidateSocketPath_spec.
  pose proof (take_drop (length (chars scheme)) (chars target)) as Hsplit.
  rewrite Htake in Hsplit. split; intros (comps & Hne & Hall & Heq); exists comps.
  - by rewrite <-Hsplit, Heq.
  - split_and!; [done..|]. rewrite <-Hsplit in Heq. by apply (inj (app (chars scheme))) in Heq.
Qed.

(** The scheme the client accepts; [unix://] is tried before [unix:]. *)
Definition unix_scheme (scheme : string) : Prop := scheme = "unix://" ∨ scheme = "unix:".

(** C29: a runtime target is accepted exactly when it is a Unix-socket URL of a
    canonical absolute path: [unix://] or [unix:], then [/]-separated components
    none of which is empty, [.] or [..].  TCP, DNS and relative targets are
    refused. *)
Theorem ValidateRuntimeTarget_spec target :
  ValidateRuntimeTarget target = Accepted ↔
  ∃ scheme comps, unix_scheme scheme ∧ comps ≠ [] ∧ Forall component comps ∧
    chars target = chars scheme ++ "/"%char :: join_path comps.
Proof.
  unfold ValidateRuntimeTarget, unix_scheme.
  case_bool_decide as H7; [|case_bool_decide as H5].
  - rewrite (scheme_split "unix://" target H7). split; [intros (comps & ?); by eauto 6|].
    intros (scheme & comps & [-> | ->] & Hne & Hall & Heq); [by eauto|].
    rewrite Heq in H7. destruct (join_path_last comps Hne Hall) as (Hn & _ & Hh).
    destruct (join_path comps); simplify_eq/=.
  - rewrite (scheme_split "unix:" target H5). split; [intros (comps & ?); by eauto 6|].
    intros (scheme & comps & [-> | ->] & Hne & Hall & Heq); [|by eauto].
    by rewrite Heq in H7.
  - split; [done|]. intros (scheme & comps & [-> | ->] & _ & _ & Heq); rewrite Heq in *; done.
Qed.
