(* ===== verification/Digest.v ===== *)
(** * SHA-256 and the terminal digest

    [src/src/digest.cpp]: the incremental [Sha256] class, and the text it is
    rendered to by [TerminalDigest].  The class is proved equivalent to a
    one-shot definition of SHA-256 (pad the whole message, fold the compression
    function over its 64-byte blocks), for every way of cutting the message
    into [Update] calls. *)

From S2P Require Import Prelude Text.

(** ** Words *)

Definition kRoundConstants : list Z := [
  0x428A2F98; 0x71374491; 0xB5C0FBCF; 0xE9B5DBA5; 0x3956C25B; 0x59F111F1;
  0x923F82A4; 0xAB1C5ED5; 0xD807AA98; 0x12835B01; 0x243185BE; 0x550C7DC3;
  0x72BE5D74; 0x80DEB1FE; 0x9BDC06A7; 0xC19BF174; 0xE49B69C1; 0xEFBE4786;
  0x0FC19DC6; 0x240CA1CC; 0x2DE92C6F; 0x4A7484AA; 0x5CB0A9DC; 0x76F988DA;
  0x983E5152; 0xA831C66D; 0xB00327C8; 0xBF597FC7; 0xC6E00BF3; 0xD5A79147;
  0x06CA6351; 0x14292967; 0x27B70A85; 0x2E1B2138; 0x4D2C6DFC; 0x53380D13;
  0x650A7354; 0x766A0ABB; 0x81C2C92E; 0x92722C85; 0xA2BFE8A1; 0xA81A664B;
  0xC24B8B70; 0xC76C51A3; 0xD192E819; 0xD6990624; 0xF40E3585; 0x106AA070;
  0x19A4C116; 0x1E376C08; 0x2748774C; 0x34B0BCB5; 0x391C0CB3; 0x4ED8AA4A;
  0x5B9CCA4F; 0x682E6FF3; 0x748F82EE; 0x78A5636F; 0x84C87814; 0x8CC70208;
  0x90BEFFFA; 0xA4506CEB; 0xBEF9A3F7; 0xC67178F2 ].

Definition RotateRight (value shift : Z) : Z :=
  Z.lor (Z.shiftr value shift) (u32 (Z.shiftl value (32 - shift))).

Definition byte_at (block : list Z) (index : nat) : Z := nth index block 0.

(** Big-endian word [index] of a block. *)
Definition load_word (block : list Z) (index : nat) : Z :=
  Z.lor (Z.lor (Z.lor (Z.shiftl (byte_at block (index * 4)) 24)
                      (Z.shiftl (byte_at block (index * 4 + 1)) 16))
               (Z.shiftl (byte_at block (index * 4 + 2)) 8))
        (byte_at block (index * 4 + 3)).

(** The second loop of [Transform]: words 16 to 63 of the schedule, appended to
    the words before them. *)
Fixpoint extend_words (n : nat) (words : list Z) : list Z :=
  match n with
  | O => words
  | S n =>
      let index := length words in
      let w15 := nth (index - 15) words 0 in
      let w2 := nth (index - 2) words 0 in
      let s0 := Z.lxor (Z.lxor (RotateRight w15 7) (RotateRight w15 18)) (Z.shiftr w15 3) in
      let s1 := Z.lxor (Z.lxor (RotateRight w2 17) (RotateRight w2 19)) (Z.shiftr w2 10) in
      let word := u32 (nth (index - 16) words 0 + s0 + nth (index - 7) words 0 + s1) in
      extend_words n (words ++ [word])
  end.

Definition message_schedule (block : list Z) : list Z :=
  extend_words 48 (map (load_word block) (seq 0 16)).

(** The eight working variables, and the [state_] array. *)
Record Registers : Type := mkRegisters {
  ra : Z; rb : Z; rc : Z; rd : Z; re : Z; rf : Z; rg : Z; rh : Z
}.

#[export] Instance Registers_eq_dec : EqDecision Registers.
Proof. solve_decision. Defined.

(** One iteration of the compression loop. *)
Definition sha_round (r : Registers) (k w : Z) : Registers :=
  let upper_sigma1 :=
    Z.lxor (Z.lxor (RotateRight (re r) 6) (RotateRight (re r) 11)) (RotateRight (re r) 25) in
  let choice := Z.lxor (Z.land (re r) (rf r)) (Z.land (u32 (Z.lnot (re r))) (rg r)) in
  let temporary1 := u32 (rh r + upper_sigma1 + choice + k + w) in
  let upper_sigma0 :=
    Z.lxor (Z.lxor (RotateRight (ra r) 2) (RotateRight (ra r) 13)) (RotateRight (ra r) 22) in
  let majority :=
    Z.lxor (Z.lxor (Z.land (ra r) (rb r)) (Z.land (ra r) (rc r))) (Z.land (rb r) (rc r)) in
  let temporary2 := u32 (upper_sigma0 + majority) in
  mkRegisters (u32 (temporary1 + temporary2)) (ra r) (rb r) (rc r)
              (u32 (rd r + temporary1)) (re r) (rf r) (rg r).

Fixpoint sha_rounds (ks ws : list Z) (r : Registers) : Registers :=
  match ks, ws with
  | k :: ks, w :: ws => sha_rounds ks ws (sha_round r k w)
  | _, _ => r
  end.

Definition add_registers (x y : Registers) : Registers :=
  mkRegisters (u32 (ra x + ra y)) (u32 (rb x + rb y)) (u32 (rc x + rc y))
              (u32 (rd x + rd y)) (u32 (re x + re y)) (u32 (rf x + rf y))
              (u32 (rg x + rg y)) (u32 (rh x + rh y)).

Definition Transform (state : Registers) (block : list Z) : Registers :=
  add_registers state (sha_rounds kRoundConstants (message_schedule block) state).

(** ** The incremental class *)

Record Sha256 : Type := mkSha256 {
  state_ : Registers;
  block_ : list Z;
  buffered_bytes_ : nat;
  total_bytes_ : Z
}.

#[export] Instance Sha256_eta : Eta Sha256 :=
  λ h, mkSha256 (state_ h) (block_ h) (buffered_bytes_ h) (total_bytes_ h).

Definition initial_state : Registers :=
  mkRegisters 0x6a09e667 0xbb67ae85 0x3c6ef372 0xa54ff53a
              0x510e527f 0x9b05688c 0x1f83d9ab 0x5be0cd19.

Definition Sha256_new : Sha256 := mkSha256 initial_state (replicate 64 0) 0 0.

(** [memcpy(block_.data() + offset, bytes, n)]. *)
Definition copy_into (block : list Z) (offset : nat) (bytes : list Z) : list Z :=
  take offset block ++ bytes ++ drop (offset + length bytes) block.

(** The body of the [while (length != 0)] loop of [Update]: the state after it
    and the number of bytes it copied. *)
Definition update_step (h : Sha256) (bytes : list Z) : Sha256 * nat :=
  let copy := Nat.min (length bytes) (64 - buffered_bytes_ h) in
  let block := copy_into (block_ h) (buffered_bytes_ h) (take copy bytes) in
  let buffered := (buffered_bytes_ h + copy)%nat in
  let h := h <| block_ := block |> <| buffered_bytes_ := buffered |> in
  (if (buffered =? 64)%nat
   then h <| state_ := Transform (state_ h) block |> <| buffered_bytes_ := 0%nat |>
   else h, copy).

(** The loop; every iteration copies at least one byte, so [length input]
    iterations are enough. *)
Fixpoint update_loop (fuel : nat) (h : Sha256) (bytes : list Z) : Sha256 :=
  match fuel, bytes with
  | S fuel, _ :: _ =>
      let '(h, copy) := update_step h bytes in update_loop fuel h (drop copy bytes)
  | _, _ => h
  end.

Definition Update (h : Sha256) (input : list Z) : Sha256 :=
  update_loop (length input)
    (h <| total_bytes_ := u64 (total_bytes_ h + Z.of_nat (length input)) |>) input.

(** [std::fill(block_.begin() + from, block_.begin() + to, 0)]. *)
Definition fill_zero (block : list Z) (from to : nat) : list Z :=
  copy_into block from (replicate (to - from) 0).

(** The eight big-endian bytes the length loop of [Finish] writes at 56..63. *)
Definition length_bytes (bit_length : Z) : list Z :=
  map (λ index, (Z.shiftr bit_length (Z.of_nat index * 8)) mod 2 ^ 8) (rev (seq 0 8)).

Definition register_list (r : Registers) : list Z :=
  [ra r; rb r; rc r; rd r; re r; rf r; rg r; rh r].

Definition word_bytes (word : Z) : list Z :=
  map (λ byte, (Z.shiftr word ((3 - Z.of_nat byte) * 8)) mod 2 ^ 8) (seq 0 4).

Definition Finish (h : Sha256) : list Z :=
  let bit_length := u64 (total_bytes_ h * 8) in
  let block := copy_into (block_ h) (buffered_bytes_ h) [0x80] in
  let buffered := S (buffered_bytes_ h) in
  let '(state, block, buffered) :=
    if (56 <? buffered)%nat
    then let block := fill_zero block buffered 64 in
         (Transform (state_ h) block, block, 0%nat)
    else (state_ h, block, buffered) in
  let block := fill_zero block buffered 56 in
  let block := copy_into block 56 (length_bytes bit_length) in
  concat (map word_bytes (register_list (Transform state block))).

(** ** [internal::TerminalDigest] *)

Definition string_bytes (s : string) : list Z :=
  map (λ c, Z.of_N (N_of_ascii c)) (chars s).

(** [std::hex << std::setfill('0') << std::setw(2)]. *)
Definition hex_digit (d : Z) : ascii :=
  nth (Z.to_nat d) (chars "0123456789abcdef") "0"%char.

Definition hex_byte (byte : Z) : list ascii := [hex_digit (byte / 16); hex_digit (byte mod 16)].

Definition digest_text (bytes : list Z) : string :=
  "sha256:" +:+ String.string_of_list_ascii (concat (map hex_byte bytes)).

(** [type_name] is the full name of the message's descriptor and [encoded] its
    deterministic encoding, [None] when the message could not be encoded. *)
Definition TerminalDigest (type_name : string) (encoded : option string) : option string :=
  match encoded with
  | None => None
  | Some encoded =>
      let hash := Update Sha256_new (string_bytes type_name) in
      let hash := Update hash [0] in
      let hash := Update hash (string_bytes encoded) in
      Some (digest_text (Finish hash))
  end.

(** ** One-shot SHA-256 *)

(** Cut a message into 64-byte blocks. *)
Fixpoint blocks (fuel : nat) (l : list Z) : list (list Z) :=
  match fuel, l with
  | S fuel, _ :: _ => take 64 l :: blocks fuel (drop 64 l)
  | _, _ => []
  end.

(** FIPS 180-4, 5.1.1: one bit, zeros up to 448 modulo 512, the 64-bit length. *)
Definition pad (message : list Z) : list Z :=
  message ++ [0x80] ++ replicate (Z.to_nat ((55 - Z.of_nat (length message)) mod 64)) 0 ++
  length_bytes (u64 (Z.of_nat (length message) * 8)).

(** FIPS 180-4, 6.2.2: fold the compression function over the padded blocks. *)
Definition sha256 (message : list Z) : list Z :=
  let padded := pad message in
  concat (map word_bytes (register_list
    (foldl Transform initial_state (blocks (length padded) padded)))).

(** ** The incremental class against the one-shot definition *)

Section incremental.
Implicit Types (h : Sha256) (bs : list (list Z)) (rest bytes message : list Z).

Definition block64 (b : list Z) : Prop := length b = 64%nat.

(** The class has absorbed [message]: all its full blocks are in [state_], the
    rest is at the front of [block_]. *)
Definition buffers h message : Prop :=
  ∃ bs rest, message = concat bs ++ rest ∧ Forall block64 bs ∧ (length rest < 64)%nat ∧
    state_ h = foldl Transform initial_state bs ∧
    block64 (block_ h) ∧ buffered_bytes_ h = length rest ∧
    take (length rest) (block_ h) = rest.

Definition absorbed h message : Prop :=
  buffers h message ∧ total_bytes_ h = u64 (Z.of_nat (length message)).

Lemma copy_into_length block offset bytes :
  (offset + length bytes ≤ length block)%nat →
  length (copy_into block offset bytes) = length block.
Proof.
  intros. unfold copy_into. rewrite !length_app, length_take, length_drop. lia.
Qed.

Lemma copy_into_prefix block rest bytes :
  (length rest + length bytes ≤ length block)%nat → take (length rest) block = rest →
  take (length (rest ++ bytes)) (copy_into block (length rest) bytes) = rest ++ bytes.
Proof.
  intros Hlen Htake. unfold copy_into. rewrite Htake, app_assoc.
  by rewrite take_app_length.
Qed.

Lemma copy_into_full block rest bytes :
  length block = (length rest + length bytes)%nat → take (length rest) block = rest →
  copy_into block (length rest) bytes = rest ++ bytes.
Proof.
  intros Hlen Htake. unfold copy_into. rewrite Htake, drop_ge by lia.
  by rewrite app_nil_r.
Qed.

Lemma buffers_init : buffers Sha256_new [].
Proof. exists [], []. split_and!; simpl; try done; lia. Qed.

Lemma update_step_buffers h bytes message :
  bytes ≠ [] → buffers h message →
  let '(h', copy) := update_step h bytes in
  buffers h' (message ++ take copy bytes) ∧ (0 < copy)%nat ∧ total_bytes_ h' = total_bytes_ h.
Proof.
  intros Hne (bs & rest & -> & Hbs & Hrest & Hst & Hblk & Hbuf & Htake).
  assert (0 < length bytes)%nat as Hpos by (destruct bytes; simpl in *; [done|lia]).
  unfold update_step. rewrite Hbuf. set (copy := Nat.min _ _).
  assert (length (take copy bytes) = copy) as Hcopy by (rewrite length_take; lia).
  unfold block64 in *.
  split_and!; [|lia|by destruct (_ =? 64)%nat].
  destruct (_ =? 64)%nat eqn:Hfull.
  - apply Nat.eqb_eq in Hfull. exists (bs ++ [rest ++ take copy bytes]), []. simpl.
    rewrite concat_app. simpl. rewrite !app_nil_r, app_assoc, foldl_app, Hst. simpl.
    rewrite copy_into_full by (done || lia).
    split_and!; try done; [| |unfold block64; rewrite length_app]; try lia.
    apply Forall_app. split; [done|]. constructor; [|done].
    unfold block64. rewrite length_app. lia.
  - apply Nat.eqb_neq in Hfull. exists bs, (rest ++ take copy bytes). simpl.
    rewrite copy_into_prefix by (done || lia).
    rewrite !length_app, Hcopy, <-!app_assoc.
    split_and!; try done; [lia|]. unfold block64. rewrite copy_into_length; lia.
Qed.

Lemma update_loop_buffers fuel h bytes message :
  (length bytes ≤ fuel)%nat → buffers h message →
  buffers (update_loop fuel h bytes) (message ++ bytes) ∧
  total_bytes_ (update_loop fuel h bytes) = total_bytes_ h.
Proof.
  revert h bytes message. induction fuel as [|fuel IH]; intros h bytes message Hfuel Hb.
  { destruct bytes; simpl in *; [by rewrite app_nil_r|lia]. }
  destruct bytes as [|b bytes]; [by rewrite app_nil_r|]. cbn [update_loop].
  pose proof (update_step_buffers h (b :: bytes) message ltac:(done) Hb) as Hstep.
  destruct (update_step h (b :: bytes)) as [h' copy]. destruct Hstep as (Hb' & Hc & <-).
  rewrite <-(take_drop copy (b :: bytes)) at 2. rewrite app_assoc.
  apply IH; [|done]. rewrite length_drop. lia.
Qed.

Lemma Update_absorbed h message input :
  absorbed h message → absorbed (Update h input) (message ++ input).
Proof.
  intros [Hb Ht]. unfold Update, absorbed.
  destruct (update_loop_buffers (length input)
    (h <| total_bytes_ := u64 (total_bytes_ h + Z.of_nat (length input)) |>) input message)
    as [Hb' ->]; [done|exact Hb|].
  split; [done|]. simpl. rewrite Ht, length_app, Nat2Z.inj_add. unfold u64.
  by rewrite Zplus_mod_idemp_l.
Qed.

Lemma blocks_concat fuel bs :
  Forall block64 bs → (length bs ≤ fuel)%nat → blocks fuel (concat bs) = bs.
Proof.
  intros Hbs. revert fuel. induction Hbs as [|b bs Hb Hbs IH]; intros fuel Hfuel.
  { by destruct fuel. }
  destruct fuel as [|fuel]; simpl in Hfuel; [lia|].
  unfold block64 in Hb. simpl concat. destruct b as [|x b]; [done|].
  change (blocks (S fuel) ((x :: b) ++ concat bs)) with
    (take 64 ((x :: b) ++ concat bs) :: blocks fuel (drop 64 ((x :: b) ++ concat bs))).
  rewrite take_app_length', drop_app_length' by done. rewrite IH by lia. done.
Qed.

Lemma length_concat_blocks bs : Forall block64 bs → length (concat bs) = (64 * length bs)%nat.
Proof.
  induction 1 as [|b bs Hb _ IH]; [done|]. simpl concat. unfold block64 in Hb.
  rewrite length_app, IH, Hb. simpl. lia.
Qed.

(** The padded tail: one block when the length still fits in the last one, two
    otherwise. *)
Definition padded_tail rest (bits : Z) : list (list Z) :=
  if (56 <? S (length rest))%nat
  then [rest ++ [0x80] ++ replicate (63 - length rest) 0; replicate 56 0 ++ length_bytes bits]
  else [rest ++ [0x80] ++ replicate (55 - length rest) 0 ++ length_bytes bits].

Lemma pad_blocks bs rest :
  Forall block64 bs → (length rest < 64)%nat →
  blocks (length (pad (concat bs ++ rest))) (pad (concat bs ++ rest)) =
  bs ++ padded_tail rest (u64 (Z.of_nat (length (concat bs ++ rest)) * 8)).
Proof.
  intros Hbs Hrest. set (bits := u64 _).
  assert (Forall block64 (padded_tail rest bits)) as Htail.
  { unfold padded_tail, block64. destruct (56 <? _)%nat eqn:Hlt;
      [apply Nat.ltb_lt in Hlt|apply Nat.ltb_ge in Hlt];
      repeat constructor; rewrite !length_app, length_replicate; simpl; lia. }
  assert (pad (concat bs ++ rest) = concat (bs ++ padded_tail rest bits)) as ->.
  { unfold pad. fold bits. rewrite concat_app, <-app_assoc. f_equal.
    rewrite length_app, length_concat_blocks by done.
    replace ((55 - Z.of_nat (64 * length bs + length rest)) mod 64)
      with ((55 - Z.of_nat (length rest)) mod 64) by
      (rewrite <-(Z_mod_plus_full _ (- Z.of_nat (length bs)) 64); f_equal; lia).
    unfold padded_tail. destruct (56 <? _)%nat eqn:Hlt;
      [apply Nat.ltb_lt in Hlt|apply Nat.ltb_ge in Hlt].
    - rewrite <-(Z_mod_plus_full _ 1), Z.mod_small by lia. cbn [concat].
      rewrite app_nil_r, <-!app_assoc. do 2 f_equal.
      rewrite (app_assoc (replicate _ _)), <-replicate_add. do 2 f_equal. lia.
    - rewrite Z.mod_small by lia. cbn [concat]. rewrite app_nil_r.
      do 4 f_equal. lia. }
  apply blocks_concat; [by apply Forall_app|].
  rewrite length_concat_blocks by (by apply Forall_app). lia.
Qed.

(** A 64-byte block whose first bytes are [prefix]. *)
Definition prefixed (block prefix : list Z) : Prop :=
  block64 block ∧ take (length prefix) block = prefix.

Lemma prefixed_copy block prefix bytes offset :
  prefixed block prefix → offset = length prefix →
  (length prefix + length bytes ≤ 64)%nat →
  prefixed (copy_into block offset bytes) (prefix ++ bytes).
Proof.
  intros [Hlen Htake] -> ?. unfold block64 in *. split.
  - unfold block64. rewrite copy_into_length; lia.
  - apply copy_into_prefix; [lia|done].
Qed.

Lemma prefixed_full block prefix :
  prefixed block prefix → length prefix = 64%nat → block = prefix.
Proof.
  intros [Hlen Htake] Hp. unfold block64 in Hlen.
  rewrite <-Htake. by rewrite Hp, <-Hlen, firstn_all.
Qed.

Lemma finish_blocks h bs rest bits :
  state_ h = foldl Transform initial_state bs → prefixed (block_ h) rest →
  buffered_bytes_ h = length rest → (length rest < 64)%nat →
  bits = u64 (total_bytes_ h * 8) →
  Finish h = concat (map word_bytes (register_list
    (foldl Transform initial_state (bs ++ padded_tail rest bits)))).
Proof.
  intros Hst Hp Hbuf Hrest ->. unfold Finish, padded_tail, fill_zero. rewrite Hbuf.
  assert (prefixed (copy_into (block_ h) (length rest) [0x80]) (rest ++ [0x80])) as Hp1
    by (apply prefixed_copy; [done..|simpl; lia]).
  set (bits := u64 _). assert (length (length_bytes bits) = 8%nat) as Hbits by done.
  destruct (56 <? _)%nat eqn:Hlt; [apply Nat.ltb_lt in Hlt|apply Nat.ltb_ge in Hlt].
  - rewrite (prefixed_full (copy_into (copy_into _ _ _) _ _)
      ((rest ++ [0x80]) ++ replicate (63 - length rest) 0)); cycle 1.
    { replace (64 - S (length rest))%nat with (63 - length rest)%nat by lia.
      apply prefixed_copy; rewrite ?length_app, ?length_replicate; simpl; [done|lia..]. }
    { rewrite !length_app, length_replicate. simpl. lia. }
    rewrite (prefixed_full (copy_into (copy_into _ _ _) _ _)
      (([] ++ replicate 56 0) ++ length_bytes bits)); [|..|done].
    + rewrite foldl_app, <-Hst. simpl foldl. by rewrite <-app_assoc.
    + apply prefixed_copy; [|done|done]. apply prefixed_copy; [|done|simpl; lia].
      split; [|done]. unfold block64. rewrite !length_app, length_replicate. simpl. lia.
  - rewrite (prefixed_full (copy_into (copy_into _ _ _) _ _)
      (((rest ++ [0x80]) ++ replicate (55 - length rest) 0) ++ length_bytes bits)); cycle 1.
    { replace (56 - S (length rest))%nat with (55 - length rest)%nat by lia.
      apply prefixed_copy; rewrite ?Hbits, ?length_app, ?length_replicate; simpl; [|lia..].
      apply prefixed_copy; rewrite ?length_app, ?length_replicate; simpl; [done|lia..]. }
    { rewrite !length_app, Hbits, length_replicate. simpl. lia. }
    rewrite foldl_app, <-Hst. by rewrite <-!app_assoc.
Qed.

Lemma Finish_sha256 h message : absorbed h message → Finish h = sha256 message.
Proof.
  intros [(bs & rest & -> & Hbs & Hrest & Hst & Hblk & Hbuf & Htake) Ht].
  unfold sha256. rewrite pad_blocks by done.
  apply finish_blocks; [done|done|done|done|].
  rewrite Ht. unfold u64. by rewrite Zmult_mod_idemp_l.
Qed.

Lemma absorbed_init : absorbed Sha256_new [].
Proof. split; [apply buffers_init|done]. Qed.

Lemma absorbed_updates h message chunks :
  absorbed h message → absorbed (foldl Update h chunks) (message ++ concat chunks).
Proof.
  revert h message. induction chunks as [|c chunks IH]; intros h message Hm; simpl.
  - by rewrite app_nil_r.
  - rewrite app_assoc. apply IH. by apply Update_absorbed.
Qed.
End incremental.

(** C30: the incremental class computes SHA-256: however the message is cut
    into [Update] calls, [Finish] returns the one-shot digest (padding, blocks,
    64-bit length modulo 2^64) of the concatenation. *)
Theorem Sha256_incremental (chunks : list (list Z)) :
  Finish (foldl Update Sha256_new chunks) = sha256 (concat chunks).
Proof.
  apply Finish_sha256. exact (absorbed_updates _ [] chunks absorbed_init).
Qed.

(** The FIPS 180-4 example vectors. *)
Example sha256_abc :
  digest_text (sha256 (string_bytes "abc")) =
  "sha256:ba7816bf8f01cfea414140de5dae2223b00361a396177a9cb410ff61f20015ad".
Proof. vm_compute. reflexivity. Qed.

Example sha256_empty :
  digest_text (sha256 []) =
  "sha256:e3b0c44298fc1c149afbf4c8996fb92427ae41e4649b934ca495991b7852b855".
Proof. vm_compute. reflexivity. Qed.

Example sha256_two_blocks :
  digest_text (sha256 (string_bytes
    "abcdbcdecdefdefgefghfghighijhijkijkljklmklmnlmnomnopnopq")) =
  "sha256:248d6a61d20638b8e5c026930c3e6039a33ce45964ff2167f6ecedd419db06c1".
Proof. vm_compute. reflexivity. Qed.

(** ** The digest text *)

Lemma hex_byte_lower_hex b : 0 ≤ b < 256 → Forall (λ c, is_lower_hex c = true) (hex_byte b).
Proof.
  intros Hb. unfold hex_byte, hex_digit.
  assert (∀ d, 0 ≤ d < 16 →
    is_lower_hex (nth (Z.to_nat d) (chars "0123456789abcdef") "0"%char) = true) as Hd.
  { intros d Hd. assert (Z.to_nat d < 16)%nat as Hn by lia. revert Hn.
    generalize (Z.to_nat d) as n. intros n Hn. do 16 (destruct n as [|n]; [done|]). lia. }
  repeat constructor; apply Hd.
  - split; [apply Z.div_pos; lia|apply Z.div_lt_upper_bound; lia].
  - apply Z.mod_pos_bound. lia.
Qed.

Lemma word_bytes_range w : Forall (λ b, 0 ≤ b < 256) (word_bytes w).
Proof. repeat constructor; apply Z.mod_pos_bound; lia. Qed.

Lemma digest_text_canonical r :
  IsCanonicalSha256 (digest_text (concat (map word_bytes (register_list r)))) = true.
Proof.
  apply IsCanonicalSha256_spec. eexists. split; [|split].
  - unfold digest_text. rewrite chars_app, chars_of_list. reflexivity.
  - done.
  - assert (Forall (λ b, 0 ≤ b < 256) (concat (map word_bytes (register_list r)))) as Hall.
    { apply Forall_concat, Forall_map, Forall_true. intros w. apply word_bytes_range. }
    apply Forall_concat, Forall_map. eapply Forall_impl; [exact Hall|].
    intros b Hb. by apply hex_byte_lower_hex.
Qed.

(** What is hashed: the type name, one NUL byte, the deterministic encoding. *)
Definition terminal_preimage (type_name encoded : string) : list Z :=
  string_bytes type_name ++ [0] ++ string_bytes encoded.

Lemma TerminalDigest_value type_name encoded :
  TerminalDigest type_name (Some encoded) =
  Some (digest_text (sha256 (terminal_preimage type_name encoded))).
Proof.
  unfold TerminalDigest. do 2 f_equal. apply Finish_sha256.
  pose proof (absorbed_updates _ [] [string_bytes type_name; [0]; string_bytes encoded]
    absorbed_init) as H. simpl in H. by rewrite app_nil_r in H.
Qed.

Lemma TerminalDigest_canonical type_name encoded digest :
  TerminalDigest type_name encoded = Some digest → IsCanonicalSha256 digest = true.
Proof.
  destruct encoded as [encoded|]; [|done]. rewrite TerminalDigest_value.
  intros [= <-]. apply digest_text_canonical.
Qed.

Lemma string_bytes_inj s t : string_bytes s = string_bytes t → s = t.
Proof.
  unfold string_bytes. intros Heq. apply chars_inj.
  apply (list_fmap_eq_inj (λ c, Z.of_N (N_of_ascii c))) in Heq; [done|].
  intros c d Hcd. apply N2Z.inj in Hcd.
  rewrite <-(Ascii.ascii_N_embedding c), <-(Ascii.ascii_N_embedding d). by rewrite Hcd.
Qed.

Lemma string_bytes_no_zero s : NUL ∉ chars s → 0 ∉ string_bytes s.
Proof.
  unfold string_bytes. intros Hn (c & Hc & Hin)%list_elem_of_fmap. apply Hn.
  assert (c = NUL) as <-; [|done].
  rewrite <-(Ascii.ascii_N_embedding c), <-(Ascii.ascii_N_embedding NUL). f_equal.
  change (N_of_ascii NUL) with 0%N. lia.
Qed.

Lemma terminal_preimage_inj type_name encoded type_name' encoded' :
  NUL ∉ chars type_name → NUL ∉ chars type_name' →
  terminal_preimage type_name encoded = terminal_preimage type_name' encoded' →
  type_name = type_name' ∧ encoded = encoded'.
Proof.
  intros Ht%string_bytes_no_zero Ht'%string_bytes_no_zero Heq.
  enough (string_bytes type_name = string_bytes type_name' ∧
          string_bytes encoded = string_bytes encoded') as [??]
    by (split; by apply string_bytes_inj).
  unfold terminal_preimage in Heq. simpl in Heq. revert Heq Ht Ht'.
  generalize (string_bytes type_name) as a, (string_bytes type_name') as a'.
  induction a as [|x a IH]; intros [|y a'] Heq Ht Ht'; simplify_eq/=;
    [done|set_solver|set_solver|].
  destruct (IH a') as [-> ->]; [done|set_solver..|done].
Qed.

(** C31: the terminal digest is SHA-256 over the type name, one NUL byte and the
    encoding, rendered as canonical [sha256:<lowercase-hex>] text; and the
    hashed bytes determine both the message type and its encoding, so terminals
    of different types never share a preimage. *)
Theorem TerminalDigest_binds type_name encoded :
  NUL ∉ chars type_name →
  ∃ digest, TerminalDigest type_name (Some encoded) = Some digest ∧
    digest = digest_text (sha256 (terminal_preimage type_name encoded)) ∧
    IsCanonicalSha256 digest = true ∧
    ∀ type_name' encoded', NUL ∉ chars type_name' →
      terminal_preimage type_name' encoded' = terminal_preimage type_name encoded →
      type_name' = type_name ∧ encoded' = encoded.
Proof.
  intros Hnul. eexists. split; [apply TerminalDigest_value|]. split; [done|]. split.
  - eapply TerminalDigest_canonical, TerminalDigest_value.
  - intros. by apply terminal_preimage_inj.
Qed.

Lemma TerminalDigest_binds_witness :
  ∃ digest, TerminalDigest "xgc.adapter.v1.SourceClose" (Some "ab") = Some digest ∧
    digest = digest_text (sha256 (terminal_preimage "xgc.adapter.v1.SourceClose" "ab")) ∧
    IsCanonicalSha256 digest = true ∧
    ∀ type_name' encoded', NUL ∉ chars type_name' →
      terminal_preimage type_name' encoded' =
      terminal_preimage "xgc.adapter.v1.SourceClose" "ab" →
      type_name' = "xgc.adapter.v1.SourceClose" ∧ encoded' = "ab".
Proof. apply TerminalDigest_binds. vm_compute. set_solver. Defined.
