(* ===== verification/Messages.v ===== *)
(** * Protocol messages and their validators

    The protobuf messages of [xgc.adapter.v1] and [xgc.v1] are generated code
    outside the repository: each is a record with the fields the client reads or
    writes (an [option] where the client distinguishes presence), and what the
    generated code and its library compute (sizes, encodings, JSON parsing,
    message comparison, the numbers of the enumerations) is the parameter
    [Protobuf].  The functions over messages are those of
    [src/src/internal.hpp], [src/src/client.cpp] and the anonymous namespaces of
    [spec.cpp], [dispatch.cpp] and [bootstrap.cpp]. *)

From S2P Require Import Prelude Text.

(** ** Enumerations *)

Inductive ErrorClass : Type :=
| ERROR_CLASS_UNSPECIFIED
| ERROR_CLASS_PERMANENT
| ERROR_CLASS_TRANSIENT
| ERROR_CLASS_REJECTED
| ERROR_CLASS_DEADLINE
| ERROR_CLASS_CANCELLED
| ERROR_CLASS_UNCERTAIN
| ERROR_CLASS_RESOURCE_EXHAUSTED
| ERROR_CLASS_unknown (number : Z).

Inductive OperationPhase : Type :=
| OPERATION_PHASE_ACCEPTED
| OPERATION_PHASE_STARTED
| OPERATION_PHASE_SUCCEEDED
| OPERATION_PHASE_REJECTED
| OPERATION_PHASE_FAILED
| OPERATION_PHASE_EXPIRED
| OPERATION_PHASE_CANCELLED
| OPERATION_PHASE_UNCERTAIN
| OPERATION_PHASE_unknown (number : Z).

Inductive InteractionMode : Type :=
| INTERACTION_MODE_UNARY
| INTERACTION_MODE_OPERATION
| INTERACTION_MODE_STREAM_SOURCE
| INTERACTION_MODE_unknown (number : Z).

Inductive PayloadEncoding : Type :=
| PAYLOAD_ENCODING_PROTOBUF
| PAYLOAD_ENCODING_JSON
| PAYLOAD_ENCODING_BYTES
| PAYLOAD_ENCODING_unknown (number : Z).

Inductive CapabilityState : Type :=
| CAPABILITY_STATE_DISABLED
| CAPABILITY_STATE_CONFIGURING
| CAPABILITY_STATE_READY
| CAPABILITY_STATE_FAILED.

#[global] Instance ErrorClass_eq_dec : EqDecision ErrorClass.
Proof. solve_decision. Defined.
#[global] Instance OperationPhase_eq_dec : EqDecision OperationPhase.
Proof. solve_decision. Defined.
#[global] Instance InteractionMode_eq_dec : EqDecision InteractionMode.
Proof. solve_decision. Defined.
#[global] Instance PayloadEncoding_eq_dec : EqDecision PayloadEncoding.
Proof. solve_decision. Defined.
#[global] Instance CapabilityState_eq_dec : EqDecision CapabilityState.
Proof. solve_decision. Defined.

(** ** Messages *)

Module SchemaReference.
Record t : Type := make {
  message_id : Z; type_name : string; schema_version : Z; schema_fingerprint : Z
}.
Definition empty : t := make 0 "" 0 0.
#[global] Instance t_eq_dec : EqDecision t.
Proof. solve_decision. Defined.
End SchemaReference.

Module Payload.
Record t : Type := make {
  schema_ : option SchemaReference.t; encoding : PayloadEncoding; value : string
}.
Definition empty : t := make None (PAYLOAD_ENCODING_unknown 0) "".
Definition schema (p : t) : SchemaReference.t := default SchemaReference.empty (schema_ p).
#[global] Instance t_eq_dec : EqDecision t.
Proof. solve_decision. Defined.
End Payload.

Module AdapterError.
Record t : Type := make {
  class_ : ErrorClass; code : string; message : string; retry_after_ms : Z;
  details_ : option Payload.t
}.
Definition empty : t := make ERROR_CLASS_UNSPECIFIED "" "" 0 None.
#[global] Instance t_eq_dec : EqDecision t.
Proof. solve_decision. Defined.
End AdapterError.

Module Deadline.
Record t : Type := make { deadline_unix_nanos : Z; ttl_ms : Z }.
Definition empty : t := make 0 0.
#[global] Instance eta : Eta t := λ d, make (deadline_unix_nanos d) (ttl_ms d).
#[global] Instance t_eq_dec : EqDecision t.
Proof. solve_decision. Defined.
End Deadline.

Module ScopeReference.
Record t : Type := make { kind : string; key : string; attributes : gmap string string }.
#[global] Instance t_eq_dec : EqDecision t.
Proof. solve_decision. Defined.
End ScopeReference.

Module WorkContext.
Record t : Type := make {
  work_id : string; request_digest : string; capability_id : string; endpoint_id : string;
  spec_revision : Z; contract_version : Z; contract_digest : string;
  deadline_ : option Deadline.t; idempotency_key : string;
  subject_ : option ScopeReference.t
}.
Definition empty : t := make "" "" "" "" 0 0 "" None "" None.
Definition deadline (c : t) : Deadline.t := default Deadline.empty (deadline_ c).
#[global] Instance eta : Eta t := λ c,
  make (work_id c) (request_digest c) (capability_id c) (endpoint_id c) (spec_revision c)
       (contract_version c) (contract_digest c) (deadline_ c) (idempotency_key c) (subject_ c).
#[global] Instance t_eq_dec : EqDecision t.
Proof. solve_decision. Defined.
End WorkContext.

Module UnaryRequest.
Record t : Type := make { context_ : option WorkContext.t; input_ : option Payload.t }.
Definition empty : t := make None None.
Definition context (r : t) : WorkContext.t := default WorkContext.empty (context_ r).
Definition input (r : t) : Payload.t := default Payload.empty (input_ r).
#[global] Instance eta : Eta t := λ r, make (context_ r) (input_ r).
End UnaryRequest.

Module OperationRequest.
Record t : Type := make { context_ : option WorkContext.t; input_ : option Payload.t }.
Definition empty : t := make None None.
Definition context (r : t) : WorkContext.t := default WorkContext.empty (context_ r).
Definition input (r : t) : Payload.t := default Payload.empty (input_ r).
#[global] Instance eta : Eta t := λ r, make (context_ r) (input_ r).
End OperationRequest.

Module CreditGrant.
Record t : Type := make { messages : Z; bytes : Z }.
Definition empty : t := make 0 0.
End CreditGrant.

Module SourceOpenRequest.
Record t : Type := make {
  context_ : option WorkContext.t; initial_credit_ : option CreditGrant.t
}.
Definition empty : t := make None None.
Definition context (r : t) : WorkContext.t := default WorkContext.empty (context_ r).
Definition initial_credit (r : t) : CreditGrant.t := default CreditGrant.empty (initial_credit_ r).
#[global] Instance eta : Eta t := λ r, make (context_ r) (initial_credit_ r).
End SourceOpenRequest.

Module UnaryResponse.
Record t : Type := make {
  work_id : string; output_ : option Payload.t; error_ : option AdapterError.t
}.
Definition empty : t := make "" None None.
#[global] Instance t_eq_dec : EqDecision t.
Proof. solve_decision. Defined.
End UnaryResponse.

Module OperationEvent.
Record t : Type := make {
  work_id : string; phase : OperationPhase; occurred_unix_nanos : Z; native_code : Z;
  output_ : option Payload.t; error_ : option AdapterError.t
}.
Definition empty : t := make "" (OPERATION_PHASE_unknown 0) 0 0 None None.
#[global] Instance t_eq_dec : EqDecision t.
Proof. solve_decision. Defined.
End OperationEvent.

Module SourceOpenResult.
Record t : Type := make {
  stream_id : string; accepted : bool; initial_payload_ : option Payload.t;
  error_ : option AdapterError.t
}.
#[global] Instance t_eq_dec : EqDecision t.
Proof. solve_decision. Defined.
End SourceOpenResult.

Module SourceData.
Record t : Type := make { stream_id : string; sequence : Z; items : list string }.
#[global] Instance t_eq_dec : EqDecision t.
Proof. solve_decision. Defined.
End SourceData.

Module SourceClose.
Record t : Type := make {
  stream_id : string; final_sequence : Z; error_ : option AdapterError.t
}.
#[global] Instance t_eq_dec : EqDecision t.
Proof. solve_decision. Defined.
End SourceClose.

Module WorkProtocolError.
Record t : Type := make { rejected_frame_sequence : Z; error : AdapterError.t }.
#[global] Instance t_eq_dec : EqDecision t.
Proof. solve_decision. Defined.
End WorkProtocolError.

Module WorkAttach.
Record t : Type := make { applied_spec_revision : Z; applied_spec_digest : string }.
#[global] Instance t_eq_dec : EqDecision t.
Proof. solve_decision. Defined.
End WorkAttach.

Module SessionHeader.
Record t : Type := make {
  instance_id : string; session_id : string; process_generation : Z;
  session_generation : Z; runtime_epoch : Z; connection_epoch : Z; frame_sequence : Z
}.
#[global] Instance t_eq_dec : EqDecision t.
Proof. solve_decision. Defined.
End SessionHeader.

(** Adapter to Host on Work: the [frame] oneof and the header, absent while the
    frame is queued. *)
Inductive WorkFrame : Type :=
| attach (m : WorkAttach.t)
| unary_response (m : UnaryResponse.t)
| operation_event (m : OperationEvent.t)
| source_open_result (m : SourceOpenResult.t)
| source_data (m : SourceData.t)
| source_close (m : SourceClose.t)
| work_protocol_error (m : WorkProtocolError.t).

#[global] Instance WorkFrame_eq_dec : EqDecision WorkFrame.
Proof. solve_decision. Defined.

Module WorkRequest.
Record t : Type := make { header_ : option SessionHeader.t; frame : WorkFrame }.
#[global] Instance t_eq_dec : EqDecision t.
Proof. solve_decision. Defined.
End WorkRequest.

Module SecretReference.
Record t : Type := make { name : string; reference : string; version : string }.
#[global] Instance t_eq_dec : EqDecision t.
Proof. solve_decision. Defined.
End SecretReference.

Module EnabledCapability.
Record t : Type := make {
  capability_id : string; contract_version : Z; contract_digest : string;
  configuration_ : option Payload.t; enabled_endpoint_ids : list string
}.
#[global] Instance t_eq_dec : EqDecision t.
Proof. solve_decision. Defined.
End EnabledCapability.

Module AdapterInstanceSpec.
Record t : Type := make {
  instance_id : string; process_generation : Z; revision : Z; spec_digest : string;
  scope_ : option ScopeReference.t; configuration_ : option Payload.t;
  secrets : list SecretReference.t; capabilities : list EnabledCapability.t
}.
Definition empty : t := make "" 0 0 "" None None [] [].
#[global] Instance t_eq_dec : EqDecision t.
Proof. solve_decision. Defined.
End AdapterInstanceSpec.

Module EndpointLimits.
Record t : Type := make {
  maximum_request_bytes : Z; maximum_response_bytes : Z; maximum_concurrency : Z;
  maximum_streams : Z; maximum_stream_chunk_bytes : Z; maximum_stream_chunk_messages : Z
}.
#[global] Instance t_eq_dec : EqDecision t.
Proof. solve_decision. Defined.
End EndpointLimits.

Module CapabilityEndpointContract.
Record t : Type := make {
  endpoint_id : string; interaction_mode : InteractionMode;
  input_schema_ : option SchemaReference.t; output_schema_ : option SchemaReference.t;
  event_schema_ : option SchemaReference.t;
  side_effect_class : Z; idempotency_mode : Z;
  default_timeout_ms : Z; maximum_timeout_ms : Z; deadline_required : bool;
  limits : EndpointLimits.t
}.
Definition input_schema (e : t) := default SchemaReference.empty (input_schema_ e).
Definition output_schema (e : t) := default SchemaReference.empty (output_schema_ e).
#[global] Instance t_eq_dec : EqDecision t.
Proof. solve_decision. Defined.
End CapabilityEndpointContract.

Module CapabilityContract.
Record t : Type := make {
  capability_id : string; contract_version : Z; contract_digest : string;
  endpoints : list CapabilityEndpointContract.t
}.
#[global] Instance t_eq_dec : EqDecision t.
Proof. solve_decision. Defined.
End CapabilityContract.

Module CapabilityStatus.
Record t : Type := make {
  capability_id : string; contract_version : Z; contract_digest : string;
  state : CapabilityState; detail : string
}.
#[global] Instance eta : Eta t := λ s,
  make (capability_id s) (contract_version s) (contract_digest s) (state s) (detail s).
#[global] Instance t_eq_dec : EqDecision t.
Proof. solve_decision. Defined.
End CapabilityStatus.

Module Heartbeat.
Record t : Type := make {
  observed_unix_nanos : Z; applied_spec_revision : Z; applied_spec_digest : string;
  ping_nonce : Z; capabilities : list CapabilityStatus.t
}.
End Heartbeat.

Module ApplyInstanceSpecResult.
Record t : Type := make {
  revision : Z; spec_digest : string; applied : bool; error_ : option AdapterError.t;
  capabilities : list CapabilityStatus.t
}.
End ApplyInstanceSpecResult.

Inductive ControlFrame : Type :=
| heartbeat (m : Heartbeat.t)
| apply_instance_spec_result (m : ApplyInstanceSpecResult.t)
| drain_status (drained : bool) (in_flight_work : Z).

Module ControlRequest.
Record t : Type := make { header_ : option SessionHeader.t; frame : ControlFrame }.
End ControlRequest.

(** Host to Adapter. *)
Module SourceCredit.
Record t : Type := make {
  stream_id : string; grant_ : option CreditGrant.t; acknowledged_sequence : Z
}.
Definition grant (c : t) : CreditGrant.t := default CreditGrant.empty (grant_ c).
End SourceCredit.

Inductive Identity : Type :=
| kWorkId (work_id : string)
| kStreamId (stream_id : string)
| IDENTITY_NOT_SET.

Module TerminalAcknowledgement.
Record t : Type := make { identity : Identity; terminal_digest : string }.
End TerminalAcknowledgement.

Module WorkCancellation.
Record t : Type := make { identity : Identity; reason : string }.
End WorkCancellation.

Inductive WorkResponseFrame : Type :=
| kUnaryRequest (m : UnaryRequest.t)
| kOperationRequest (m : OperationRequest.t)
| kSourceOpenRequest (m : SourceOpenRequest.t)
| kSourceCredit (m : SourceCredit.t)
| kCancellation (m : WorkCancellation.t)
| kTerminalAcknowledgement (m : TerminalAcknowledgement.t)
| kWorkProtocolError (error : AdapterError.t)
| WORK_FRAME_NOT_SET.

Module WorkResponse.
Record t : Type := make { header : SessionHeader.t; frame : WorkResponseFrame }.
End WorkResponse.

Module StopRequest.
Record t : Type := make { reason : string }.
End StopRequest.

Inductive ControlResponseFrame : Type :=
| kInstanceSpec (m : AdapterInstanceSpec.t)
| kPing (nonce : Z)
| kDrain
| kStop (m : StopRequest.t)
| kControlProtocolError (error : AdapterError.t)
| CONTROL_FRAME_NOT_SET.

Module ControlResponse.
Record t : Type := make { header : SessionHeader.t; frame : ControlResponseFrame }.
End ControlResponse.

Module RegisterRequest.
Record t : Type := make {
  instance_id : string; process_generation : Z; definition_id : string;
  definition_digest : string; software_version : string; build_digest : string;
  manifest_digest : string; bootstrap_token : string; sdk_version : string;
  runtime_link_protocol_version : Z; supported_capabilities : list CapabilityContract.t
}.
#[global] Instance eta : Eta t := λ r,
  make (instance_id r) (process_generation r) (definition_id r) (definition_digest r)
       (software_version r) (build_digest r) (manifest_digest r) (bootstrap_token r)
       (sdk_version r) (runtime_link_protocol_version r) (supported_capabilities r).
End RegisterRequest.

Module RegisterResponse.
Record t : Type := make {
  accepted : bool; error : AdapterError.t; host_id : string; session_id : string;
  process_generation : Z; session_generation : Z; runtime_epoch : Z;
  runtime_link_protocol_version : Z; heartbeat_interval_ms : Z;
  maximum_control_frame_bytes : Z; maximum_work_frame_bytes : Z
}.
End RegisterResponse.

Module AdapterProcessBootstrap.
Record t : Type := make {
  format_version : Z; runtime_target : string;
  registration_ : option RegisterRequest.t; initial_spec_ : option AdapterInstanceSpec.t
}.
End AdapterProcessBootstrap.

(** The messages a terminal digest is taken of. *)
Inductive TerminalMessage : Type :=
| UnaryTerminal (m : UnaryResponse.t)
| OperationTerminal (m : OperationEvent.t)
| SourceOpenTerminal (m : SourceOpenResult.t)
| SourceCloseTerminal (m : SourceClose.t).

(** ** The generated code and the protobuf library *)

Class Protobuf : Type := {
  (** [static_cast<int>] of an [ErrorClass], which is compared by range. *)
  error_class_number : ErrorClass → Z;
  SIDE_EFFECT_CLASS_READ_ONLY : Z;
  SIDE_EFFECT_CLASS_NON_IDEMPOTENT : Z;
  IDEMPOTENCY_MODE_NOT_SUPPORTED : Z;
  IDEMPOTENCY_MODE_REQUIRED : Z;
  (** [JsonStringToMessage(value, &json).ok()] into a [Value]. *)
  JsonStringToMessage_ok : string → bool;
  (** [message.ByteSizeLong()]. *)
  Payload_ByteSizeLong : Payload.t → N;
  UnaryRequest_ByteSizeLong : UnaryRequest.t → N;
  OperationRequest_ByteSizeLong : OperationRequest.t → N;
  SourceOpenRequest_ByteSizeLong : SourceOpenRequest.t → N;
  WorkRequest_ByteSizeLong : WorkRequest.t → N;
  ControlRequest_ByteSizeLong : ControlRequest.t → N;
  WorkResponse_ByteSizeLong : WorkResponse.t → N;
  ControlResponse_ByteSizeLong : ControlResponse.t → N;
  (** [GetDescriptor()->full_name()] and the deterministic encoding. *)
  full_name : TerminalMessage → string;
  SerializeDeterministic : TerminalMessage → option string;
  (** [MessageDifferencer::Equals]. *)
  ScopeReference_Equals : ScopeReference.t → ScopeReference.t → bool;
  AdapterInstanceSpec_Equals : AdapterInstanceSpec.t → AdapterInstanceSpec.t → bool;
  (** [bootstrap.ParseFromArray]. *)
  ParseBootstrap : string → option AdapterProcessBootstrap.t;
}.

(** A concrete library, to evaluate the model on: enumeration numbers in the
    order of the constructors, every field one byte plus its contents, JSON
    that is any text starting with a brace, structural comparison. *)
Module SampleProtobuf.

Definition class_number (c : ErrorClass) : Z :=
  match c with
  | ERROR_CLASS_UNSPECIFIED => 0
  | ERROR_CLASS_PERMANENT => 1
  | ERROR_CLASS_TRANSIENT => 2
  | ERROR_CLASS_REJECTED => 3
  | ERROR_CLASS_DEADLINE => 4
  | ERROR_CLASS_CANCELLED => 5
  | ERROR_CLASS_UNCERTAIN => 6
  | ERROR_CLASS_RESOURCE_EXHAUSTED => 7
  | ERROR_CLASS_unknown n => n
  end.

Definition str_bytes (s : string) : N := N.of_nat (String.length s).

Definition payload_size (p : Payload.t) : N :=
  (if bool_decide (is_Some (Payload.schema_ p)) then 12 else 0) + str_bytes (Payload.value p).

Definition error_size (e : AdapterError.t) : N :=
  4 + str_bytes (AdapterError.code e) + str_bytes (AdapterError.message e).

Definition opt_size {A} (f : A → N) (o : option A) : N := from_option f 0%N o.

Definition context_size (c : WorkContext.t) : N :=
  24 + str_bytes (WorkContext.work_id c) + str_bytes (WorkContext.request_digest c) +
  str_bytes (WorkContext.capability_id c) + str_bytes (WorkContext.endpoint_id c).

Definition header_size (h : SessionHeader.t) : N :=
  40 + str_bytes (SessionHeader.instance_id h) + str_bytes (SessionHeader.session_id h).

Definition work_frame_size (f : WorkFrame) : N :=
  match f with
  | attach m => 8 + str_bytes (WorkAttach.applied_spec_digest m)
  | unary_response m => 2 + str_bytes (UnaryResponse.work_id m) +
      opt_size payload_size (UnaryResponse.output_ m) + opt_size error_size (UnaryResponse.error_ m)
  | operation_event m => 12 + str_bytes (OperationEvent.work_id m) +
      opt_size payload_size (OperationEvent.output_ m) + opt_size error_size (OperationEvent.error_ m)
  | source_open_result m => 2 + str_bytes (SourceOpenResult.stream_id m) +
      opt_size payload_size (SourceOpenResult.initial_payload_ m) +
      opt_size error_size (SourceOpenResult.error_ m)
  | source_data m => 10 + str_bytes (SourceData.stream_id m) +
      foldr (λ i acc, (2 + str_bytes i + acc)%N) 0%N (SourceData.items m)
  | source_close m => 10 + str_bytes (SourceClose.stream_id m) +
      opt_size error_size (SourceClose.error_ m)
  | work_protocol_error m => 10 + error_size (WorkProtocolError.error m)
  end.

Definition control_frame_size (f : ControlFrame) : N :=
  match f with
  | heartbeat m => 24 + N.of_nat (length (Heartbeat.capabilities m))
  | apply_instance_spec_result m => 16 + opt_size error_size (ApplyInstanceSpecResult.error_ m)
  | drain_status _ _ => 4
  end.

Definition terminal_name (m : TerminalMessage) : string :=
  match m with
  | UnaryTerminal _ => "xgc.adapter.v1.UnaryResponse"
  | OperationTerminal _ => "xgc.adapter.v1.OperationEvent"
  | SourceOpenTerminal _ => "xgc.adapter.v1.SourceOpenResult"
  | SourceCloseTerminal _ => "xgc.adapter.v1.SourceClose"
  end.

Definition terminal_id (m : TerminalMessage) : string :=
  match m with
  | UnaryTerminal m => UnaryResponse.work_id m
  | OperationTerminal m => OperationEvent.work_id m
  | SourceOpenTerminal m => SourceOpenResult.stream_id m
  | SourceCloseTerminal m => SourceClose.stream_id m
  end.

Definition protobuf_with (parse : string → option AdapterProcessBootstrap.t) : Protobuf := {|
  error_class_number := class_number;
  SIDE_EFFECT_CLASS_READ_ONLY := 1;
  SIDE_EFFECT_CLASS_NON_IDEMPOTENT := 3;
  IDEMPOTENCY_MODE_NOT_SUPPORTED := 1;
  IDEMPOTENCY_MODE_REQUIRED := 3;
  JsonStringToMessage_ok s := bool_decide (head (chars s) = Some "{"%char);
  Payload_ByteSizeLong := payload_size;
  UnaryRequest_ByteSizeLong r := (opt_size context_size (UnaryRequest.context_ r) +
    opt_size payload_size (UnaryRequest.input_ r))%N;
  OperationRequest_ByteSizeLong r := (opt_size context_size (OperationRequest.context_ r) +
    opt_size payload_size (OperationRequest.input_ r))%N;
  SourceOpenRequest_ByteSizeLong r := (opt_size context_size (SourceOpenRequest.context_ r) + 8)%N;
  WorkRequest_ByteSizeLong r := (opt_size header_size (WorkRequest.header_ r) +
    work_frame_size (WorkRequest.frame r))%N;
  ControlRequest_ByteSizeLong r := (opt_size header_size (ControlRequest.header_ r) +
    control_frame_size (ControlRequest.frame r))%N;
  WorkResponse_ByteSizeLong r := header_size (WorkResponse.header r);
  ControlResponse_ByteSizeLong r := header_size (ControlResponse.header r);
  full_name := terminal_name;
  SerializeDeterministic m := Some (terminal_id m);
  ScopeReference_Equals a b := bool_decide (a = b);
  AdapterInstanceSpec_Equals a b := bool_decide (a = b);
  ParseBootstrap := parse
|}.

#[export] Instance protobuf : Protobuf := protobuf_with (λ _, None).
End SampleProtobuf.

(** ** [internal::MakeError], phases and typed errors *)

Definition MakeError (error_class : ErrorClass) (code message : string)
    (retry_after_ms : Z) : AdapterError.t :=
  AdapterError.make error_class code message retry_after_ms None.

Definition IsTerminal (phase : OperationPhase) : bool :=
  bool_decide (phase = OPERATION_PHASE_SUCCEEDED) ||
  bool_decide (phase = OPERATION_PHASE_REJECTED) ||
  bool_decide (phase = OPERATION_PHASE_FAILED) ||
  bool_decide (phase = OPERATION_PHASE_EXPIRED) ||
  bool_decide (phase = OPERATION_PHASE_CANCELLED) ||
  bool_decide (phase = OPERATION_PHASE_UNCERTAIN).

Definition SchemaMatches (expected actual : SchemaReference.t) : bool :=
  (SchemaReference.message_id expected =? SchemaReference.message_id actual) &&
  bool_decide (SchemaReference.type_name expected = SchemaReference.type_name actual) &&
  (SchemaReference.schema_version expected =? SchemaReference.schema_version actual) &&
  (SchemaReference.schema_fingerprint expected =? SchemaReference.schema_fingerprint actual).

Definition IsValidPayloadEncoding (encoding : PayloadEncoding) : bool :=
  bool_decide (encoding = PAYLOAD_ENCODING_PROTOBUF) ||
  bool_decide (encoding = PAYLOAD_ENCODING_JSON) ||
  bool_decide (encoding = PAYLOAD_ENCODING_BYTES).

Definition ErrorMatchesOperationPhase (phase : OperationPhase) (error_class : ErrorClass) : bool :=
  match phase with
  | OPERATION_PHASE_REJECTED => bool_decide (error_class = ERROR_CLASS_REJECTED)
  | OPERATION_PHASE_FAILED =>
      bool_decide (error_class = ERROR_CLASS_PERMANENT) ||
      bool_decide (error_class = ERROR_CLASS_TRANSIENT) ||
      bool_decide (error_class = ERROR_CLASS_RESOURCE_EXHAUSTED)
  | OPERATION_PHASE_EXPIRED => bool_decide (error_class = ERROR_CLASS_DEADLINE)
  | OPERATION_PHASE_CANCELLED => bool_decide (error_class = ERROR_CLASS_CANCELLED)
  | OPERATION_PHASE_UNCERTAIN => bool_decide (error_class = ERROR_CLASS_UNCERTAIN)
  | _ => false
  end.

(** ** Handler results *)

Module UnaryResult.
Record t : Type := make {
  succeeded : bool; output : Payload.t; error : AdapterError.t
}.
Definition empty : t := make false Payload.empty AdapterError.empty.

Definition Success (output : Payload.t) : t := make true output AdapterError.empty.

Definition Failure (error_class : ErrorClass) (code message : string) (retry_after_ms : Z) : t :=
  make false Payload.empty (MakeError error_class code message retry_after_ms).
End UnaryResult.

Module OperationResult.
Record t : Type := make {
  phase : OperationPhase; has_output : bool; output : Payload.t; error : AdapterError.t;
  native_code : Z
}.

Definition Success (output : Payload.t) (has_output : bool) : t :=
  make OPERATION_PHASE_SUCCEEDED has_output output AdapterError.empty 0.

Definition Failure (error_class : ErrorClass) (code message : string) (native_code : Z) : t :=
  let phase :=
    match error_class with
    | ERROR_CLASS_UNCERTAIN => OPERATION_PHASE_UNCERTAIN
    | ERROR_CLASS_CANCELLED => OPERATION_PHASE_CANCELLED
    | ERROR_CLASS_REJECTED => OPERATION_PHASE_REJECTED
    | ERROR_CLASS_DEADLINE => OPERATION_PHASE_EXPIRED
    | _ => OPERATION_PHASE_FAILED
    end in
  make phase false Payload.empty (MakeError error_class code message 0) native_code.

Definition Rejected (code message : string) : t :=
  make OPERATION_PHASE_REJECTED false Payload.empty
       (MakeError ERROR_CLASS_REJECTED code message 0) 0.

Definition Cancelled (message : string) : t :=
  make OPERATION_PHASE_CANCELLED false Payload.empty
       (MakeError ERROR_CLASS_CANCELLED "cancelled" message 0) 0.
End OperationResult.

Module SourceOpenDecision.
Record t : Type := make {
  accepted : bool; has_initial_payload : bool; initial_payload : Payload.t;
  error : AdapterError.t
}.

Definition Accept : t := make true false Payload.empty AdapterError.empty.

Definition AcceptWith (initial_payload : Payload.t) : t :=
  make true true initial_payload AdapterError.empty.

Definition Reject (error_class : ErrorClass) (code message : string) (retry_after_ms : Z) : t :=
  make false false Payload.empty (MakeError error_class code message retry_after_ms).
End SourceOpenDecision.

(** ** Validators that consult the library *)

Section validators.
Context `{Protobuf}.

Definition IsValidPayload (payload : Payload.t) : bool :=
  if negb (bool_decide (is_Some (Payload.schema_ payload))) ||
     (SchemaReference.message_id (Payload.schema payload) =? 0) ||
     negb (IsCanonicalText (SchemaReference.type_name (Payload.schema payload))) ||
     (SchemaReference.schema_version (Payload.schema payload) =? 0) ||
     (SchemaReference.schema_fingerprint (Payload.schema payload) =? 0) ||
     negb (IsValidPayloadEncoding (Payload.encoding payload))
  then false
  else if bool_decide (Payload.encoding payload = PAYLOAD_ENCODING_JSON)
  then JsonStringToMessage_ok (Payload.value payload)
  else true.

Definition IsTypedError (error : AdapterError.t) : bool :=
  let error_class := error_class_number (AdapterError.class_ error) in
  (error_class_number ERROR_CLASS_PERMANENT <=? error_class) &&
  (error_class <=? error_class_number ERROR_CLASS_RESOURCE_EXHAUSTED) &&
  IsCanonicalIdentifier (AdapterError.code error) &&
  IsCanonicalText (AdapterError.message error) &&
  (negb (bool_decide (is_Some (AdapterError.details_ error))) ||
   IsValidPayload (default Payload.empty (AdapterError.details_ error))).

Definition HasError (error : AdapterError.t) : bool :=
  negb (bool_decide (AdapterError.class_ error = ERROR_CLASS_UNSPECIFIED)) ||
  negb (str_empty (AdapterError.code error)) ||
  negb (str_empty (AdapterError.message error)) ||
  negb (AdapterError.retry_after_ms error =? 0) ||
  bool_decide (is_Some (AdapterError.details_ error)).

Definition HasPayload (payload : Payload.t) : bool :=
  negb (Payload_ByteSizeLong payload =? 0)%N.

Definition OutputMatches (endpoint : CapabilityEndpointContract.t) (output : Payload.t) : bool :=
  IsValidPayload output &&
  SchemaMatches (CapabilityEndpointContract.output_schema endpoint) (Payload.schema output).

(** [IsCanonicalScope] of [spec.cpp] and [IsValidSubject] of [dispatch.cpp],
    the same function twice. *)
Definition IsCanonicalScope (scope : ScopeReference.t) : bool :=
  if negb (IsCanonicalIdentifier (ScopeReference.kind scope)) ||
     negb (IsCanonicalSha256 (ScopeReference.key scope)) ||
     bool_decide (ScopeReference.attributes scope = ∅)
  then false
  else forallb (λ attribute : string * string,
         IsCanonicalIdentifier attribute.1 && IsCanonicalText attribute.2)
       (map_to_list (ScopeReference.attributes scope)).

Definition IsValidSubject (subject : ScopeReference.t) : bool := IsCanonicalScope subject.

Definition ValidSchema (schema : SchemaReference.t) : bool :=
  (0 <? SchemaReference.message_id schema) && (0 <? SchemaReference.schema_version schema) &&
  (0 <? SchemaReference.schema_fingerprint schema) &&
  IsCanonicalText (SchemaReference.type_name schema).

Definition ValidateInput (endpoint : CapabilityEndpointContract.t) (input : Payload.t) : bool :=
  if negb (SchemaMatches (CapabilityEndpointContract.input_schema endpoint)
                         (Payload.schema input))
  then false
  else IsValidPayload input &&
       (str_size (Payload.value input) <=?
        EndpointLimits.maximum_request_bytes (CapabilityEndpointContract.limits endpoint)).
End validators.

(** ** Sanity of the result constructors *)

(** The classes a typed error can carry. *)
Definition typed_class (c : ErrorClass) : bool :=
  match c with
  | ERROR_CLASS_UNSPECIFIED | ERROR_CLASS_unknown _ => false
  | _ => true
  end.

(** [OperationResult::Failure] picks the phase the class belongs to. *)
Lemma Failure_phase_matches c code message native :
  typed_class c = true →
  let r := OperationResult.Failure c code message native in
  IsTerminal (OperationResult.phase r) = true ∧
  ErrorMatchesOperationPhase (OperationResult.phase r)
    (AdapterError.class_ (OperationResult.error r)) = true.
Proof. by destruct c. Qed.

Lemma SchemaMatches_eq a b : SchemaMatches a b = true ↔ a = b.
Proof.
  unfold SchemaMatches. destruct a, b; simpl.
  rewrite !andb_true_iff, !Z.eqb_eq, bool_decide_eq_true. naive_solver.
Qed.
