(* ===== verification/Clock.v ===== *)
(** * Clocks, budgets and saturating arithmetic

    The arithmetic of [src/src/internal.hpp], [queue.cpp], [stream.cpp] and
    [session_state.cpp] at its machine width: deadlines, heartbeat alignment,
    reconnect backoff, byte budgets and credit. *)

From S2P Require Import Prelude Text Messages.

Definition kMinimumHeartbeatIntervalMs : Z := 100.
Definition kDefaultHeartbeatIntervalMs : Z := 1000.
Definition kCanonicalSha256TextBytes : Z := 71.

(** ** [internal::SaturatingAdd], [AddOverflows], [FitsByteBudget] *)

Definition SaturatingAdd (left right : Z) : Z :=
  if u64_max - left <? right then u64_max else u64 (left + right).

Definition AddOverflows (left right : Z) : bool := u64_max - left <? right.

Definition FitsByteBudget (used added maximum : Z) : bool :=
  (added <=? maximum) && (used <=? maximum - added).

Lemma SaturatingAdd_min l r :
  in_u64 l → in_u64 r → SaturatingAdd l r = Z.min u64_max (l + r).
Proof.
  intros [??] [??]. unfold SaturatingAdd. destruct (Z.ltb_spec (u64_max - l) r); [lia|].
  rewrite u64_id by (unfold in_u64; lia). lia.
Qed.

Lemma AddOverflows_false l r :
  in_u64 l → in_u64 r → AddOverflows l r = false ↔ u64 (l + r) = l + r.
Proof.
  intros [??] [??]. unfold AddOverflows. rewrite Z.ltb_ge. split.
  - intros. apply u64_id. unfold in_u64. lia.
  - intros Heq. pose proof (u64_range (l + r)) as [? ?]. lia.
Qed.

(** The two comparisons say [used + added <= maximum] without the sum, which
    could wrap. *)
Lemma FitsByteBudget_spec used added maximum :
  0 ≤ used → FitsByteBudget used added maximum = true ↔ used + added ≤ maximum ∧ added ≤ maximum.
Proof. intros. unfold FitsByteBudget. rewrite andb_true_iff, !Z.leb_le. lia. Qed.

(** ** [internal::NormalizeDeadline] *)

Definition NormalizeDeadline (deadline : Deadline.t) (received_unix_nanos : Z) : Deadline.t :=
  if Deadline.ttl_ms deadline =? 0 then deadline
  else
    let ttl_nanos := Deadline.ttl_ms deadline * 1000000 in
    let relative_deadline :=
      if i64_max - ttl_nanos <? received_unix_nanos then i64_max
      else received_unix_nanos + ttl_nanos in
    let deadline :=
      if (Deadline.deadline_unix_nanos deadline <=? 0) ||
         (relative_deadline <? Deadline.deadline_unix_nanos deadline)
      then deadline <| Deadline.deadline_unix_nanos := relative_deadline |>
      else deadline in
    deadline <| Deadline.ttl_ms := 0 |>.

(** The deadline the Host meant: the earlier of the absolute deadline, if there
    is one, and receipt plus TTL, if there is one. *)
Definition effective_deadline (deadline : Deadline.t) (received : Z) : Z :=
  let absolute := Deadline.deadline_unix_nanos deadline in
  let relative := Z.min i64_max (received + Deadline.ttl_ms deadline * 1000000) in
  if Deadline.ttl_ms deadline =? 0 then absolute
  else if absolute <=? 0 then relative
  else Z.min absolute relative.

(** C33: a callback sees one unambiguous deadline: [ttl_ms] is cleared and
    [deadline_unix_nanos] becomes the earlier of the absolute deadline and
    receipt plus TTL, saturated; no intermediate value leaves [int64_t]. *)
Theorem NormalizeDeadline_effective deadline received :
  in_u32 (Deadline.ttl_ms deadline) → in_i64 (Deadline.deadline_unix_nanos deadline) →
  in_i64 received →
  let normalized := NormalizeDeadline deadline received in
  Deadline.ttl_ms normalized = 0 ∧
  Deadline.deadline_unix_nanos normalized = effective_deadline deadline received ∧
  in_i64 (Deadline.deadline_unix_nanos normalized) ∧
  in_i64 (Deadline.ttl_ms deadline * 1000000) ∧
  in_i64 (i64_max - Deadline.ttl_ms deadline * 1000000) ∧
  NormalizeDeadline normalized received = normalized.
Proof.
  unfold in_u32, in_i64, u32_max, i64_max, i64_min. destruct deadline as [abs ttl].
  intros Httl Habs Hrec. unfold NormalizeDeadline, effective_deadline. simpl in *.
  destruct (Z.eqb_spec ttl 0) as [->|Hne]; simpl; [split_and!; (done || lia)|].
  destruct (Z.ltb_spec (i64_max - ttl * 1000000) received);
    destruct (Z.leb_spec abs 0); simpl; unfold i64_max in *;
    repeat match goal with
    | |- context [?a <? ?b] => destruct (Z.ltb_spec a b); simpl
    end; split_and!; (done || lia).
Qed.

Lemma NormalizeDeadline_effective_witness :
  let d := Deadline.make 5000000 2 in
  in_u32 (Deadline.ttl_ms d) ∧
  Deadline.deadline_unix_nanos (NormalizeDeadline d 1000000) = 3000000.
Proof.
  split; [by vm_compute|].
  destruct (NormalizeDeadline_effective (Deadline.make 5000000 2) 1000000)
    as (_ & -> & _); [by vm_compute|by vm_compute|by vm_compute|reflexivity].
Defined.

(** ** [internal::NextAlignedHeartbeatDeadline] *)

(** [wall_nanos] and [monotonic_now] count nanoseconds; [%] truncates. *)
Definition NextAlignedHeartbeatDeadline (wall_nanos monotonic_now interval_ms : Z) : Z :=
  if interval_ms <=? 0 then monotonic_now
  else
    let interval_nanos := interval_ms * 1000000 in
    let remainder := Z.rem wall_nanos interval_nanos in
    let remainder := if remainder <? 0 then remainder + interval_nanos else remainder in
    monotonic_now + (interval_nanos - remainder).

(** C34: the next heartbeat is due after a positive delay of at most one
    interval, at a wall-clock multiple of the interval, whatever the wall clock
    shows (before the epoch included), so a clock jump never lengthens the gap. *)
Theorem NextAlignedHeartbeatDeadline_aligned wall monotonic interval_ms :
  0 < interval_ms →
  let delay := NextAlignedHeartbeatDeadline wall monotonic interval_ms - monotonic in
  0 < delay ≤ interval_ms * 1000000 ∧ (wall + delay) mod (interval_ms * 1000000) = 0.
Proof.
  intros Hpos. unfold NextAlignedHeartbeatDeadline.
  destruct (Z.leb_spec interval_ms 0); [lia|]. cbv zeta.
  set (n := interval_ms * 1000000). assert (0 < n) as Hn by lia.
  assert ((if Z.rem wall n <? 0 then Z.rem wall n + n else Z.rem wall n) = wall mod n) as ->.
  { pose proof (Z.rem_bound_abs wall n ltac:(lia)) as Habs.
    pose proof (Z.quot_rem' wall n) as Hq.
    destruct (Z.ltb_spec (Z.rem wall n) 0).
    - apply (Z.mod_unique_pos wall n (wall ÷ n - 1)); lia.
    - apply (Z.mod_unique_pos wall n (wall ÷ n)); lia. }
  pose proof (Z.mod_pos_bound wall n Hn) as Hm. split; [lia|].
  replace (wall + (monotonic + (n - wall mod n) - monotonic)) with ((wall / n + 1) * n)
    by (pose proof (Z_div_mod_eq_full wall n); lia).
  apply Z_mod_mult.
Qed.

Lemma NextAlignedHeartbeatDeadline_aligned_witness :
  0 < NextAlignedHeartbeatDeadline (-1) 50 1000 - 50 ≤ 1000 * 1000000 ∧
  (-1 + (NextAlignedHeartbeatDeadline (-1) 50 1000 - 50)) mod (1000 * 1000000) = 0.
Proof. apply (NextAlignedHeartbeatDeadline_aligned (-1) 50 1000). lia. Defined.

(** ** Reconnect backoff: [Client::Impl::NextBackoff] *)

Definition NextBackoff (reconnect_max_delay_ms current : Z) : Z :=
  if reconnect_max_delay_ms <=? current then reconnect_max_delay_ms
  else Z.min reconnect_max_delay_ms (u32 (current * 2)).

(** The delays of successive attempts. *)
Fixpoint backoff_sequence (maximum initial : Z) (attempts : nat) : Z :=
  match attempts with
  | O => initial
  | S n => NextBackoff maximum (backoff_sequence maximum initial n)
  end.

Lemma NextBackoff_doubles maximum current :
  maximum ≤ 2 ^ 31 → 0 ≤ current →
  NextBackoff maximum current = Z.min maximum (2 * current).
Proof.
  intros Hmax Hcur. unfold NextBackoff.
  destruct (Z.leb_spec maximum current); [lia|].
  rewrite u32_id by (unfold in_u32, u32_max; lia). lia.
Qed.

(** C35: with a maximum of at most 2^31 ms the [n]th retry waits exactly
    [min(maximum, initial * 2^n)]: bounded exponential backoff that never falls
    below the initial delay. *)
Theorem backoff_exponential maximum initial attempts :
  0 < initial → initial ≤ maximum → maximum ≤ 2 ^ 31 →
  backoff_sequence maximum initial attempts = Z.min maximum (initial * 2 ^ Z.of_nat attempts) ∧
  initial ≤ backoff_sequence maximum initial attempts ≤ maximum.
Proof.
  intros Hpos Hle Hmax.
  induction attempts as [|n [IH Hrange]]; cbn [backoff_sequence]; [lia|].
  rewrite NextBackoff_doubles by lia.
  rewrite IH, Nat2Z.inj_succ, Z.pow_succ_r by lia.
  assert (0 < 2 ^ Z.of_nat n) by lia. nia.
Qed.

Lemma backoff_exponential_witness :
  backoff_sequence 5000 250 3 = Z.min 5000 (250 * 2 ^ Z.of_nat 3) ∧
  250 ≤ backoff_sequence 5000 250 3 ≤ 5000.
Proof. apply (backoff_exponential 5000 250 3); lia. Defined.

