(* ===== verification/Config.v ===== *)
(** * Bootstrap, configuration and specification validation

    [ClientConfig] of [client.hpp] and [client.cpp] (the bootstrap file and
    [BindCapability]), [Client::Impl::ValidateConfig] of [bootstrap.cpp] and
    [ValidateInstanceSpec], [FindBindingIndex], [FindEndpoint] and
    [DisabledCapabilityStatuses] of [spec.cpp]. *)

From S2P Require Import Prelude Text Messages Clock.

Definition kClientVersion : string := "0.6.0".
Definition kAdapterBootstrapFormatVersion : Z := 2.
Definition kRuntimeLinkProtocolVersion : Z := 2.
Definition kMaximumBootstrapBytes : Z := 4 * 1024 * 1024.

(** ** Data *)

(** Which [std::function]s of [CapabilityCallbacks] are set. *)
Record CapabilityCallbacks : Type := mkCapabilityCallbacks {
  cb_start : bool; cb_stop : bool; cb_ready : bool; cb_unary : bool; cb_operation : bool;
  cb_source_open : bool; cb_source_closed : bool
}.

Definition no_callbacks : CapabilityCallbacks :=
  mkCapabilityCallbacks false false false false false false false.

Record CapabilityBinding : Type := mkCapabilityBinding {
  contract : CapabilityContract.t; callbacks : CapabilityCallbacks
}.

(** Which [std::function]s of [ClientCallbacks] are set. *)
Record ClientCallbacks : Type := mkClientCallbacks {
  cb_apply_instance_spec : bool; cb_clear_instance_spec : bool; cb_stop_requested : bool;
  cb_session_lost : bool; cb_log : bool
}.

Record ClientConfig : Type := mkClientConfig {
  runtime_target : string;
  registration : RegisterRequest.t;
  initial_spec : AdapterInstanceSpec.t;
  capabilities : list CapabilityBinding;
  rpc_timeout_ms : Z; initial_connect_timeout_ms : Z;
  reconnect_initial_delay_ms : Z; reconnect_max_delay_ms : Z;
  maximum_pair_reconnect_attempts : Z;
  maximum_control_queue : Z; maximum_work_queue : Z; maximum_dispatch_queue : Z;
  maximum_terminal_replay : Z; maximum_source_streams : Z; maximum_source_tombstones : Z;
  maximum_control_queue_bytes : Z; maximum_work_queue_bytes : Z;
  maximum_dispatch_queue_bytes : Z; maximum_terminal_replay_bytes : Z;
  maximum_source_state_bytes : Z; dispatch_workers : Z
}.

#[export] Instance ClientConfig_eta : Eta ClientConfig := λ c,
  mkClientConfig (runtime_target c) (registration c) (initial_spec c) (capabilities c)
    (rpc_timeout_ms c) (initial_connect_timeout_ms c) (reconnect_initial_delay_ms c)
    (reconnect_max_delay_ms c) (maximum_pair_reconnect_attempts c) (maximum_control_queue c)
    (maximum_work_queue c) (maximum_dispatch_queue c) (maximum_terminal_replay c)
    (maximum_source_streams c) (maximum_source_tombstones c) (maximum_control_queue_bytes c)
    (maximum_work_queue_bytes c) (maximum_dispatch_queue_bytes c)
    (maximum_terminal_replay_bytes c) (maximum_source_state_bytes c) (dispatch_workers c).

(** The member initialisers of [ClientConfig]. *)
Definition default_config (target : string) (reg : RegisterRequest.t)
    (spec : AdapterInstanceSpec.t) (bindings : list CapabilityBinding) : ClientConfig :=
  mkClientConfig target reg spec bindings
    3000 10000 250 5000 8 128 4096 1024 1024 128 1024
    (4 * 1024 * 1024) (16 * 1024 * 1024) (16 * 1024 * 1024) (16 * 1024 * 1024)
    (16 * 1024 * 1024) 1.

Definition contract_key (c : CapabilityContract.t) : string :=
  ContractKey (CapabilityContract.capability_id c) (CapabilityContract.contract_version c)
    (CapabilityContract.contract_digest c).

Definition grant_key (g : EnabledCapability.t) : string :=
  ContractKey (EnabledCapability.capability_id g) (EnabledCapability.contract_version g)
    (EnabledCapability.contract_digest g).

Definition status_key (s : CapabilityStatus.t) : string :=
  ContractKey (CapabilityStatus.capability_id s) (CapabilityStatus.contract_version s)
    (CapabilityStatus.contract_digest s).

(** ** [ClientConfig::FromBootstrapFile] *)

(** What the system calls report about the bootstrap path; [reads] are the
    results of the successive [read] calls, an empty chunk being end of file. *)
Inductive ReadResult : Type :=
| ReadBytes (bytes : string)
| ReadInterrupted
| ReadFailed.

Record BootstrapFile : Type := mkBootstrapFile {
  opened : bool; fstat_ok : bool; is_regular : bool; owned_by_euid : bool;
  mode_bits : Z; st_size : Z; reads : list ReadResult
}.

(** The outcome of the bootstrap: a thrown exception, the configuration, or a
    call that is still blocked because the system returned no further result. *)
Inductive BootstrapOutcome : Type :=
| Threw (what : string)
| Configured (config : ClientConfig)
| Blocked.

Inductive ReadOutcome : Type :=
| ReadAll (bytes : string) (rest : list ReadResult)
| ReadThrew (what : string)
| ReadBlocked.

(** The loop that fills [bytes], [remaining] bytes missing. *)
Fixpoint read_exactly (remaining : nat) (bytes : string) (rs : list ReadResult) : ReadOutcome :=
  if (remaining =? 0)%nat then ReadAll bytes rs
  else
    match rs with
    | [] => ReadBlocked
    | ReadInterrupted :: rs => read_exactly remaining bytes rs
    | ReadBytes chunk :: rs =>
        (* [read] returns at most the number of bytes it was asked for *)
        let chunk := String.substring 0 remaining chunk in
        if str_empty chunk then ReadThrew "adapter bootstrap changed or ended during read"
        else read_exactly (remaining - String.length chunk) (bytes +:+ chunk) rs
    | ReadFailed :: _ => ReadThrew "adapter bootstrap changed or ended during read"
    end.

(** The [do ... while] that asks for one byte more: [Some true] at end of file. *)
Fixpoint read_extra (rs : list ReadResult) : option bool :=
  match rs with
  | [] => None
  | ReadInterrupted :: rs => read_extra rs
  | ReadBytes chunk :: _ => Some (str_empty chunk)
  | ReadFailed :: _ => Some false
  end.

Section bootstrap.
Context `{Protobuf}.

(** The part after the file was read. *)
Definition FromBootstrapBytes (bytes : string) : BootstrapOutcome :=
  match ParseBootstrap bytes with
  | None => Threw "failed to parse binary AdapterProcessBootstrap"
  | Some bootstrap =>
      match AdapterProcessBootstrap.registration_ bootstrap,
            AdapterProcessBootstrap.initial_spec_ bootstrap with
      | Some reg, Some spec =>
          if negb (AdapterProcessBootstrap.format_version bootstrap =?
                   kAdapterBootstrapFormatVersion) ||
             str_empty (AdapterProcessBootstrap.runtime_target bootstrap)
          then Threw "AdapterProcessBootstrap format, target, registration, or spec is invalid"
          else
            match ValidateRuntimeTarget (AdapterProcessBootstrap.runtime_target bootstrap) with
            | Refused target_error => Threw target_error
            | Accepted =>
                if negb (str_empty (RegisterRequest.sdk_version reg))
                then Threw "bootstrap must not pre-assert the Runtime SDK version"
                else
                  Configured (default_config
                    (AdapterProcessBootstrap.runtime_target bootstrap)
                    (reg <| RegisterRequest.sdk_version := kClientVersion |>)
                    spec
                    (map (λ c, mkCapabilityBinding c no_callbacks)
                       (RegisterRequest.supported_capabilities reg)))
            end
      | _, _ => Threw "AdapterProcessBootstrap format, target, registration, or spec is invalid"
      end
  end.

Definition FromBootstrapFile (path : string) (file : BootstrapFile) : BootstrapOutcome :=
  if negb (bool_decide (head (chars path) = Some "/"%char))
  then Threw "adapter bootstrap path must be absolute"
  else if negb (opened file) then Threw "adapter bootstrap could not be opened securely"
  else if negb (fstat_ok file) || negb (is_regular file)
  then Threw "adapter bootstrap must be a regular file"
  else if negb (owned_by_euid file) || negb (Z.land (mode_bits file) 0x1ff =? 0x180)
  then Threw "adapter bootstrap must be owned by the process user and mode 0600"
  else if (st_size file <=? 0) || (kMaximumBootstrapBytes <? st_size file)
  then Threw "adapter bootstrap size must be between 1 byte and 4 MiB"
  else
    match read_exactly (Z.to_nat (st_size file)) "" (reads file) with
    | ReadBlocked => Blocked
    | ReadThrew what => Threw what
    | ReadAll bytes rest =>
        match read_extra rest with
        | None => Blocked
        | Some false => Threw "adapter bootstrap changed or grew during read"
        | Some true => FromBootstrapBytes bytes
        end
    end.
End bootstrap.

(** ** [ClientConfig::BindCapability] *)

Definition already_bound (c : CapabilityCallbacks) : bool :=
  cb_start c || cb_stop c || cb_ready c || cb_unary c || cb_operation c ||
  cb_source_open c || cb_source_closed c.

(** The loop over [capabilities_]: the verdict and the updated vector. *)
Fixpoint bind_loop (key : string) (cbs : CapabilityCallbacks) (bindings : list CapabilityBinding)
    : Verdict * list CapabilityBinding :=
  match bindings with
  | [] => (Refused "capability handlers are not a trusted bootstrap contract", [])
  | binding :: rest =>
      if negb (bool_decide (contract_key (contract binding) = key))
      then let '(v, rest) := bind_loop key cbs rest in (v, binding :: rest)
      else if already_bound (callbacks binding)
      then (Refused "capability handlers are already bound", binding :: rest)
      else (Accepted, mkCapabilityBinding (contract binding) cbs :: rest)
  end.

Definition BindCapability (config : ClientConfig) (capability_id : string)
    (contract_version : Z) (contract_digest : string) (cbs : CapabilityCallbacks)
    : Verdict * ClientConfig :=
  let key := ContractKey capability_id contract_version contract_digest in
  let '(v, bindings) := bind_loop key cbs (capabilities config) in
  (v, config <| capabilities := bindings |>).

(** ** Lookups *)

Fixpoint find_binding (key : string) (bindings : list CapabilityBinding) (index : nat)
    : option nat :=
  match bindings with
  | [] => None
  | binding :: rest =>
      if bool_decide (contract_key (contract binding) = key) then Some index
      else find_binding key rest (S index)
  end.

(** [None] is [kNoBinding]. *)
Definition FindBindingIndex (config : ClientConfig) (grant : EnabledCapability.t) : option nat :=
  find_binding (grant_key grant) (capabilities config) 0.

Definition FindEndpoint (c : CapabilityContract.t) (endpoint_id : string)
    : option CapabilityEndpointContract.t :=
  find (λ e, bool_decide (CapabilityEndpointContract.endpoint_id e = endpoint_id))
    (CapabilityContract.endpoints c).

Definition DisabledCapabilityStatuses (config : ClientConfig) : list CapabilityStatus.t :=
  map (λ binding,
    CapabilityStatus.make
      (CapabilityContract.capability_id (contract binding))
      (CapabilityContract.contract_version (contract binding))
      (CapabilityContract.contract_digest (contract binding))
      CAPABILITY_STATE_DISABLED
      "capability contract is not enabled by the current spec")
    (capabilities config).

(** ** [ValidateEndpointShape] *)

Section validation.
Context `{Protobuf}.

(** [endpoint.has_x() && !ValidSchema(endpoint.x())]. *)
Definition bad_schema (schema : option SchemaReference.t) : bool :=
  match schema with Some s => negb (ValidSchema s) | None => false end.

Definition ValidateEndpointShape (endpoint : CapabilityEndpointContract.t) : Verdict :=
  let mode := CapabilityEndpointContract.interaction_mode endpoint in
  let unary := bool_decide (mode = INTERACTION_MODE_UNARY) in
  let operation := bool_decide (mode = INTERACTION_MODE_OPERATION) in
  let source := bool_decide (mode = INTERACTION_MODE_STREAM_SOURCE) in
  let limits := CapabilityEndpointContract.limits endpoint in
  if negb (IsCanonicalIdentifier (CapabilityEndpointContract.endpoint_id endpoint)) ||
     (negb unary && negb operation && negb source)
  then Refused "capability endpoint identity or mode is invalid"
  else if bad_schema (CapabilityEndpointContract.input_schema_ endpoint) ||
          bad_schema (CapabilityEndpointContract.output_schema_ endpoint) ||
          bad_schema (CapabilityEndpointContract.event_schema_ endpoint)
  then Refused "capability endpoint schema identity is invalid"
  else if (unary || operation) &&
          bool_decide (CapabilityEndpointContract.input_schema_ endpoint = None)
  then Refused "endpoint interaction requires input schema"
  else if (unary || operation || source) &&
          bool_decide (CapabilityEndpointContract.output_schema_ endpoint = None)
  then Refused "endpoint interaction requires output schema"
  else if (CapabilityEndpointContract.side_effect_class endpoint <? SIDE_EFFECT_CLASS_READ_ONLY) ||
          (SIDE_EFFECT_CLASS_NON_IDEMPOTENT <? CapabilityEndpointContract.side_effect_class endpoint) ||
          (CapabilityEndpointContract.idempotency_mode endpoint <? IDEMPOTENCY_MODE_NOT_SUPPORTED) ||
          (IDEMPOTENCY_MODE_REQUIRED <? CapabilityEndpointContract.idempotency_mode endpoint)
  then Refused "endpoint side-effect or idempotency mode is invalid"
  else if (CapabilityEndpointContract.default_timeout_ms endpoint =? 0) ||
          (CapabilityEndpointContract.maximum_timeout_ms endpoint =? 0) ||
          (CapabilityEndpointContract.maximum_timeout_ms endpoint <?
           CapabilityEndpointContract.default_timeout_ms endpoint)
  then Refused "endpoint timeouts must be positive and ordered"
  else if (EndpointLimits.maximum_request_bytes limits =? 0) ||
          (EndpointLimits.maximum_response_bytes limits =? 0) ||
          (EndpointLimits.maximum_concurrency limits =? 0)
  then Refused "endpoint request/response/concurrency limits must be positive"
  else
    let any_stream_limit :=
      negb (EndpointLimits.maximum_streams limits =? 0) ||
      negb (EndpointLimits.maximum_stream_chunk_bytes limits =? 0) ||
      negb (EndpointLimits.maximum_stream_chunk_messages limits =? 0) in
    if source &&
       ((EndpointLimits.maximum_streams limits =? 0) ||
        (EndpointLimits.maximum_stream_chunk_bytes limits =? 0) ||
        (EndpointLimits.maximum_stream_chunk_messages limits =? 0))
    then Refused "source endpoint stream limits must be positive"
    else if negb source && any_stream_limit
    then Refused "non-stream endpoint declares stream limits"
    else Accepted.

(** ** [Client::Impl::ValidateInstanceSpec] *)

(** [std::set::insert(x).second]: whether [x] was new. *)
Definition is_new (x : string) (seen : list string) : bool := bool_decide (x ∉ seen).

Fixpoint secrets_loop (seen : list string) (secrets : list SecretReference.t) : bool :=
  match secrets with
  | [] => true
  | secret :: rest =>
      if negb (IsCanonicalIdentifier (SecretReference.name secret)) ||
         negb (IsCanonicalText (SecretReference.reference secret)) ||
         negb (IsCanonicalText (SecretReference.version secret)) ||
         negb (is_new (SecretReference.name secret) seen)
      then false
      else secrets_loop (SecretReference.name secret :: seen) rest
  end.

Fixpoint endpoints_loop (binding : CapabilityBinding) (seen ids : list string) : Verdict :=
  match ids with
  | [] => Accepted
  | endpoint_id :: rest =>
      match FindEndpoint (contract binding) endpoint_id with
      | None => Refused "instance spec grants an unknown or duplicate endpoint"
      | Some endpoint =>
          let mode := CapabilityEndpointContract.interaction_mode endpoint in
          if negb (IsCanonicalIdentifier endpoint_id) || negb (is_new endpoint_id seen)
          then Refused "instance spec grants an unknown or duplicate endpoint"
          else if bool_decide (mode = INTERACTION_MODE_UNARY) &&
                  negb (cb_unary (callbacks binding))
          then Refused "enabled unary endpoint has no bound handler"
          else if bool_decide (mode = INTERACTION_MODE_OPERATION) &&
                  negb (cb_operation (callbacks binding))
          then Refused "enabled operation endpoint has no bound handler"
          else if bool_decide (mode = INTERACTION_MODE_STREAM_SOURCE) &&
                  negb (cb_source_open (callbacks binding))
          then Refused "enabled source endpoint has no bound open handler"
          else endpoints_loop binding (endpoint_id :: seen) rest
      end
  end.

(** The loop over the grants: an error, or the binding indices. *)
Fixpoint grants_loop (config : ClientConfig) (seen : list string)
    (grants : list EnabledCapability.t) : string + list nat :=
  match grants with
  | [] => inr []
  | grant :: rest =>
      if negb (IsCanonicalIdentifier (EnabledCapability.capability_id grant)) ||
         negb (is_new (EnabledCapability.capability_id grant) seen)
      then inl "instance spec contains an empty or duplicate capability"
      else
        match FindBindingIndex config grant with
        | None => inl ("instance spec grants an unsupported contract: " +:+
                       EnabledCapability.capability_id grant)
        | Some index =>
            match capabilities config !! index with
            | None => inl "unreachable binding index"
            | Some binding =>
                if from_option (λ p, negb (IsValidPayload p)) false
                     (EnabledCapability.configuration_ grant)
                then inl "enabled capability configuration is malformed"
                else if bool_decide (EnabledCapability.enabled_endpoint_ids grant = [])
                then inl "enabled capability grants no endpoints"
                else
                  match endpoints_loop binding [] (EnabledCapability.enabled_endpoint_ids grant) with
                  | Refused error => inl error
                  | Accepted =>
                      match grants_loop config (EnabledCapability.capability_id grant :: seen) rest with
                      | inl error => inl error
                      | inr indices => inr (index :: indices)
                      end
                  end
            end
        end
  end.

Definition ValidateInstanceSpec (config : ClientConfig) (spec : AdapterInstanceSpec.t)
    : string + list nat :=
  if negb (bool_decide (AdapterInstanceSpec.instance_id spec =
                        RegisterRequest.instance_id (registration config))) ||
     negb (AdapterInstanceSpec.process_generation spec =?
           RegisterRequest.process_generation (registration config))
  then inl "instance spec identity or process generation mismatch"
  else if (AdapterInstanceSpec.revision spec =? 0) ||
          negb (IsCanonicalSha256 (AdapterInstanceSpec.spec_digest spec))
  then inl "instance spec revision and digest are required"
  else
    match AdapterInstanceSpec.scope_ spec with
    | None => inl "instance spec scope is missing or non-canonical"
    | Some scope =>
        if negb (IsCanonicalScope scope)
        then inl "instance spec scope is missing or non-canonical"
        else
          match AdapterInstanceSpec.scope_ (initial_spec config) with
          | None => inl "instance scope is immutable for the Adapter instance"
          | Some initial_scope =>
              if negb (ScopeReference_Equals scope initial_scope)
              then inl "instance scope is immutable for the Adapter instance"
              else
                match AdapterInstanceSpec.configuration_ spec with
                | None => inl "instance configuration must be one valid typed payload"
                | Some configuration =>
                    if negb (IsValidPayload configuration)
                    then inl "instance configuration must be one valid typed payload"
                    else if negb (secrets_loop [] (AdapterInstanceSpec.secrets spec))
                    then inl "secret references must be canonical and uniquely named"
                    else grants_loop config [] (AdapterInstanceSpec.capabilities spec)
                end
          end
    end.

(** ** [Client::Impl::ValidateConfig] *)

Fixpoint contract_endpoints_loop (seen : list string)
    (endpoints : list CapabilityEndpointContract.t) : Verdict :=
  match endpoints with
  | [] => Accepted
  | endpoint :: rest =>
      match ValidateEndpointShape endpoint with
      | Refused error => Refused error
      | Accepted =>
          if negb (is_new (CapabilityEndpointContract.endpoint_id endpoint) seen)
          then Refused "capability contract contains an invalid or duplicate endpoint"
          else contract_endpoints_loop (CapabilityEndpointContract.endpoint_id endpoint :: seen) rest
      end
  end.

Fixpoint contracts_loop (supported : list CapabilityContract.t) (seen : list string)
    (bindings : list CapabilityBinding) : Verdict :=
  match bindings with
  | [] => Accepted
  | binding :: rest =>
      let c := contract binding in
      if negb (IsCanonicalCapabilityId (CapabilityContract.capability_id c)) ||
         (CapabilityContract.contract_version c =? 0) ||
         negb (IsCanonicalDigest (CapabilityContract.contract_digest c)) ||
         bool_decide (CapabilityContract.endpoints c = []) ||
         negb (is_new (contract_key c) seen)
      then Refused "capability contracts must have unique identity and endpoints"
      else
        match contract_endpoints_loop [] (CapabilityContract.endpoints c) with
        | Refused error => Refused error
        | Accepted =>
            if negb (existsb (λ advertised, bool_decide (contract_key advertised = contract_key c))
                       supported)
            then Refused "application capability is not present in bootstrap registration"
            else contracts_loop supported (contract_key c :: seen) rest
        end
  end.

Definition positive_limits (config : ClientConfig) : bool :=
  negb ((rpc_timeout_ms config =? 0) || (initial_connect_timeout_ms config =? 0) ||
        (reconnect_initial_delay_ms config =? 0) ||
        (reconnect_max_delay_ms config <? reconnect_initial_delay_ms config) ||
        (maximum_pair_reconnect_attempts config =? 0) ||
        (maximum_control_queue config =? 0) || (maximum_work_queue config =? 0) ||
        (maximum_dispatch_queue config =? 0) || (maximum_terminal_replay config =? 0) ||
        (maximum_source_streams config =? 0) ||
        (maximum_source_tombstones config <? maximum_source_streams config) ||
        (maximum_control_queue_bytes config =? 0) || (maximum_work_queue_bytes config =? 0) ||
        (maximum_dispatch_queue_bytes config =? 0) ||
        (maximum_terminal_replay_bytes config =? 0) ||
        (maximum_source_state_bytes config =? 0) || (dispatch_workers config =? 0)).

Definition ValidateConfig (config : ClientConfig) : Verdict :=
  let reg := registration config in
  let spec := initial_spec config in
  match ValidateRuntimeTarget (runtime_target config) with
  | Refused error => Refused error
  | Accepted =>
      if negb (IsCanonicalInstanceId (RegisterRequest.instance_id reg)) ||
         (RegisterRequest.process_generation reg =? 0)
      then Refused "instance_id must be canonical and process_generation positive"
      else if negb (IsCanonicalIdentifier (RegisterRequest.definition_id reg)) ||
              negb (IsCanonicalDigest (RegisterRequest.definition_digest reg)) ||
              negb (IsCanonicalText (RegisterRequest.software_version reg)) ||
              negb (IsCanonicalDigest (RegisterRequest.build_digest reg)) ||
              negb (IsCanonicalDigest (RegisterRequest.manifest_digest reg)) ||
              negb (IsCanonicalText (RegisterRequest.bootstrap_token reg)) ||
              negb (bool_decide (RegisterRequest.sdk_version reg = kClientVersion))
      then Refused "trusted definition/build/manifest/software/token/SDK identity is required"
      else if negb (RegisterRequest.runtime_link_protocol_version reg =? kRuntimeLinkProtocolVersion)
      then Refused "Runtime SDK requires protocol version 2 exclusively"
      else if negb (bool_decide (AdapterInstanceSpec.instance_id spec =
                                 RegisterRequest.instance_id reg)) ||
              negb (AdapterInstanceSpec.process_generation spec =?
                    RegisterRequest.process_generation reg) ||
              (AdapterInstanceSpec.revision spec =? 0) ||
              negb (IsCanonicalDigest (AdapterInstanceSpec.spec_digest spec))
      then Refused "initial_spec must match registration identity and generation"
      else if negb (positive_limits config)
      then Refused "timeouts, queue bounds, and worker counts must be positive"
      else
        match contracts_loop (RegisterRequest.supported_capabilities reg) [] (capabilities config) with
        | Refused error => Refused error
        | Accepted =>
            if negb (length (capabilities config) =?
                     length (RegisterRequest.supported_capabilities reg))%nat
            then Refused "bootstrap capability contracts were dropped or added"
            else
              match ValidateInstanceSpec config spec with
              | inl error => Refused error
              | inr _ => Accepted
              end
        end
  end.
End validation.

(** ** The trust boundary *)

Section trust.
Context `{Protobuf}.
Implicit Types (config : ClientConfig) (binding : CapabilityBinding).

Lemma is_new_true x seen : is_new x seen = true ↔ x ∉ seen.
Proof. apply bool_decide_eq_true. Qed.

(** The contract fields a binding matches a grant with. *)
Definition exact_contract (c : CapabilityContract.t) (grant : EnabledCapability.t) : Prop :=
  CapabilityContract.capability_id c = EnabledCapability.capability_id grant ∧
  CapabilityContract.contract_version c = EnabledCapability.contract_version grant ∧
  CapabilityContract.contract_digest c = EnabledCapability.contract_digest grant.

Definition canonical_contract (c : CapabilityContract.t) : Prop :=
  IsCanonicalIdentifier (CapabilityContract.capability_id c) = true ∧
  IsCanonicalSha256 (CapabilityContract.contract_digest c) = true.

(** Versions are [uint32] fields of their messages. *)
Definition contract_u32 (c : CapabilityContract.t) : Prop :=
  in_u32 (CapabilityContract.contract_version c).

Lemma contract_key_exact c grant :
  canonical_contract c → contract_u32 c → in_u32 (EnabledCapability.contract_version grant) →
  contract_key c = grant_key grant → exact_contract c grant.
Proof.
  intros [Hid Hdigest] Hv Hgv Heq. unfold exact_contract.
  by apply ContractKey_exact in Heq.
Qed.

Lemma find_binding_Some key bindings start index :
  find_binding key bindings start = Some index →
  ∃ binding, (start ≤ index)%nat ∧ bindings !! (index - start)%nat = Some binding ∧
    contract_key (contract binding) = key.
Proof.
  revert start. induction bindings as [|b bindings IH]; intros start Hf; simpl in Hf; [done|].
  case_bool_decide as Hk.
  - simplify_eq. exists b. rewrite Nat.sub_diag. split_and!; [lia|done|done].
  - apply IH in Hf as (binding & Hle & Hl & Hkey). exists binding.
    replace (index - start)%nat with (S (index - S start))%nat by lia.
    split_and!; [lia|done|done].
Qed.

Lemma FindBindingIndex_Some config grant index :
  FindBindingIndex config grant = Some index →
  ∃ binding, capabilities config !! index = Some binding ∧
    contract_key (contract binding) = grant_key grant.
Proof.
  intros (binding & _ & Hl & Hk)%find_binding_Some.
  rewrite Nat.sub_0_r in Hl. by eauto.
Qed.

Lemma find_binding_None key bindings start binding :
  find_binding key bindings start = None → binding ∈ bindings →
  contract_key (contract binding) ≠ key.
Proof.
  revert start. induction bindings as [|b bindings IH]; intros start Hf; simpl in Hf.
  { set_solver. }
  case_bool_decide; [done|]. intros [->|Hin]%elem_of_cons; [done|]. by eapply IH.
Qed.

Lemma FindEndpoint_Some c endpoint_id endpoint :
  FindEndpoint c endpoint_id = Some endpoint →
  endpoint ∈ CapabilityContract.endpoints c ∧
  CapabilityEndpointContract.endpoint_id endpoint = endpoint_id.
Proof.
  intros [Hin Heq%bool_decide_eq_true]%List.find_some.
  by rewrite list_elem_of_In.
Qed.

(** The handler an endpoint's interaction mode needs. *)
Definition handler_bound (cbs : CapabilityCallbacks) (mode : InteractionMode) : Prop :=
  match mode with
  | INTERACTION_MODE_UNARY => cb_unary cbs = true
  | INTERACTION_MODE_OPERATION => cb_operation cbs = true
  | INTERACTION_MODE_STREAM_SOURCE => cb_source_open cbs = true
  | INTERACTION_MODE_unknown _ => True
  end.

Definition granted_endpoint binding (endpoint_id : string) : Prop :=
  ∃ endpoint, FindEndpoint (contract binding) endpoint_id = Some endpoint ∧
    handler_bound (callbacks binding) (CapabilityEndpointContract.interaction_mode endpoint).

Lemma endpoints_loop_Accepted binding seen ids :
  endpoints_loop binding seen ids = Accepted →
  NoDup ids ∧ Forall (granted_endpoint binding) ids ∧ Forall (λ id, id ∉ seen) ids.
Proof.
  revert seen. induction ids as [|id ids IH]; intros seen Hl; simpl in Hl.
  { split_and!; constructor. }
  destruct (FindEndpoint _ _) as [endpoint|] eqn:Hf; [|done].
  repeat (case_match; [done|]). apply IH in Hl as (Hnd & Hall & Hfresh). guards.
  rewrite is_new_true in *. split_and!.
  - constructor; [|done]. intros Hin. rewrite Forall_forall in Hfresh.
    specialize (Hfresh _ Hin). set_solver.
  - constructor; [|done]. exists endpoint. split; [done|]. unfold handler_bound.
    repeat match goal with H : _ ∨ _ |- _ => destruct H end; guards; case_match; done || congruence.
  - constructor; [done|]. eapply Forall_impl; [exact Hfresh|]. set_solver.
Qed.

(** A grant that was matched with binding [index]: the contract triple is equal,
    not merely of equal key, and every enabled endpoint exists in that contract
    with its handler bound. *)
Definition exact_grant config (grant : EnabledCapability.t) (index : nat) : Prop :=
  ∃ binding, capabilities config !! index = Some binding ∧
    exact_contract (contract binding) grant ∧
    EnabledCapability.enabled_endpoint_ids grant ≠ [] ∧
    NoDup (EnabledCapability.enabled_endpoint_ids grant) ∧
    Forall (granted_endpoint binding) (EnabledCapability.enabled_endpoint_ids grant).

Definition grants_u32 (grants : list EnabledCapability.t) : Prop :=
  Forall (λ g, in_u32 (EnabledCapability.contract_version g)) grants.

Definition trusted_contracts config : Prop :=
  Forall (λ b, canonical_contract (contract b) ∧ contract_u32 (contract b)) (capabilities config).

Lemma grants_loop_exact config seen grants indices :
  trusted_contracts config → grants_u32 grants →
  grants_loop config seen grants = inr indices →
  Forall2 (exact_grant config) grants indices ∧
  NoDup (map EnabledCapability.capability_id grants) ∧
  Forall (λ id, id ∉ seen) (map EnabledCapability.capability_id grants).
Proof.
  intros Htrust Hu32. revert seen indices.
  induction Hu32 as [|grant grants Hg Hu32 IH]; intros seen indices Hl; simpl in Hl.
  { simplify_eq. split_and!; constructor. }
  case_match eqn:Hguard; [done|].
  destruct (FindBindingIndex config grant) as [index|] eqn:Hf; [|done].
  apply FindBindingIndex_Some in Hf as (binding & Hb & Hkey). rewrite Hb in Hl.
  do 2 (case_match; [done|]). destruct (endpoints_loop _ _ _) eqn:He; [|done].
  destruct (grants_loop _ _ _) as [|rest] eqn:Hrest; simplify_eq/=.
  apply IH in Hrest as (Hex & Hnd & Hfresh). apply endpoints_loop_Accepted in He as (? & ? & _).
  guards. rewrite is_new_true in *. split_and!.
  - constructor; [|done]. exists binding.
    destruct (proj1 (Forall_forall _ _) Htrust binding) as [Hcan Hv];
      [by eapply list_elem_of_lookup_2|].
    split_and!; [done| |done..]. by apply contract_key_exact.
  - constructor; [|done]. intros Hin. rewrite Forall_forall in Hfresh.
    specialize (Hfresh _ Hin). set_solver.
  - constructor; [done|]. eapply Forall_impl; [exact Hfresh|]. set_solver.
Qed.

Lemma contracts_loop_canonical supported seen bindings :
  contracts_loop supported seen bindings = Accepted →
  Forall (λ b, canonical_contract (contract b)) bindings ∧
  NoDup (map (λ b, contract_key (contract b)) bindings) ∧
  Forall (λ b, contract_key (contract b) ∉ seen) bindings ∧
  Forall (λ b, ∃ a, a ∈ supported ∧ contract_key a = contract_key (contract b)) bindings.
Proof.
  revert seen. induction bindings as [|b bindings IH]; intros seen Hl; simpl in Hl.
  { split_and!; constructor. }
  case_match eqn:Hg; [done|]. case_match; [|done]. case_match eqn:Hs; [done|].
  apply IH in Hl as (Hcan & Hnd & Hfresh & Hsup). guards. rewrite is_new_true in *.
  split_and!.
  - constructor; [|done]. split; [|done].
    match goal with Hc : IsCanonicalCapabilityId _ = true |- _ =>
      unfold IsCanonicalCapabilityId in Hc; case_match eqn:Hc2; [done|]; by guards end.
  - simpl. constructor; [|done]. intros (b' & Heq & Hin)%list_elem_of_fmap.
    rewrite Forall_forall in Hfresh. specialize (Hfresh _ Hin). rewrite <-Heq in Hfresh.
    set_solver.
  - constructor; [done|]. eapply Forall_impl; [exact Hfresh|]. set_solver.
  - constructor; [|done]. apply existsb_elem in Hs as (a & Hin & Heq%bool_decide_eq_true).
    by eauto.
Qed.

Lemma ValidateConfig_contracts config :
  ValidateConfig config = Accepted →
  contracts_loop (RegisterRequest.supported_capabilities (registration config)) []
    (capabilities config) = Accepted.
Proof. unfold ValidateConfig. intros Hv. by repeat (case_match; try done). Qed.

Lemma ValidateInstanceSpec_grants config spec indices :
  ValidateInstanceSpec config spec = inr indices →
  grants_loop config [] (AdapterInstanceSpec.capabilities spec) = inr indices ∧
  AdapterInstanceSpec.instance_id spec = RegisterRequest.instance_id (registration config) ∧
  AdapterInstanceSpec.process_generation spec =
    RegisterRequest.process_generation (registration config) ∧
  AdapterInstanceSpec.revision spec ≠ 0 ∧
  IsCanonicalSha256 (AdapterInstanceSpec.spec_digest spec) = true.
Proof.
  unfold ValidateInstanceSpec. intros Hv. repeat (case_match; try done). by guards.
Qed.

Lemma trusted_config config :
  ValidateConfig config = Accepted →
  Forall (λ b, contract_u32 (contract b)) (capabilities config) →
  trusted_contracts config.
Proof.
  intros Hv%ValidateConfig_contracts Hu. apply contracts_loop_canonical in Hv as (Hcan & _).
  unfold trusted_contracts. by apply Forall_and.
Qed.
End trust.

(** C26: a specification the client accepts cannot widen what the bootstrap
    registered.  Once the configuration validated, every accepted grant names
    one trusted contract exactly (identifier, version and digest), enables a
    nonempty duplicate-free subset of that contract's endpoints, each with the
    handler its mode needs, no capability twice, and the specification carries
    the registered instance and process generation. *)
Theorem accepted_spec_is_exact `{Protobuf} (config : ClientConfig)
    (spec : AdapterInstanceSpec.t) (indices : list nat) :
  ValidateConfig config = Accepted →
  Forall (λ b, contract_u32 (contract b)) (capabilities config) →
  grants_u32 (AdapterInstanceSpec.capabilities spec) →
  ValidateInstanceSpec config spec = inr indices →
  Forall2 (exact_grant config) (AdapterInstanceSpec.capabilities spec) indices ∧
  NoDup (map EnabledCapability.capability_id (AdapterInstanceSpec.capabilities spec)) ∧
  AdapterInstanceSpec.instance_id spec = RegisterRequest.instance_id (registration config) ∧
  AdapterInstanceSpec.process_generation spec =
    RegisterRequest.process_generation (registration config).
Proof.
  intros Hv Hu Hg (Hl & Hid & Hgen & _)%ValidateInstanceSpec_grants.
  apply grants_loop_exact in Hl as (Hex & Hnd & _); [done| |done].
  by apply trusted_config.
Qed.

(** ** A concrete configuration *)

Module SampleConfig.
Import SampleProtobuf.

Definition digest_of (c : ascii) : string :=
  "sha256:" +:+ String.string_of_list_ascii (replicate 64 c).

Definition schema : SchemaReference.t := SchemaReference.make 7 "xgc.v1.Text" 1 99.
Definition payload (value : string) : Payload.t :=
  Payload.make (Some schema) PAYLOAD_ENCODING_BYTES value.

Definition endpoint (id : string) (mode : InteractionMode) (limits : EndpointLimits.t)
    : CapabilityEndpointContract.t :=
  CapabilityEndpointContract.make id mode (Some schema) (Some schema) None 1 1 100 1000 false limits.

Definition plain_limits : EndpointLimits.t := EndpointLimits.make 64 64 1 0 0 0.
Definition stream_limits : EndpointLimits.t := EndpointLimits.make 64 64 1 2 32 4.

Definition sample_contract : CapabilityContract.t :=
  CapabilityContract.make "example.native" 1 (digest_of "c")
    [endpoint "get" INTERACTION_MODE_UNARY plain_limits;
     endpoint "run" INTERACTION_MODE_OPERATION plain_limits;
     endpoint "watch" INTERACTION_MODE_STREAM_SOURCE stream_limits].

Definition all_callbacks : CapabilityCallbacks :=
  mkCapabilityCallbacks true true true true true true true.

Definition sample_registration : RegisterRequest.t :=
  RegisterRequest.make "ari-0123456789abcdef0123456789abcdef" 3 "example.adapter"
    (digest_of "d") "1.2.3" (digest_of "b") (digest_of "f") "token" kClientVersion 2
    [sample_contract].

Definition scope : ScopeReference.t :=
  ScopeReference.make "robot" (digest_of "5") {[ "name" := "r2" ]}.

Definition sample_grant : EnabledCapability.t :=
  EnabledCapability.make "example.native" 1 (digest_of "c") None ["get"; "run"; "watch"].

Definition sample_spec : AdapterInstanceSpec.t :=
  AdapterInstanceSpec.make "ari-0123456789abcdef0123456789abcdef" 3 1 (digest_of "e")
    (Some scope) (Some (payload "cfg")) [SecretReference.make "key" "vault/key" "v1"]
    [sample_grant].

Definition sample_config : ClientConfig :=
  default_config "unix:///run/xgc2/runtime.sock" sample_registration sample_spec
    [mkCapabilityBinding sample_contract all_callbacks].

Lemma sample_config_valid : ValidateConfig sample_config = Accepted.
Proof. vm_compute. reflexivity. Qed.

Lemma sample_versions :
  Forall (λ b, contract_u32 (contract b)) (capabilities sample_config).
Proof. repeat constructor; by vm_compute. Qed.
End SampleConfig.

Lemma accepted_spec_is_exact_witness :
  Forall2 (exact_grant SampleConfig.sample_config) [SampleConfig.sample_grant] [0%nat] ∧
  NoDup (map EnabledCapability.capability_id [SampleConfig.sample_grant]) ∧
  AdapterInstanceSpec.instance_id SampleConfig.sample_spec =
    RegisterRequest.instance_id (registration SampleConfig.sample_config) ∧
  AdapterInstanceSpec.process_generation SampleConfig.sample_spec =
    RegisterRequest.process_generation (registration SampleConfig.sample_config).
Proof.
  apply (@accepted_spec_is_exact SampleProtobuf.protobuf SampleConfig.sample_config
    SampleConfig.sample_spec [0%nat]).
  - exact SampleConfig.sample_config_valid.
  - exact SampleConfig.sample_versions.
  - repeat constructor; by vm_compute.
  - vm_compute. reflexivity.
Defined.

(** ** Handlers attach only to bootstrap contracts *)

(** [binding'] is [binding] with its callbacks set, allowed only while none were. *)
Definition rebinds (key : string) (cbs : CapabilityCallbacks)
    (binding binding' : CapabilityBinding) : Prop :=
  contract_key (contract binding) = key ∧ already_bound (callbacks binding) = false ∧
  binding' = mkCapabilityBinding (contract binding) cbs.

Lemma bind_loop_spec key cbs bindings :
  let '(v, bindings') := bind_loop key cbs bindings in
  (v = Accepted ∧ ∃ before binding after binding',
     bindings = before ++ binding :: after ∧ bindings' = before ++ binding' :: after ∧
     Forall (λ b, contract_key (contract b) ≠ key) before ∧ rebinds key cbs binding binding') ∨
  (v ≠ Accepted ∧ bindings' = bindings).
Proof.
  induction bindings as [|b bindings IH]; simpl; [by right|].
  destruct (negb _) eqn:Hk; guards.
  - destruct (bind_loop key cbs bindings) as [v rest].
    destruct IH as [[-> (before & binding & after & binding' & -> & -> & Hb & Hr)]|[Hv ->]].
    + left. split; [done|]. exists (b :: before), binding, after, binding'.
      split_and!; [done|done|by constructor|done].
    + by right.
  - destruct (already_bound (callbacks b)) eqn:Hab; [by right|].
    left. split; [done|]. exists [], b, bindings, (mkCapabilityBinding (contract b) cbs).
    split_and!; [done..|by constructor|done].
Qed.


(** ** The bootstrap file *)

Lemma read_exactly_length remaining bytes rs all rest :
  read_exactly remaining bytes rs = ReadAll all rest →
  String.length all = (String.length bytes + remaining)%nat.
Proof.
  revert remaining bytes. induction rs as [|r rs IH]; intros remaining bytes Hr; simpl in Hr;
    destruct (Nat.eqb_spec remaining 0) as [->|Hne]; simplify_eq; [lia|lia|].
  destruct r as [chunk| |]; [|by apply IH|done].
  destruct (str_empty _) eqn:He; [done|]. apply IH in Hr. rewrite Hr, string_length_app.
  assert (String.length (String.substring 0 remaining chunk) ≤ remaining)%nat; [|lia].
  clear. revert chunk. induction remaining as [|n IH]; intros [|c chunk]; simpl; try lia.
  specialize (IH chunk). lia.
Qed.

(** C28: a configuration comes only from a regular file, opened without
    following links, owned by the process user with mode exactly 0600, of 1
    byte to 4 MiB, read completely and not grown since; its target passed
    [ValidateRuntimeTarget], it did not assert an SDK version, and the
    contracts are the registered ones with no handler attached. *)
Theorem FromBootstrapFile_trusted `{Protobuf} path file config :
  FromBootstrapFile path file = Configured config →
  (opened file = true ∧ is_regular file = true ∧ owned_by_euid file = true ∧
   Z.land (mode_bits file) 0x1ff = 0x180 ∧ 0 < st_size file ≤ kMaximumBootstrapBytes) ∧
  ∃ bytes bootstrap reg,
    str_size bytes = st_size file ∧ ParseBootstrap bytes = Some bootstrap ∧
    AdapterProcessBootstrap.registration_ bootstrap = Some reg ∧
    AdapterProcessBootstrap.initial_spec_ bootstrap = Some (initial_spec config) ∧
    RegisterRequest.sdk_version reg = "" ∧
    registration config = reg <| RegisterRequest.sdk_version := kClientVersion |> ∧
    ValidateRuntimeTarget (runtime_target config) = Accepted ∧
    map contract (capabilities config) = RegisterRequest.supported_capabilities reg ∧
    Forall (λ b, callbacks b = no_callbacks) (capabilities config).
Proof.
  unfold FromBootstrapFile, FromBootstrapBytes. intros Hf.
  do 5 (case_match; [done|]).
  destruct (read_exactly _ _ _) as [bytes rest| |] eqn:Hr; [|done|done].
  destruct (read_extra rest) as [[]|]; [|done|done].
  destruct (ParseBootstrap bytes) as [bootstrap|] eqn:Hp; [|done].
  destruct (AdapterProcessBootstrap.registration_ bootstrap) as [reg|] eqn:Hreg; [|done].
  destruct (AdapterProcessBootstrap.initial_spec_ bootstrap) as [spec|] eqn:Hspec; [|done].
  case_match; [done|]. destruct (ValidateRuntimeTarget _) eqn:Ht; [|done].
  case_match eqn:Hsdk; [done|]. guards. apply str_empty_spec in Hsdk.
  simplify_eq. simpl. split; [by split_and!|]. exists bytes, bootstrap, reg.
  split_and!; try done.
  - apply read_exactly_length in Hr. unfold str_size. rewrite Hr. simpl. lia.
  - rewrite map_map. by apply map_id.
  - apply Forall_map, Forall_true. done.
Qed.

Module SampleBootstrap.
Definition registration : RegisterRequest.t :=
  SampleConfig.sample_registration <| RegisterRequest.sdk_version := "" |>.
Definition bootstrap : AdapterProcessBootstrap.t :=
  AdapterProcessBootstrap.make 2 "unix:/run/runtime.sock" (Some registration)
    (Some SampleConfig.sample_spec).
Definition library : Protobuf :=
  SampleProtobuf.protobuf_with (λ b, if decide (b = "boot") then Some bootstrap else None).
(** A file read in two chunks, the second after an interrupted call. *)
Definition file : BootstrapFile :=
  mkBootstrapFile true true true true 0x8180 4
    [ReadBytes "bo"; ReadInterrupted; ReadBytes "ot"; ReadBytes ""].
Definition config : ClientConfig :=
  default_config "unix:/run/runtime.sock" SampleConfig.sample_registration
    SampleConfig.sample_spec [mkCapabilityBinding SampleConfig.sample_contract no_callbacks].
End SampleBootstrap.

Lemma FromBootstrapFile_trusted_witness :
  0 < st_size SampleBootstrap.file ≤ kMaximumBootstrapBytes ∧
  map contract (capabilities SampleBootstrap.config) = [SampleConfig.sample_contract].
Proof.
  destruct (@FromBootstrapFile_trusted SampleBootstrap.library "/run/boot.pb"
    SampleBootstrap.file SampleBootstrap.config ltac:(vm_compute; reflexivity))
    as [(_ & _ & _ & _ & Hsize) _].
  split; [exact Hsize|reflexivity].
Defined.
