(* ===== verification/State.v ===== *)
(** * The state of [Client::Impl]

    The members of [src/src/client_impl.hpp] that [mutex_] protects, the nested
    structs, the environment the client runs in (application callbacks, other
    threads, the gRPC library), and the operations on shared state every
    component uses: cancellation flags, logging, callbacks, failure signalling. *)

From S2P Require Import Prelude Text Digest Messages Clock Config.

(** ** Enumerations and nested structs *)

Inductive LogLevel : Type := kDebug | kInfo | kWarning | kError.

Inductive ClientState : Type :=
| kStopped | kConnecting | kRegistered | kApplyingSpec | kReady | kDraining
| kReconnecting | kSessionLost | kStopping.

Inductive SourceWriteResult : Type :=
| kAccepted | kNotReady | kUnknownStream | kNoCredit | kQueueFull | kTooLargeWrite.

Inductive DispatchKind : Type := kUnary | kOperation | kSourceOpen.

Inductive TerminalCommitResult : Type := kCommitted | kTooLarge | kUnavailable.

#[export] Instance ClientState_eq_dec : EqDecision ClientState.
Proof. solve_decision. Defined.
#[export] Instance SourceWriteResult_eq_dec : EqDecision SourceWriteResult.
Proof. solve_decision. Defined.
#[export] Instance DispatchKind_eq_dec : EqDecision DispatchKind.
Proof. solve_decision. Defined.
#[export] Instance TerminalCommitResult_eq_dec : EqDecision TerminalCommitResult.
Proof. solve_decision. Defined.

(** [ToString] of the two public enumerations. *)
Definition ClientState_ToString (state : ClientState) : string :=
  match state with
  | kStopped => "stopped"
  | kConnecting => "connecting"
  | kRegistered => "registered"
  | kApplyingSpec => "applying-spec"
  | kReady => "ready"
  | kDraining => "draining"
  | kReconnecting => "reconnecting"
  | kSessionLost => "session-lost"
  | kStopping => "stopping"
  end.

Definition SourceWriteResult_ToString (result : SourceWriteResult) : string :=
  match result with
  | kAccepted => "accepted"
  | kNotReady => "not-ready"
  | kUnknownStream => "unknown-stream"
  | kNoCredit => "no-credit"
  | kQueueFull => "queue-full"
  | kTooLargeWrite => "too-large"
  end.

(** A [std::shared_ptr<CancellationState>]: an address in [cancellations_], or
    null.  Copies of the pointer share the flag; [==] compares addresses. *)
Abbreviation CancellationRef := (option nat).

Module SessionFence.
Record t : Type := make {
  host_id : string; session_id : string; session_generation : Z; runtime_epoch : Z;
  runtime_link_protocol_version : Z; heartbeat_interval_ms : Z;
  maximum_control_frame_bytes : Z; maximum_work_frame_bytes : Z; connection_epoch : Z
}.
#[global] Instance eta : Eta t := λ f,
  make (host_id f) (session_id f) (session_generation f) (runtime_epoch f)
       (runtime_link_protocol_version f) (heartbeat_interval_ms f)
       (maximum_control_frame_bytes f) (maximum_work_frame_bytes f) (connection_epoch f).
End SessionFence.

Module ActiveCapability.
Record t : Type := make { binding_index : nat; grant : EnabledCapability.t }.
End ActiveCapability.

Module ActiveEndpoint.
Record t : Type := make {
  binding_index : nat; grant : EnabledCapability.t; endpoint : CapabilityEndpointContract.t
}.
End ActiveEndpoint.

Module DispatchJob.
Record t : Type := make {
  kind : DispatchKind; work_id : string; fingerprint : string;
  unary : UnaryRequest.t; operation : OperationRequest.t; source_open : SourceOpenRequest.t;
  inbound_frame_sequence : Z; connection_epoch : Z; accounted_bytes : Z;
  terminal_reservation_bytes : Z; cancellation : CancellationRef
}.
#[global] Instance eta : Eta t := λ j,
  make (kind j) (work_id j) (fingerprint j) (unary j) (operation j) (source_open j)
       (inbound_frame_sequence j) (connection_epoch j) (accounted_bytes j)
       (terminal_reservation_bytes j) (cancellation j).
Definition empty : t :=
  make kUnary "" "" UnaryRequest.empty OperationRequest.empty SourceOpenRequest.empty
       0 0 0 0 None.
End DispatchJob.

Module WorkTokenState.
Record t : Type := make {
  cancellation : CancellationRef; terminal_reservation_bytes : Z
}.
End WorkTokenState.

Module ReplayEntry.
Record t : Type := make {
  kind : DispatchKind; fingerprint : string; unary : UnaryResponse.t;
  operation : OperationEvent.t; terminal_digest : string; accounted_bytes : Z
}.
End ReplayEntry.

Module QueuedControlFrame.
Record t : Type := make { request : ControlRequest.t; accounted_bytes : Z }.
End QueuedControlFrame.

Module QueuedWorkFrame.
Record t : Type := make { request : WorkRequest.t; accounted_bytes : Z }.
End QueuedWorkFrame.

Inductive SourcePhase : Type := kOpening | kOpen.
#[export] Instance SourcePhase_eq_dec : EqDecision SourcePhase.
Proof. solve_decision. Defined.

Module SourceState.
Record t : Type := make {
  request : SourceOpenRequest.t; binding_index : nat; cancellation : CancellationRef;
  phase : SourcePhase; connection_epoch : Z; message_credit : Z; byte_credit : Z;
  sequence : Z; acknowledged_sequence : Z; maximum_chunk_bytes : Z;
  maximum_chunk_messages : Z; accounted_bytes : Z
}.
#[global] Instance eta : Eta t := λ s,
  make (request s) (binding_index s) (cancellation s) (phase s) (connection_epoch s)
       (message_credit s) (byte_credit s) (sequence s) (acknowledged_sequence s)
       (maximum_chunk_bytes s) (maximum_chunk_messages s) (accounted_bytes s).
Definition empty : t :=
  make SourceOpenRequest.empty 0 None kOpening 0 0 0 0 0 0 0 0.
End SourceState.

Module ClosedSourceState.
Record t : Type := make {
  connection_epoch : Z; final_sequence : Z; acknowledged_sequence : Z; fingerprint : string;
  terminal_digest : string; terminal_frame : WorkRequest.t; accounted_bytes : Z
}.
#[global] Instance eta : Eta t := λ c,
  make (connection_epoch c) (final_sequence c) (acknowledged_sequence c) (fingerprint c)
       (terminal_digest c) (terminal_frame c) (accounted_bytes c).
End ClosedSourceState.

(** ** What the client does to its environment *)

(** Invocations of application callbacks. *)
Inductive Call : Type :=
| CallApplyInstanceSpec (spec : AdapterInstanceSpec.t)
| CallClearInstanceSpec
| CallStart (binding : nat) (spec : AdapterInstanceSpec.t) (grant : EnabledCapability.t)
| CallStop (binding : nat)
| CallReady (binding : nat)
| CallUnary (binding : nat) (request : UnaryRequest.t) (token : CancellationRef)
| CallOperation (binding : nat) (request : OperationRequest.t) (token : CancellationRef)
| CallSourceOpen (binding : nat) (request : SourceOpenRequest.t) (token : CancellationRef)
| CallSourceClosed (binding : nat) (request : SourceOpenRequest.t) (error : AdapterError.t)
| CallStopRequested (request : StopRequest.t)
| CallSessionLost (reason : string).

(** What a callback returns; [bool f(..., std::string* error)] returns both. *)
Definition Answer (c : Call) : Type :=
  match c with
  | CallApplyInstanceSpec _ | CallStart _ _ _ => bool * string
  | CallUnary _ _ _ => UnaryResult.t
  | CallOperation _ _ _ => OperationResult.t
  | CallSourceOpen _ _ _ => SourceOpenDecision.t
  | _ => unit
  end.

(** A call returns, throws a [std::exception] or throws something else. *)
Inductive Outcome (A : Type) : Type :=
| Returned (value : A)
| ThrewException (what : string)
| ThrewUnknown.
#[global] Arguments Returned {A} _.
#[global] Arguments ThrewException {A} _.
#[global] Arguments ThrewUnknown {A}.

Inductive Effect : Type :=
| EffectCall (c : Call)
| EffectLog (level : LogLevel) (message : string)
| EffectTryCancel (context : nat).

(** ** The state

    [cancellations_] is the heap of [CancellationState::requested] flags,
    [wall_clock_] what [UnixNanos] reads, [effects_] the callbacks, log lines and
    context cancellations so far, oldest first; a gRPC context is its number. *)

Record Impl : Type := mkImpl {
  config_ : ClientConfig;
  callbacks_ : ClientCallbacks;
  state_ : ClientState;
  stop_requested_ : bool;
  session_failed_ : bool;
  accepting_work_ : bool;
  drain_requested_ : bool;
  drain_reported_ : bool;
  ready_callbacks_complete_ : bool;
  work_attach_allowed_ : bool;
  pair_ready_ : bool;
  terminal_session_failure_ : bool;
  session_lost_reported_ : bool;
  registration_attempted_ : bool;
  last_error_ : string;
  terminal_session_error_ : string;
  host_id_ : string;
  session_id_ : string;
  session_generation_ : Z;
  runtime_epoch_ : Z;
  runtime_link_protocol_version_ : Z;
  heartbeat_interval_ms_ : Z;
  maximum_control_frame_bytes_ : Z;
  maximum_work_frame_bytes_ : Z;
  connection_epoch_counter_ : Z;
  control_out_sequence_ : Z;
  work_out_sequence_ : Z;
  control_in_sequence_ : Z;
  work_in_sequence_ : Z;
  work_attach_connection_epoch_ : Z;
  active_spec_ : AdapterInstanceSpec.t;
  desired_spec_ : AdapterInstanceSpec.t;
  spec_revision_ : Z;
  spec_digest_ : string;
  active_capabilities_ : gmap string ActiveCapability.t;
  capability_statuses_ : list CapabilityStatus.t;
  control_queue_ : list QueuedControlFrame.t;
  work_queue_ : list QueuedWorkFrame.t;
  dispatch_queue_ : list DispatchJob.t;
  work_tokens_ : gmap string WorkTokenState.t;
  in_flight_work_ : Z;
  active_dispatch_jobs_ : Z;
  replay_ : gmap string ReplayEntry.t;
  source_streams_ : gmap string SourceState.t;
  closed_sources_ : gmap string ClosedSourceState.t;
  rejected_dispatches_ : Z;
  dropped_outbound_frames_ : Z;
  control_queue_bytes_ : Z;
  work_queue_bytes_ : Z;
  dispatch_queue_bytes_ : Z;
  terminal_replay_bytes_ : Z;
  source_state_bytes_ : Z;
  active_register_context_ : option nat;
  active_control_context_ : option nat;
  active_work_context_ : option nat;
  supervisor_running_ : bool;
  dispatch_threads_ : nat;
  cancellations_ : list bool;
  wall_clock_ : Z;
  effects_ : list Effect
}.

#[export] Instance Impl_eta : Eta Impl := λ s,
  mkImpl
    (config_ s) (callbacks_ s) (state_ s) (stop_requested_ s) (session_failed_ s)
    (accepting_work_ s) (drain_requested_ s) (drain_reported_ s) (ready_callbacks_complete_ s)
    (work_attach_allowed_ s) (pair_ready_ s) (terminal_session_failure_ s)
    (session_lost_reported_ s) (registration_attempted_ s) (last_error_ s)
    (terminal_session_error_ s) (host_id_ s) (session_id_ s) (session_generation_ s)
    (runtime_epoch_ s) (runtime_link_protocol_version_ s) (heartbeat_interval_ms_ s)
    (maximum_control_frame_bytes_ s) (maximum_work_frame_bytes_ s)
    (connection_epoch_counter_ s) (control_out_sequence_ s) (work_out_sequence_ s)
    (control_in_sequence_ s) (work_in_sequence_ s) (work_attach_connection_epoch_ s)
    (active_spec_ s) (desired_spec_ s) (spec_revision_ s) (spec_digest_ s)
    (active_capabilities_ s) (capability_statuses_ s) (control_queue_ s) (work_queue_ s)
    (dispatch_queue_ s) (work_tokens_ s) (in_flight_work_ s) (active_dispatch_jobs_ s)
    (replay_ s) (source_streams_ s) (closed_sources_ s) (rejected_dispatches_ s)
    (dropped_outbound_frames_ s) (control_queue_bytes_ s) (work_queue_bytes_ s)
    (dispatch_queue_bytes_ s) (terminal_replay_bytes_ s) (source_state_bytes_ s)
    (active_register_context_ s) (active_control_context_ s) (active_work_context_ s)
    (supervisor_running_ s) (dispatch_threads_ s) (cancellations_ s) (wall_clock_ s)
    (effects_ s).

Abbreviation C := (M Impl).

Definition set_field {F} (field : Impl → F) `{!Setter field} (v : F) : C unit :=
  modify (update field (λ _, v)).
Notation "'put' field := v" := (set_field field v)
  (at level 89, field at level 9, v at level 89, no associativity) : record_scope.

Definition empty_callbacks : ClientCallbacks :=
  mkClientCallbacks false false false false false.

(** The member initialisers: [Impl(config, callbacks)]. *)
Definition Impl_new (config : ClientConfig) (cbs : ClientCallbacks) : Impl :=
  mkImpl config cbs kStopped false false false false false false false false false false false
    "" "" "" "" 0 0 0 0 0 0 0 0 0 0 0 0 AdapterInstanceSpec.empty AdapterInstanceSpec.empty
    0 "" ∅ [] [] [] [] ∅ 0 0 ∅ ∅ ∅ 0 0 0 0 0 0 0 None None None false 0 [] 0 [].

(** ** The environment

    Application callbacks and the other threads of the client are outside the
    function being executed.  They may change the state while a callback runs
    ([invoke]), while the thread waits on a condition variable ([wait_until]) and
    whenever it does not hold [mutex_] ([preempt], which a definition performs
    between two critical sections).  All three are arbitrary computations; a
    theorem that needs the environment to respect an invariant says so with
    [Rely]. *)

Class Environment : Type := {
  invoke : ∀ c : Call, C (Outcome (Answer c));
  wait_until : (Impl → bool) → C unit;
  preempt : C unit;
}.

Class Rely `{Environment} (I : Impl → Prop) : Prop := {
  rely_invoke : ∀ c, keeps I (invoke c);
  rely_wait : ∀ p, keeps I (wait_until p);
  rely_preempt : keeps I preempt;
}.
#[export] Hint Resolve rely_invoke rely_wait rely_preempt : keeps.

(** The environment of a thread that runs alone: callbacks answer and nothing else
    changes the state. *)
Class Sequential `{Environment} : Prop := {
  seq_preempt : preempt = mret tt;
  seq_invoke : ∀ c s, (invoke c s).2 = s;
  seq_wait : ∀ p s, (wait_until p s).2 = s;
}.

(** ** Effects *)

Definition emit (e : Effect) : C unit := modify (λ s, s <| effects_ := effects_ s ++ [e] |>).

(** [Client::Impl::Log]; an exception thrown by the callback is swallowed. *)
Definition Log (level : LogLevel) (message : string) : C unit :=
  bound ← gets (λ s, cb_log (callbacks_ s));
  when bound (emit (EffectLog level message)).

Definition call `{Environment} (c : Call) : C (Outcome (Answer c)) :=
  emit (EffectCall c) ;; invoke c.

(** [try { callback(...); } catch ...]: [None] when it threw, which is logged. *)
Definition safe_call `{Environment} (label : string) (c : Call) : C (option (Answer c)) :=
  outcome ← call c;
  match outcome with
  | Returned value => mret (Some value)
  | ThrewException what => Log kError (label +:+ " threw: " +:+ what) ;; mret None
  | ThrewUnknown => Log kError (label +:+ " threw an unknown exception") ;; mret None
  end.

Definition TryCancel (context : option nat) : C unit :=
  match context with
  | Some number => emit (EffectTryCancel number)
  | None => mret tt
  end.

Definition UnixNanos : C Z := gets wall_clock_.

(** ** Cancellation flags *)

Definition make_shared_cancellation : C CancellationRef := λ s,
  (Some (length (cancellations_ s)), s <| cancellations_ := cancellations_ s ++ [false] |>).

(** [cancellation->requested.load()]. *)
Definition cancellation_requested (s : Impl) (ref : CancellationRef) : bool :=
  match ref with
  | Some address => default false (cancellations_ s !! address)
  | None => false
  end.

(** [CancellationToken::IsCancellationRequested]: null tokens are never cancelled. *)
Definition IsCancellationRequested (ref : CancellationRef) : C bool :=
  gets (λ s, cancellation_requested s ref).

(** [cancellation->requested.store(true)]. *)
Definition request_cancellation (ref : CancellationRef) : C unit :=
  match ref with
  | Some address => modify (λ s, s <| cancellations_ := <[address:=true]> (cancellations_ s) |>)
  | None => mret tt
  end.

Definition CancelAllWorkLocked : C unit :=
  tokens ← gets (λ s, entries (work_tokens_ s));
  for_each (λ token, request_cancellation (WorkTokenState.cancellation token.2)) tokens ;;
  sources ← gets (λ s, entries (source_streams_ s));
  for_each (λ source, request_cancellation (SourceState.cancellation source.2)) sources.

(** ** Queries of [session_state.cpp] *)

Definition StopRequested : C bool := gets stop_requested_.
Definition TerminalSessionFailureRequested : C bool := gets terminal_session_failure_.
Definition CurrentSessionIs (session_id : string) : C bool :=
  gets (λ s, bool_decide (session_id_ s = session_id) && negb (session_failed_ s)).

Definition SetState (state : ClientState) : C unit :=
  stopping ← gets stop_requested_;
  when (negb stopping) (put state_ := state).

Definition RecordError (error : string) : C unit :=
  put last_error_ := error ;; Log kWarning error.

(** ** Failure signalling of [session.cpp] *)

Definition CancelActiveStreams : C unit :=
  control ← gets active_control_context_;
  work ← gets active_work_context_;
  TryCancel control ;; TryCancel work.

(** The locked section: whether the failure was recorded. *)
Definition SignalSessionFailure_locked (expected_session reason : string) : C bool :=
  ignore ← gets (λ s, negb (bool_decide (session_id_ s = expected_session)) ||
                      stop_requested_ s || session_failed_ s);
  if ignore : bool then mret false
  else
    put session_failed_ := true ;;
    put accepting_work_ := false ;;
    put state_ := kReconnecting ;;
    put last_error_ := reason ;;
    CancelAllWorkLocked ;;
    mret true.

Definition SignalSessionFailure (expected_session reason : string) : C unit :=
  recorded ← SignalSessionFailure_locked expected_session reason;
  if recorded : bool then
    CancelActiveStreams ;;
    Log kWarning ("Runtime Link session failed: " +:+ reason)
  else mret tt.

Definition SignalCurrentSessionFailure (reason : string) : C unit :=
  session ← gets session_id_;
  when (negb (str_empty session)) (SignalSessionFailure session reason).

Definition SignalTerminalSessionFailure_locked (expected_session reason : string) : C bool :=
  ignore ← gets (λ s, negb (bool_decide (session_id_ s = expected_session)) ||
                      stop_requested_ s);
  if ignore : bool then mret false
  else
    put terminal_session_failure_ := true ;;
    put terminal_session_error_ := reason ;;
    put session_failed_ := true ;;
    put accepting_work_ := false ;;
    put last_error_ := reason ;;
    CancelAllWorkLocked ;;
    mret true.

Definition SignalTerminalSessionFailure (expected_session reason : string) : C unit :=
  recorded ← SignalTerminalSessionFailure_locked expected_session reason;
  if recorded : bool then
    CancelActiveStreams ;;
    Log kError ("Runtime Link session is irrecoverable: " +:+ reason)
  else mret tt.

Definition RequestFingerprint (context : WorkContext.t) : string :=
  WorkContext.request_digest context.

(** ** Computations that leave part of the state alone

    [frame f m]: [m] does not change [f].  An invariant that is a function of
    [f] is then preserved. *)

Definition frame {F A} (f : Impl → F) (m : C A) : Prop := ∀ s, f (m s).2 = f s.

Lemma frame_keeps {F A} (f : Impl → F) (P : F → Prop) (m : C A) :
  frame f m → keeps (λ s, P (f s)) m.
Proof. intros Hm s Hs. by rewrite Hm. Qed.

Section frame_rules.
Context {F : Type} (f : Impl → F).

Lemma frame_ret {A} (a : A) : frame f (mret a).
Proof. done. Qed.
Lemma frame_gets {A} (g : Impl → A) : frame f (gets g).
Proof. done. Qed.
Lemma frame_bind {A B} (m : C A) (k : A → C B) :
  frame f m → (∀ a, frame f (k a)) → frame f (m ≫= k).
Proof. intros Hm Hk s. unfold mbind, M_bind. simpl. by rewrite Hk, Hm. Qed.
Lemma frame_modify (g : Impl → Impl) : (∀ s, f (g s) = f s) → frame f (modify g).
Proof. intros Hg s. apply Hg. Qed.
Lemma frame_if {A} (b : bool) (m1 m2 : C A) :
  frame f m1 → frame f m2 → frame f (if b then m1 else m2).
Proof. by destruct b. Qed.
Lemma frame_when b (m : C unit) : frame f m → frame f (when b m).
Proof. by destruct b. Qed.
Lemma frame_for_each {A} (g : A → C unit) xs :
  (∀ x, frame f (g x)) → frame f (for_each g xs).
Proof.
  intros Hg. induction xs as [|x xs IH]; [done|]. simpl. by apply frame_bind.
Qed.
Lemma frame_set_field {G} (field : Impl → G) `{!Setter field} (v : G) :
  (∀ s, f (update field (λ _, v) s) = f s) → frame f (set_field field v).
Proof. intros Hf s. apply Hf. Qed.
End frame_rules.

(** Prove [frame f m] by taking [m] apart; lemmas of called operations are in
    the database [frame]. *)
Create HintDb frame.
#[export] Hint Constants Opaque : frame.
Ltac solve_frame :=
  repeat first
    [ done
    | solve [eauto 2 with frame nocore]
    | apply frame_bind; [|intros ?]
    | apply frame_when | apply frame_if | apply frame_for_each; intros ?
    | apply frame_set_field; done
    | apply frame_modify; done
    | case_match ].

(** The invariants of the development are functions of [core]: what
    the failure-signalling functions never touch. *)
Record Core : Type := mkCore {
  co_config : ClientConfig;
  co_control : list QueuedControlFrame.t * Z; co_work : list QueuedWorkFrame.t * Z;
  co_dispatch : list DispatchJob.t * Z;
  co_tokens : gmap string WorkTokenState.t; co_replay : gmap string ReplayEntry.t;
  co_replay_bytes : Z;
  co_sources : gmap string SourceState.t; co_closed : gmap string ClosedSourceState.t;
  co_source_bytes : Z;
  co_max_work : Z; co_max_control : Z; co_epoch : Z;
  co_spec : Z * string * AdapterInstanceSpec.t * AdapterInstanceSpec.t *
            gmap string ActiveCapability.t * list CapabilityStatus.t;
  co_counts : Z * Z
}.

Definition core (s : Impl) : Core :=
  mkCore (config_ s) (control_queue_ s, control_queue_bytes_ s) (work_queue_ s, work_queue_bytes_ s)
    (dispatch_queue_ s, dispatch_queue_bytes_ s) (work_tokens_ s) (replay_ s)
    (terminal_replay_bytes_ s) (source_streams_ s) (closed_sources_ s) (source_state_bytes_ s)
    (maximum_work_frame_bytes_ s) (maximum_control_frame_bytes_ s) (connection_epoch_counter_ s)
    (spec_revision_ s, spec_digest_ s, active_spec_ s, desired_spec_ s, active_capabilities_ s,
     capability_statuses_ s)
    (in_flight_work_ s, active_dispatch_jobs_ s).

Lemma core_emit e : frame core (emit e).
Proof. done. Qed.
Lemma core_Log level message : frame core (Log level message).
Proof. unfold Log. solve_frame. Qed.
Lemma core_TryCancel context : frame core (TryCancel context).
Proof. unfold TryCancel. solve_frame. Qed.
Lemma core_request_cancellation ref : frame core (request_cancellation ref).
Proof. unfold request_cancellation. solve_frame. Qed.
#[export] Hint Resolve core_emit core_Log core_TryCancel core_request_cancellation : frame.

Lemma core_CancelAllWorkLocked : frame core CancelAllWorkLocked.
Proof. unfold CancelAllWorkLocked. solve_frame. Qed.
Lemma core_CancelActiveStreams : frame core CancelActiveStreams.
Proof. unfold CancelActiveStreams. solve_frame. Qed.
#[export] Hint Resolve core_CancelAllWorkLocked core_CancelActiveStreams : frame.

Lemma core_SignalSessionFailure session reason : frame core (SignalSessionFailure session reason).
Proof. unfold SignalSessionFailure, SignalSessionFailure_locked. solve_frame. Qed.
#[export] Hint Resolve core_SignalSessionFailure : frame.

Lemma core_SignalCurrentSessionFailure reason : frame core (SignalCurrentSessionFailure reason).
Proof. unfold SignalCurrentSessionFailure. solve_frame. Qed.
Lemma core_SignalTerminalSessionFailure session reason :
  frame core (SignalTerminalSessionFailure session reason).
Proof. unfold SignalTerminalSessionFailure, SignalTerminalSessionFailure_locked. solve_frame. Qed.
#[export] Hint Resolve core_SignalCurrentSessionFailure core_SignalTerminalSessionFailure : frame.
