(* ===== verification/Queue.v ===== *)
(** * Frame fencing, bounded queues and the terminal replay table

    [src/src/queue.cpp]: the header every frame carries and its validation,
    admission to the outbound queues, and the table of retained terminals with
    its reservations.  The invariant of these structures is in Bounds. *)

From S2P Require Import Prelude Text Digest Messages Clock Config State.

Section queue.
Context `{Protobuf}.

(** ** Headers *)

Definition StampHeaderLocked (s : Impl) (fence : SessionFence.t) (connection_epoch sequence : Z)
    : SessionHeader.t :=
  SessionHeader.make
    (RegisterRequest.instance_id (registration (config_ s)))
    (SessionFence.session_id fence)
    (RegisterRequest.process_generation (registration (config_ s)))
    (SessionFence.session_generation fence)
    (SessionFence.runtime_epoch fence)
    connection_epoch sequence.

(** The verdict and the new value of [*previous_sequence]. *)
Definition ValidateHeaderLocked (s : Impl) (header : SessionHeader.t) (fence : SessionFence.t)
    (connection_epoch previous_sequence : Z) : Verdict * Z :=
  if negb (bool_decide (SessionHeader.instance_id header =
                        RegisterRequest.instance_id (registration (config_ s)))) ||
     negb (bool_decide (SessionHeader.session_id header = SessionFence.session_id fence)) ||
     negb (SessionHeader.process_generation header =?
           RegisterRequest.process_generation (registration (config_ s))) ||
     negb (SessionHeader.session_generation header =? SessionFence.session_generation fence) ||
     negb (SessionHeader.runtime_epoch header =? SessionFence.runtime_epoch fence) ||
     negb (SessionHeader.connection_epoch header =? connection_epoch)
  then (Refused "identity/generation/epoch mismatch", previous_sequence)
  else if (SessionHeader.frame_sequence header =? 0) ||
          (SessionHeader.frame_sequence header <=? previous_sequence)
  then (Refused "frame_sequence is zero or non-monotonic", previous_sequence)
  else (Accepted, SessionHeader.frame_sequence header).

Definition ValidateControlHeader (header : SessionHeader.t) (fence : SessionFence.t)
    : C Verdict := λ s,
  let '(verdict, sequence) :=
    ValidateHeaderLocked s header fence (SessionFence.connection_epoch fence)
      (control_in_sequence_ s) in
  (verdict, s <| control_in_sequence_ := sequence |>).

Definition ValidateWorkHeader (header : SessionHeader.t) (fence : SessionFence.t)
    : C Verdict := λ s,
  let '(verdict, sequence) :=
    ValidateHeaderLocked s header fence (SessionFence.connection_epoch fence)
      (work_in_sequence_ s) in
  (verdict, s <| work_in_sequence_ := sequence |>).

(** ** Frame sizes

    A queued frame is measured with the largest header it can be sent with and
    queued without one. *)

Definition measuring_fence (s : Impl) : SessionFence.t :=
  SessionFence.make "" (session_id_ s) (session_generation_ s) (runtime_epoch_ s)
    0 kDefaultHeartbeatIntervalMs 0 0 0.

Definition measuring_header (s : Impl) : SessionHeader.t :=
  StampHeaderLocked s (measuring_fence s) (connection_epoch_counter_ s) u64_max.

Definition ControlFrameBytesLocked (s : Impl) (frame : ControlFrame) : Z :=
  Z.of_N (ControlRequest_ByteSizeLong (ControlRequest.make (Some (measuring_header s)) frame)).

Definition WorkFrameBytesLocked (s : Impl) (frame : WorkFrame) : Z :=
  Z.of_N (WorkRequest_ByteSizeLong (WorkRequest.make (Some (measuring_header s)) frame)).

Definition WorkFrameFitsLocked (s : Impl) (frame : WorkFrame) : bool :=
  negb (maximum_work_frame_bytes_ s =? 0) &&
  (WorkFrameBytesLocked s frame <=? maximum_work_frame_bytes_ s).

Definition size {A} (l : list A) : Z := Z.of_nat (length l).
Definition map_count {V} (m : gmap string V) : Z := Z.of_nat (base.size m).

(** ** Outbound queues *)

(** The two conditions that count a frame as dropped. *)
Definition control_queue_full (s : Impl) (frame_bytes : Z) : bool :=
  (maximum_control_queue (config_ s) <=? size (control_queue_ s)) ||
  negb (FitsByteBudget (control_queue_bytes_ s) frame_bytes
          (maximum_control_queue_bytes (config_ s))).

Definition work_queue_full (s : Impl) (frame_bytes : Z) : bool :=
  (maximum_work_queue (config_ s) <=? size (work_queue_ s)) ||
  negb (FitsByteBudget (work_queue_bytes_ s) frame_bytes
          (maximum_work_queue_bytes (config_ s))).

Definition count_dropped (s : Impl) : Impl :=
  s <| dropped_outbound_frames_ := u64 (dropped_outbound_frames_ s + 1) |>.

Definition push_control (s : Impl) (frame : ControlFrame) (frame_bytes : Z) : Impl :=
  s <| control_queue_ := control_queue_ s ++
         [QueuedControlFrame.make (ControlRequest.make None frame) frame_bytes] |>
    <| control_queue_bytes_ := u64 (control_queue_bytes_ s + frame_bytes) |>.

Definition push_work (s : Impl) (frame : WorkFrame) (frame_bytes : Z) : Impl :=
  s <| work_queue_ := work_queue_ s ++
         [QueuedWorkFrame.make (WorkRequest.make None frame) frame_bytes] |>
    <| work_queue_bytes_ := u64 (work_queue_bytes_ s + frame_bytes) |>.

Definition session_closed (s : Impl) : bool :=
  str_empty (session_id_ s) || session_failed_ s || stop_requested_ s.

Definition QueueControlLocked (frame : ControlFrame) : C bool := λ s,
  let frame_bytes := ControlFrameBytesLocked s frame in
  if session_closed s || (maximum_control_queue (config_ s) <=? size (control_queue_ s)) ||
     (maximum_control_frame_bytes_ s <? frame_bytes) ||
     negb (FitsByteBudget (control_queue_bytes_ s) frame_bytes
             (maximum_control_queue_bytes (config_ s)))
  then (false, if control_queue_full s frame_bytes then count_dropped s else s)
  else (true, push_control s frame frame_bytes).

Definition QueueControl (frame : ControlFrame) : C bool := QueueControlLocked frame.

Definition QueueWorkLocked (frame : WorkFrame) : C bool := λ s,
  let frame_bytes := WorkFrameBytesLocked s frame in
  if session_closed s || (maximum_work_queue (config_ s) <=? size (work_queue_ s)) ||
     (maximum_work_frame_bytes_ s <? frame_bytes) ||
     negb (FitsByteBudget (work_queue_bytes_ s) frame_bytes
             (maximum_work_queue_bytes (config_ s)))
  then (false, if work_queue_full s frame_bytes then count_dropped s else s)
  else (true, push_work s frame frame_bytes).

Definition QueueWork (frame : WorkFrame) : C bool := QueueWorkLocked frame.

Definition QueueWorkOrFail (frame : WorkFrame) : C unit :=
  queued ← QueueWork frame;
  if queued : bool then mret tt
  else SignalCurrentSessionFailure "bounded outbound Work queue overflowed".

(** The writers' [front(); pop_front()] (the bytes are subtracted first). *)
Definition PopControl : C (option ControlFrame) := λ s,
  match control_queue_ s with
  | [] => (None, s)
  | front :: rest =>
      (Some (ControlRequest.frame (QueuedControlFrame.request front)),
       s <| control_queue_bytes_ :=
              u64 (control_queue_bytes_ s - QueuedControlFrame.accounted_bytes front) |>
         <| control_queue_ := rest |>)
  end.

Definition PopWork : C (option WorkFrame) := λ s,
  match work_queue_ s with
  | [] => (None, s)
  | front :: rest =>
      (Some (WorkRequest.frame (QueuedWorkFrame.request front)),
       s <| work_queue_bytes_ :=
              u64 (work_queue_bytes_ s - QueuedWorkFrame.accounted_bytes front) |>
         <| work_queue_ := rest |>)
  end.

(** ** The terminal replay table *)

Definition message_digest (m : TerminalMessage) : option string :=
  TerminalDigest (full_name m) (SerializeDeterministic m).

(** The entry for a job's terminal, without its size; [None] when the frame is
    not of the job's kind or its digest could not be computed. *)
Definition replay_entry (job : DispatchJob.t) (frame : WorkFrame)
    : option (UnaryResponse.t * OperationEvent.t * string) :=
  match DispatchJob.kind job, frame with
  | kUnary, unary_response response =>
      digest ← message_digest (UnaryTerminal response);
      Some (response, OperationEvent.empty, digest)
  | kOperation, operation_event event =>
      digest ← message_digest (OperationTerminal event);
      Some (UnaryResponse.empty, event, digest)
  | _, _ => None
  end.

Definition RememberReplayLocked (work_id : string) (entry : ReplayEntry.t) : C unit := modify (λ s,
  let bytes :=
    match replay_ s !! work_id with
    | Some previous => u64 (terminal_replay_bytes_ s - ReplayEntry.accounted_bytes previous)
    | None => terminal_replay_bytes_ s
    end in
  s <| terminal_replay_bytes_ := u64 (bytes + ReplayEntry.accounted_bytes entry) |>
    <| replay_ := <[work_id := entry]> (replay_ s) |>).

(** The reservation a job's terminal converts, when the token is still the
    job's own. *)
Definition converted_reservation (s : Impl) (job : DispatchJob.t) : option Z :=
  match work_tokens_ s !! DispatchJob.work_id job with
  | Some token =>
      if bool_decide (WorkTokenState.cancellation token = DispatchJob.cancellation job) &&
         negb (WorkTokenState.terminal_reservation_bytes token =? 0)
      then Some (WorkTokenState.terminal_reservation_bytes token)
      else None
  | None => None
  end.

Definition CommitTerminalFrame (job : DispatchJob.t) (frame : WorkFrame)
    : C TerminalCommitResult := λ s,
  let frame_bytes := WorkFrameBytesLocked s frame in
  if maximum_work_frame_bytes_ s <? frame_bytes then (kTooLarge, s)
  else if session_closed s || work_queue_full s frame_bytes
  then (kUnavailable, if work_queue_full s frame_bytes then count_dropped s else s)
  else
    match replay_entry job frame with
    | None => (kUnavailable, s)
    | Some (unary, operation, digest) =>
        let accounted :=
          u64 (frame_bytes + str_size (DispatchJob.fingerprint job) + str_size digest) in
        let entry := ReplayEntry.make (DispatchJob.kind job) (DispatchJob.fingerprint job)
                       unary operation digest accounted in
        if bool_decide (is_Some (replay_ s !! DispatchJob.work_id job)) then (kUnavailable, s)
        else
          let converts := converted_reservation s job in
          let reservation := default 0 converts in
          if terminal_replay_bytes_ s <? reservation then (kUnavailable, s)
          else
            let replay_without_reservation := terminal_replay_bytes_ s - reservation in
            let retained_identities := map_count (replay_ s) + map_count (work_tokens_ s) in
            if (negb (bool_decide (is_Some converts)) &&
                (maximum_terminal_replay (config_ s) <=? retained_identities)) ||
               negb (FitsByteBudget replay_without_reservation accounted
                       (maximum_terminal_replay_bytes (config_ s)))
            then (kUnavailable, s)
            else
              let s :=
                if bool_decide (is_Some converts)
                then s <| terminal_replay_bytes_ := replay_without_reservation |>
                       <| work_tokens_ := delete (DispatchJob.work_id job) (work_tokens_ s) |>
                else s in
              let s := (RememberReplayLocked (DispatchJob.work_id job) entry s).2 in
              (kCommitted, push_work s frame frame_bytes)
    end.

(** Whether the reservation was made, and the job carrying it. *)
Definition ReserveTerminalReplayLocked (job : DispatchJob.t) : C (bool * DispatchJob.t) := λ s,
  if str_empty (DispatchJob.work_id job) ||
     (maximum_terminal_replay (config_ s) <=?
      map_count (replay_ s) + map_count (work_tokens_ s))
  then ((false, job), s)
  else
    let metadata_bytes :=
      u64 (str_size (DispatchJob.fingerprint job) + kCanonicalSha256TextBytes) in
    if size_max - metadata_bytes <? maximum_work_frame_bytes_ s then ((false, job), s)
    else
      let reservation := u64 (maximum_work_frame_bytes_ s + metadata_bytes) in
      if negb (FitsByteBudget (terminal_replay_bytes_ s) reservation
                 (maximum_terminal_replay_bytes (config_ s)))
      then ((false, job), s)
      else ((true, job <| DispatchJob.terminal_reservation_bytes := reservation |>),
            s <| terminal_replay_bytes_ := u64 (terminal_replay_bytes_ s + reservation) |>).

Definition ReleaseWorkTokenLocked (work_id : string) : C unit := modify (λ s,
  match work_tokens_ s !! work_id with
  | None => s
  | Some token =>
      let bytes :=
        if WorkTokenState.terminal_reservation_bytes token <=? terminal_replay_bytes_ s
        then u64 (terminal_replay_bytes_ s - WorkTokenState.terminal_reservation_bytes token)
        else 0 in
      s <| terminal_replay_bytes_ := bytes |>
        <| work_tokens_ := delete work_id (work_tokens_ s) |>
  end).

(** [while (!work_tokens_.empty()) ReleaseWorkTokenLocked(begin()->first)]: each
    iteration erases one entry. *)
Fixpoint release_loop (fuel : nat) : C unit :=
  match fuel with
  | O => mret tt
  | S fuel =>
      first ← gets (λ s, head (entries (work_tokens_ s)));
      match first with
      | None => mret tt
      | Some entry => ReleaseWorkTokenLocked entry.1 ;; release_loop fuel
      end
  end.

Definition ReleaseAllWorkTokensLocked : C unit := λ s, release_loop (base.size (work_tokens_ s)) s.

(** ** Capability lookup *)

(** [None] is an [ActiveEndpoint] that is not [valid]. *)
Definition FindActiveEndpointLocked (s : Impl) (capability_id endpoint_id : string)
    : option ActiveEndpoint.t :=
  match active_capabilities_ s !! capability_id with
  | None => None
  | Some active =>
      if bool_decide (endpoint_id ∉
           EnabledCapability.enabled_endpoint_ids (ActiveCapability.grant active))
      then None
      else
        match capabilities (config_ s) !! ActiveCapability.binding_index active with
        | None => None
        | Some binding =>
            match FindEndpoint (contract binding) endpoint_id with
            | None => None
            | Some endpoint =>
                Some (ActiveEndpoint.make (ActiveCapability.binding_index active)
                        (ActiveCapability.grant active) endpoint)
            end
        end
  end.

Definition CountSourceStreamsLocked (s : Impl) (capability_id endpoint_id : string) : Z :=
  size (filter (λ stream : string * SourceState.t,
    WorkContext.capability_id (SourceOpenRequest.context (SourceState.request stream.2)) =
      capability_id ∧
    WorkContext.endpoint_id (SourceOpenRequest.context (SourceState.request stream.2)) =
      endpoint_id) (map_to_list (source_streams_ s))).
End queue.
