(* ===== verification/Bounds.v ===== *)
(** * The resource invariant

    [Bounded]: every bounded structure of the client is inside its entry and
    byte budgets and its byte counter is exact (at least sufficient, for source
    state).  It is a function of [core], so whatever leaves [core] alone keeps
    it; this file proves it for the operations of [queue.cpp]. *)

From S2P Require Import Prelude Text Digest Messages Clock Config State Queue.

(** ** One bounded queue *)

Record QueueInv {A} (bytes : A → Z) (frame_limit max_count max_bytes : Z)
    (q : list A * Z) : Prop := {
  qi_sum : q.2 = list_sum bytes q.1;
  qi_count : size q.1 ≤ max_count;
  qi_bytes : q.2 ≤ max_bytes;
  qi_frames : Forall (λ f, 0 ≤ bytes f ≤ frame_limit) q.1;
}.

Section queue_inv.
Context {A : Type} (bytes : A → Z) (limit count budget : Z).
Implicit Types (q : list A) (n : Z).
Abbreviation inv := (QueueInv bytes limit count budget).

Lemma queue_clear : 0 ≤ count → 0 ≤ budget → inv ([], 0).
Proof. by split; [|unfold size; simpl| |]. Qed.

Lemma queue_nonneg q n : inv (q, n) → 0 ≤ n.
Proof.
  intros [Hsum _ _ Hf]. simpl in *. rewrite Hsum. apply list_sum_nonneg.
  eapply Forall_impl; [exact Hf|]. simpl. lia.
Qed.

Lemma queue_push q n x :
  in_u64 budget → inv (q, n) → size q < count → 0 ≤ bytes x ≤ limit →
  n + bytes x ≤ budget → inv (q ++ [x], u64 (n + bytes x)).
Proof.
  intros [_ ?] Hi Hc Hx Hb. pose proof (queue_nonneg q n Hi). destruct Hi as [Hsum _ _ Hf].
  simpl in *. rewrite u64_id by (unfold in_u64; lia).
  split; simpl; [|unfold size in *; rewrite length_app; simpl; lia|lia|].
  - rewrite list_sum_app, Hsum. simpl. lia.
  - apply Forall_app. split; [done|by constructor].
Qed.

Lemma queue_pop q n x :
  in_u64 budget → inv (x :: q, n) → inv (q, u64 (n - bytes x)).
Proof.
  intros [_ ?] Hi. destruct Hi as [Hsum Hc Hb Hf]. simpl in *.
  inversion Hf as [|? ? Hx Hf']; subst.
  assert (0 ≤ list_sum bytes q).
  { apply list_sum_nonneg. eapply Forall_impl; [exact Hf'|]. simpl. lia. }
  rewrite u64_id by (unfold in_u64; lia).
  split; simpl; [lia| |lia|done]. unfold size in *. simpl in *. lia.
Qed.
End queue_inv.

(** ** The components *)

(** [std::size_t] configuration limits. *)
Definition limits_ok (c : ClientConfig) : Prop :=
  in_u64 (maximum_control_queue c) ∧ in_u64 (maximum_work_queue c) ∧
  in_u64 (maximum_dispatch_queue c) ∧ in_u64 (maximum_terminal_replay c) ∧
  in_u64 (maximum_source_streams c) ∧ in_u64 (maximum_source_tombstones c) ∧
  in_u64 (maximum_control_queue_bytes c) ∧ in_u64 (maximum_work_queue_bytes c) ∧
  in_u64 (maximum_dispatch_queue_bytes c) ∧ in_u64 (maximum_terminal_replay_bytes c) ∧
  in_u64 (maximum_source_state_bytes c).

Definition ControlInv (c : Core) : Prop :=
  QueueInv QueuedControlFrame.accounted_bytes (co_max_control c)
    (maximum_control_queue (co_config c)) (maximum_control_queue_bytes (co_config c))
    (co_control c).

Definition WorkInv (c : Core) : Prop :=
  QueueInv QueuedWorkFrame.accounted_bytes (co_max_work c)
    (maximum_work_queue (co_config c)) (maximum_work_queue_bytes (co_config c)) (co_work c).

Definition DispatchInv (c : Core) : Prop :=
  QueueInv DispatchJob.accounted_bytes (maximum_dispatch_queue_bytes (co_config c))
    (maximum_dispatch_queue (co_config c)) (maximum_dispatch_queue_bytes (co_config c))
    (co_dispatch c).

(** Reservations and retained terminals together account for the byte counter
    exactly. *)
Record ReplayInv (config : ClientConfig) (tokens : gmap string WorkTokenState.t)
    (replay : gmap string ReplayEntry.t) (bytes : Z) : Prop := {
  ri_sum : bytes = map_sum WorkTokenState.terminal_reservation_bytes tokens +
                   map_sum ReplayEntry.accounted_bytes replay;
  ri_bytes : bytes ≤ maximum_terminal_replay_bytes config;
  ri_count : map_count replay + map_count tokens ≤ maximum_terminal_replay config;
  ri_tokens : ∀ id token, tokens !! id = Some token →
    0 ≤ WorkTokenState.terminal_reservation_bytes token;
  ri_entries : ∀ id entry, replay !! id = Some entry → 0 ≤ ReplayEntry.accounted_bytes entry;
}.

(** Open and closed sources are disjoint and inside the identity limits; the
    byte counter covers both.  (It may exceed the sum: while a pair is torn down
    the open sources are forgotten before the counter is reset.) *)
Record SourceInv (config : ClientConfig) (sources : gmap string SourceState.t)
    (closed : gmap string ClosedSourceState.t) (bytes : Z) : Prop := {
  si_disjoint : ∀ id source, sources !! id = Some source → closed !! id = None;
  si_sum : map_sum SourceState.accounted_bytes sources +
           map_sum ClosedSourceState.accounted_bytes closed ≤ bytes;
  si_bytes : bytes ≤ maximum_source_state_bytes config;
  si_streams : map_count sources ≤ maximum_source_streams config;
  si_tombstones : map_count sources + map_count closed ≤ maximum_source_tombstones config;
  si_sources : ∀ id source, sources !! id = Some source →
    0 ≤ SourceState.accounted_bytes source ∧ str_empty id = false ∧
    WorkContext.work_id (SourceOpenRequest.context (SourceState.request source)) = id;
  si_closed : ∀ id c, closed !! id = Some c → 0 ≤ ClosedSourceState.accounted_bytes c;
}.

(** Frame limits are [uint32] values negotiated by Register. *)
Definition frame_limits_ok (c : Core) : Prop :=
  in_u32 (co_max_work c) ∧ in_u32 (co_max_control c).

Record BoundedCore (c : Core) : Prop := {
  b_limits : limits_ok (co_config c);
  b_frames : frame_limits_ok c;
  b_control : ControlInv c;
  b_work : WorkInv c;
  b_dispatch : DispatchInv c;
  b_replay : ReplayInv (co_config c) (co_tokens c) (co_replay c) (co_replay_bytes c);
  b_source : SourceInv (co_config c) (co_sources c) (co_closed c) (co_source_bytes c);
}.

Definition Bounded (s : Impl) : Prop := BoundedCore (core s).

Lemma Bounded_frame {A} (m : C A) : frame core m → keeps Bounded m.
Proof. apply (frame_keeps core BoundedCore). Qed.

(** The part of [core] the invariant reads. *)
Definition view (s : Impl) :=
  (config_ s, (control_queue_ s, control_queue_bytes_ s), (work_queue_ s, work_queue_bytes_ s),
   (dispatch_queue_ s, dispatch_queue_bytes_ s), (work_tokens_ s, replay_ s, terminal_replay_bytes_ s),
   (source_streams_ s, closed_sources_ s, source_state_bytes_ s),
   (maximum_work_frame_bytes_ s, maximum_control_frame_bytes_ s)).

Lemma Bounded_same s s' : view s' = view s → Bounded s → Bounded s'.
Proof.
  unfold view. intros [= E1 E2 E3 E4 E5 E6 E7 E8 E9 E10 E11 E12 E13 E14 E15] [].
  split; unfold frame_limits_ok, ControlInv, WorkInv, DispatchInv in *; simpl in *; congruence.
Qed.

Lemma Bounded_view {A} (m : C A) : frame view m → keeps Bounded m.
Proof. intros Hm s. apply Bounded_same, Hm. Qed.

Lemma view_core {A} (m : C A) : frame core m → frame view m.
Proof. intros Hm s. pose proof (Hm s) as [=]. unfold view. congruence. Qed.

Lemma view_CancelAllWorkLocked : frame view CancelAllWorkLocked.
Proof. apply view_core, core_CancelAllWorkLocked. Qed.
#[export] Hint Resolve view_CancelAllWorkLocked : frame.

#[export] Hint Extern 5 (keeps Bounded _) =>
  (apply Bounded_frame; solve [eauto 2 with frame nocore]) : keeps.

Ltac limits :=
  match goal with Hl : limits_ok _ |- _ =>
    unfold limits_ok in Hl; destruct_and! Hl; try assumption; unfold in_u64 in *; simpl in *; lia
  end.

Lemma map_count_nonneg {V} (m : gmap string V) : 0 ≤ map_count m.
Proof. unfold map_count. lia. Qed.

Lemma map_count_insert {V} (m : gmap string V) k v :
  m !! k = None → map_count (<[k:=v]> m) = map_count m + 1.
Proof. intros Hk. unfold map_count. rewrite map_size_insert_None by done. lia. Qed.

Lemma map_count_delete {V} (m : gmap string V) k v :
  m !! k = Some v → map_count (delete k m) = map_count m - 1.
Proof. intros Hk. unfold map_count. rewrite (size_delete_Some m k v Hk). lia. Qed.

Lemma map_count_replace {V} (m : gmap string V) k v v' :
  m !! k = Some v → map_count (<[k:=v']> m) = map_count m.
Proof. intros Hk. unfold map_count. rewrite map_size_insert. by rewrite Hk. Qed.

Lemma map_count_empty {V} : map_count (∅ : gmap string V) = 0.
Proof. unfold map_count. by rewrite map_size_empty. Qed.

Lemma replay_bytes_nonneg config tokens replay bytes :
  ReplayInv config tokens replay bytes → 0 ≤ bytes.
Proof.
  intros [Hsum _ _ Ht He]. rewrite Hsum.
  pose proof (map_sum_nonneg _ _ Ht). pose proof (map_sum_nonneg _ _ He). lia.
Qed.

Lemma source_bytes_nonneg config sources closed bytes :
  SourceInv config sources closed bytes → 0 ≤ bytes.
Proof.
  intros [_ Hsum _ _ _ Hs Hc].
  pose proof (map_sum_nonneg _ _ (λ k v Hk, proj1 (Hs k v Hk))).
  pose proof (map_sum_nonneg _ _ Hc). lia.
Qed.

Lemma SourceInv_empty config : limits_ok config → SourceInv config ∅ ∅ 0.
Proof.
  intros Hl. split; unfold map_count; rewrite ?map_sum_empty, ?map_size_empty; try done; try limits.
Qed.

Lemma ReplayInv_empty config : limits_ok config → ReplayInv config ∅ ∅ 0.
Proof.
  intros Hl. split; unfold map_count; rewrite ?map_sum_empty, ?map_size_empty; try done; try limits.
Qed.

(** ** Queues *)

Section bounds.
Context `{Protobuf}.

Lemma FitsByteBudget_le used added maximum :
  FitsByteBudget used added maximum = true → used + added ≤ maximum.
Proof. unfold FitsByteBudget. rewrite andb_true_iff, !Z.leb_le. lia. Qed.

Lemma FitsByteBudget_true used added maximum :
  0 ≤ used → used + added ≤ maximum → FitsByteBudget used added maximum = true.
Proof. intros. apply FitsByteBudget_spec; lia. Qed.

Lemma Bounded_push_work s frame frame_bytes :
  Bounded s → size (work_queue_ s) < maximum_work_queue (config_ s) →
  0 ≤ frame_bytes ≤ maximum_work_frame_bytes_ s →
  work_queue_bytes_ s + frame_bytes ≤ maximum_work_queue_bytes (config_ s) →
  Bounded (push_work s frame frame_bytes).
Proof.
  intros [Hl Hf Hc Hw Hd Hr Hs] ? ? ?.
  split; try done.
  apply (queue_push QueuedWorkFrame.accounted_bytes _ _ _ (work_queue_ s) (work_queue_bytes_ s)
    (QueuedWorkFrame.make (WorkRequest.make None frame) frame_bytes)); try done; limits.
Qed.

Lemma Bounded_push_control s frame frame_bytes :
  Bounded s → size (control_queue_ s) < maximum_control_queue (config_ s) →
  0 ≤ frame_bytes ≤ maximum_control_frame_bytes_ s →
  control_queue_bytes_ s + frame_bytes ≤ maximum_control_queue_bytes (config_ s) →
  Bounded (push_control s frame frame_bytes).
Proof.
  intros [Hl Hf Hc Hw Hd Hr Hs] ? ? ?.
  split; try done.
  apply (queue_push QueuedControlFrame.accounted_bytes _ _ _ (control_queue_ s)
    (control_queue_bytes_ s)
    (QueuedControlFrame.make (ControlRequest.make None frame) frame_bytes)); try done; limits.
Qed.

Lemma QueueWorkLocked_keeps frame : keeps Bounded (QueueWorkLocked frame).
Proof.
  intros s Hs. unfold QueueWorkLocked. case_match eqn:Hg; simpl; [by destruct (work_queue_full _ _)|].
  guards. apply Bounded_push_work; [done|lia|unfold WorkFrameBytesLocked in *; lia|].
  by apply FitsByteBudget_le.
Qed.

Lemma QueueControlLocked_keeps frame : keeps Bounded (QueueControlLocked frame).
Proof.
  intros s Hs. unfold QueueControlLocked. case_match eqn:Hg; simpl;
    [by destruct (control_queue_full _ _)|].
  guards. apply Bounded_push_control; [done|lia|unfold ControlFrameBytesLocked in *; lia|].
  by apply FitsByteBudget_le.
Qed.
Hint Resolve QueueWorkLocked_keeps QueueControlLocked_keeps : keeps.

Lemma QueueWork_keeps frame : keeps Bounded (QueueWork frame).
Proof. apply QueueWorkLocked_keeps. Qed.

Lemma QueueControl_keeps frame : keeps Bounded (QueueControl frame).
Proof. apply QueueControlLocked_keeps. Qed.

Lemma QueueWorkOrFail_keeps frame : keeps Bounded (QueueWorkOrFail frame).
Proof. unfold QueueWorkOrFail. auto with keeps. Qed.

Lemma PopWork_keeps : keeps Bounded PopWork.
Proof.
  intros s [Hl Hf Hc Hw Hd Hr Hs]. unfold PopWork.
  destruct (work_queue_ s) as [|front rest] eqn:Hq; simpl; [by split|].
  split; try done. unfold WorkInv in *. simpl in *. rewrite Hq in Hw.
  apply (queue_pop QueuedWorkFrame.accounted_bytes _ _ _ rest (work_queue_bytes_ s) front);
    [limits|done].
Qed.

Lemma PopControl_keeps : keeps Bounded PopControl.
Proof.
  intros s [Hl Hf Hc Hw Hd Hr Hs]. unfold PopControl.
  destruct (control_queue_ s) as [|front rest] eqn:Hq; simpl; [by split|].
  split; try done. unfold ControlInv in *. simpl in *. rewrite Hq in Hc.
  apply (queue_pop QueuedControlFrame.accounted_bytes _ _ _ rest (control_queue_bytes_ s) front);
    [limits|done].
Qed.

(** ** The replay table *)

Lemma ReplayInv_release config tokens replay bytes id token :
  ReplayInv config tokens replay bytes → tokens !! id = Some token →
  WorkTokenState.terminal_reservation_bytes token ≤ bytes ∧
  ReplayInv config (delete id tokens) replay
    (bytes - WorkTokenState.terminal_reservation_bytes token).
Proof.
  intros [Hsum Hb Hn Ht He] Hid. pose proof (map_sum_lookup_le _ _ _ _ Ht Hid).
  pose proof (map_sum_nonneg _ _ He). pose proof (Ht _ _ Hid). split; [lia|].
  split; [rewrite (map_sum_delete _ _ _ _ Hid); lia|lia| | |done].
  - rewrite (map_count_delete _ _ _ Hid). lia.
  - intros id' t [_ ?]%lookup_delete_Some. eauto.
Qed.

Lemma ReplayInv_retain config tokens replay bytes id entry :
  ReplayInv config tokens replay bytes → replay !! id = None →
  0 ≤ ReplayEntry.accounted_bytes entry →
  map_count replay + map_count tokens < maximum_terminal_replay config →
  bytes + ReplayEntry.accounted_bytes entry ≤ maximum_terminal_replay_bytes config →
  ReplayInv config tokens (<[id := entry]> replay) (bytes + ReplayEntry.accounted_bytes entry).
Proof.
  intros [Hsum Hb Hn Ht He] Hid ? ? ?.
  split; [rewrite map_sum_insert by done; lia|done| |done|].
  - rewrite map_count_insert by done. lia.
  - intros id' e [[_ <-]|[_ ?]]%lookup_insert_Some; eauto.
Qed.

Lemma ReplayInv_reserve config tokens replay bytes id token :
  ReplayInv config tokens replay bytes → tokens !! id = None →
  0 ≤ WorkTokenState.terminal_reservation_bytes token →
  map_count replay + map_count tokens < maximum_terminal_replay config →
  bytes + WorkTokenState.terminal_reservation_bytes token ≤
    maximum_terminal_replay_bytes config →
  ReplayInv config (<[id := token]> tokens) replay
    (bytes + WorkTokenState.terminal_reservation_bytes token).
Proof.
  intros [Hsum Hb Hn Ht He] Hid ? ? ?.
  split; [rewrite map_sum_insert by done; lia|done| | |done].
  - rewrite map_count_insert by done. lia.
  - intros id' t [[_ <-]|[_ ?]]%lookup_insert_Some; eauto.
Qed.

Lemma ReplayInv_acknowledge config tokens replay bytes id entry :
  ReplayInv config tokens replay bytes → replay !! id = Some entry →
  0 ≤ bytes - ReplayEntry.accounted_bytes entry ∧
  ReplayInv config tokens (delete id replay) (bytes - ReplayEntry.accounted_bytes entry).
Proof.
  intros [Hsum Hb Hn Ht He] Hid. pose proof (map_sum_lookup_le _ _ _ _ He Hid).
  pose proof (map_sum_nonneg _ _ Ht). pose proof (He _ _ Hid). split; [lia|].
  split; [rewrite (map_sum_delete _ _ _ _ Hid); lia|lia| |done|].
  - rewrite (map_count_delete _ _ _ Hid). lia.
  - intros id' e [_ ?]%lookup_delete_Some. eauto.
Qed.

Lemma ReleaseWorkTokenLocked_keeps work_id : keeps Bounded (ReleaseWorkTokenLocked work_id).
Proof.
  intros s Hs. unfold ReleaseWorkTokenLocked. simpl.
  destruct (work_tokens_ s !! work_id) as [token|] eqn:Hid; [|done].
  destruct Hs as [Hl Hf Hc Hw Hd Hr Hs]. simpl in *.
  destruct (ReplayInv_release _ _ _ _ _ _ Hr Hid) as [Hle Hr'].
  rewrite (proj2 (Z.leb_le _ _)) by done.
  pose proof (replay_bytes_nonneg _ _ _ _ Hr'). pose proof (ri_bytes _ _ _ _ Hr').
  rewrite u64_id by (unfold in_u64; limits).
  by split.
Qed.
Hint Resolve ReleaseWorkTokenLocked_keeps : keeps.

Lemma release_loop_keeps fuel : keeps Bounded (release_loop fuel).
Proof.
  induction fuel as [|fuel IH]; simpl; [apply keeps_ret|].
  apply keeps_bind; [auto with keeps|]. intros [entry|]; auto with keeps.
Qed.

Lemma ReleaseAllWorkTokensLocked_keeps : keeps Bounded ReleaseAllWorkTokensLocked.
Proof. intros s Hs. by apply release_loop_keeps. Qed.

Lemma converted_reservation_Some s job reservation :
  converted_reservation s job = Some reservation →
  ∃ token, work_tokens_ s !! DispatchJob.work_id job = Some token ∧
    WorkTokenState.terminal_reservation_bytes token = reservation ∧ reservation ≠ 0 ∧
    WorkTokenState.cancellation token = DispatchJob.cancellation job.
Proof.
  unfold converted_reservation. destruct (work_tokens_ s !! _) as [token|]; [|done].
  case_match eqn:Hg; [|done]. intros [= <-]. guards. eauto.
Qed.

Lemma RememberReplayLocked_new s id entry :
  replay_ s !! id = None →
  0 ≤ terminal_replay_bytes_ s →
  0 ≤ ReplayEntry.accounted_bytes entry →
  terminal_replay_bytes_ s + ReplayEntry.accounted_bytes entry ≤ u64_max →
  (RememberReplayLocked id entry s).2 =
  s <| terminal_replay_bytes_ := terminal_replay_bytes_ s + ReplayEntry.accounted_bytes entry |>
    <| replay_ := <[id := entry]> (replay_ s) |>.
Proof.
  intros Hid ? ? ?. unfold RememberReplayLocked. simpl. rewrite Hid.
  by rewrite u64_id by (unfold in_u64; lia).
Qed.

Lemma Bounded_release s id token :
  Bounded s → work_tokens_ s !! id = Some token →
  Bounded (s <| terminal_replay_bytes_ := terminal_replay_bytes_ s -
                  WorkTokenState.terminal_reservation_bytes token |>
             <| work_tokens_ := delete id (work_tokens_ s) |>).
Proof.
  intros [Hl Hf Hc Hw Hd Hr Hs] Hid. split; try done. by apply ReplayInv_release.
Qed.

Lemma Bounded_retain s id entry :
  Bounded s → replay_ s !! id = None → 0 ≤ ReplayEntry.accounted_bytes entry →
  map_count (replay_ s) + map_count (work_tokens_ s) < maximum_terminal_replay (config_ s) →
  terminal_replay_bytes_ s + ReplayEntry.accounted_bytes entry ≤
    maximum_terminal_replay_bytes (config_ s) →
  Bounded (RememberReplayLocked id entry s).2.
Proof.
  intros [Hl Hf Hc Hw Hd Hr Hs] Hid ? ? ?. simpl in Hl, Hr.
  pose proof (replay_bytes_nonneg _ _ _ _ Hr).
  rewrite RememberReplayLocked_new by (done || limits).
  split; try done. by apply ReplayInv_retain.
Qed.

(** The two ways a terminal is retained: in place of its reservation, or as a
    new identity. *)
Definition convert_reservation (s : Impl) (job : DispatchJob.t) : Impl :=
  match converted_reservation s job with
  | Some reservation =>
      s <| terminal_replay_bytes_ := terminal_replay_bytes_ s - reservation |>
        <| work_tokens_ := delete (DispatchJob.work_id job) (work_tokens_ s) |>
  | None => s
  end.

Lemma Bounded_convert s job :
  Bounded s →
  Bounded (convert_reservation s job) ∧
  (is_Some (converted_reservation s job) →
   map_count (replay_ s) + map_count (work_tokens_ (convert_reservation s job)) <
   maximum_terminal_replay (config_ s)).
Proof.
  intros Hs. unfold convert_reservation.
  destruct (converted_reservation s job) as [r|] eqn:Hr; [|split; [done|by intros []]].
  apply converted_reservation_Some in Hr as (token & Hid & <- & _ & _).
  split; [by apply Bounded_release|]. intros _. simpl.
  pose proof (ri_count _ _ _ _ (b_replay _ Hs)). simpl in *.
  rewrite (map_count_delete _ _ _ Hid). lia.
Qed.

(** What a committed terminal does to the state. *)
Lemma CommitTerminalFrame_committed s job frame :
  (CommitTerminalFrame job frame s).1 = kCommitted →
  ∃ unary operation digest,
    let frame_bytes := WorkFrameBytesLocked s frame in
    let entry := ReplayEntry.make (DispatchJob.kind job) (DispatchJob.fingerprint job)
      unary operation digest
      (u64 (frame_bytes + str_size (DispatchJob.fingerprint job) + str_size digest)) in
    replay_entry job frame = Some (unary, operation, digest) ∧
    frame_bytes ≤ maximum_work_frame_bytes_ s ∧
    session_closed s = false ∧ work_queue_full s frame_bytes = false ∧
    replay_ s !! DispatchJob.work_id job = None ∧
    (converted_reservation s job = None →
     map_count (replay_ s) + map_count (work_tokens_ s) < maximum_terminal_replay (config_ s)) ∧
    terminal_replay_bytes_ (convert_reservation s job) + ReplayEntry.accounted_bytes entry ≤
      maximum_terminal_replay_bytes (config_ s) ∧
    (CommitTerminalFrame job frame s).2 =
    push_work (RememberReplayLocked (DispatchJob.work_id job) entry
                 (convert_reservation s job)).2 frame frame_bytes.
Proof.
  unfold CommitTerminalFrame, convert_reservation.
  destruct (_ <? WorkFrameBytesLocked s frame) eqn:?; [done|].
  destruct (session_closed s || _) eqn:?; [done|].
  destruct (replay_entry job frame) as [[[unary operation] digest]|]; [|done].
  destruct (bool_decide (is_Some (replay_ s !! _))) eqn:?; [done|].
  destruct (_ <? default 0 _) eqn:?; [done|].
  destruct (negb _ && _ || _) eqn:Hg; [done|]. intros _. exists unary, operation, digest.
  simpl. apply orb_false_iff in Hg as [Hg Hfits]. apply negb_false_iff in Hfits.
  apply FitsByteBudget_le in Hfits. guards. rewrite <-eq_None_not_Some in *.
  destruct (converted_reservation s job) as [r|]; simpl in *;
    repeat split; try done; try lia; intros; destruct Hg; simpl in *; guards; try done.
Qed.

Lemma CommitTerminalFrame_other s job frame :
  (CommitTerminalFrame job frame s).1 ≠ kCommitted →
  (CommitTerminalFrame job frame s).2 = s ∨ (CommitTerminalFrame job frame s).2 = count_dropped s.
Proof. unfold CommitTerminalFrame. repeat case_match; simpl; auto; done. Qed.

Lemma CommitTerminalFrame_keeps job frame : keeps Bounded (CommitTerminalFrame job frame).
Proof.
  intros s Hs. destruct (decide ((CommitTerminalFrame job frame s).1 = kCommitted)) as [Hc|Hc];
    [|by destruct (CommitTerminalFrame_other s job frame Hc) as [->| ->]].
  apply CommitTerminalFrame_committed in Hc
    as (unary & operation & digest & _ & Hframe & _ & Hfull & Hnew & Hroom & Hbytes & ->).
  destruct (Bounded_convert s job Hs) as [Hs1 Hconv].
  assert (replay_ (convert_reservation s job) = replay_ s ∧
    work_queue_ (convert_reservation s job) = work_queue_ s ∧
    work_queue_bytes_ (convert_reservation s job) = work_queue_bytes_ s ∧
    maximum_work_frame_bytes_ (convert_reservation s job) = maximum_work_frame_bytes_ s ∧
    config_ (convert_reservation s job) = config_ s) as (E1 & E2 & E3 & E4 & E5)
    by (unfold convert_reservation; by case_match).
  unfold work_queue_full in Hfull. guards.
  apply Bounded_push_work; simpl; rewrite ?E2, ?E3, ?E4, ?E5; try lia.
  - apply Bounded_retain; rewrite ?E1, ?E5; try done; [apply u64_range|].
    destruct (converted_reservation s job) eqn:Hr; [by apply Hconv|].
    unfold convert_reservation. rewrite Hr. by apply Hroom.
  - unfold WorkFrameBytesLocked in *. lia.
  - by apply FitsByteBudget_le.
Qed.

(** A reservation and the token that carries it are made in one critical
    section. *)
Lemma ReserveTerminalReplayLocked_true s job job' s' :
  ReserveTerminalReplayLocked job s = ((true, job'), s') →
  ∃ reservation,
    reservation = u64 (maximum_work_frame_bytes_ s +
      u64 (str_size (DispatchJob.fingerprint job) + kCanonicalSha256TextBytes)) ∧
    map_count (replay_ s) + map_count (work_tokens_ s) < maximum_terminal_replay (config_ s) ∧
    terminal_replay_bytes_ s + reservation ≤ maximum_terminal_replay_bytes (config_ s) ∧
    str_empty (DispatchJob.work_id job) = false ∧
    job' = job <| DispatchJob.terminal_reservation_bytes := reservation |> ∧
    s' = s <| terminal_replay_bytes_ := u64 (terminal_replay_bytes_ s + reservation) |>.
Proof.
  unfold ReserveTerminalReplayLocked. case_match eqn:Hg; [done|]. case_match; [done|].
  case_match eqn:Hfit; [done|]. intros [= <- <-]. guards. apply FitsByteBudget_le in Hfit.
  by eexists.
Qed.

Lemma ReserveTerminalReplayLocked_false s job job' s' :
  ReserveTerminalReplayLocked job s = ((false, job'), s') → job' = job ∧ s' = s.
Proof. unfold ReserveTerminalReplayLocked. repeat case_match; naive_solver. Qed.

Lemma Bounded_reserve s id token reservation :
  Bounded s → work_tokens_ s !! id = None →
  0 ≤ reservation → WorkTokenState.terminal_reservation_bytes token = reservation →
  map_count (replay_ s) + map_count (work_tokens_ s) < maximum_terminal_replay (config_ s) →
  terminal_replay_bytes_ s + reservation ≤ maximum_terminal_replay_bytes (config_ s) →
  Bounded (s <| terminal_replay_bytes_ := u64 (terminal_replay_bytes_ s + reservation) |>
             <| work_tokens_ := <[id := token]> (work_tokens_ s) |>).
Proof.
  intros [Hl Hf Hc Hw Hd Hr Hs] Hid ? <- ? ?. simpl in Hl, Hr.
  pose proof (replay_bytes_nonneg _ _ _ _ Hr).
  rewrite u64_id by (unfold in_u64; limits).
  split; try done. by apply ReplayInv_reserve.
Qed.
End bounds.

#[export] Hint Resolve QueueWorkLocked_keeps QueueControlLocked_keeps QueueWork_keeps
  QueueControl_keeps QueueWorkOrFail_keeps PopWork_keeps PopControl_keeps
  ReleaseWorkTokenLocked_keeps ReleaseAllWorkTokensLocked_keeps CommitTerminalFrame_keeps
  : keeps.

Lemma safe_call_keeps `{Environment} `{!Rely Bounded} label c : keeps Bounded (safe_call label c).
Proof.
  unfold safe_call, call. apply keeps_bind; [apply keeps_bind; [auto with keeps|]|].
  - intros _. exact (rely_invoke c).
  - intros []; auto with keeps.
Qed.
#[export] Hint Resolve safe_call_keeps : keeps.

(** Prove [keeps Bounded m] by taking [m] apart. *)
Ltac solve_keeps :=
  repeat first
    [ solve [auto 2 with keeps]
    | lazymatch goal with
      | |- keeps _ (invoke ?c) => exact (rely_invoke c)
      | |- keeps _ (safe_call ?l ?c) => exact (safe_call_keeps l c)
      end
    | apply keeps_bind; [|intros ?]
    | apply keeps_when | apply keeps_if | apply keeps_for_each; intros ?
    | apply Bounded_view; first [apply frame_set_field; done | apply frame_modify; done]
    | case_match ].

