(* ===== verification/Stream.v ===== *)
(** * Source streams, acknowledgements, cancellation and drain

    [src/src/stream.cpp]: credit-controlled publishing, closing a stream with a
    retained terminal, credit grants, terminal acknowledgements, cancellation,
    drain and remote stop.  A function with a critical section and work after it
    is split into the section ([.._locked]) and the whole function. *)

From S2P Require Import Prelude Text Digest Messages Clock Config State Queue.

Section stream.
Context `{Protobuf} `{Environment}.

(** ** Publishing *)

Definition payload_bytes (items : list string) : Z :=
  fold_left (λ bytes item, SaturatingAdd bytes (str_size item)) items 0.

Definition PublishSource (stream_id : string) (items : list string) : C SourceWriteResult := λ s,
  if negb (bool_decide (state_ s = kReady)) || negb (accepting_work_ s) || session_failed_ s
  then (kNotReady, s)
  else
    match source_streams_ s !! stream_id with
    | None => (kUnknownStream, s)
    | Some stream =>
        if negb (SourceState.connection_epoch stream =? connection_epoch_counter_ s)
        then (kUnknownStream, s)
        else if negb (bool_decide (SourceState.phase stream = kOpen)) then (kNotReady, s)
        else if bool_decide (items = []) then (kTooLargeWrite, s)
        else
          let bytes := payload_bytes items in
          if bytes =? 0 then (kTooLargeWrite, s)
          else
            let messages := size items in
            if ((0 <? SourceState.maximum_chunk_messages stream) &&
                (SourceState.maximum_chunk_messages stream <? messages)) ||
               ((0 <? SourceState.maximum_chunk_bytes stream) &&
                (SourceState.maximum_chunk_bytes stream <? bytes))
            then (kTooLargeWrite, s)
            else if (SourceState.message_credit stream <? messages) ||
                    (SourceState.byte_credit stream <? bytes)
            then (kNoCredit, s)
            else if maximum_work_queue (config_ s) <=? size (work_queue_ s)
            then (kQueueFull, count_dropped s)
            else
              let frame := source_data (SourceData.make stream_id
                             (u64 (SourceState.sequence stream + 1)) items) in
              if negb (WorkFrameFitsLocked s frame) then (kTooLargeWrite, s)
              else
                let '(queued, s) := QueueWorkLocked frame s in
                if queued
                then
                  let stream := stream
                    <| SourceState.message_credit :=
                         u64 (SourceState.message_credit stream - messages) |>
                    <| SourceState.byte_credit := u64 (SourceState.byte_credit stream - bytes) |>
                    <| SourceState.sequence := u64 (SourceState.sequence stream + 1) |> in
                  (kAccepted, s <| source_streams_ := <[stream_id := stream]> (source_streams_ s) |>)
                else (kQueueFull, s)
    end.

(** ** Retained source terminals *)

Definition SourceOpenRejected (stream_id : string) (error : AdapterError.t) : WorkFrame :=
  source_open_result (SourceOpenResult.make stream_id false None (Some error)).

Definition RememberClosedSourceLocked (stream_id : string) (source : SourceState.t)
    (terminal_frame : WorkFrame) (terminal_digest : string) : C unit := modify (λ s,
  let closed := ClosedSourceState.make (SourceState.connection_epoch source)
    (SourceState.sequence source) (SourceState.acknowledged_sequence source)
    (WorkContext.request_digest (SourceOpenRequest.context (SourceState.request source)))
    terminal_digest (WorkRequest.make None terminal_frame)
    (SourceState.accounted_bytes source) in
  s <| closed_sources_ := <[stream_id := closed]> (closed_sources_ s) |>).

(** The stream a source terminal names, and the message its digest is taken of. *)
Definition source_terminal (frame : WorkFrame) : option (string * TerminalMessage) :=
  match frame with
  | source_open_result m => Some (SourceOpenResult.stream_id m, SourceOpenTerminal m)
  | source_close m => Some (SourceClose.stream_id m, SourceCloseTerminal m)
  | _ => None
  end.

Definition CommitSourceTerminalLocked (stream_id : string) (source : SourceState.t)
    (terminal_frame : WorkFrame) : C bool := λ s,
  match source_terminal terminal_frame with
  | None => (false, s)
  | Some (named, message) =>
      if str_empty stream_id || negb (bool_decide (named = stream_id)) then (false, s)
      else
        match message_digest message with
        | None => (false, s)
        | Some terminal_digest =>
            if negb (WorkFrameFitsLocked s terminal_frame) then (false, s)
            else
              let '(queued, s) := QueueWorkLocked terminal_frame s in
              if queued
              then (true, (RememberClosedSourceLocked stream_id source terminal_frame
                             terminal_digest s).2)
              else (false, s)
        end
  end.

Definition erase_source (stream_id : string) : C unit :=
  modify (λ s, s <| source_streams_ := delete stream_id (source_streams_ s) |>).

Definition CloseSource (stream_id : string) (error : option AdapterError.t) : C bool := λ s,
  match source_streams_ s !! stream_id with
  | Some stream =>
      if negb (bool_decide (SourceState.phase stream = kOpen)) ||
         negb (SourceState.connection_epoch stream =? connection_epoch_counter_ s) ||
         session_failed_ s || stop_requested_ s ||
         from_option (λ e, negb (IsTypedError e)) false error ||
         (maximum_work_queue (config_ s) <=? size (work_queue_ s))
      then (false, if maximum_work_queue (config_ s) <=? size (work_queue_ s)
                   then count_dropped s else s)
      else
        let frame := source_close (SourceClose.make stream_id (SourceState.sequence stream) error) in
        let '(committed, s) := CommitSourceTerminalLocked stream_id stream frame s in
        if committed then (true, (erase_source stream_id s).2) else (false, s)
  | None => (false, if maximum_work_queue (config_ s) <=? size (work_queue_ s)
                    then count_dropped s else s)
  end.

Definition QueueWorkProtocolError (rejected_sequence : Z) (message : string) : C unit :=
  QueueWorkOrFail (work_protocol_error (WorkProtocolError.make rejected_sequence
    (MakeError ERROR_CLASS_REJECTED "invalid-work-frame" message 0))).

(** ** Credit *)

(** The critical section; the result is [protocol_error]. *)
Definition GrantSourceCredit_locked (credit : SourceCredit.t) : C string := λ s,
  let grant := SourceCredit.grant credit in
  if str_empty (SourceCredit.stream_id credit) ||
     negb (bool_decide (is_Some (SourceCredit.grant_ credit))) ||
     (CreditGrant.messages grant =? 0) || (CreditGrant.bytes grant =? 0)
  then ("SourceCredit grant must include positive message and byte credit", s)
  else
    match source_streams_ s !! SourceCredit.stream_id credit with
    | None =>
        match closed_sources_ s !! SourceCredit.stream_id credit with
        | None => ("SourceCredit references an unknown source stream", s)
        | Some closed =>
            if negb (ClosedSourceState.connection_epoch closed =? connection_epoch_counter_ s)
            then ("SourceCredit references an unknown source stream", s)
            else if (SourceCredit.acknowledged_sequence credit <?
                     ClosedSourceState.acknowledged_sequence closed) ||
                    (ClosedSourceState.final_sequence closed <?
                     SourceCredit.acknowledged_sequence credit)
            then ("late SourceCredit conflicts with the closed source", s)
            else
              let closed := closed <| ClosedSourceState.acknowledged_sequence :=
                                        SourceCredit.acknowledged_sequence credit |> in
              ("", s <| closed_sources_ :=
                          <[SourceCredit.stream_id credit := closed]> (closed_sources_ s) |>)
        end
    | Some stream =>
        if negb (bool_decide (SourceState.phase stream = kOpen)) ||
           negb (SourceState.connection_epoch stream =? connection_epoch_counter_ s)
        then ("SourceCredit references an unopened source stream", s)
        else if (SourceCredit.acknowledged_sequence credit <?
                 SourceState.acknowledged_sequence stream) ||
                (SourceState.sequence stream <? SourceCredit.acknowledged_sequence credit)
        then ("SourceCredit acknowledged_sequence is invalid", s)
        else if AddOverflows (SourceState.message_credit stream) (CreditGrant.messages grant) ||
                AddOverflows (SourceState.byte_credit stream) (CreditGrant.bytes grant)
        then ("SourceCredit would overflow the available credit", s)
        else
          let stream := stream
            <| SourceState.acknowledged_sequence := SourceCredit.acknowledged_sequence credit |>
            <| SourceState.message_credit :=
                 u64 (SourceState.message_credit stream + CreditGrant.messages grant) |>
            <| SourceState.byte_credit :=
                 u64 (SourceState.byte_credit stream + CreditGrant.bytes grant) |> in
          ("", s <| source_streams_ :=
                      <[SourceCredit.stream_id credit := stream]> (source_streams_ s) |>)
    end.

Definition GrantSourceCredit (credit : SourceCredit.t) (frame_sequence : Z) : C unit :=
  protocol_error ← GrantSourceCredit_locked credit;
  preempt ;;
  when (negb (str_empty protocol_error)) (QueueWorkProtocolError frame_sequence protocol_error).

(** ** Terminal acknowledgements *)

(** [find(id) != end()]. *)
Definition has {V} (m : gmap string V) (id : string) : bool := bool_decide (is_Some (m !! id)).

Definition HandleTerminalAcknowledgement_locked (acknowledgement : TerminalAcknowledgement.t)
    : C string := λ s,
  let digest := TerminalAcknowledgement.terminal_digest acknowledgement in
  if negb (IsCanonicalSha256 digest)
  then ("TerminalAcknowledgement terminal_digest is non-canonical", s)
  else
    match TerminalAcknowledgement.identity acknowledgement with
    | kWorkId work_id =>
        if str_empty work_id
        then ("TerminalAcknowledgement work_id must not be empty", s)
        else if has (work_tokens_ s) work_id || has (source_streams_ s) work_id
        then ("TerminalAcknowledgement references an active identity", s)
        else if has (closed_sources_ s) work_id
        then ("TerminalAcknowledgement used work_id for a source terminal", s)
        else
          match replay_ s !! work_id with
          | None => ("", s)
          | Some replay =>
              if negb (bool_decide (ReplayEntry.terminal_digest replay = digest))
              then ("TerminalAcknowledgement digest conflicts with retained Work", s)
              else ("", s <| terminal_replay_bytes_ := u64 (terminal_replay_bytes_ s -
                               ReplayEntry.accounted_bytes replay) |>
                          <| replay_ := delete work_id (replay_ s) |>)
          end
    | kStreamId stream_id =>
        if str_empty stream_id
        then ("TerminalAcknowledgement stream_id must not be empty", s)
        else if has (source_streams_ s) stream_id || has (work_tokens_ s) stream_id
        then ("TerminalAcknowledgement references an active identity", s)
        else if has (replay_ s) stream_id
        then ("TerminalAcknowledgement used stream_id for a Work terminal", s)
        else
          match closed_sources_ s !! stream_id with
          | None => ("", s)
          | Some closed =>
              if str_empty (ClosedSourceState.terminal_digest closed) ||
                 negb (bool_decide (ClosedSourceState.terminal_digest closed = digest))
              then ("TerminalAcknowledgement digest conflicts with retained source", s)
              else
                let bytes :=
                  if ClosedSourceState.accounted_bytes closed <=? source_state_bytes_ s
                  then u64 (source_state_bytes_ s - ClosedSourceState.accounted_bytes closed)
                  else 0 in
                ("", s <| source_state_bytes_ := bytes |>
                       <| closed_sources_ := delete stream_id (closed_sources_ s) |>)
          end
    | IDENTITY_NOT_SET =>
        ("TerminalAcknowledgement must identify exactly one terminal", s)
    end.

Definition HandleTerminalAcknowledgement (acknowledgement : TerminalAcknowledgement.t)
    (frame_sequence : Z) : C unit :=
  protocol_error ← HandleTerminalAcknowledgement_locked acknowledgement;
  preempt ;;
  when (negb (str_empty protocol_error)) (QueueWorkProtocolError frame_sequence protocol_error).

(** ** Cancellation *)

Definition SafeSourceClosed (binding : nat) (request : SourceOpenRequest.t)
    (error : AdapterError.t) : C unit :=
  safe_call "source_closed" (CallSourceClosed binding request error) ;; mret tt.

Definition NotifySourceClosed (source : SourceState.t) (error : AdapterError.t) : C unit :=
  config ← gets config_;
  match capabilities config !! SourceState.binding_index source with
  | Some binding =>
      when (cb_source_closed (callbacks binding))
        (SafeSourceClosed (SourceState.binding_index source) (SourceState.request source) error)
  | None => mret tt
  end.

(** What the critical section of [HandleCancellation] decides. *)
Record CancellationVerdict : Type := mkCancellationVerdict {
  cv_protocol_error : string; cv_fail_pair : bool; cv_notify_source : option SourceState.t
}.

Definition HandleCancellation_error (cancellation : WorkCancellation.t) : AdapterError.t :=
  let reason := if IsCanonicalText (WorkCancellation.reason cancellation)
                then WorkCancellation.reason cancellation else "Host cancelled Work" in
  MakeError ERROR_CLASS_CANCELLED "peer-cancelled" reason 0.

Definition HandleCancellation_locked (cancellation : WorkCancellation.t)
    : C CancellationVerdict := λ s,
  let refuse (message : string) := mkCancellationVerdict message false None in
  let nothing := mkCancellationVerdict "" false None in
  match WorkCancellation.identity cancellation with
  | IDENTITY_NOT_SET =>
      (refuse "WorkCancellation must identify exactly one work_id or stream_id", s)
  | kWorkId work_id =>
      if str_empty work_id then (refuse "WorkCancellation work_id must not be empty", s)
      else
        match work_tokens_ s !! work_id with
        | Some token => (nothing, (request_cancellation (WorkTokenState.cancellation token) s).2)
        | None => (nothing, s)
        end
  | kStreamId stream_id =>
      if str_empty stream_id then (refuse "WorkCancellation stream_id must not be empty", s)
      else
        match source_streams_ s !! stream_id with
        | None =>
            match closed_sources_ s !! stream_id with
            | Some closed =>
                if ClosedSourceState.connection_epoch closed =? connection_epoch_counter_ s
                then (nothing, s)
                else (refuse "WorkCancellation references an unknown source stream", s)
            | None => (refuse "WorkCancellation references an unknown source stream", s)
            end
        | Some stream =>
            if negb (SourceState.connection_epoch stream =? connection_epoch_counter_ s)
            then (refuse "WorkCancellation references a stale source stream", s)
            else
              let s := (request_cancellation (SourceState.cancellation stream) s).2 in
              if negb (bool_decide (SourceState.phase stream = kOpen)) then (nothing, s)
              else if maximum_work_queue (config_ s) <=? size (work_queue_ s)
              then (mkCancellationVerdict "" true None, count_dropped s)
              else
                let frame := source_close (SourceClose.make stream_id
                  (SourceState.sequence stream) (Some (HandleCancellation_error cancellation))) in
                let '(committed, s) := CommitSourceTerminalLocked stream_id stream frame s in
                if committed
                then (mkCancellationVerdict "" false (Some stream), (erase_source stream_id s).2)
                else (mkCancellationVerdict "" true None, s)
        end
  end.

Definition HandleCancellation (cancellation : WorkCancellation.t) (frame_sequence : Z) : C unit :=
  verdict ← HandleCancellation_locked cancellation;
  preempt ;;
  if negb (str_empty (cv_protocol_error verdict))
  then QueueWorkProtocolError frame_sequence (cv_protocol_error verdict)
  else if cv_fail_pair verdict
  then SignalCurrentSessionFailure "bounded Work queue could not acknowledge source cancellation"
  else
    match cv_notify_source verdict with
    | Some source => NotifySourceClosed source (HandleCancellation_error cancellation)
    | None => mret tt
    end.

(** ** Drain and remote stop *)

Definition drain_report_failed : C unit :=
  put session_failed_ := true ;;
  put accepting_work_ := false ;;
  put state_ := kReconnecting ;;
  put last_error_ := "Control byte budget could not report drain completion" ;;
  CancelAllWorkLocked.

Definition MaybeQueueDrainStatusLocked : C unit := λ s,
  if negb (drain_requested_ s) || drain_reported_ s || negb (in_flight_work_ s =? 0) ||
     negb (active_dispatch_jobs_ s =? 0) || negb (bool_decide (dispatch_queue_ s = [])) ||
     (maximum_control_queue (config_ s) <=? size (control_queue_ s))
  then (tt, s)
  else
    let '(queued, s) := QueueControlLocked (drain_status true 0) s in
    if queued then (tt, s <| drain_reported_ := true |>) else drain_report_failed s.

Definition BeginDrain : C unit :=
  state ← gets state_;
  when (bool_decide (state = kReady) || bool_decide (state = kApplyingSpec))
    (put state_ := kDraining) ;;
  put accepting_work_ := false ;;
  put drain_requested_ := true ;;
  MaybeQueueDrainStatusLocked.

Definition RequestRemoteStop (request : StopRequest.t) : C unit :=
  bound ← gets (λ s, cb_stop_requested (callbacks_ s));
  when bound (safe_call "stop_requested callback" (CallStopRequested request) ;; mret tt) ;;
  preempt ;;
  put stop_requested_ := true ;;
  put accepting_work_ := false ;;
  put state_ := kStopping ;;
  CancelAllWorkLocked ;;
  CancelActiveStreams.
End stream.
