(* ===== verification/StreamFacts.v ===== *)
(** * Properties of source streams and acknowledgements

    The resource invariant for the operations of [stream.cpp], and what queueing a
    frame, committing a source terminal and publishing do to the state. *)

From S2P Require Import Prelude Text Digest Messages Clock Config State Queue Bounds Stream.

(** ** The resource invariant *)

Section source_inv.
Implicit Types (config : ClientConfig) (sources : gmap string SourceState.t)
  (closed : gmap string ClosedSourceState.t) (bytes : Z).

Lemma SourceInv_update config sources closed bytes id source source' :
  SourceInv config sources closed bytes → sources !! id = Some source →
  SourceState.accounted_bytes source' = SourceState.accounted_bytes source →
  SourceState.request source' = SourceState.request source →
  SourceInv config (<[id := source']> sources) closed bytes.
Proof.
  intros [Hd Hsum Hb Hn Ht Hs Hc] Hid Hacc Hreq.
  split; rewrite ?(map_count_replace _ _ _ source' Hid); try done.
  - intros id' src [[<- _]|[_ ?]]%lookup_insert_Some; eauto.
  - rewrite (map_sum_replace _ _ _ _ source' Hid), Hacc. lia.
  - intros id' src [[<- <-]|[_ ?]]%lookup_insert_Some; [|by eauto].
    rewrite Hacc, Hreq. eauto.
Qed.

Lemma SourceInv_update_closed config sources closed bytes id c c' :
  SourceInv config sources closed bytes → closed !! id = Some c →
  ClosedSourceState.accounted_bytes c' = ClosedSourceState.accounted_bytes c →
  SourceInv config sources (<[id := c']> closed) bytes.
Proof.
  intros [Hd Hsum Hb Hn Ht Hs Hc] Hid Hacc.
  split; rewrite ?(map_count_replace _ _ _ c' Hid); try done.
  - intros id' src Hsrc. pose proof (Hd _ _ Hsrc).
    rewrite lookup_insert_ne; [done|]. intros ->. congruence.
  - rewrite (map_sum_replace _ _ _ _ c' Hid), Hacc. lia.
  - intros id' e [[<- <-]|[_ ?]]%lookup_insert_Some; [rewrite Hacc|]; eauto.
Qed.

(** A stream's accounting moves to its tombstone. *)
Lemma SourceInv_close config sources closed bytes id source c :
  SourceInv config sources closed bytes → sources !! id = Some source →
  ClosedSourceState.accounted_bytes c = SourceState.accounted_bytes source →
  SourceInv config (delete id sources) (<[id := c]> closed) bytes.
Proof.
  intros [Hd Hsum Hb Hn Ht Hs Hc] Hid Hacc. pose proof (Hd _ _ Hid) as Hnone.
  pose proof (Hs _ _ Hid) as [? _].
  split; rewrite ?(map_count_delete _ _ _ Hid), ?(map_count_insert _ _ c Hnone); try lia.
  - intros id' src [Hne ?]%lookup_delete_Some. rewrite lookup_insert_ne by done. eauto.
  - rewrite (map_sum_delete _ _ _ _ Hid), map_sum_insert, Hacc by done. lia.
  - intros id' src [_ ?]%lookup_delete_Some. eauto.
  - intros id' e [[_ <-]|[_ ?]]%lookup_insert_Some; [lia|eauto].
Qed.

Lemma SourceInv_forget config sources closed bytes id c :
  SourceInv config sources closed bytes → closed !! id = Some c →
  ClosedSourceState.accounted_bytes c ≤ bytes ∧
  SourceInv config sources (delete id closed) (bytes - ClosedSourceState.accounted_bytes c).
Proof.
  intros [Hd Hsum Hb Hn Ht Hs Hc] Hid.
  pose proof (map_sum_lookup_le _ _ _ _ Hc Hid).
  pose proof (map_sum_nonneg _ _ (λ k v Hk, proj1 (Hs k v Hk))).
  pose proof (Hc _ _ Hid). split; [lia|].
  split; rewrite ?(map_count_delete _ _ _ Hid); try done; try lia.
  - intros id' src ?. rewrite lookup_delete_None. right. eauto.
  - rewrite (map_sum_delete _ _ _ _ Hid). lia.
  - intros id' e [_ ?]%lookup_delete_Some. eauto.
Qed.
End source_inv.

(** Only the source tables differ. *)
Lemma Bounded_sources s s' :
  Bounded s →
  core s' = core (s <| source_streams_ := source_streams_ s' |>
                    <| closed_sources_ := closed_sources_ s' |>
                    <| source_state_bytes_ := source_state_bytes_ s' |>) →
  SourceInv (config_ s) (source_streams_ s') (closed_sources_ s') (source_state_bytes_ s') →
  Bounded s'.
Proof. unfold Bounded. intros [] -> ?. by split. Qed.

Lemma Bounded_source_inv s :
  Bounded s →
  SourceInv (config_ s) (source_streams_ s) (closed_sources_ s) (source_state_bytes_ s).
Proof. apply b_source. Qed.

Lemma Bounded_dropped s : Bounded s → Bounded (count_dropped s).
Proof. done. Qed.
#[export] Hint Resolve Bounded_dropped : keeps.

Section stream_facts.
Context `{Protobuf} `{Environment}.

(** What admission to the Work queue does. *)
Lemma QueueWorkLocked_true s frame :
  (QueueWorkLocked frame s).1 = true →
  (QueueWorkLocked frame s).2 = push_work s frame (WorkFrameBytesLocked s frame) ∧
  session_closed s = false ∧ WorkFrameBytesLocked s frame ≤ maximum_work_frame_bytes_ s ∧
  size (work_queue_ s) < maximum_work_queue (config_ s).
Proof.
  unfold QueueWorkLocked. case_match eqn:Hg; [done|]. intros _. guards. split_and!; [done..|lia|lia].
Qed.

Lemma QueueWorkLocked_false s frame :
  (QueueWorkLocked frame s).1 = false →
  (QueueWorkLocked frame s).2 = s ∨ (QueueWorkLocked frame s).2 = count_dropped s.
Proof. unfold QueueWorkLocked. repeat case_match; simpl; auto; done. Qed.

Lemma Bounded_queue_work s frame :
  Bounded s → (QueueWorkLocked frame s).1 = true →
  Bounded (push_work s frame (WorkFrameBytesLocked s frame)).
Proof.
  intros Hs Hq. destruct (QueueWorkLocked_true s frame Hq) as [<- _].
  by apply QueueWorkLocked_keeps.
Qed.

Lemma CommitSourceTerminalLocked_true s id source frame :
  (CommitSourceTerminalLocked id source frame s).1 = true →
  ∃ message digest,
    source_terminal frame = Some (id, message) ∧ str_empty id = false ∧
    message_digest message = Some digest ∧ WorkFrameFitsLocked s frame = true ∧
    (QueueWorkLocked frame s).1 = true ∧
    (CommitSourceTerminalLocked id source frame s).2 =
      (RememberClosedSourceLocked id source frame digest
         (push_work s frame (WorkFrameBytesLocked s frame))).2.
Proof.
  unfold CommitSourceTerminalLocked.
  destruct (source_terminal frame) as [[named message]|]; [|done].
  case_match eqn:Hid; [done|]. destruct (message_digest message) as [digest|] eqn:?; [|done].
  case_match eqn:Hfit; [done|]. pose proof (QueueWorkLocked_true s frame) as Hq.
  destruct (QueueWorkLocked frame s) as [[] s']; [|done]. intros _. guards. subst.
  destruct Hq as [Hs' _]; [done|]. simpl in Hs'. subst s'. by exists message, digest.
Qed.

Lemma CommitSourceTerminalLocked_false s id source frame :
  (CommitSourceTerminalLocked id source frame s).1 = false →
  (CommitSourceTerminalLocked id source frame s).2 = s ∨
  (CommitSourceTerminalLocked id source frame s).2 = count_dropped s.
Proof.
  unfold CommitSourceTerminalLocked. pose proof (QueueWorkLocked_false s frame) as Hq.
  destruct (QueueWorkLocked frame s) as [[] s']; repeat (case_match; try done); auto.
Qed.

(** Committing a source terminal and forgetting the stream is one critical
    section. *)
Lemma Bounded_commit_source s id source frame :
  Bounded s → source_streams_ s !! id = Some source →
  (CommitSourceTerminalLocked id source frame s).1 = true →
  Bounded (erase_source id (CommitSourceTerminalLocked id source frame s).2).2.
Proof.
  intros Hs Hid Hc.
  destruct (CommitSourceTerminalLocked_true s id source frame Hc)
    as (message & digest & _ & _ & _ & _ & Hq & ->).
  pose proof (Bounded_queue_work _ _ Hs Hq) as Hs'.
  pose proof (Bounded_source_inv _ Hs') as Hinv.
  apply (Bounded_sources _ _ Hs'); [done|]. by apply (SourceInv_close _ _ _ _ id source _ Hinv).
Qed.

(** An accepted publication: what it checked and what it did. *)
Lemma PublishSource_accepted s id items :
  (PublishSource id items s).1 = kAccepted →
  ∃ stream,
    let frame := source_data (SourceData.make id (u64 (SourceState.sequence stream + 1)) items) in
    source_streams_ s !! id = Some stream ∧
    state_ s = kReady ∧ accepting_work_ s = true ∧ session_failed_ s = false ∧
    SourceState.connection_epoch stream = connection_epoch_counter_ s ∧
    SourceState.phase stream = kOpen ∧ items ≠ [] ∧ payload_bytes items ≠ 0 ∧
    (0 < SourceState.maximum_chunk_messages stream →
     size items ≤ SourceState.maximum_chunk_messages stream) ∧
    (0 < SourceState.maximum_chunk_bytes stream →
     payload_bytes items ≤ SourceState.maximum_chunk_bytes stream) ∧
    size items ≤ SourceState.message_credit stream ∧
    payload_bytes items ≤ SourceState.byte_credit stream ∧
    (QueueWorkLocked frame s).1 = true ∧
    (PublishSource id items s).2 =
      push_work s frame (WorkFrameBytesLocked s frame)
        <| source_streams_ := <[id := stream
             <| SourceState.message_credit := u64 (SourceState.message_credit stream - size items) |>
             <| SourceState.byte_credit :=
                  u64 (SourceState.byte_credit stream - payload_bytes items) |>
             <| SourceState.sequence := u64 (SourceState.sequence stream + 1) |>]>
             (source_streams_ s) |>.
Proof.
  unfold PublishSource. case_match eqn:Hready; [done|].
  destruct (source_streams_ s !! id) as [stream|] eqn:Hid; [|done].
  do 3 (case_match; [done|]). case_match; [done|]. case_match eqn:Hchunk; [done|].
  do 3 (case_match; [done|]).
  set (frame := source_data _) in *. pose proof (QueueWorkLocked_true s frame) as Hq.
  destruct (QueueWorkLocked frame s) as [[] s'] eqn:Hqueue; [|done]. intros _.
  destruct Hq as [Hs' _]; [done|]. simpl in Hs'. subst s'.
  exists stream. fold frame. rewrite Hqueue. guards.
  split_and!; try done; intros; lia.
Qed.

Lemma PublishSource_refused s id items :
  (PublishSource id items s).1 ≠ kAccepted →
  (PublishSource id items s).2 = s ∨ (PublishSource id items s).2 = count_dropped s.
Proof.
  unfold PublishSource.
  repeat (case_match; simpl; try (by left); try (by right); try done).
  intros _. match goal with Hq : QueueWorkLocked ?frame s = _ |- _ =>
    pose proof (QueueWorkLocked_false s frame) as Hf; rewrite Hq in Hf; by apply Hf end.
Qed.

Lemma PublishSource_keeps id items : keeps Bounded (PublishSource id items).
Proof.
  intros s Hs. destruct (decide ((PublishSource id items s).1 = kAccepted)) as [Ha|Ha];
    [|by destruct (PublishSource_refused _ _ _ Ha) as [->| ->]].
  destruct (PublishSource_accepted s id items Ha)
    as (stream & Hid & _ & _ & _ & _ & _ & _ & _ & _ & _ & _ & _ & Hq & ->).
  pose proof (Bounded_queue_work _ _ Hs Hq) as Hs'.
  pose proof (Bounded_source_inv _ Hs') as Hinv.
  apply (Bounded_sources _ _ Hs'); [done|]. by apply (SourceInv_update _ _ _ _ id stream _ Hinv).
Qed.

Lemma CloseSource_keeps id error : keeps Bounded (CloseSource id error).
Proof.
  intros s Hs. unfold CloseSource.
  destruct (source_streams_ s !! id) as [stream|] eqn:Hid; [|by case_match].
  case_match; [by case_match|]. set (frame := source_close _).
  pose proof (Bounded_commit_source s id stream frame Hs Hid) as Ht.
  pose proof (CommitSourceTerminalLocked_false s id stream frame) as Hf.
  destruct (CommitSourceTerminalLocked id stream frame s) as [[] s']; [by apply Ht|].
  by destruct (Hf eq_refl) as [Hf'|Hf']; simpl in Hf'; subst.
Qed.

Lemma GrantSourceCredit_locked_keeps credit : keeps Bounded (GrantSourceCredit_locked credit).
Proof.
  intros s Hs. pose proof (Bounded_source_inv _ Hs) as Hinv. unfold GrantSourceCredit_locked.
  repeat (case_match; try done).
  - apply (Bounded_sources _ _ Hs); [done|]. eapply SourceInv_update; [done|by eauto|done..].
  - apply (Bounded_sources _ _ Hs); [done|].
    eapply SourceInv_update_closed; [done|by eauto|done].
Qed.

Lemma HandleTerminalAcknowledgement_locked_keeps ack :
  keeps Bounded (HandleTerminalAcknowledgement_locked ack).
Proof.
  intros s Hs. unfold HandleTerminalAcknowledgement_locked.
  repeat (case_match; try done); simpl.
  - destruct Hs as [Hl Hf Hc Hw Hd Hr Hs]. simpl in Hl, Hr.
    destruct (ReplayInv_acknowledge _ _ _ _ _ _ Hr ltac:(eauto)) as [? Hr'].
    pose proof (ri_bytes _ _ _ _ Hr'). rewrite u64_id by (unfold in_u64; limits). by split.
  - pose proof (Bounded_source_inv _ Hs) as Hinv.
    destruct (SourceInv_forget _ _ _ _ _ _ Hinv ltac:(eauto)) as [Hle Hinv'].
    pose proof (si_bytes _ _ _ _ Hinv').
    pose proof (source_bytes_nonneg _ _ _ _ Hinv'). pose proof (b_limits _ Hs) as Hl. simpl in Hl.
    rewrite u64_id by (unfold in_u64; limits). by apply (Bounded_sources _ _ Hs).
  - pose proof (Bounded_source_inv _ Hs) as Hinv.
    destruct (SourceInv_forget _ _ _ _ _ _ Hinv ltac:(eauto)) as [Hle _]. guards. lia.
Qed.

Lemma HandleCancellation_locked_keeps cancellation :
  keeps Bounded (HandleCancellation_locked cancellation).
Proof.
  intros s Hs. unfold HandleCancellation_locked.
  case_match; [case_match; [done|]| |done].
  - case_match; [|done]. by apply (Bounded_frame _ (core_request_cancellation _)).
  - case_match; [done|]. case_match eqn:Hid; [|by repeat case_match].
    case_match; [done|]. set (s1 := (request_cancellation _ s).2).
    assert (Hs1 : Bounded s1) by (by apply (Bounded_frame _ (core_request_cancellation _))).
    assert (Hid1 : source_streams_ s1 !! stream_id = Some t)
      by (by rewrite <-Hid; unfold s1, request_cancellation; case_match).
    do 2 (case_match; [done|]). set (frame := source_close _).
    pose proof (Bounded_commit_source s1 stream_id t frame Hs1 Hid1) as Ht.
    pose proof (CommitSourceTerminalLocked_false s1 stream_id t frame) as Hf.
    destruct (CommitSourceTerminalLocked stream_id t frame s1) as [[] s2]; [by apply Ht|].
    by destruct (Hf eq_refl) as [Hf'|Hf']; simpl in Hf'; subst.
Qed.

Lemma drain_report_failed_keeps : keeps Bounded drain_report_failed.
Proof. unfold drain_report_failed. solve_keeps. Qed.

Lemma MaybeQueueDrainStatusLocked_keeps : keeps Bounded MaybeQueueDrainStatusLocked.
Proof.
  intros s Hs. unfold MaybeQueueDrainStatusLocked. case_match; [done|].
  pose proof (QueueControlLocked_keeps (drain_status true 0) s Hs) as Hs'.
  destruct (QueueControlLocked _ s) as [[] s']; simpl in Hs'; [done|].
  by apply drain_report_failed_keeps.
Qed.
Hint Resolve GrantSourceCredit_locked_keeps HandleTerminalAcknowledgement_locked_keeps
  HandleCancellation_locked_keeps MaybeQueueDrainStatusLocked_keeps : keeps.

Lemma QueueWorkProtocolError_keeps sequence message :
  keeps Bounded (QueueWorkProtocolError sequence message).
Proof. apply QueueWorkOrFail_keeps. Qed.
Hint Resolve QueueWorkProtocolError_keeps : keeps.

Lemma BeginDrain_keeps : keeps Bounded BeginDrain.
Proof. unfold BeginDrain. solve_keeps. Qed.

Context `{!Rely Bounded}.

Lemma NotifySourceClosed_keeps source error : keeps Bounded (NotifySourceClosed source error).
Proof. unfold NotifySourceClosed, SafeSourceClosed. solve_keeps. Qed.
Hint Resolve NotifySourceClosed_keeps : keeps.

Lemma GrantSourceCredit_keeps credit sequence : keeps Bounded (GrantSourceCredit credit sequence).
Proof. unfold GrantSourceCredit. solve_keeps. Qed.

Lemma HandleTerminalAcknowledgement_keeps ack sequence :
  keeps Bounded (HandleTerminalAcknowledgement ack sequence).
Proof. unfold HandleTerminalAcknowledgement. solve_keeps. Qed.

Lemma HandleCancellation_keeps cancellation sequence :
  keeps Bounded (HandleCancellation cancellation sequence).
Proof. unfold HandleCancellation. solve_keeps. Qed.

Lemma RequestRemoteStop_keeps request : keeps Bounded (RequestRemoteStop request).
Proof. unfold RequestRemoteStop. solve_keeps. Qed.
End stream_facts.

#[export] Hint Resolve PublishSource_keeps CloseSource_keeps MaybeQueueDrainStatusLocked_keeps
  QueueWorkProtocolError_keeps BeginDrain_keeps NotifySourceClosed_keeps GrantSourceCredit_keeps
  HandleTerminalAcknowledgement_keeps HandleCancellation_keeps RequestRemoteStop_keeps : keeps.
