(* ===== verification/Sample.v ===== *)
(** * Concrete states and environments

    What the witnesses evaluate the model on: a client that is ready on its
    first connection pair, requests for its three endpoints, and an environment
    whose handlers succeed and whose other threads are idle. *)

From S2P Require Import Prelude Text Digest Messages Clock Config State Queue Bounds Stream.

Module Sample.
Export SampleProtobuf SampleConfig.

Definition now : Z := 1000000000.

Definition idle : Impl := Impl_new sample_config (mkClientCallbacks true true true true true).

Definition ready : Impl := idle
  <| state_ := kReady |> <| accepting_work_ := true |> <| pair_ready_ := true |>
  <| ready_callbacks_complete_ := true |> <| work_attach_allowed_ := true |>
  <| work_attach_connection_epoch_ := 1 |>
  <| host_id_ := "host" |> <| session_id_ := "session-1" |> <| session_generation_ := 1 |>
  <| runtime_epoch_ := 5 |> <| runtime_link_protocol_version_ := 2 |>
  <| heartbeat_interval_ms_ := 1000 |> <| maximum_control_frame_bytes_ := 4096 |>
  <| maximum_work_frame_bytes_ := 4096 |> <| connection_epoch_counter_ := 1 |>
  <| active_spec_ := sample_spec |> <| desired_spec_ := sample_spec |>
  <| spec_revision_ := 1 |> <| spec_digest_ := digest_of "e" |>
  <| active_capabilities_ := {[ "example.native" := ActiveCapability.make 0 sample_grant ]} |>
  <| wall_clock_ := now |>.

Lemma Bounded_ready : Bounded ready.
Proof.
  split; [unfold limits_ok; simpl; unfold in_u64; by vm_compute|by vm_compute| | | | |].
  1-3: by (apply queue_clear; vm_compute).
  - split; rewrite ?map_sum_empty, ?map_count_empty; by (try vm_compute).
  - split; rewrite ?map_sum_empty, ?map_count_empty; by (try vm_compute).
Qed.

Definition context (work_id endpoint_id : string) : WorkContext.t :=
  WorkContext.make work_id (digest_of "a") "example.native" endpoint_id 1 1 (digest_of "c")
    None "" (Some scope).

Definition unary (work_id : string) : UnaryRequest.t :=
  UnaryRequest.make (Some (context work_id "get")) (Some (payload "in")).
Definition operation (work_id : string) : OperationRequest.t :=
  OperationRequest.make (Some (context work_id "run")) (Some (payload "in")).
Definition source_open (work_id : string) : SourceOpenRequest.t :=
  SourceOpenRequest.make (Some (context work_id "watch")) (Some (CreditGrant.make 3 20)).

Definition answer (c : Call) : Answer c :=
  match c with
  | CallApplyInstanceSpec _ => (true, "")
  | CallStart _ _ _ => (true, "")
  | CallUnary _ _ _ => UnaryResult.Success (payload "out")
  | CallOperation _ _ _ => OperationResult.Success (payload "out") true
  | CallSourceOpen _ _ _ => SourceOpenDecision.Accept
  | _ => tt
  end.

#[export] Instance quiet : Environment := {|
  invoke c := mret (Returned (answer c));
  wait_until _ := mret tt;
  preempt := mret tt
|}.

Lemma quiet_rely I : Rely I.
Proof. split; intros; apply keeps_ret. Qed.

#[export] Instance quiet_sequential : Sequential.
Proof. by split. Qed.

(** An open stream with three messages and twenty bytes of credit. *)
Definition open_stream : SourceState.t :=
  SourceState.make (source_open "w-1") 0 (Some 0%nat) kOpen 1 3 20 0 0 32 4 500.

Definition streaming : Impl := ready
  <| source_streams_ := {[ "w-1" := open_stream ]} |> <| source_state_bytes_ := 500 |>
  <| cancellations_ := [false] |>.
End Sample.
