(* ===== verification/Flow.v ===== *)
(** * Flow control of a source stream

    A stream is driven by the application publishing, the Host granting credit
    and the writer sending frames, in any order.  The ledger of such a run
    records what each of them did. *)

From S2P Require Import Prelude Text Digest Messages Clock Config State Queue Bounds.
From S2P Require Import Stream StreamFacts Sample.

Inductive SourceOp : Type :=
| Publish (items : list string)
| Grant (messages bytes acknowledged_sequence : Z)
| WriteFrame.

Definition op_in_range (op : SourceOp) : Prop :=
  match op with
  | Grant messages bytes _ => 0 ≤ messages ∧ 0 ≤ bytes
  | _ => True
  end.

Record Ledger : Type := mkLedger {
  published : list (list string);
  granted_messages : Z;
  granted_bytes : Z;
  written : list WorkFrame;
}.

Definition empty_ledger : Ledger := mkLedger [] 0 0 [].

#[export] Instance Ledger_eta : Eta Ledger := λ l,
  mkLedger (published l) (granted_messages l) (granted_bytes l) (written l).

Section flow.
Context `{Protobuf}.

Definition source_step (id : string) (op : SourceOp) (l : Ledger) : C Ledger :=
  match op with
  | Publish items =>
      result ← PublishSource id items;
      mret (if bool_decide (result = kAccepted)
            then l <| published := published l ++ [items] |> else l)
  | Grant messages bytes acknowledged =>
      protocol_error ← GrantSourceCredit_locked
        (SourceCredit.make id (Some (CreditGrant.make messages bytes)) acknowledged);
      mret (if str_empty protocol_error
            then l <| granted_messages := granted_messages l + messages |>
                   <| granted_bytes := granted_bytes l + bytes |> else l)
  | WriteFrame =>
      frame ← PopWork;
      mret (l <| written := written l ++ option_list frame |>)
  end.

Fixpoint source_run (id : string) (ops : list SourceOp) (l : Ledger) : C Ledger :=
  match ops with
  | [] => mret l
  | op :: ops => l ← source_step id op l; source_run id ops l
  end.

Definition queued_frames (s : Impl) : list WorkFrame :=
  map (λ q, WorkRequest.frame (QueuedWorkFrame.request q)) (work_queue_ s).

(** The frames of [chunks], numbered from [first]. *)
Fixpoint data_frames (id : string) (first : Z) (chunks : list (list string)) : list WorkFrame :=
  match chunks with
  | [] => []
  | items :: chunks =>
      source_data (SourceData.make id first items) :: data_frames id (first + 1) chunks
  end.

Lemma data_frames_app id first chunks items :
  data_frames id first (chunks ++ [items]) =
  data_frames id first chunks ++
    [source_data (SourceData.make id (first + Z.of_nat (length chunks)) items)].
Proof.
  revert first. induction chunks as [|c chunks IH]; intros first; simpl.
  - by rewrite Z.add_0_r.
  - rewrite IH. by replace (first + 1 + Z.of_nat (length chunks))
      with (first + Z.of_nat (S (length chunks))) by lia.
Qed.

Lemma SaturatingAdd_nonneg l r : 0 ≤ SaturatingAdd l r.
Proof.
  unfold SaturatingAdd. case_match; [unfold u64_max; lia|]. apply u64_range.
Qed.

Lemma payload_bytes_nonneg items : 0 ≤ payload_bytes items.
Proof.
  unfold payload_bytes. assert (0 ≤ 0) as Hz by lia. revert Hz. generalize 0 at 2 4.
  induction items as [|item items IH]; intros acc Hacc; simpl; [done|].
  apply IH, SaturatingAdd_nonneg.
Qed.

(** The state of a run that started with stream [st0] and queue [queue0]. *)
Record Flow (id : string) (st0 : SourceState.t) (queue0 : list WorkFrame) (l : Ledger)
    (s : Impl) (st : SourceState.t) : Prop := {
  fl_stream : source_streams_ s !! id = Some st;
  fl_messages : SourceState.message_credit st + list_sum size (published l) =
                SourceState.message_credit st0 + granted_messages l;
  fl_bytes : SourceState.byte_credit st + list_sum payload_bytes (published l) =
             SourceState.byte_credit st0 + granted_bytes l;
  fl_message_range : in_u64 (SourceState.message_credit st);
  fl_byte_range : in_u64 (SourceState.byte_credit st);
  fl_sequence : SourceState.sequence st = SourceState.sequence st0 + size (published l);
  fl_frames : written l ++ queued_frames s =
              queue0 ++ data_frames id (SourceState.sequence st0 + 1) (published l);
}.

Lemma Flow_publish id st0 queue0 l s st items :
  Flow id st0 queue0 l s st →
  0 ≤ SourceState.sequence st0 → SourceState.sequence st0 + size (published l) < u64_max →
  ∃ st', Flow id st0 queue0 (source_step id (Publish items) l s).1
           (source_step id (Publish items) l s).2 st'.
Proof.
  intros [Hid Hm Hb Hmr Hbr Hseq Hf] ? ?. unfold source_step. simpl.
  destruct (decide ((PublishSource id items s).1 = kAccepted)) as [Ha|Ha].
  - rewrite bool_decide_eq_true_2 by done.
    destruct (PublishSource_accepted s id items Ha)
      as (st' & Hid' & _ & _ & _ & _ & _ & _ & _ & _ & _ & Hmc & Hbc & _ & ->).
    assert (st' = st) as -> by congruence. pose proof (payload_bytes_nonneg items).
    assert (0 ≤ size items ∧ 0 ≤ size (published l)) as [? ?] by (unfold size; lia).
    unfold in_u64 in *.
    rewrite !u64_id by (unfold in_u64; lia).
    eexists. split; [by apply lookup_insert_eq|..]; simpl; rewrite ?list_sum_app; simpl;
      try (unfold in_u64; simpl; lia).
    + unfold size in *. rewrite length_app. simpl. lia.
    + unfold queued_frames. simpl. rewrite map_app, app_assoc. fold (queued_frames s).
      rewrite Hf, data_frames_app, app_assoc. simpl. rewrite Hseq. unfold size.
      by replace (SourceState.sequence st0 + Z.of_nat (length (published l)) + 1)
        with (SourceState.sequence st0 + 1 + Z.of_nat (length (published l))) by lia.
  - rewrite bool_decide_eq_false_2 by done. exists st.
    by destruct (PublishSource_refused _ _ _ Ha) as [-> | ->].
Qed.

Lemma Flow_grant id st0 queue0 l s st messages bytes ack :
  Flow id st0 queue0 l s st → 0 ≤ messages → 0 ≤ bytes →
  ∃ st', Flow id st0 queue0 (source_step id (Grant messages bytes ack) l s).1
           (source_step id (Grant messages bytes ack) l s).2 st'.
Proof.
  intros [Hid Hm Hb Hmr Hbr Hseq Hf] ? ?. unfold source_step, GrantSourceCredit_locked.
  unfold mbind, M_bind. simpl. rewrite Hid.
  repeat (case_match; try (by exists st)). simpl.
  unfold AddOverflows, in_u64 in *. guards.
  rewrite !u64_id by (unfold in_u64; lia).
  eexists. split; [by apply lookup_insert_eq|..]; simpl; try done; unfold in_u64; simpl; lia.
Qed.

Lemma Flow_write id st0 queue0 l s st :
  Flow id st0 queue0 l s st →
  Flow id st0 queue0 (source_step id WriteFrame l s).1 (source_step id WriteFrame l s).2 st.
Proof.
  intros [Hid Hm Hb Hmr Hbr Hseq Hf]. unfold source_step, PopWork, mbind, M_bind. simpl.
  unfold queued_frames in *. destruct (work_queue_ s) as [|front rest] eqn:Hq; simpl in *.
  - split; simpl; rewrite ?app_nil_r in *; try done. unfold queued_frames. by rewrite Hq, app_nil_r.
  - split; simpl; try done. unfold queued_frames. simpl. by rewrite <-app_assoc.
Qed.

Lemma source_run_flow id st0 queue0 ops l s st :
  Forall op_in_range ops → Flow id st0 queue0 l s st →
  0 ≤ SourceState.sequence st0 →
  SourceState.sequence st0 + size (published l) + size ops ≤ u64_max →
  ∃ st', Flow id st0 queue0 (source_run id ops l s).1 (source_run id ops l s).2 st'.
Proof.
  intros Hops. revert l s st. induction Hops as [|op ops Hop Hops IH]; intros l s st Hflow ? Hbound;
    [by exists st|]. simpl.
  assert (∃ st', Flow id st0 queue0 (source_step id op l s).1 (source_step id op l s).2 st')
    as [st' Hflow'].
  { destruct op; [|destruct Hop|].
    - apply (Flow_publish _ _ _ _ _ _ _ Hflow); [done|]. unfold size in *. simpl in Hbound. lia.
    - by apply (Flow_grant _ _ _ _ _ _ _ _ _ Hflow).
    - exists st. by apply Flow_write. }
  apply (IH _ _ _ Hflow'); [done|].
  assert (size (published (source_step id op l s).1) ≤ size (published l) + 1).
  { destruct op; simpl; repeat case_match; simpl; unfold size; rewrite ?length_app; simpl; lia. }
  unfold size in *. simpl in Hbound. lia.
Qed.
End flow.

(** C5: Flow control.  Whatever the order in which the application publishes,
    the Host grants credit and the writer sends frames, an open source stream
    neither loses nor invents credit: what has been accepted plus what is left is
    exactly what the Host granted, in messages and in bytes, so the Host's grants
    are never exceeded; and the frames sent or still queued carry the accepted
    chunks once each, in order, numbered consecutively. *)
Theorem source_flow_control `{Protobuf} id ops s stream :
  source_streams_ s !! id = Some stream →
  in_u64 (SourceState.message_credit stream) → in_u64 (SourceState.byte_credit stream) →
  0 ≤ SourceState.sequence stream → SourceState.sequence stream + size ops ≤ u64_max →
  Forall op_in_range ops →
  let l := (source_run id ops empty_ledger s).1 in
  let s' := (source_run id ops empty_ledger s).2 in
  ∃ stream', source_streams_ s' !! id = Some stream' ∧
    SourceState.message_credit stream' + list_sum size (published l) =
      SourceState.message_credit stream + granted_messages l ∧
    SourceState.byte_credit stream' + list_sum payload_bytes (published l) =
      SourceState.byte_credit stream + granted_bytes l ∧
    0 ≤ SourceState.message_credit stream' ∧ 0 ≤ SourceState.byte_credit stream' ∧
    SourceState.sequence stream' = SourceState.sequence stream + size (published l) ∧
    written l ++ queued_frames s' =
      queued_frames s ++ data_frames id (SourceState.sequence stream + 1) (published l).
Proof.
  intros Hid Hm Hb Hseq Hbound Hops.
  destruct (source_run_flow id stream (queued_frames s) ops empty_ledger s stream)
    as [stream' [? ? ? [??] [??] ? ?]]; simpl; try done.
  - split; simpl; try done; try lia.
    + unfold size. simpl. lia.
    + by rewrite app_nil_r.
  - unfold size at 1. simpl. lia.
  - by exists stream'.
Qed.

Definition sample_ops : list SourceOp :=
  [Publish ["abc"; "de"]; Publish ["x"; "y"]; WriteFrame; Grant 2 4 1; Publish ["x"; "y"]].

Lemma source_flow_control_witness :
  let l := (source_run (H := SampleProtobuf.protobuf) "w-1" sample_ops empty_ledger Sample.streaming).1 in
  published l = [["abc"; "de"]; ["x"; "y"]] ∧
  ∃ stream', source_streams_ (source_run (H := SampleProtobuf.protobuf) "w-1" sample_ops
      empty_ledger Sample.streaming).2 !! "w-1" = Some stream' ∧
    SourceState.message_credit stream' + list_sum size (published l) =
      SourceState.message_credit Sample.open_stream + granted_messages l.
Proof.
  split; [by vm_compute|].
  destruct (@source_flow_control SampleProtobuf.protobuf "w-1" sample_ops Sample.streaming
    Sample.open_stream) as (stream' & Hid & Hm & _);
    [..|exact (ex_intro _ stream' (conj Hid Hm))].
  - by vm_compute.
  - by vm_compute.
  - by vm_compute.
  - by vm_compute.
  - by vm_compute.
  - repeat constructor; by vm_compute.
Defined.
