(* ===== verification/Terminals.v ===== *)
(** * Retained terminals

    A terminal result is reserved when its Work is accepted, retained when it is
    sent, and released when the Host acknowledges its digest. *)

From S2P Require Import Prelude Text Digest Messages Clock Config State Queue Bounds.
From S2P Require Import Stream StreamFacts Sample.

Section terminals.
Context `{Protobuf}.

Lemma replay_entry_digest job frame unary operation digest :
  replay_entry job frame = Some (unary, operation, digest) →
  IsCanonicalSha256 digest = true ∧ str_size digest = kCanonicalSha256TextBytes.
Proof.
  intros He. assert (∃ message, message_digest message = Some digest) as [message Hd].
  { unfold replay_entry in He. repeat (case_match; try done);
      apply bind_Some in He as (d & ? & ?); simplify_eq; eauto. }
  apply TerminalDigest_canonical in Hd. split; [done|]. by apply IsCanonicalSha256_size.
Qed.

(** A token holding at least the job's reservation is converted. *)
Lemma CommitTerminalFrame_reserved s job frame unary operation digest reservation :
  Bounded s →
  converted_reservation s job = Some reservation →
  maximum_work_frame_bytes_ s + str_size (DispatchJob.fingerprint job) +
    kCanonicalSha256TextBytes ≤ reservation →
  replay_ s !! DispatchJob.work_id job = None →
  replay_entry job frame = Some (unary, operation, digest) →
  WorkFrameBytesLocked s frame ≤ maximum_work_frame_bytes_ s →
  session_closed s = false → work_queue_full s (WorkFrameBytesLocked s frame) = false →
  (CommitTerminalFrame job frame s).1 = kCommitted.
Proof.
  intros Hs Hconv Hres Hnew Hentry Hfit Hopen Hroom.
  destruct (converted_reservation_Some _ _ _ Hconv) as (token & Hid & Htoken & _ & _).
  destruct (ReplayInv_release _ _ _ _ _ _ (b_replay _ Hs) Hid) as [Hle Hr']. simpl in *.
  pose proof (replay_bytes_nonneg _ _ _ _ Hr'). pose proof (b_limits _ Hs) as Hl. simpl in Hl.
  destruct (replay_entry_digest _ _ _ _ _ Hentry) as [_ Hsize].
  pose proof (ri_bytes _ _ _ _ (b_replay _ Hs)) as Hmax. simpl in Hmax.
  unfold CommitTerminalFrame. rewrite Hopen, Hroom, Hentry, Hnew, Hconv. simpl.
  assert (0 ≤ WorkFrameBytesLocked s frame) by (unfold WorkFrameBytesLocked; lia).
  assert (0 ≤ str_size (DispatchJob.fingerprint job)) by auto with machine.
  unfold kCanonicalSha256TextBytes in *.
  rewrite u64_id by (unfold in_u64; limits).
  rewrite (proj2 (Z.ltb_ge _ _)) by lia.
  rewrite (proj2 (Z.ltb_ge _ _)) by lia.
  assert (Hbudget : FitsByteBudget (terminal_replay_bytes_ s - reservation)
    (WorkFrameBytesLocked s frame + str_size (DispatchJob.fingerprint job) + str_size digest)
    (maximum_terminal_replay_bytes (config_ s)) = true).
  { apply FitsByteBudget_spec; lia. }
  by rewrite Hbudget.
Qed.

Lemma ReserveTerminalReplayLocked_sum s0 s1 job0 job :
  ReserveTerminalReplayLocked job0 s0 = ((true, job), s1) →
  0 ≤ maximum_work_frame_bytes_ s0 →
  str_size (DispatchJob.fingerprint job0) + kCanonicalSha256TextBytes ≤ u64_max →
  DispatchJob.terminal_reservation_bytes job = maximum_work_frame_bytes_ s0 +
    str_size (DispatchJob.fingerprint job) + kCanonicalSha256TextBytes.
Proof.
  intros Hres Hmax Hfp. pose proof (str_size_nonneg (DispatchJob.fingerprint job0)).
  unfold ReserveTerminalReplayLocked in Hres. unfold kCanonicalSha256TextBytes in *.
  rewrite (u64_id (str_size _ + 71)) in Hres by (unfold in_u64; lia).
  case_match; [done|]. case_match eqn:Hg; [done|]. unfold size_max in *. guards.
  rewrite u64_id in Hres by (unfold in_u64; lia).
  case_match; [done|]. injection Hres as <- _. simpl. lia.
Qed.

(** The state after a commit, field by field. *)
Lemma CommitTerminalFrame_state s job frame :
  Bounded s → (CommitTerminalFrame job frame s).1 = kCommitted →
  ∃ entry digest unary operation,
    let s' := (CommitTerminalFrame job frame s).2 in
    replay_entry job frame = Some (unary, operation, digest) ∧
    entry = ReplayEntry.make (DispatchJob.kind job) (DispatchJob.fingerprint job) unary operation
      digest (u64 (WorkFrameBytesLocked s frame + str_size (DispatchJob.fingerprint job) +
                   str_size digest)) ∧
    replay_ s !! DispatchJob.work_id job = None ∧
    replay_ s' = <[DispatchJob.work_id job := entry]> (replay_ s) ∧
    work_tokens_ s' = work_tokens_ (convert_reservation s job) ∧
    terminal_replay_bytes_ s' = terminal_replay_bytes_ (convert_reservation s job) +
      ReplayEntry.accounted_bytes entry ∧
    work_queue_ s' = work_queue_ s ++
      [QueuedWorkFrame.make (WorkRequest.make None frame) (WorkFrameBytesLocked s frame)] ∧
    source_streams_ s' = source_streams_ s ∧ closed_sources_ s' = closed_sources_ s ∧
    config_ s' = config_ s.
Proof.
  intros Hs Hc.
  destruct (CommitTerminalFrame_committed s job frame Hc)
    as (unary & operation & digest & He & _ & _ & _ & Hnew & _ & Hbytes & ->).
  destruct (Bounded_convert s job Hs) as [Hs1 _].
  pose proof (replay_bytes_nonneg _ _ _ _ (b_replay _ Hs1)). simpl in Hbytes, H0.
  pose proof (b_limits _ Hs) as Hl. simpl in Hl.
  set (entry := ReplayEntry.make _ _ _ _ _ _).
  pose proof (u64_range (WorkFrameBytesLocked s frame +
    str_size (DispatchJob.fingerprint job) + str_size digest)) as [? ?].
  assert (Hrep : replay_ (convert_reservation s job) = replay_ s)
    by (unfold convert_reservation; by case_match).
  rewrite RememberReplayLocked_new; simpl; try done.
  - exists entry, digest, unary, operation. rewrite Hrep.
    unfold convert_reservation. by case_match.
  - by rewrite Hrep.
  - limits.
Qed.
End terminals.

(** C6: A reservation is a guarantee.  Once [ReserveTerminalReplayLocked] has
    admitted a job and its token is held, the terminal frame of that job is
    retained whatever else the replay table has filled up with since: as long as
    the frame respects the negotiated limit, the session is open and the Work
    queue has room, [CommitTerminalFrame] commits, converts the token into the
    retained entry, and the byte counter does not grow. *)
Theorem reserved_terminal_commits `{Protobuf} s0 s1 job0 job s frame unary operation digest :
  ReserveTerminalReplayLocked job0 s0 = ((true, job), s1) →
  str_size (DispatchJob.fingerprint job0) + kCanonicalSha256TextBytes ≤ u64_max →
  Bounded s →
  maximum_work_frame_bytes_ s = maximum_work_frame_bytes_ s0 →
  work_tokens_ s !! DispatchJob.work_id job = Some (WorkTokenState.make
    (DispatchJob.cancellation job) (DispatchJob.terminal_reservation_bytes job)) →
  replay_ s !! DispatchJob.work_id job = None →
  replay_entry job frame = Some (unary, operation, digest) →
  WorkFrameBytesLocked s frame ≤ maximum_work_frame_bytes_ s →
  session_closed s = false → work_queue_full s (WorkFrameBytesLocked s frame) = false →
  (CommitTerminalFrame job frame s).1 = kCommitted ∧
  let s' := (CommitTerminalFrame job frame s).2 in
  work_tokens_ s' = delete (DispatchJob.work_id job) (work_tokens_ s) ∧
  (∃ bytes, replay_ s' = <[DispatchJob.work_id job := ReplayEntry.make (DispatchJob.kind job)
     (DispatchJob.fingerprint job) unary operation digest bytes]> (replay_ s)) ∧
  terminal_replay_bytes_ s' ≤ terminal_replay_bytes_ s.
Proof.
  intros Hres Hfp Hs Hmax Htoken Hnew Hentry Hfit Hopen Hroom.
  pose proof (proj1 (b_frames _ Hs)) as [? _]. simpl in *. rewrite Hmax in *.
  pose proof (ReserveTerminalReplayLocked_sum _ _ _ _ Hres ltac:(done) Hfp) as Hsum.
  pose proof (str_size_nonneg (DispatchJob.fingerprint job)).
  assert (Hconv : converted_reservation s job =
    Some (DispatchJob.terminal_reservation_bytes job)).
  { unfold converted_reservation. rewrite Htoken. simpl. rewrite bool_decide_eq_true_2 by done.
    rewrite (proj2 (Z.eqb_neq _ _)); [done|]. unfold kCanonicalSha256TextBytes in *. lia. }
  assert (Hc : (CommitTerminalFrame job frame s).1 = kCommitted).
  { eapply CommitTerminalFrame_reserved; try done; rewrite Hmax; [lia|done]. }
  split; [done|].
  destruct (CommitTerminalFrame_state s job frame Hs Hc)
    as (entry & d & u & o & He & Hacc & _ & Hrep & Htok & Hbytes & _).
  rewrite Hentry in He. injection He as <- <- <-.
  unfold convert_reservation in *. rewrite Hconv in *. simpl in *.
  split; [done|]. split; [subst entry; eauto|]. rewrite Hbytes, Hacc. simpl.
  destruct (replay_entry_digest _ _ _ _ _ Hentry) as [_ Hsize].
  unfold kCanonicalSha256TextBytes in *. rewrite Hsize.
  assert (0 ≤ WorkFrameBytesLocked s frame) by (unfold WorkFrameBytesLocked; lia).
  pose proof (u64_le (WorkFrameBytesLocked s frame + str_size (DispatchJob.fingerprint job) + 71)).
  lia.
Qed.

Lemma reserved_terminal_commits_witness :
  let job0 := DispatchJob.empty <| DispatchJob.work_id := "w-1" |>
    <| DispatchJob.fingerprint := SampleConfig.digest_of "a" |>
    <| DispatchJob.cancellation := Some 0%nat |> in
  let job := job0 <| DispatchJob.terminal_reservation_bytes := 4238 |> in
  let s := Sample.ready <| work_tokens_ := {[ "w-1" := WorkTokenState.make (Some 0%nat) 4238 ]} |>
                        <| terminal_replay_bytes_ := 4238 |> in
  let frame := unary_response (UnaryResponse.make "w-1" (Some (SampleConfig.payload "out")) None) in
  (CommitTerminalFrame (H := SampleProtobuf.protobuf) job frame s).1 = kCommitted.
Proof.
  intros job0 job s frame.
  assert (exists digest, @replay_entry SampleProtobuf.protobuf job frame =
    Some (UnaryResponse.make "w-1" (Some (SampleConfig.payload "out")) None, OperationEvent.empty, digest))
    as [digest Hdigest] by (eexists; vm_compute; reflexivity).
  refine (proj1 (@reserved_terminal_commits SampleProtobuf.protobuf Sample.ready
    (Sample.ready <| terminal_replay_bytes_ := 4238 |>) job0 job s frame _ _ digest
    _ _ _ _ _ _ Hdigest _ _ _)).
  - vm_compute. reflexivity.
  - vm_compute. discriminate.
  - apply (Bounded_reserve Sample.ready "w-1" (WorkTokenState.make (Some 0%nat) 4238) 4238);
      [|by vm_compute..]. apply Sample.Bounded_ready.
  - vm_compute. reflexivity.
  - vm_compute. reflexivity.
  - vm_compute. reflexivity.
  - vm_compute. discriminate.
  - vm_compute. reflexivity.
  - vm_compute. reflexivity.
Defined.

(** ** Acknowledgements *)

Section acknowledgements.
Context `{Protobuf}.

Lemma has_false {V} (m : gmap string V) id : has m id = false ↔ m !! id = None.
Proof. unfold has. by rewrite bool_decide_eq_false, eq_None_not_Some. Qed.

Lemma has_true {V} (m : gmap string V) id : has m id = true ↔ is_Some (m !! id).
Proof. unfold has. by rewrite bool_decide_eq_true. Qed.

(** The conditions under which a Work acknowledgement is not a protocol error. *)
Definition work_ack_ok (s : Impl) (id digest : string) : Prop :=
  IsCanonicalSha256 digest = true ∧ id ≠ "" ∧ work_tokens_ s !! id = None ∧
  source_streams_ s !! id = None ∧ closed_sources_ s !! id = None ∧
  (∀ entry, replay_ s !! id = Some entry → ReplayEntry.terminal_digest entry = digest).

Definition stream_ack_ok (s : Impl) (id digest : string) : Prop :=
  IsCanonicalSha256 digest = true ∧ id ≠ "" ∧ source_streams_ s !! id = None ∧
  work_tokens_ s !! id = None ∧ replay_ s !! id = None ∧
  (∀ c, closed_sources_ s !! id = Some c → ClosedSourceState.terminal_digest c = digest).

Definition released_work (s : Impl) (id : string) : Impl :=
  s <| terminal_replay_bytes_ :=
         map_sum WorkTokenState.terminal_reservation_bytes (work_tokens_ s) +
         map_sum ReplayEntry.accounted_bytes (delete id (replay_ s)) |>
    <| replay_ := delete id (replay_ s) |>.

Definition released_stream (s : Impl) (id : string) : Impl :=
  s <| source_state_bytes_ := source_state_bytes_ s -
         from_option ClosedSourceState.accounted_bytes 0 (closed_sources_ s !! id) |>
    <| closed_sources_ := delete id (closed_sources_ s) |>.

Lemma ack_work_ok s id digest :
  Bounded s → work_ack_ok s id digest →
  HandleTerminalAcknowledgement_locked (TerminalAcknowledgement.make (kWorkId id) digest) s =
  ("", released_work s id).
Proof.
  intros Hs (Hd & Hid & Ht & Hso & Hc & Hr). unfold HandleTerminalAcknowledgement_locked.
  simpl. rewrite Hd. simpl. destruct (str_empty id) eqn:He; [by apply str_empty_spec in He|].
  apply has_false in Ht, Hso, Hc. rewrite Ht, Hso, Hc. simpl.
  destruct Hs as [Hl _ _ _ _ Hri _]. simpl in Hl, Hri. unfold released_work.
  destruct (replay_ s !! id) as [entry|] eqn:Hentry.
  - rewrite (Hr entry) by done. rewrite bool_decide_eq_true_2 by done. simpl.
    destruct (ReplayInv_acknowledge _ _ _ _ _ _ Hri Hentry) as [? Hri'].
    pose proof (ri_bytes _ _ _ _ Hri'). rewrite u64_id by (unfold in_u64; limits).
    by rewrite (ri_sum _ _ _ _ Hri').
  - rewrite delete_id by done. rewrite <-(ri_sum _ _ _ _ Hri). by destruct s.
Qed.

Lemma ack_work_cases s id digest :
  let r := HandleTerminalAcknowledgement_locked
    (TerminalAcknowledgement.make (kWorkId id) digest) s in
  r.1 = "" ∧ work_ack_ok s id digest ∨ r.1 ≠ "" ∧ r.2 = s.
Proof.
  unfold HandleTerminalAcknowledgement_locked, work_ack_ok. simpl.
  destruct (IsCanonicalSha256 digest) eqn:Hd; simpl; [|by right].
  destruct id as [|c id]; simpl; [by right|].
  destruct (has (work_tokens_ s) _) eqn:Ht; [by right|].
  destruct (has (source_streams_ s) _) eqn:Hso; simpl; [by right|].
  destruct (has (closed_sources_ s) _) eqn:Hc; [by right|].
  apply has_false in Ht, Hso, Hc.
  destruct (replay_ s !! _) as [entry|] eqn:He; [|by left; naive_solver].
  case_bool_decide; simpl; [left|by right]. split_and!; try done. by intros ? [= <-].
Qed.

Lemma ack_stream_ok s id digest :
  Bounded s → stream_ack_ok s id digest →
  HandleTerminalAcknowledgement_locked (TerminalAcknowledgement.make (kStreamId id) digest) s =
  ("", released_stream s id).
Proof.
  intros Hs (Hd & Hid & Hso & Ht & Hr & Hc). unfold HandleTerminalAcknowledgement_locked.
  simpl. rewrite Hd. simpl. destruct (str_empty id) eqn:He; [by apply str_empty_spec in He|].
  apply has_false in Ht, Hso, Hr. rewrite Ht, Hso, Hr. simpl. unfold released_stream.
  destruct (closed_sources_ s !! id) as [c|] eqn:Hclosed; simpl.
  - rewrite (Hc c) by done. rewrite bool_decide_eq_true_2 by done.
    destruct (str_empty digest) eqn:Hempty; [by apply str_empty_spec in Hempty as ->|]. simpl.
    pose proof (Bounded_source_inv _ Hs) as Hinv. pose proof (b_limits _ Hs) as Hl. simpl in Hl.
    destruct (SourceInv_forget _ _ _ _ _ _ Hinv Hclosed) as [Hle Hinv'].
    rewrite (proj2 (Z.leb_le _ _)) by done. pose proof (si_bytes _ _ _ _ Hinv').
    pose proof (source_bytes_nonneg _ _ _ _ Hinv'). by rewrite u64_id by (unfold in_u64; limits).
  - rewrite delete_id, Z.sub_0_r by done. by destruct s.
Qed.

Lemma ack_stream_cases s id digest :
  let r := HandleTerminalAcknowledgement_locked
    (TerminalAcknowledgement.make (kStreamId id) digest) s in
  r.1 = "" ∧ stream_ack_ok s id digest ∨ r.1 ≠ "" ∧ r.2 = s.
Proof.
  unfold HandleTerminalAcknowledgement_locked, stream_ack_ok. simpl.
  destruct (IsCanonicalSha256 digest) eqn:Hd; simpl; [|by right].
  destruct id as [|c id]; simpl; [by right|].
  destruct (has (source_streams_ s) _) eqn:Hso; [by right|].
  destruct (has (work_tokens_ s) _) eqn:Ht; simpl; [by right|].
  destruct (has (replay_ s) _) eqn:Hr; [by right|].
  apply has_false in Ht, Hso, Hr.
  destruct (closed_sources_ s !! _) as [entry|] eqn:He; [|by left; naive_solver].
  case_match eqn:Hg; simpl; [by right|left]. guards. split_and!; try done. by intros ? [= <-].
Qed.

Lemma released_work_ok s id digest : work_ack_ok s id digest → work_ack_ok (released_work s id) id digest.
Proof.
  intros (? & ? & ? & ? & ? & _). split_and!; try done. simpl. by rewrite lookup_delete_eq.
Qed.

Lemma released_stream_ok s id digest :
  stream_ack_ok s id digest → stream_ack_ok (released_stream s id) id digest.
Proof.
  intros (? & ? & ? & ? & ? & _). split_and!; try done. simpl. by rewrite lookup_delete_eq.
Qed.

Lemma released_work_idemp s id : released_work (released_work s id) id = released_work s id.
Proof.
  unfold released_work. simpl. by rewrite (delete_id (delete id (replay_ s))) by apply lookup_delete_eq.
Qed.

Lemma released_stream_idemp s id :
  released_stream (released_stream s id) id = released_stream s id.
Proof.
  unfold released_stream. simpl. rewrite lookup_delete_eq. simpl.
  by rewrite (delete_id (delete id (closed_sources_ s))), Z.sub_0_r by apply lookup_delete_eq.
Qed.
End acknowledgements.

(** C12: Acknowledging Work releases exactly one terminal, once.  The
    acknowledgement is accepted exactly when the digest is canonical, the
    identity is neither active nor a source's, and the retained terminal, if any,
    has that digest.  A refused acknowledgement changes nothing.  An accepted one
    removes that entry and no other and leaves the byte counter equal to what the
    remaining reservations and entries account for; repeating it is accepted and
    changes nothing. *)
Theorem work_acknowledgement_exact `{Protobuf} s id digest :
  Bounded s →
  let ack := TerminalAcknowledgement.make (kWorkId id) digest in
  let r := HandleTerminalAcknowledgement_locked ack s in
  (r.1 = "" ↔ work_ack_ok s id digest) ∧
  (r.1 ≠ "" → r.2 = s) ∧
  (r.1 = "" → r.2 = released_work s id ∧
              HandleTerminalAcknowledgement_locked ack r.2 = ("", r.2)).
Proof.
  intros Hs ack r. pose proof (ack_work_ok s id digest Hs) as Hok. fold ack in Hok.
  destruct (ack_work_cases s id digest) as [[Hr Hcase]|[Hr Heq]]; fold ack in Hr.
  - unfold r. rewrite (Hok Hcase). simpl. split_and!; try done. intros _. split; [done|].
    pose proof (HandleTerminalAcknowledgement_locked_keeps ack s Hs) as Hs'.
    rewrite (Hok Hcase) in Hs'. simpl in Hs'.
    unfold ack. rewrite (ack_work_ok (released_work s id) id digest Hs') by (by apply released_work_ok).
    by rewrite released_work_idemp.
  - split_and!; [|done|done]. split; [done|]. intros Hcase. by rewrite (Hok Hcase) in Hr.
Qed.

(** C13: The same for a source terminal: a stream acknowledgement is accepted
    exactly when the stream is closed (or already released) and its retained
    terminal has the acknowledged digest; it removes that tombstone and no other,
    returns its bytes to the source budget, and is idempotent. *)
Theorem stream_acknowledgement_exact `{Protobuf} s id digest :
  Bounded s →
  let ack := TerminalAcknowledgement.make (kStreamId id) digest in
  let r := HandleTerminalAcknowledgement_locked ack s in
  (r.1 = "" ↔ stream_ack_ok s id digest) ∧
  (r.1 ≠ "" → r.2 = s) ∧
  (r.1 = "" → r.2 = released_stream s id ∧
              HandleTerminalAcknowledgement_locked ack r.2 = ("", r.2)).
Proof.
  intros Hs ack r. pose proof (ack_stream_ok s id digest Hs) as Hok. fold ack in Hok.
  destruct (ack_stream_cases s id digest) as [[Hr Hcase]|[Hr Heq]]; fold ack in Hr.
  - unfold r. rewrite (Hok Hcase). simpl. split_and!; try done. intros _. split; [done|].
    pose proof (HandleTerminalAcknowledgement_locked_keeps ack s Hs) as Hs'.
    rewrite (Hok Hcase) in Hs'. simpl in Hs'.
    unfold ack. rewrite (ack_stream_ok (released_stream s id) id digest Hs') by (by apply released_stream_ok).
    by rewrite released_stream_idemp.
  - split_and!; [|done|done]. split; [done|]. intros Hcase. by rewrite (Hok Hcase) in Hr.
Qed.

(** The message a job's terminal frame carries. *)
Definition terminal_message (frame : WorkFrame) : option TerminalMessage :=
  match frame with
  | unary_response m => Some (UnaryTerminal m)
  | operation_event m => Some (OperationTerminal m)
  | _ => None
  end.

Lemma replay_entry_message `{Protobuf} job frame unary operation digest :
  replay_entry job frame = Some (unary, operation, digest) →
  ∃ message, terminal_message frame = Some message ∧ message_digest message = Some digest.
Proof.
  unfold replay_entry. intros He.
  destruct (DispatchJob.kind job), frame; try done;
    apply bind_Some in He as (d & Hd & He); injection He as <- <- <-; eauto.
Qed.

(** C11: Commit and acknowledgement are inverse.  After a terminal is committed,
    the acknowledgement that carries the terminal digest of exactly the message
    sent releases it: the replay table is again what it was before the commit and
    every byte of the terminal is returned; an acknowledgement with any other
    digest is refused. *)
Theorem commit_acknowledge_roundtrip `{Protobuf} s job frame :
  Bounded s → (CommitTerminalFrame job frame s).1 = kCommitted →
  let id := DispatchJob.work_id job in
  let s1 := (CommitTerminalFrame job frame s).2 in
  id ≠ "" → work_tokens_ s1 !! id = None → source_streams_ s !! id = None →
  closed_sources_ s !! id = None →
  ∃ message digest, terminal_message frame = Some message ∧
    message_digest message = Some digest ∧
    (∃ s2, HandleTerminalAcknowledgement_locked
         (TerminalAcknowledgement.make (kWorkId id) digest) s1 = ("", s2) ∧
       replay_ s2 = replay_ s ∧ work_tokens_ s2 = work_tokens_ s1 ∧
       terminal_replay_bytes_ s2 = terminal_replay_bytes_ (convert_reservation s job)) ∧
    (∀ digest', digest' ≠ digest →
       (HandleTerminalAcknowledgement_locked
          (TerminalAcknowledgement.make (kWorkId id) digest') s1).1 ≠ "").
Proof.
  intros Hs Hc id s1 Hid Ht Hso Hcl.
  destruct (CommitTerminalFrame_state s job frame Hs Hc)
    as (entry & digest & unary & operation & He & Hentry & Hnew & Hrep & Htok & _ & _ & Hsrc & Hclo & _).
  fold s1 id in Hnew, Hrep, Htok, Hsrc, Hclo.
  destruct (replay_entry_message _ _ _ _ _ He) as (message & Hm & Hd).
  pose proof (CommitTerminalFrame_keeps job frame s Hs : Bounded s1) as Hs1.
  destruct (Bounded_convert s job Hs) as [Hconv _].
  exists message, digest. split_and!; [done|done| |].
  - exists (released_work s1 id). split; [apply ack_work_ok; [done|]|].
    + split_and!; [by eapply replay_entry_digest|done|done|congruence|congruence|].
      intros e. rewrite Hrep, lookup_insert_eq. intros [= <-]. by rewrite Hentry.
    + unfold released_work. simpl. rewrite Hrep, delete_insert_id by done.
      split_and!; [done|done|]. rewrite Htok. symmetry.
      replace (replay_ s) with (replay_ (convert_reservation s job))
        by (unfold convert_reservation; by case_match).
      exact (ri_sum _ _ _ _ (b_replay _ Hconv)).
  - intros digest' Hne. destruct (ack_work_cases s1 id digest') as [[_ Hok]|[? _]]; [|done].
    destruct Hok as (_ & _ & _ & _ & _ & Hdig). destruct Hne. symmetry.
    specialize (Hdig entry). rewrite Hrep, lookup_insert_eq in Hdig.
    rewrite <-Hdig by done. by rewrite Hentry.
Qed.

(** ** Witnesses *)

Module SampleTerminals.
Import Sample.

Definition job : DispatchJob.t := DispatchJob.empty <| DispatchJob.work_id := "w-1" |>
  <| DispatchJob.fingerprint := digest_of "a" |>.
Definition response : UnaryResponse.t := UnaryResponse.make "w-1" (Some (payload "out")) None.
Definition digest : string := default "" (message_digest (UnaryTerminal response)).

Definition retained : Impl := (CommitTerminalFrame job (unary_response response) ready).2.
Lemma Bounded_retained : Bounded retained.
Proof. apply CommitTerminalFrame_keeps, Bounded_ready. Qed.

Lemma Bounded_streaming : Bounded streaming.
Proof.
  apply (Bounded_sources ready); [exact Bounded_ready|done|].
  split; simpl; rewrite ?map_sum_empty, ?map_count_empty; try by vm_compute.
  intros id source [<- <-]%lookup_singleton_Some. by vm_compute.
Qed.

Definition closed : Impl := (CloseSource "w-1" None streaming).2.
Definition close_digest : string :=
  default "" (message_digest (SourceCloseTerminal (SourceClose.make "w-1" 0 None))).
Lemma Bounded_closed : Bounded closed.
Proof. apply CloseSource_keeps, Bounded_streaming. Qed.
End SampleTerminals.

Lemma work_acknowledgement_exact_witness :
  let ack := TerminalAcknowledgement.make (kWorkId "w-1") SampleTerminals.digest in
  has (replay_ SampleTerminals.retained) "w-1" = true ∧
  (HandleTerminalAcknowledgement_locked ack SampleTerminals.retained).2 =
    released_work SampleTerminals.retained "w-1".
Proof.
  split; [vm_compute; reflexivity|].
  apply (@work_acknowledgement_exact SampleProtobuf.protobuf SampleTerminals.retained "w-1"
    SampleTerminals.digest SampleTerminals.Bounded_retained).
  vm_compute. reflexivity.
Defined.

Lemma stream_acknowledgement_exact_witness :
  let ack := TerminalAcknowledgement.make (kStreamId "w-1") SampleTerminals.close_digest in
  has (closed_sources_ SampleTerminals.closed) "w-1" = true ∧
  (HandleTerminalAcknowledgement_locked ack SampleTerminals.closed).2 =
    released_stream SampleTerminals.closed "w-1".
Proof.
  split; [vm_compute; reflexivity|].
  apply (@stream_acknowledgement_exact SampleProtobuf.protobuf SampleTerminals.closed "w-1"
    SampleTerminals.close_digest SampleTerminals.Bounded_closed).
  vm_compute. reflexivity.
Defined.

Lemma commit_acknowledge_roundtrip_witness :
  ∃ message digest, terminal_message (unary_response SampleTerminals.response) = Some message ∧
    message_digest (H := SampleProtobuf.protobuf) message = Some digest ∧
    (HandleTerminalAcknowledgement_locked (TerminalAcknowledgement.make (kWorkId "w-1") digest)
       SampleTerminals.retained).1 = "".
Proof.
  destruct (@commit_acknowledge_roundtrip SampleProtobuf.protobuf Sample.ready SampleTerminals.job
    (unary_response SampleTerminals.response) Sample.Bounded_ready)
    as (message & digest & Hm & Hd & (s2 & Hs2 & _) & _).
  - vm_compute. reflexivity.
  - discriminate.
  - vm_compute. reflexivity.
  - vm_compute. reflexivity.
  - vm_compute. reflexivity.
  - exists message, digest. split; [exact Hm|]. split; [exact Hd|].
    exact (f_equal fst Hs2).
Defined.
