(* ===== verification/Dispatch.v ===== *)
(** * Work admission and dispatch

    [src/src/dispatch.cpp] and [src/src/source_dispatch.cpp]: admission of unary,
    operation and source-open requests, validation of their context, the handler
    calls and what is done with their results, and one iteration of the dispatch
    workers' loop. *)

From S2P Require Import Prelude Text Digest Messages Clock Config State Queue Bounds Stream.

Section dispatch.
Context `{Protobuf} `{Environment}.

(** ** Frames *)

Definition RejectedDispatch (now : Z) (kind : DispatchKind) (work_id code message : string)
    (error_class : ErrorClass) : WorkFrame :=
  let error := MakeError error_class code message 0 in
  match kind with
  | kUnary => unary_response (UnaryResponse.make work_id None (Some error))
  | _ =>
      let phase :=
        if bool_decide (error_class = ERROR_CLASS_CANCELLED) then OPERATION_PHASE_CANCELLED
        else if bool_decide (error_class = ERROR_CLASS_DEADLINE) then OPERATION_PHASE_EXPIRED
        else if bool_decide (error_class = ERROR_CLASS_REJECTED) then OPERATION_PHASE_REJECTED
        else OPERATION_PHASE_FAILED in
      operation_event (OperationEvent.make work_id phase now 0 None (Some error))
  end.

Definition OperationFrame (now : Z) (work_id : string) (phase : OperationPhase) : WorkFrame :=
  operation_event (OperationEvent.make work_id phase now 0 None None).

Definition count_rejected (s : Impl) : Impl :=
  s <| rejected_dispatches_ := u64 (rejected_dispatches_ s + 1) |>.

(** ** Context validation *)

Definition expected_mode (kind : DispatchKind) : InteractionMode :=
  match kind with
  | kUnary => INTERACTION_MODE_UNARY
  | kOperation => INTERACTION_MODE_OPERATION
  | kSourceOpen => INTERACTION_MODE_STREAM_SOURCE
  end.

(** The error, or the binding index and the endpoint. *)
Definition ValidateWorkContextLocked (s : Impl) (context : WorkContext.t) (kind : DispatchKind)
    : string + nat * CapabilityEndpointContract.t :=
  let deadline := Deadline.deadline_unix_nanos (WorkContext.deadline context) in
  if negb (accepting_work_ s) || negb (bool_decide (state_ s = kReady)) || session_failed_ s
  then inl "Runtime Link is not ready"
  else if negb (WorkContext.spec_revision context =? spec_revision_ s)
  then inl "Work references a stale spec revision"
  else
    match FindActiveEndpointLocked s (WorkContext.capability_id context)
            (WorkContext.endpoint_id context) with
    | None => inl "Work does not match an active capability contract"
    | Some active =>
        let endpoint := ActiveEndpoint.endpoint active in
        if negb (WorkContext.contract_version context =?
                 EnabledCapability.contract_version (ActiveEndpoint.grant active)) ||
           negb (bool_decide (WorkContext.contract_digest context =
                 EnabledCapability.contract_digest (ActiveEndpoint.grant active)))
        then inl "Work does not match an active capability contract"
        else if negb (bool_decide (CapabilityEndpointContract.interaction_mode endpoint =
                                   expected_mode kind))
        then inl "Work interaction mode does not match the endpoint"
        else if CapabilityEndpointContract.deadline_required endpoint && (deadline <=? 0)
        then inl "endpoint requires a deadline"
        else if (0 <? deadline) && (deadline <=? wall_clock_ s)
        then inl "Work deadline has expired"
        else if (CapabilityEndpointContract.idempotency_mode endpoint =?
                 IDEMPOTENCY_MODE_REQUIRED) && str_empty (WorkContext.idempotency_key context)
        then inl "endpoint requires an idempotency key"
        else if negb (IsCanonicalSha256 (WorkContext.request_digest context))
        then inl "Work request_digest must use sha256:<lowercase-hex>"
        else if negb (from_option IsValidSubject false (WorkContext.subject_ context))
        then inl "Work subject is missing or non-canonical"
        else inr (ActiveEndpoint.binding_index active, endpoint)
    end.

(** ** Admission of unary and operation requests *)

(** What the critical section of [EnqueueDispatch] decides. *)
Inductive DispatchDecision : Type :=
| Enqueued
| IdentityViolation
| RetirePair
| ReplayImmediate (frame : WorkFrame)
| Immediate (frame : WorkFrame).

(** A source stream whose request names [work_id]. *)
Definition source_uses (s : Impl) (work_id : string) : bool :=
  existsb (λ source : string * SourceState.t,
    bool_decide (WorkContext.work_id (SourceOpenRequest.context (SourceState.request source.2)) =
                 work_id)) (entries (source_streams_ s)).

Definition replayed_frame (kind : DispatchKind) (replay : ReplayEntry.t) : WorkFrame :=
  match kind with
  | kUnary => unary_response (ReplayEntry.unary replay)
  | _ => operation_event (ReplayEntry.operation replay)
  end.

Definition enqueue_job (job : DispatchJob.t) (s : Impl) : Impl :=
  s <| dispatch_queue_bytes_ := u64 (dispatch_queue_bytes_ s + DispatchJob.accounted_bytes job) |>
    <| dispatch_queue_ := dispatch_queue_ s ++ [job] |>.

Definition EnqueueDispatch_locked (job : DispatchJob.t) : C DispatchDecision := λ s,
  let rejected code message :=
    (Immediate (RejectedDispatch (wall_clock_ s) (DispatchJob.kind job) (DispatchJob.work_id job)
                  code message ERROR_CLASS_REJECTED), count_rejected s) in
  match replay_ s !! DispatchJob.work_id job with
  | Some replay =>
      if str_empty (DispatchJob.work_id job) then (IdentityViolation, count_rejected s)
      else if bool_decide (ReplayEntry.kind replay = DispatchJob.kind job) &&
              bool_decide (ReplayEntry.fingerprint replay = DispatchJob.fingerprint job)
      then (ReplayImmediate (replayed_frame (DispatchJob.kind job) replay), count_rejected s)
      else (IdentityViolation, count_rejected s)
  | None =>
      if str_empty (DispatchJob.work_id job) then (IdentityViolation, count_rejected s)
      else if negb (accepting_work_ s) || negb (bool_decide (state_ s = kReady))
      then rejected "not-ready" "capabilities are not ready for Work"
      else if has (work_tokens_ s) (DispatchJob.work_id job)
      then (IdentityViolation, count_rejected s)
      else if source_uses s (DispatchJob.work_id job) then (IdentityViolation, count_rejected s)
      else if maximum_dispatch_queue (config_ s) <=? size (dispatch_queue_ s)
      then rejected "dispatch-queue-full" "bounded dispatch queue is full"
      else if negb (FitsByteBudget (dispatch_queue_bytes_ s) (DispatchJob.accounted_bytes job)
                      (maximum_dispatch_queue_bytes (config_ s)))
      then rejected "dispatch-byte-budget" "dispatch byte budget is exhausted"
      else
        let '(cancellation, s) := make_shared_cancellation s in
        let job := job <| DispatchJob.cancellation := cancellation |> in
        let '((reserved, job), s) := ReserveTerminalReplayLocked job s in
        if reserved
        then
          let token := WorkTokenState.make (DispatchJob.cancellation job)
                         (DispatchJob.terminal_reservation_bytes job) in
          (Enqueued, enqueue_job job
             (s <| work_tokens_ := <[DispatchJob.work_id job := token]> (work_tokens_ s) |>))
        else (RetirePair, s)
  end.

Definition commit_or_fail (job : DispatchJob.t) (frame : WorkFrame) (reason : string) : C unit :=
  commit ← CommitTerminalFrame job frame;
  when (negb (bool_decide (commit = kCommitted))) (SignalCurrentSessionFailure reason).

Definition EnqueueDispatch (job : DispatchJob.t) : C unit :=
  decision ← EnqueueDispatch_locked job;
  preempt ;;
  match decision with
  | Enqueued => mret tt
  | IdentityViolation =>
      QueueWorkProtocolError (DispatchJob.inbound_frame_sequence job)
        "Work request must use one exact, unused nonempty work_id identity"
  | RetirePair =>
      SignalCurrentSessionFailure
        "terminal replay identity or byte budget requires connection-pair retirement"
  | ReplayImmediate frame =>
      queued ← QueueWork frame;
      when (negb queued) (SignalCurrentSessionFailure "Work queue rejected dispatch response")
  | Immediate frame =>
      commit_or_fail job frame
        ("bounded Work transport could not retain immediate terminal for " +:+
         DispatchJob.work_id job)
  end.

(** [NormalizeDeadline(job.unary.mutable_context()->mutable_deadline(), UnixNanos())]. *)
Definition normalize_context (context : WorkContext.t) (now : Z) : WorkContext.t :=
  context <| WorkContext.deadline_ := Some (NormalizeDeadline (WorkContext.deadline context) now) |>.

Definition unary_job (request : UnaryRequest.t) (frame_sequence now : Z) : DispatchJob.t :=
  let context := UnaryRequest.context request in
  let unary := request <| UnaryRequest.context_ := Some (normalize_context context now) |> in
  DispatchJob.make kUnary (WorkContext.work_id context) (RequestFingerprint context) unary
    OperationRequest.empty SourceOpenRequest.empty frame_sequence 0
    (Z.of_N (UnaryRequest_ByteSizeLong unary)) 0 None.

Definition operation_job (request : OperationRequest.t) (frame_sequence now : Z) : DispatchJob.t :=
  let context := OperationRequest.context request in
  let operation := request <| OperationRequest.context_ := Some (normalize_context context now) |> in
  DispatchJob.make kOperation (WorkContext.work_id context) (RequestFingerprint context)
    UnaryRequest.empty operation SourceOpenRequest.empty frame_sequence 0
    (Z.of_N (OperationRequest_ByteSizeLong operation)) 0 None.

Definition source_open_job (request : SourceOpenRequest.t) (frame_sequence now : Z)
    : DispatchJob.t :=
  let context := SourceOpenRequest.context request in
  let source_open := request
    <| SourceOpenRequest.context_ := Some (normalize_context context now) |> in
  DispatchJob.make kSourceOpen (WorkContext.work_id context) (RequestFingerprint context)
    UnaryRequest.empty OperationRequest.empty source_open frame_sequence 0
    (Z.of_N (SourceOpenRequest_ByteSizeLong source_open)) 0 None.

Definition EnqueueUnary (request : UnaryRequest.t) (frame_sequence : Z) : C unit :=
  now ← UnixNanos; EnqueueDispatch (unary_job request frame_sequence now).

Definition EnqueueOperation (request : OperationRequest.t) (frame_sequence : Z) : C unit :=
  now ← UnixNanos; EnqueueDispatch (operation_job request frame_sequence now).

(** ** Admission of source streams *)

(** The bytes a source is charged, and whether adding them up overflowed. *)
Definition source_accounting (s : Impl) (job : DispatchJob.t) : bool * Z :=
  let digest_bytes := kCanonicalSha256TextBytes in
  if size_max - digest_bytes <? str_size (DispatchJob.fingerprint job) then (true, size_max)
  else
    let metadata := digest_bytes + str_size (DispatchJob.fingerprint job) in
    if size_max - metadata <? maximum_work_frame_bytes_ s then (true, size_max)
    else
      let metadata := metadata + maximum_work_frame_bytes_ s in
      if size_max - metadata <? DispatchJob.accounted_bytes job then (true, size_max)
      else (false, DispatchJob.accounted_bytes job + metadata).

(** What the critical section of [EnqueueSourceOpen] decides: [SourceHandled] when
    the request was queued or its rejection was committed under the lock. *)
Inductive SourceOpenDecisionKind : Type :=
| SourceHandled
| SourceIdentityViolation
| SourceRetirePair
| SourceReplay (frame : WorkFrame).

(** The conditions of the if-chain after the identity checks: a new stream, a
    rejection, or retirement of the pair. *)
Inductive SourceAdmission : Type :=
| AdmitSource (binding_index : nat) (endpoint : CapabilityEndpointContract.t)
| RejectSource (error_class : ErrorClass) (code message : string)
| RetireForSource.

Definition admit_source (s : Impl) (request : SourceOpenRequest.t) (job : DispatchJob.t)
    (overflow : bool) (accounted : Z) : SourceAdmission :=
  let context := SourceOpenRequest.context request in
  let credit := SourceOpenRequest.initial_credit request in
  if str_empty (WorkContext.capability_id context) || str_empty (WorkContext.endpoint_id context)
  then RejectSource ERROR_CLASS_REJECTED "invalid-source-open"
         "source stream and WorkContext identity must not be empty"
  else if negb (bool_decide (is_Some (SourceOpenRequest.initial_credit_ request))) ||
          (CreditGrant.messages credit =? 0) || (CreditGrant.bytes credit =? 0)
  then RejectSource ERROR_CLASS_REJECTED "invalid-initial-credit"
         "source open requires positive message and byte credit"
  else
    match ValidateWorkContextLocked s
            (SourceOpenRequest.context (DispatchJob.source_open job)) kSourceOpen with
    | inl validation_error =>
        RejectSource ERROR_CLASS_REJECTED "invalid-work-context" validation_error
    | inr (binding_index, endpoint) =>
        if negb (from_option (λ b, cb_source_open (callbacks b)) false
                   (capabilities (config_ s) !! binding_index))
        then RejectSource ERROR_CLASS_REJECTED "handler-not-bound"
               "source endpoint has no bound open handler"
        else if maximum_source_tombstones (config_ s) <=?
                map_count (source_streams_ s) + map_count (closed_sources_ s)
        then RetireForSource
        else if maximum_source_streams (config_ s) <=? map_count (source_streams_ s)
        then RejectSource ERROR_CLASS_RESOURCE_EXHAUSTED "source-stream-limit"
               "global source stream limit is exhausted"
        else if (0 <? EndpointLimits.maximum_streams (CapabilityEndpointContract.limits endpoint)) &&
                (EndpointLimits.maximum_streams (CapabilityEndpointContract.limits endpoint) <=?
                 CountSourceStreamsLocked s (WorkContext.capability_id context)
                   (WorkContext.endpoint_id context))
        then RejectSource ERROR_CLASS_RESOURCE_EXHAUSTED "endpoint-stream-limit"
               "endpoint source stream limit is exhausted"
        else if maximum_dispatch_queue (config_ s) <=? size (dispatch_queue_ s)
        then RejectSource ERROR_CLASS_RESOURCE_EXHAUSTED "dispatch-queue-full"
               "bounded dispatch queue is full"
        else if negb (FitsByteBudget (dispatch_queue_bytes_ s) (DispatchJob.accounted_bytes job)
                        (maximum_dispatch_queue_bytes (config_ s)))
        then RejectSource ERROR_CLASS_RESOURCE_EXHAUSTED "dispatch-byte-budget"
               "dispatch byte budget is exhausted"
        else if overflow || negb (FitsByteBudget (source_state_bytes_ s) accounted
                                    (maximum_source_state_bytes (config_ s)))
        then RetireForSource
        else AdmitSource binding_index endpoint
    end.

Definition new_source (s : Impl) (job : DispatchJob.t) (binding_index : nat)
    (cancellation : CancellationRef) (limits : EndpointLimits.t) (accounted : Z) : SourceState.t :=
  SourceState.make (DispatchJob.source_open job) binding_index cancellation kOpening
    (connection_epoch_counter_ s) 0 0 0 0 (EndpointLimits.maximum_stream_chunk_bytes limits)
    (EndpointLimits.maximum_stream_chunk_messages limits) accounted.

(** A rejected stream leaves a tombstone like a closed one. *)
Definition reject_source (job : DispatchJob.t) (error : AdapterError.t) (overflow : bool)
    (accounted : Z) : C SourceOpenDecisionKind := λ s,
  if (maximum_source_tombstones (config_ s) <=?
      map_count (source_streams_ s) + map_count (closed_sources_ s)) || overflow ||
     negb (FitsByteBudget (source_state_bytes_ s) accounted (maximum_source_state_bytes (config_ s)))
  then (SourceRetirePair, s)
  else
    let '(cancellation, s) := make_shared_cancellation s in
    let terminal := SourceState.empty
      <| SourceState.request := DispatchJob.source_open job |>
      <| SourceState.cancellation := cancellation |>
      <| SourceState.connection_epoch := connection_epoch_counter_ s |>
      <| SourceState.accounted_bytes := accounted |> in
    let s := s <| source_state_bytes_ := u64 (source_state_bytes_ s + accounted) |> in
    let '(committed, s) := CommitSourceTerminalLocked (DispatchJob.work_id job) terminal
                             (SourceOpenRejected (DispatchJob.work_id job) error) s in
    if committed then (SourceHandled, s)
    else (SourceRetirePair, s <| source_state_bytes_ := u64 (source_state_bytes_ s - accounted) |>).

Definition EnqueueSourceOpen_locked (request : SourceOpenRequest.t) (job : DispatchJob.t)
    : C SourceOpenDecisionKind := λ s,
  let id := DispatchJob.work_id job in
  let '(overflow, accounted) := source_accounting s job in
  let duplicate_work_id := has (work_tokens_ s) id || has (replay_ s) id || source_uses s id in
  if str_empty id then (SourceIdentityViolation, count_rejected s)
  else
    match closed_sources_ s !! id with
    | Some closed =>
        if bool_decide (ClosedSourceState.fingerprint closed = DispatchJob.fingerprint job) &&
           negb (str_empty (ClosedSourceState.terminal_digest closed))
        then (SourceReplay (WorkRequest.frame (ClosedSourceState.terminal_frame closed)), s)
        else (SourceIdentityViolation, count_rejected s)
    | None =>
        if has (source_streams_ s) id || duplicate_work_id
        then (SourceIdentityViolation, count_rejected s)
        else
          match admit_source s request job overflow accounted with
          | RejectSource error_class code message =>
              reject_source job (MakeError error_class code message 0) overflow accounted
                (count_rejected s)
          | RetireForSource => (SourceRetirePair, s)
          | AdmitSource binding_index endpoint =>
              let '(cancellation, s) := make_shared_cancellation s in
              let source := new_source s job binding_index cancellation
                              (CapabilityEndpointContract.limits endpoint) accounted in
              let job := job <| DispatchJob.cancellation := cancellation |>
                             <| DispatchJob.connection_epoch := connection_epoch_counter_ s |> in
              (SourceHandled, enqueue_job job
                 (s <| source_streams_ := <[id := source]> (source_streams_ s) |>
                    <| source_state_bytes_ := u64 (source_state_bytes_ s + accounted) |>))
          end
    end.

Definition EnqueueSourceOpen (request : SourceOpenRequest.t) (frame_sequence : Z) : C unit :=
  now ← UnixNanos;
  let job := source_open_job request frame_sequence now in
  decision ← EnqueueSourceOpen_locked request job;
  preempt ;;
  match decision with
  | SourceHandled => mret tt
  | SourceIdentityViolation =>
      QueueWorkProtocolError (DispatchJob.inbound_frame_sequence job)
        "SourceOpenRequest must use one exact, unused context.work_id identity"
  | SourceRetirePair =>
      SignalCurrentSessionFailure
        "source identity or byte budget requires connection-pair retirement"
  | SourceReplay frame =>
      queued ← QueueWork frame;
      when (negb queued) (SignalCurrentSessionFailure "Work queue rejected SourceOpenResult")
  end.

(** ** Handlers *)

(** Calling a [std::function]: an empty one throws [std::bad_function_call]. *)
Definition call_handler (bound : bool) (c : Call) : C (Outcome (Answer c)) :=
  if bound then call c else mret (ThrewException "bad_function_call").

(** [endpoint], unless it is null or [ValidateInput] fails. *)
Definition endpoint_for_input (c : CapabilityContract.t) (endpoint_id : string) (input : Payload.t)
    : option CapabilityEndpointContract.t :=
  match FindEndpoint c endpoint_id with
  | Some endpoint => if ValidateInput endpoint input then Some endpoint else None
  | None => None
  end.

(** What is done with the result of a unary handler. *)
Definition check_unary_result (endpoint : CapabilityEndpointContract.t) (requested : bool)
    (result : UnaryResult.t) : UnaryResult.t :=
  if UnaryResult.succeeded result &&
     (HasError (UnaryResult.error result) ||
      negb (OutputMatches endpoint (UnaryResult.output result)))
  then UnaryResult.Failure ERROR_CLASS_PERMANENT "invalid-handler-result"
         "unary handler returned a malformed success result" 0
  else if negb (UnaryResult.succeeded result) &&
          (HasPayload (UnaryResult.output result) ||
           negb (IsTypedError (UnaryResult.error result)))
  then UnaryResult.Failure ERROR_CLASS_PERMANENT "invalid-handler-result"
         "unary handler returned a malformed failure result" 0
  else if UnaryResult.succeeded result &&
          (EndpointLimits.maximum_response_bytes (CapabilityEndpointContract.limits endpoint) <?
           str_size (Payload.value (UnaryResult.output result)))
  then UnaryResult.Failure ERROR_CLASS_RESOURCE_EXHAUSTED "response-too-large"
         "unary output exceeds its contract limit" 0
  else if requested && UnaryResult.succeeded result
  then UnaryResult.Failure ERROR_CLASS_CANCELLED "cancelled" "unary work was cancelled" 0
  else result.

Definition unary_frame (work_id : string) (result : UnaryResult.t) : WorkFrame :=
  unary_response
    (if UnaryResult.succeeded result
     then UnaryResponse.make work_id (Some (UnaryResult.output result)) None
     else UnaryResponse.make work_id None (Some (UnaryResult.error result))).

Definition unary_fallback (work_id : string) : WorkFrame :=
  unary_response (UnaryResponse.make work_id None
    (Some (MakeError ERROR_CLASS_RESOURCE_EXHAUSTED "response-too-large"
             "unary result exceeds the Work frame limit" 0))).

(** Commit a terminal; when it exceeds the frame limit, a compact error. *)
Definition commit_with_fallback (job : DispatchJob.t) (frame : WorkFrame) (fallback : C WorkFrame)
    (reason : string) : C unit :=
  commit ← CommitTerminalFrame job frame;
  preempt ;;
  commit ← (if bool_decide (commit = kTooLarge)
            then compact ← fallback; CommitTerminalFrame job compact
            else mret commit);
  preempt ;;
  when (negb (bool_decide (commit = kCommitted))) (SignalCurrentSessionFailure reason).

Definition unary_result (outcome : Outcome UnaryResult.t) : C UnaryResult.t :=
  match outcome with
  | Returned result => mret result
  | ThrewException what =>
      Log kError ("unary handler threw: " +:+ what) ;;
      mret (UnaryResult.Failure ERROR_CLASS_PERMANENT "handler-exception"
              "unary handler threw an exception" 0)
  | ThrewUnknown =>
      Log kError "unary handler threw an unknown exception" ;;
      mret (UnaryResult.Failure ERROR_CLASS_PERMANENT "handler-exception"
              "unary handler threw an unknown exception" 0)
  end.

Definition HandleUnary (job : DispatchJob.t) (binding_index : nat) : C unit :=
  config ← gets config_;
  match capabilities config !! binding_index with
  | None => mret tt
  | Some binding =>
      let work_id := DispatchJob.work_id job in
      let request := DispatchJob.unary job in
      match endpoint_for_input (contract binding)
              (WorkContext.endpoint_id (UnaryRequest.context request))
              (UnaryRequest.input request) with
      | None =>
          now ← UnixNanos;
          commit_or_fail job
            (RejectedDispatch now kUnary work_id "input-schema-mismatch"
               "unary input does not match its contract" ERROR_CLASS_REJECTED)
            "bounded Work transport could not retain unary input rejection"
      | Some endpoint =>
          outcome ← call_handler (cb_unary (callbacks binding))
                      (CallUnary binding_index request (DispatchJob.cancellation job));
          result ← unary_result outcome;
          requested ← IsCancellationRequested (DispatchJob.cancellation job);
          let result := check_unary_result endpoint requested result in
          commit_with_fallback job (unary_frame work_id result) (mret (unary_fallback work_id))
            "bounded Work transport could not commit the unary terminal result"
      end
  end.

(** *** Operations *)

Definition check_operation_result (endpoint : CapabilityEndpointContract.t)
    (result : OperationResult.t) : OperationResult.t :=
  let phase := OperationResult.phase result in
  let output := OperationResult.output result in
  let error := OperationResult.error result in
  let has_output := OperationResult.has_output result in
  let succeeded := bool_decide (phase = OPERATION_PHASE_SUCCEEDED) in
  if negb (IsTerminal phase) ||
     (succeeded && (HasError error || (has_output && negb (OutputMatches endpoint output)) ||
                    (negb has_output && HasPayload output))) ||
     (negb succeeded && (has_output || HasPayload output || negb (IsTypedError error) ||
                         negb (ErrorMatchesOperationPhase phase (AdapterError.class_ error))))
  then OperationResult.Failure ERROR_CLASS_PERMANENT "invalid-handler-result"
         "operation handler returned a malformed terminal result" 0
  else if has_output &&
          (EndpointLimits.maximum_response_bytes (CapabilityEndpointContract.limits endpoint) <?
           str_size (Payload.value output))
  then OperationResult.Failure ERROR_CLASS_RESOURCE_EXHAUSTED "response-too-large"
         "operation output exceeds its contract limit" 0
  else result.

Definition operation_frame (work_id : string) (now : Z) (result : OperationResult.t) : WorkFrame :=
  let error := OperationResult.error result in
  operation_event (OperationEvent.make work_id (OperationResult.phase result) now
    (OperationResult.native_code result)
    (if OperationResult.has_output result then Some (OperationResult.output result) else None)
    (if negb (str_empty (AdapterError.code error)) ||
        negb (bool_decide (AdapterError.class_ error = ERROR_CLASS_UNSPECIFIED))
     then Some error else None)).

Definition operation_fallback (work_id : string) : C WorkFrame :=
  now ← UnixNanos;
  mret (operation_event (OperationEvent.make work_id OPERATION_PHASE_FAILED now 0 None
    (Some (MakeError ERROR_CLASS_RESOURCE_EXHAUSTED "response-too-large"
             "operation result exceeds the Work frame limit" 0)))).

Definition operation_result (outcome : Outcome OperationResult.t) : C OperationResult.t :=
  match outcome with
  | Returned result => mret result
  | ThrewException what =>
      Log kError ("operation handler threw: " +:+ what) ;;
      mret (OperationResult.Failure ERROR_CLASS_PERMANENT "handler-exception"
              "operation handler threw an exception" 0)
  | ThrewUnknown =>
      Log kError "operation handler threw an unknown exception" ;;
      mret (OperationResult.Failure ERROR_CLASS_PERMANENT "handler-exception"
              "operation handler threw an unknown exception" 0)
  end.

(** [QueueWork(ACCEPTED) && QueueWork(STARTED)]. *)
Definition queue_lifecycle (work_id : string) : C bool :=
  now ← UnixNanos;
  accepted ← QueueWork (OperationFrame now work_id OPERATION_PHASE_ACCEPTED);
  if accepted : bool then
    preempt ;;
    now ← UnixNanos;
    QueueWork (OperationFrame now work_id OPERATION_PHASE_STARTED)
  else mret false.

Definition HandleOperation (job : DispatchJob.t) (binding_index : nat) : C unit :=
  config ← gets config_;
  match capabilities config !! binding_index with
  | None => mret tt
  | Some binding =>
      let work_id := DispatchJob.work_id job in
      let request := DispatchJob.operation job in
      match endpoint_for_input (contract binding)
              (WorkContext.endpoint_id (OperationRequest.context request))
              (OperationRequest.input request) with
      | None =>
          now ← UnixNanos;
          commit_or_fail job
            (RejectedDispatch now kOperation work_id "input-schema-mismatch"
               "operation input does not match its contract" ERROR_CLASS_REJECTED)
            "bounded Work transport could not retain operation input rejection"
      | Some endpoint =>
          announced ← queue_lifecycle work_id;
          if negb announced
          then SignalCurrentSessionFailure
                 "bounded Work transport could not send operation lifecycle events"
          else
            outcome ← call_handler (cb_operation (callbacks binding))
                        (CallOperation binding_index request (DispatchJob.cancellation job));
            result ← operation_result outcome;
            let result := check_operation_result endpoint result in
            now ← UnixNanos;
            commit_with_fallback job (operation_frame work_id now result)
              (operation_fallback work_id)
              "bounded Work transport could not commit the operation terminal result"
      end
  end.

(** *** Source streams *)

Definition source_decision (outcome : Outcome SourceOpenDecision.t) : C SourceOpenDecision.t :=
  match outcome with
  | Returned decision => mret decision
  | ThrewException what =>
      Log kError ("source open handler threw: " +:+ what) ;;
      mret (SourceOpenDecision.Reject ERROR_CLASS_PERMANENT "handler-exception"
              "source open handler threw an exception" 0)
  | ThrewUnknown =>
      Log kError "source open handler threw an unknown exception" ;;
      mret (SourceOpenDecision.Reject ERROR_CLASS_PERMANENT "handler-exception"
              "source open handler threw an unknown exception" 0)
  end.

(** The initial payload violates the endpoint's output contract. *)
Definition initial_payload_invalid (endpoint : option CapabilityEndpointContract.t)
    (payload : Payload.t) : bool :=
  match endpoint with
  | None => true
  | Some endpoint =>
      let limit := EndpointLimits.maximum_response_bytes (CapabilityEndpointContract.limits endpoint) in
      negb (IsValidPayload payload) ||
      negb (SchemaMatches (CapabilityEndpointContract.output_schema endpoint)
              (Payload.schema payload)) ||
      ((0 <? limit) && (limit <? str_size (Payload.value payload)))
  end.

Definition check_source_decision (endpoint : option CapabilityEndpointContract.t)
    (requested : bool) (decision : SourceOpenDecision.t) : SourceOpenDecision.t :=
  let accepted := SourceOpenDecision.accepted decision in
  let has_initial := SourceOpenDecision.has_initial_payload decision in
  let initial := SourceOpenDecision.initial_payload decision in
  let error := SourceOpenDecision.error decision in
  if requested
  then SourceOpenDecision.Reject ERROR_CLASS_CANCELLED "cancelled" "source open was cancelled" 0
  else if accepted && (HasError error || (negb has_initial && HasPayload initial))
  then SourceOpenDecision.Reject ERROR_CLASS_PERMANENT "invalid-handler-result"
         "accepted source open also returned an error" 0
  else if negb accepted && (has_initial || HasPayload initial || negb (IsTypedError error))
  then SourceOpenDecision.Reject ERROR_CLASS_PERMANENT "invalid-handler-result"
         "rejected source open must return one typed error and no payload" 0
  else if accepted && has_initial && initial_payload_invalid endpoint initial
  then SourceOpenDecision.Reject ERROR_CLASS_REJECTED "initial-payload-invalid"
         "source initial payload violates its output contract" 0
  else decision.

Definition source_open_frame (work_id : string) (decision : SourceOpenDecision.t) : WorkFrame :=
  source_open_result
    (if SourceOpenDecision.accepted decision
     then SourceOpenResult.make work_id true
            (if SourceOpenDecision.has_initial_payload decision
             then Some (SourceOpenDecision.initial_payload decision) else None) None
     else SourceOpenResult.make work_id false None (Some (SourceOpenDecision.error decision))).

(** What the last critical section of [HandleSourceOpen] decides. *)
Inductive SourceOpenOutcome : Type :=
| SourceDone
| SourceFailPair
| SourceNotify (source : SourceState.t).

(** The stream is still the job's own. *)
Definition source_current (s : Impl) (job : DispatchJob.t) : option SourceState.t :=
  match source_streams_ s !! DispatchJob.work_id job with
  | Some source =>
      if (SourceState.connection_epoch source =? DispatchJob.connection_epoch job) &&
         bool_decide (SourceState.cancellation source = DispatchJob.cancellation job)
      then Some source else None
  | None => None
  end.

Definition HandleSourceOpen_locked (job : DispatchJob.t) (decision : SourceOpenDecision.t)
    : C SourceOpenOutcome := λ s,
  let id := DispatchJob.work_id job in
  match source_current s job with
  | None => (SourceDone, s)
  | Some source =>
      if session_failed_ s || stop_requested_ s ||
         negb (connection_epoch_counter_ s =? DispatchJob.connection_epoch job)
      then (SourceDone, s)
      else if maximum_work_queue (config_ s) <=? size (work_queue_ s)
      then (SourceFailPair, count_dropped s)
      else
        let frame := source_open_frame id decision in
        if SourceOpenDecision.accepted decision
        then
          if negb (WorkFrameFitsLocked s frame) then (SourceFailPair, s)
          else
            let '(queued, s) := QueueWorkLocked frame s in
            if queued
            then
              let credit := SourceOpenRequest.initial_credit (DispatchJob.source_open job) in
              let source := source <| SourceState.phase := kOpen |>
                <| SourceState.message_credit := CreditGrant.messages credit |>
                <| SourceState.byte_credit := CreditGrant.bytes credit |> in
              (SourceDone, s <| source_streams_ := <[id := source]> (source_streams_ s) |>)
            else (SourceFailPair, s)
        else
          let '(committed, s) := CommitSourceTerminalLocked id source frame s in
          if committed
          then ((if bool_decide (AdapterError.class_ (SourceOpenDecision.error decision) =
                                 ERROR_CLASS_CANCELLED)
                 then SourceNotify source else SourceDone), (erase_source id s).2)
          else (SourceFailPair, s)
  end.

Definition HandleSourceOpen (job : DispatchJob.t) : C unit :=
  initial_source ← gets (λ s, default SourceState.empty
                               (source_streams_ s !! DispatchJob.work_id job));
  if negb (bool_decide (is_Some (SourceState.cancellation initial_source))) ||
     negb (SourceState.connection_epoch initial_source =? DispatchJob.connection_epoch job)
  then mret tt
  else
    preempt ;;
    config ← gets config_;
    match capabilities config !! SourceState.binding_index initial_source with
    | None => mret tt
    | Some binding =>
        let request := DispatchJob.source_open job in
        let endpoint := FindEndpoint (contract binding)
                          (WorkContext.endpoint_id (SourceOpenRequest.context request)) in
        requested ← IsCancellationRequested (DispatchJob.cancellation job);
        decision ←
          (if requested : bool
           then mret (SourceOpenDecision.Reject ERROR_CLASS_CANCELLED "cancelled"
                        "source open was cancelled before dispatch" 0)
           else
             outcome ← call_handler (cb_source_open (callbacks binding))
               (CallSourceOpen (SourceState.binding_index initial_source) request
                  (DispatchJob.cancellation job));
             source_decision outcome);
        requested ← IsCancellationRequested (DispatchJob.cancellation job);
        let decision := check_source_decision endpoint requested decision in
        preempt ;;
        outcome ← HandleSourceOpen_locked job decision;
        preempt ;;
        match outcome with
        | SourceDone => mret tt
        | SourceFailPair =>
            SignalCurrentSessionFailure "bounded Work queue could not send SourceOpenResult"
        | SourceNotify source => NotifySourceClosed source (SourceOpenDecision.error decision)
        end
    end.

(** ** The dispatch loop *)

Definition EraseWorkToken (work_id : string) : C unit :=
  ReleaseWorkTokenLocked work_id ;; MaybeQueueDrainStatusLocked.

Definition CompleteCancelledJob (job : DispatchJob.t) : C unit :=
  now ← UnixNanos;
  commit_or_fail job
    (RejectedDispatch now (DispatchJob.kind job) (DispatchJob.work_id job) "cancelled"
       "Work was cancelled before dispatch" ERROR_CLASS_CANCELLED)
    "bounded Work transport could not retain cancellation terminal" ;;
  preempt ;;
  EraseWorkToken (DispatchJob.work_id job).

(** Take the front job; [None] when the worker returns. *)
Definition dispatch_take : C (option DispatchJob.t) := λ s,
  match dispatch_queue_ s with
  | [] => (None, s)
  | job :: rest =>
      (Some job,
       s <| dispatch_queue_bytes_ :=
              u64 (dispatch_queue_bytes_ s - DispatchJob.accounted_bytes job) |>
         <| dispatch_queue_ := rest |>
         <| active_dispatch_jobs_ := u64 (active_dispatch_jobs_ s + 1) |>)
  end.

Definition job_finished : C unit :=
  modify (λ s, s <| active_dispatch_jobs_ := u64 (active_dispatch_jobs_ s - 1) |>).
Definition work_started : C unit :=
  modify (λ s, s <| in_flight_work_ := u64 (in_flight_work_ s + 1) |>).
Definition work_finished : C unit :=
  modify (λ s, if 0 <? in_flight_work_ s
               then s <| in_flight_work_ := u64 (in_flight_work_ s - 1) |> else s).

Definition dispatch_source (job : DispatchJob.t) : C unit :=
  dispatch ← gets (λ s, bool_decide (is_Some (source_current s job)));
  when dispatch work_started ;;
  preempt ;;
  when dispatch (HandleSourceOpen job) ;;
  preempt ;;
  when dispatch work_finished ;;
  job_finished ;;
  MaybeQueueDrainStatusLocked.

Definition dispatch_work (job : DispatchJob.t) : C unit :=
  requested ← IsCancellationRequested (DispatchJob.cancellation job);
  if requested : bool
  then CompleteCancelledJob job ;; preempt ;; job_finished
  else
    let context := match DispatchJob.kind job with
                   | kUnary => UnaryRequest.context (DispatchJob.unary job)
                   | _ => OperationRequest.context (DispatchJob.operation job)
                   end in
    validated ← gets (λ s, ValidateWorkContextLocked s context (DispatchJob.kind job));
    match validated with
    | inl validation_error =>
        modify count_rejected ;;
        preempt ;;
        now ← UnixNanos;
        commit_or_fail job
          (RejectedDispatch now (DispatchJob.kind job) (DispatchJob.work_id job)
             "invalid-work-context" validation_error ERROR_CLASS_REJECTED)
          "bounded Work transport could not retain context rejection" ;;
        preempt ;;
        EraseWorkToken (DispatchJob.work_id job) ;;
        preempt ;;
        job_finished
    | inr (binding_index, _) =>
        work_started ;;
        preempt ;;
        match DispatchJob.kind job with
        | kUnary => HandleUnary job binding_index
        | _ => HandleOperation job binding_index
        end ;;
        preempt ;;
        work_finished ;;
        job_finished ;;
        ReleaseWorkTokenLocked (DispatchJob.work_id job) ;;
        MaybeQueueDrainStatusLocked
    end.

(** One iteration; [false] when the loop returns. *)
Definition DispatchIteration : C bool :=
  wait_until (λ s, stop_requested_ s || negb (bool_decide (dispatch_queue_ s = []))) ;;
  taken ← dispatch_take;
  match taken with
  | None => mret false
  | Some job =>
      preempt ;;
      match DispatchJob.kind job with
      | kSourceOpen => dispatch_source job
      | _ => dispatch_work job
      end ;;
      mret true
  end.

(** [DispatchLoop], cut off after [fuel] iterations. *)
Fixpoint DispatchLoop (fuel : nat) : C unit :=
  match fuel with
  | O => mret tt
  | S fuel => continue_ ← DispatchIteration; if continue_ : bool then DispatchLoop fuel else mret tt
  end.
End dispatch.
