(* ===== verification/DispatchFacts.v ===== *)
(** * Properties of admission and dispatch

    The resource invariant for admission, the handlers and the workers' loop, in
    any environment that keeps it. *)

From S2P Require Import Prelude Text Digest Messages Clock Config State Queue Bounds.
From S2P Require Import Stream StreamFacts Dispatch.

(** ** The resource invariant *)

Section dispatch_inv.
Context `{Protobuf} `{Environment}.

Lemma Bounded_enqueue s job :
  Bounded s → size (dispatch_queue_ s) < maximum_dispatch_queue (config_ s) →
  0 ≤ DispatchJob.accounted_bytes job →
  dispatch_queue_bytes_ s + DispatchJob.accounted_bytes job ≤
    maximum_dispatch_queue_bytes (config_ s) →
  Bounded (enqueue_job job s).
Proof.
  intros [Hl Hf Hc Hw Hd Hr Hs] ? ? ?. split; try done.
  pose proof (queue_nonneg _ _ _ _ _ _ Hd).
  apply (queue_push DispatchJob.accounted_bytes _ _ _ (dispatch_queue_ s)
    (dispatch_queue_bytes_ s) job); try done; [limits|simpl in *; lia].
Qed.

Lemma EnqueueDispatch_locked_keeps job :
  0 ≤ DispatchJob.accounted_bytes job → keeps Bounded (EnqueueDispatch_locked job).
Proof.
  intros Hjob s Hs. unfold EnqueueDispatch_locked.
  destruct (replay_ s !! _) eqn:Hrep; [by repeat case_match|].
  do 2 (case_match; [done|]). case_match eqn:Htoken; [done|].
  case_match; [done|]. case_match eqn:Hroom; [done|]. case_match eqn:Hfit; [done|].
  destruct (make_shared_cancellation s) as [cancellation s1] eqn:Hs1. injection Hs1 as _ Hs1.
  destruct (ReserveTerminalReplayLocked _ _) as [[[] job'] s2] eqn:Hres; simpl.
  - apply ReserveTerminalReplayLocked_true in Hres
      as (reservation & Hreservation & Hcount & Hbytes & _ & -> & ->).
    subst s1.
    apply Bounded_enqueue; [|guards; simpl; lia|done|guards; by apply FitsByteBudget_le].
    apply (Bounded_reserve (s <| cancellations_ := cancellations_ s ++ [false] |>)); try done;
      [|by rewrite Hreservation; apply u64_range].
    by apply bool_decide_eq_false, eq_None_not_Some in Htoken.
  - apply ReserveTerminalReplayLocked_false in Hres as [_ ->]. by subst s1.
Qed.

(** A source's accounting is a [std::size_t]. *)
Lemma source_accounting_nonneg s job :
  Bounded s → 0 ≤ DispatchJob.accounted_bytes job → 0 ≤ (source_accounting s job).2.
Proof.
  intros Hs ?. pose proof (proj1 (b_frames _ Hs)) as [? _]. simpl in *.
  pose proof (str_size_nonneg (DispatchJob.fingerprint job)).
  unfold source_accounting, kCanonicalSha256TextBytes, size_max, u64_max.
  repeat case_match; simpl; lia.
Qed.

Lemma source_uses_false s id :
  source_uses s id = false → ∀ id' source, source_streams_ s !! id' = Some source →
  WorkContext.work_id (SourceOpenRequest.context (SourceState.request source)) ≠ id.
Proof.
  intros Hu id' source Hsource Heq. apply not_true_iff_false in Hu. apply Hu, existsb_elem.
  exists (id', source). split; [by apply elem_of_entries|]. by apply bool_decide_eq_true_2.
Qed.

Lemma SourceInv_open config sources closed bytes id source :
  SourceInv config sources closed bytes → sources !! id = None → closed !! id = None →
  0 ≤ SourceState.accounted_bytes source → str_empty id = false →
  WorkContext.work_id (SourceOpenRequest.context (SourceState.request source)) = id →
  map_count sources < maximum_source_streams config →
  map_count sources + map_count closed < maximum_source_tombstones config →
  bytes + SourceState.accounted_bytes source ≤ maximum_source_state_bytes config →
  SourceInv config (<[id := source]> sources) closed (bytes + SourceState.accounted_bytes source).
Proof.
  intros [Hd Hsum Hb Hn Ht Hs Hc] Hid Hcl ? ? ? ? ? ?.
  split; rewrite ?map_count_insert, ?map_sum_insert by done; try lia; try done.
  - intros id' src [[<- _]|[_ ?]]%lookup_insert_Some; eauto.
  - intros id' src [[<- <-]|[_ ?]]%lookup_insert_Some; eauto.
Qed.

(** A tombstone of a stream that was never opened. *)
Lemma SourceInv_tombstone config sources closed bytes id c :
  SourceInv config sources closed bytes → sources !! id = None → closed !! id = None →
  0 ≤ ClosedSourceState.accounted_bytes c →
  map_count sources + map_count closed < maximum_source_tombstones config →
  bytes + ClosedSourceState.accounted_bytes c ≤ maximum_source_state_bytes config →
  SourceInv config sources (<[id := c]> closed) (bytes + ClosedSourceState.accounted_bytes c).
Proof.
  intros [Hd Hsum Hb Hn Ht Hs Hc] Hid Hcl ? ? ?.
  split; rewrite ?map_count_insert, ?map_sum_insert by done; try lia; try done.
  - intros id' src Hsrc. rewrite lookup_insert_ne by (intros ->; congruence). eauto.
  - intros id' e [[_ <-]|[_ ?]]%lookup_insert_Some; eauto.
Qed.

(** The limits an admitted stream has passed. *)
Lemma admit_source_admits s request job overflow accounted binding endpoint :
  admit_source s request job overflow accounted = AdmitSource binding endpoint →
  map_count (source_streams_ s) + map_count (closed_sources_ s) <
    maximum_source_tombstones (config_ s) ∧
  map_count (source_streams_ s) < maximum_source_streams (config_ s) ∧
  size (dispatch_queue_ s) < maximum_dispatch_queue (config_ s) ∧
  dispatch_queue_bytes_ s + DispatchJob.accounted_bytes job ≤
    maximum_dispatch_queue_bytes (config_ s) ∧
  source_state_bytes_ s + accounted ≤ maximum_source_state_bytes (config_ s) ∧
  ValidateWorkContextLocked s (SourceOpenRequest.context (DispatchJob.source_open job))
    kSourceOpen = inr (binding, endpoint).
Proof.
  unfold admit_source. do 2 (case_match; [done|]).
  destruct (ValidateWorkContextLocked _ _ _) as [|[b e]]; [done|].
  repeat (case_match; [done|]). intros [= <- <-]. guards.
  split_and!; try done; by apply FitsByteBudget_le.
Qed.

Lemma reject_source_keeps s job error overflow accounted :
  Bounded s → 0 ≤ accounted →
  source_streams_ s !! DispatchJob.work_id job = None →
  closed_sources_ s !! DispatchJob.work_id job = None →
  Bounded (reject_source job error overflow accounted s).2.
Proof.
  intros Hs Hacc Hso Hcl. unfold reject_source. case_match eqn:Hg; [done|]. simpl.
  apply orb_false_iff in Hg as [Hg Hfit]. apply negb_false_iff, FitsByteBudget_le in Hfit.
  guards. pose proof (Bounded_source_inv _ Hs) as Hinv.
  pose proof (source_bytes_nonneg _ _ _ _ Hinv). pose proof (b_limits _ Hs) as Hl. simpl in Hl.
  rewrite u64_id by (unfold in_u64; limits).
  set (s1 := s <| cancellations_ := _ |> <| source_state_bytes_ := _ |>).
  lazymatch goal with |- context [CommitSourceTerminalLocked _ ?src ?fr _] =>
    set (source := src); set (frame := fr) end.
  assert (Hs1 : Bounded s1).
  { apply (Bounded_sources _ _ Hs); [done|]. destruct Hinv. split; simpl; try done; lia. }
  pose proof (CommitSourceTerminalLocked_true s1 (DispatchJob.work_id job) source frame) as Ht.
  pose proof (CommitSourceTerminalLocked_false s1 (DispatchJob.work_id job) source frame) as Hf.
  destruct (CommitSourceTerminalLocked _ source frame s1) as [[] s2]; simpl in *.
  - destruct (Ht eq_refl) as (message & digest & _ & _ & _ & _ & Hq & ->).
    apply (Bounded_sources _ _ (Bounded_queue_work _ _ Hs1 Hq)); [done|].
    simpl. by apply (SourceInv_tombstone _ _ _ _ _
      (ClosedSourceState.make _ _ _ _ _ _ accounted) Hinv).
  - assert (Hb : source_state_bytes_ s2 = source_state_bytes_ s + accounted)
      by (by destruct (Hf eq_refl) as [-> | ->]).
    rewrite Hb, Z.add_simpl_r, u64_id by (unfold in_u64; limits).
    destruct (Hf eq_refl) as [-> | ->]; by apply (Bounded_sources s _ Hs).
Qed.

Lemma EnqueueSourceOpen_locked_keeps request job :
  0 ≤ DispatchJob.accounted_bytes job →
  WorkContext.work_id (SourceOpenRequest.context (DispatchJob.source_open job)) =
    DispatchJob.work_id job →
  keeps Bounded (EnqueueSourceOpen_locked request job).
Proof.
  intros Hjob Hname s Hs. unfold EnqueueSourceOpen_locked.
  pose proof (source_accounting_nonneg s job Hs Hjob) as Hacc.
  destruct (source_accounting s job) as [overflow accounted]. simpl in Hacc.
  case_match eqn:Hempty; [done|].
  destruct (closed_sources_ s !! _) eqn:Hcl; [by case_match|].
  case_match eqn:Hdup; [done|]. apply orb_false_iff in Hdup as [Hso _].
  apply bool_decide_eq_false, eq_None_not_Some in Hso.
  destruct (admit_source _ _ _ _ _) as [binding endpoint| |] eqn:Hadmit; simpl; [|by apply reject_source_keeps|done].
  destruct (admit_source_admits _ _ _ _ _ _ _ Hadmit) as (Ht & Hn & Hq & Hdf & Hsf & _).
  pose proof (Bounded_source_inv _ Hs) as Hinv. pose proof (b_limits _ Hs) as Hl. simpl in Hl.
  pose proof (source_bytes_nonneg _ _ _ _ Hinv).
  rewrite u64_id by (unfold in_u64; limits).
  apply Bounded_enqueue; [|done..]. apply (Bounded_sources _ _ Hs); [done|]. simpl.
  by apply (SourceInv_open _ _ _ _ _ (SourceState.make _ _ _ _ _ _ _ _ _ _ _ accounted) Hinv).
Qed.

Lemma dispatch_take_keeps : keeps Bounded dispatch_take.
Proof.
  intros s [Hl Hf Hc Hw Hd Hr Hs]. unfold dispatch_take.
  destruct (dispatch_queue_ s) as [|front rest] eqn:Hq; simpl; [by split|].
  split; try done. unfold DispatchInv in *. simpl in *. rewrite Hq in Hd.
  apply (queue_pop DispatchJob.accounted_bytes _ _ _ rest (dispatch_queue_bytes_ s) front);
    [limits|done].
Qed.

Lemma source_current_Some s job source :
  source_current s job = Some source →
  source_streams_ s !! DispatchJob.work_id job = Some source ∧
  SourceState.connection_epoch source = DispatchJob.connection_epoch job ∧
  SourceState.cancellation source = DispatchJob.cancellation job.
Proof.
  unfold source_current. destruct (source_streams_ s !! _); [|done].
  case_match eqn:Hg; [|done]. intros [= <-]. by guards.
Qed.

Lemma HandleSourceOpen_locked_keeps job decision :
  keeps Bounded (HandleSourceOpen_locked job decision).
Proof.
  intros s Hs. unfold HandleSourceOpen_locked.
  destruct (source_current s job) as [source|] eqn:Hcur; [|done].
  apply source_current_Some in Hcur as (Hid & _ & _). do 2 (case_match; [done|]).
  set (frame := source_open_frame _ _). case_match.
  - case_match; [done|]. pose proof (QueueWorkLocked_true s frame) as Hq.
    pose proof (QueueWorkLocked_keeps frame s Hs) as Hs'.
    destruct (QueueWorkLocked frame s) as [[] s']; [|done]. simpl in Hs'.
    destruct (Hq eq_refl) as [Heq _]. simpl in Heq. subst s'.
    apply (Bounded_sources _ _ Hs'); [done|].
    by apply (SourceInv_update _ _ _ _ _ _ _ (Bounded_source_inv _ Hs') Hid).
  - pose proof (Bounded_commit_source s _ _ frame Hs Hid) as Ht.
    pose proof (CommitSourceTerminalLocked_false s (DispatchJob.work_id job) source frame) as Hf.
    destruct (CommitSourceTerminalLocked _ _ frame s) as [[] s']; [by apply Ht|].
    by destruct (Hf eq_refl) as [Hf'|Hf']; simpl in Hf'; subst.
Qed.
Hint Resolve dispatch_take_keeps HandleSourceOpen_locked_keeps : keeps.

Context `{!Rely Bounded}.

Lemma commit_or_fail_keeps job frame reason : keeps Bounded (commit_or_fail job frame reason).
Proof. unfold commit_or_fail. solve_keeps. Qed.
Hint Resolve commit_or_fail_keeps : keeps.

Lemma EnqueueDispatch_keeps job :
  0 ≤ DispatchJob.accounted_bytes job → keeps Bounded (EnqueueDispatch job).
Proof.
  intros Hjob. unfold EnqueueDispatch. apply keeps_bind; [by apply EnqueueDispatch_locked_keeps|].
  intros []; solve_keeps.
Qed.

Lemma EnqueueUnary_keeps request sequence : keeps Bounded (EnqueueUnary request sequence).
Proof.
  apply keeps_bind; [apply keeps_gets|]. intros now. apply EnqueueDispatch_keeps. simpl. lia.
Qed.

Lemma EnqueueOperation_keeps request sequence : keeps Bounded (EnqueueOperation request sequence).
Proof.
  apply keeps_bind; [apply keeps_gets|]. intros now. apply EnqueueDispatch_keeps. simpl. lia.
Qed.

Lemma EnqueueSourceOpen_keeps request sequence :
  keeps Bounded (EnqueueSourceOpen request sequence).
Proof.
  apply keeps_bind; [apply keeps_gets|]. intros now.
  apply keeps_bind; [apply EnqueueSourceOpen_locked_keeps; simpl; [lia|done]|].
  intros []; solve_keeps.
Qed.

Lemma call_handler_keeps bound c : keeps Bounded (call_handler bound c).
Proof. unfold call_handler, call. solve_keeps. Qed.

Lemma commit_with_fallback_keeps job frame fallback reason :
  keeps Bounded fallback → keeps Bounded (commit_with_fallback job frame fallback reason).
Proof. intros. unfold commit_with_fallback. solve_keeps. Qed.

Lemma unary_result_keeps outcome : keeps Bounded (unary_result outcome).
Proof. unfold unary_result. solve_keeps. Qed.
Lemma operation_result_keeps outcome : keeps Bounded (operation_result outcome).
Proof. unfold operation_result. solve_keeps. Qed.
Lemma source_decision_keeps outcome : keeps Bounded (source_decision outcome).
Proof. unfold source_decision. solve_keeps. Qed.
Lemma queue_lifecycle_keeps id : keeps Bounded (queue_lifecycle id).
Proof. unfold queue_lifecycle, UnixNanos. solve_keeps. Qed.
Lemma operation_fallback_keeps id : keeps Bounded (operation_fallback id).
Proof. unfold operation_fallback, UnixNanos. solve_keeps. Qed.
Hint Resolve call_handler_keeps commit_with_fallback_keeps unary_result_keeps
  operation_result_keeps source_decision_keeps queue_lifecycle_keeps operation_fallback_keeps
  : keeps.

Lemma HandleUnary_keeps job binding : keeps Bounded (HandleUnary job binding).
Proof. unfold HandleUnary, UnixNanos, IsCancellationRequested. solve_keeps. Qed.
Lemma HandleOperation_keeps job binding : keeps Bounded (HandleOperation job binding).
Proof. unfold HandleOperation, UnixNanos. solve_keeps. Qed.
Lemma HandleSourceOpen_keeps job : keeps Bounded (HandleSourceOpen job).
Proof. unfold HandleSourceOpen, IsCancellationRequested. solve_keeps. Qed.
Lemma EraseWorkToken_keeps id : keeps Bounded (EraseWorkToken id).
Proof. unfold EraseWorkToken. solve_keeps. Qed.
Hint Resolve HandleUnary_keeps HandleOperation_keeps HandleSourceOpen_keeps EraseWorkToken_keeps
  : keeps.

Lemma job_finished_keeps : keeps Bounded job_finished.
Proof. by intros s []. Qed.
Lemma work_started_keeps : keeps Bounded work_started.
Proof. by intros s []. Qed.
Lemma work_finished_keeps : keeps Bounded work_finished.
Proof. intros s []. unfold work_finished, modify. simpl. by case_match. Qed.
Hint Resolve job_finished_keeps work_started_keeps work_finished_keeps : keeps.

Lemma CompleteCancelledJob_keeps job : keeps Bounded (CompleteCancelledJob job).
Proof. unfold CompleteCancelledJob, UnixNanos. solve_keeps. Qed.
Hint Resolve CompleteCancelledJob_keeps : keeps.

Lemma dispatch_source_keeps job : keeps Bounded (dispatch_source job).
Proof. unfold dispatch_source. solve_keeps. Qed.
Lemma dispatch_work_keeps job : keeps Bounded (dispatch_work job).
Proof. unfold dispatch_work, IsCancellationRequested, UnixNanos. solve_keeps. Qed.
Hint Resolve dispatch_source_keeps dispatch_work_keeps : keeps.

Lemma DispatchIteration_keeps : keeps Bounded DispatchIteration.
Proof. unfold DispatchIteration. solve_keeps. Qed.
Hint Resolve DispatchIteration_keeps : keeps.

Lemma DispatchLoop_keeps fuel : keeps Bounded (DispatchLoop fuel).
Proof. induction fuel as [|fuel IH]; simpl; solve_keeps. Qed.
End dispatch_inv.

#[export] Hint Resolve EnqueueUnary_keeps EnqueueOperation_keeps EnqueueSourceOpen_keeps
  DispatchIteration_keeps DispatchLoop_keeps : keeps.
