(* ===== verification/Admission.v ===== *)
(** * Admission and redelivery

    When exactly a request is queued for a worker, and what a second delivery of a
    request gets once its terminal is retained. *)

From S2P Require Import Prelude Text Digest Messages Clock Config State Queue Bounds.
From S2P Require Import Stream StreamFacts Sample Terminals Dispatch DispatchFacts.

(** ** Admission *)

Section admission.
Context `{Protobuf}.

(** Everything [EnqueueDispatch] checks before it queues a job. *)
Definition admissible (s : Impl) (job : DispatchJob.t) : Prop :=
  let id := DispatchJob.work_id job in
  let metadata := u64 (str_size (DispatchJob.fingerprint job) + kCanonicalSha256TextBytes) in
  id ≠ "" ∧ replay_ s !! id = None ∧ accepting_work_ s = true ∧ state_ s = kReady ∧
  work_tokens_ s !! id = None ∧
  (∀ id' source, source_streams_ s !! id' = Some source →
     WorkContext.work_id (SourceOpenRequest.context (SourceState.request source)) ≠ id) ∧
  size (dispatch_queue_ s) < maximum_dispatch_queue (config_ s) ∧
  dispatch_queue_bytes_ s + DispatchJob.accounted_bytes job ≤
    maximum_dispatch_queue_bytes (config_ s) ∧
  map_count (replay_ s) + map_count (work_tokens_ s) < maximum_terminal_replay (config_ s) ∧
  maximum_work_frame_bytes_ s + metadata ≤ u64_max ∧
  terminal_replay_bytes_ s + (maximum_work_frame_bytes_ s + metadata) ≤
    maximum_terminal_replay_bytes (config_ s).

(** The job as it is queued: a fresh cancellation flag and its reservation. *)
Definition admitted_job (s : Impl) (job : DispatchJob.t) : DispatchJob.t :=
  job <| DispatchJob.cancellation := Some (length (cancellations_ s)) |>
      <| DispatchJob.terminal_reservation_bytes := maximum_work_frame_bytes_ s +
           u64 (str_size (DispatchJob.fingerprint job) + kCanonicalSha256TextBytes) |>.

Lemma source_uses_spec s id :
  source_uses s id = false ↔
  ∀ id' source, source_streams_ s !! id' = Some source →
    WorkContext.work_id (SourceOpenRequest.context (SourceState.request source)) ≠ id.
Proof.
  split; [apply source_uses_false|]. intros Hne. apply not_true_iff_false.
  unfold source_uses. rewrite existsb_elem. intros ([id' source] & Hin & Heq).
  apply elem_of_entries in Hin. apply bool_decide_eq_true in Heq. by apply (Hne _ _ Hin).
Qed.

Lemma ReserveTerminalReplayLocked_iff s job :
  Bounded s →
  (ReserveTerminalReplayLocked job s).1.1 = true ↔
  DispatchJob.work_id job ≠ "" ∧
  map_count (replay_ s) + map_count (work_tokens_ s) < maximum_terminal_replay (config_ s) ∧
  let metadata := u64 (str_size (DispatchJob.fingerprint job) + kCanonicalSha256TextBytes) in
  maximum_work_frame_bytes_ s + metadata ≤ u64_max ∧
  terminal_replay_bytes_ s + (maximum_work_frame_bytes_ s + metadata) ≤
    maximum_terminal_replay_bytes (config_ s).
Proof.
  intros Hs. pose proof (proj1 (b_frames _ Hs)) as [? ?]. simpl in *.
  pose proof (replay_bytes_nonneg _ _ _ _ (b_replay _ Hs)). simpl in *.
  pose proof (u64_range (str_size (DispatchJob.fingerprint job) + kCanonicalSha256TextBytes))
    as [? ?].
  unfold ReserveTerminalReplayLocked, size_max. case_match eqn:Hg; simpl.
  { split; [done|]. intros (Hid & ? & _). guards. destruct Hg as [Hg|Hg]; [|lia].
    by apply str_empty_spec in Hg. }
  case_match eqn:Hov; simpl; guards.
  { split; [done|]. intros (_ & _ & ? & _). lia. }
  rewrite u64_id by (unfold in_u64; lia).
  case_match eqn:Hfit; simpl; guards; rewrite <-(str_empty_spec (DispatchJob.work_id job)).
  - split; [done|]. intros (_ & _ & _ & ?). apply not_true_iff_false in Hfit.
    destruct Hfit. apply FitsByteBudget_spec; [done|]. lia.
  - split; [|done]. intros _. split_and!; [congruence|lia|lia|]. by apply FitsByteBudget_le.
Qed.

Lemma EnqueueDispatch_enqueued s job :
  Bounded s → (EnqueueDispatch_locked job s).1 = Enqueued → admissible s job.
Proof.
  intros Hs. unfold EnqueueDispatch_locked, admissible.
  destruct (replay_ s !! _) as [entry|]; [by repeat case_match|].
  destruct (str_empty (DispatchJob.work_id job)) eqn:Hid; [done|].
  case_match eqn:Hready; [done|]. destruct (has (work_tokens_ s) _) eqn:Ht; [done|].
  destruct (source_uses s _) eqn:Hu; [done|]. case_match eqn:Hroom; [done|].
  case_match eqn:Hfit; [done|].
  destruct (make_shared_cancellation s) as [flag s1] eqn:Hs1. injection Hs1 as _ Hs1.
  assert (Bounded s1) as Hb by (by subst s1).
  match goal with |- context [ReserveTerminalReplayLocked ?j s1] =>
    pose proof (proj1 (ReserveTerminalReplayLocked_iff s1 j Hb)) as Hres;
    destruct (ReserveTerminalReplayLocked j s1) as [[[] job'] s2]; [|done] end.
  intros _. destruct (Hres eq_refl) as (Hne & Hcount & Hov & Hbytes). subst s1.
  apply has_false in Ht. pose proof (proj1 (source_uses_spec _ _) Hu). guards.
  split_and!; try done. by apply FitsByteBudget_le.
Qed.

Lemma EnqueueDispatch_admissible s job :
  Bounded s → admissible s job →
  EnqueueDispatch_locked job s =
  (Enqueued, enqueue_job (admitted_job s job)
     (s <| cancellations_ := cancellations_ s ++ [false] |>
        <| terminal_replay_bytes_ := u64 (terminal_replay_bytes_ s +
             DispatchJob.terminal_reservation_bytes (admitted_job s job)) |>
        <| work_tokens_ := <[DispatchJob.work_id job := WorkTokenState.make
             (DispatchJob.cancellation (admitted_job s job))
             (DispatchJob.terminal_reservation_bytes (admitted_job s job))]> (work_tokens_ s) |>)).
Proof.
  intros Hs (Hid & Hrep & Hacc & Hst & Ht & Hu & Hroom & Hfit & Hcount & Hov & Hbytes).
  apply source_uses_spec in Hu. apply has_false in Ht.
  pose proof (queue_nonneg _ _ _ _ _ _ (b_dispatch _ Hs) : 0 ≤ dispatch_queue_bytes_ s).
  pose proof (replay_bytes_nonneg _ _ _ _ (b_replay _ Hs)). simpl in *.
  pose proof (proj1 (b_frames _ Hs)) as [? ?]. simpl in *.
  pose proof (u64_range (str_size (DispatchJob.fingerprint job) + kCanonicalSha256TextBytes))
    as [? ?].
  assert (str_empty (DispatchJob.work_id job) = false) as He
    by (apply not_true_iff_false; by rewrite str_empty_spec).
  unfold EnqueueDispatch_locked, ReserveTerminalReplayLocked, make_shared_cancellation, size_max.
  rewrite Hrep, He, Hacc, Ht, Hu, (bool_decide_eq_true_2 _ Hst). simpl. rewrite He. simpl.
  rewrite (proj2 (Z.leb_gt _ _)) by lia.
  rewrite FitsByteBudget_true by lia. simpl.
  rewrite (proj2 (Z.leb_gt _ _)) by lia. rewrite (proj2 (Z.ltb_ge _ _)) by lia.
  rewrite (u64_id (maximum_work_frame_bytes_ s + _)) by (unfold in_u64; lia).
  by rewrite FitsByteBudget_true by lia.
Qed.
End admission.


(** ** Redelivery *)

(** The same request: the kind and the request digest agree. *)
Definition same_request (job job' : DispatchJob.t) : bool :=
  bool_decide (DispatchJob.kind job' = DispatchJob.kind job ∧
               DispatchJob.fingerprint job' = DispatchJob.fingerprint job).

(** C14: Exactly-once execution under redelivery.  After a terminal has been
    committed for a Work identity, delivering a request with that identity again
    never reaches a worker: the same kind and request digest get the committed
    frame itself again, anything else is an identity violation, and neither
    changes the queues, the tokens or the replay table. *)
Theorem redelivery_replays_the_terminal `{Protobuf} s job frame job' :
  Bounded s → (CommitTerminalFrame job frame s).1 = kCommitted →
  DispatchJob.work_id job ≠ "" → DispatchJob.work_id job' = DispatchJob.work_id job →
  let s1 := (CommitTerminalFrame job frame s).2 in
  EnqueueDispatch_locked job' s1 =
    ((if same_request job job' then ReplayImmediate frame else IdentityViolation),
     count_rejected s1).
Proof.
  intros Hs Hc Hid Hsame s1. unfold same_request.
  destruct (CommitTerminalFrame_state s job frame Hs Hc)
    as (entry & digest & unary & operation & He & Hentry & _ & Hrep & _).
  fold s1 in Hrep. unfold EnqueueDispatch_locked. rewrite Hsame, Hrep, lookup_insert_eq.
  assert (str_empty (DispatchJob.work_id job) = false) as ->
    by (apply not_true_iff_false; by rewrite str_empty_spec).
  subst entry. simpl. rewrite <-bool_decide_and.
  rewrite (bool_decide_ext _ (DispatchJob.kind job' = DispatchJob.kind job ∧
    DispatchJob.fingerprint job' = DispatchJob.fingerprint job)) by naive_solver.
  case_bool_decide as Heq; [|done]. destruct Heq as [Hkind _]. rewrite Hkind.
  do 2 f_equal. unfold replay_entry in He.
  destruct (DispatchJob.kind job), frame; try done;
    apply bind_Some in He as (d & _ & He); by injection He as <- <- <-.
Qed.

Lemma redelivery_replays_the_terminal_witness :
  EnqueueDispatch_locked SampleTerminals.job SampleTerminals.retained =
  (ReplayImmediate (unary_response SampleTerminals.response), count_rejected SampleTerminals.retained).
Proof.
  refine (@redelivery_replays_the_terminal SampleProtobuf.protobuf Sample.ready
    SampleTerminals.job (unary_response SampleTerminals.response) SampleTerminals.job
    Sample.Bounded_ready _ _ eq_refl).
  - vm_compute. reflexivity.
  - discriminate.
Defined.

