(* ===== verification/Handlers.v ===== *)
(** * What the Host receives from a handler

    Whatever a handler returns or throws, the terminal that is sent satisfies the
    endpoint's contract, and a dispatched request either ends in exactly one
    retained terminal or takes the session down. *)

From S2P Require Import Prelude Text Digest Messages Clock Config State Queue Bounds.
From S2P Require Import Stream StreamFacts Sample Terminals Dispatch DispatchFacts.

(** The numbers of [xgc.adapter.v1.ErrorClass]: the named classes lie between
    PERMANENT and RESOURCE_EXHAUSTED. *)
Class ErrorClassNumbers `{Protobuf} : Prop := {
  class_numbers : ∀ c, typed_class c = true →
    error_class_number ERROR_CLASS_PERMANENT ≤ error_class_number c ≤
    error_class_number ERROR_CLASS_RESOURCE_EXHAUSTED;
}.

#[export] Instance sample_class_numbers : @ErrorClassNumbers SampleProtobuf.protobuf.
Proof. split. by intros [] ?; vm_compute. Qed.

Section results.
Context `{ErrorClassNumbers}.

Lemma IsTypedError_MakeError c code message retry :
  typed_class c = true → IsCanonicalIdentifier code = true → IsCanonicalText message = true →
  IsTypedError (MakeError c code message retry) = true.
Proof.
  intros Hc Hcode Hmessage. unfold IsTypedError. simpl. pose proof (class_numbers c Hc).
  rewrite Hcode, Hmessage, !(proj2 (Z.leb_le _ _)) by lia. done.
Qed.

(** A unary response the endpoint's contract allows. *)
Definition well_formed_unary (endpoint : CapabilityEndpointContract.t) (m : UnaryResponse.t)
    : Prop :=
  match UnaryResponse.output_ m, UnaryResponse.error_ m with
  | Some output, None =>
      OutputMatches endpoint output = true ∧
      str_size (Payload.value output) ≤
        EndpointLimits.maximum_response_bytes (CapabilityEndpointContract.limits endpoint)
  | None, Some error => IsTypedError error = true
  | _, _ => False
  end.

Definition well_formed_operation (endpoint : CapabilityEndpointContract.t) (m : OperationEvent.t)
    : Prop :=
  IsTerminal (OperationEvent.phase m) = true ∧
  (∀ output, OperationEvent.output_ m = Some output →
     OperationEvent.phase m = OPERATION_PHASE_SUCCEEDED ∧
     OutputMatches endpoint output = true ∧
     str_size (Payload.value output) ≤
       EndpointLimits.maximum_response_bytes (CapabilityEndpointContract.limits endpoint)) ∧
  (OperationEvent.phase m = OPERATION_PHASE_SUCCEEDED ↔ OperationEvent.error_ m = None) ∧
  (∀ error, OperationEvent.error_ m = Some error →
     IsTypedError error = true ∧
     ErrorMatchesOperationPhase (OperationEvent.phase m) (AdapterError.class_ error) = true).

Definition unary_of (frame : WorkFrame) : UnaryResponse.t :=
  match frame with unary_response m => m | _ => UnaryResponse.empty end.
Definition operation_of (frame : WorkFrame) : OperationEvent.t :=
  match frame with operation_event m => m | _ => OperationEvent.empty end.

Lemma well_formed_unary_failure endpoint id c code message :
  typed_class c = true → IsCanonicalIdentifier code = true → IsCanonicalText message = true →
  well_formed_unary endpoint (unary_of (unary_frame id (UnaryResult.Failure c code message 0))).
Proof. apply IsTypedError_MakeError. Qed.

Lemma well_formed_operation_failure endpoint id now c code message native :
  typed_class c = true → IsCanonicalIdentifier code = true → IsCanonicalText message = true →
  well_formed_operation endpoint
    (operation_of (operation_frame id now (OperationResult.Failure c code message native))).
Proof.
  intros Hc Hcode Hmessage.
  pose proof (IsTypedError_MakeError c code message 0 Hc Hcode Hmessage) as Herr.
  destruct (Failure_phase_matches c code message native Hc) as [Ht Hp].
  assert (OperationResult.phase (OperationResult.Failure c code message native) ≠
          OPERATION_PHASE_SUCCEEDED) as Hns by (by destruct c).
  unfold operation_frame. simpl. rewrite (bool_decide_eq_false_2 (c = _)) by (by intros ->).
  rewrite orb_true_r. unfold well_formed_operation. cbn [OperationEvent.phase
    OperationEvent.output_ OperationEvent.error_ operation_of].
  split_and!; [done|done|done|]. intros ? [= <-]. done.
Qed.

Lemma check_unary_result_well_formed endpoint requested result id :
  well_formed_unary endpoint (unary_of (unary_frame id (check_unary_result endpoint requested result))).
Proof.
  unfold check_unary_result.
  do 4 (case_match; [by apply well_formed_unary_failure|]).
  destruct result as [[] output error]; unfold well_formed_unary; simpl in *; guards.
  - split; [done|lia].
  - done.
Qed.

Lemma HasError_false (error : AdapterError.t) :
  HasError error = false →
  AdapterError.class_ error = ERROR_CLASS_UNSPECIFIED ∧ AdapterError.code error = "".
Proof. unfold HasError. intros. guards. by rewrite <-str_empty_spec. Qed.

Lemma typed_error_present (error : AdapterError.t) :
  IsTypedError error = true → str_empty (AdapterError.code error) = false.
Proof.
  unfold IsTypedError. intros. guards. apply not_true_iff_false. rewrite str_empty_spec.
  intros Heq. by rewrite Heq in *.
Qed.

Lemma check_operation_result_well_formed endpoint result id now :
  well_formed_operation endpoint
    (operation_of (operation_frame id now (check_operation_result endpoint result))).
Proof.
  unfold check_operation_result. case_match eqn:Hbad; [by apply well_formed_operation_failure|].
  case_match eqn:Hsize; [by apply well_formed_operation_failure|].
  destruct result as [phase has_output output error native]. simpl in *.
  apply orb_false_iff in Hbad as [Hbad Hfail]. apply orb_false_iff in Hbad as [Hterm Hsucc].
  apply negb_false_iff in Hterm. unfold well_formed_operation, operation_frame. simpl.
  destruct (decide (phase = OPERATION_PHASE_SUCCEEDED)) as [->|Hphase].
  - rewrite bool_decide_eq_true_2 in Hsucc by done. simpl in Hsucc.
    apply orb_false_iff in Hsucc as [Hsucc Hpay]. apply orb_false_iff in Hsucc as [Herr Hout].
    destruct (HasError_false error Herr) as [Hclass Hcode]. rewrite Hclass, Hcode. simpl.
    split_and!; try done. intros out Heq. destruct has_output; [|done]. simplify_eq/=.
    guards. split_and!; try done; lia.
  - rewrite bool_decide_eq_false_2 in Hfail by done. simpl in Hfail. guards. subst has_output.
    rewrite (typed_error_present error) by done. simpl.
    split_and!; try done. by intros ? [= <-].
Qed.

(** The terminal is well formed for its kind. *)
Definition well_formed_terminal (endpoint : CapabilityEndpointContract.t) (kind : DispatchKind)
    (frame : WorkFrame) : Prop :=
  match kind with
  | kUnary => well_formed_unary endpoint (unary_of frame)
  | _ => well_formed_operation endpoint (operation_of frame)
  end.

Lemma RejectedDispatch_well_formed endpoint kind now id code message c :
  c = ERROR_CLASS_REJECTED ∨ c = ERROR_CLASS_CANCELLED →
  IsCanonicalIdentifier code = true → IsCanonicalText message = true →
  well_formed_terminal endpoint kind (RejectedDispatch now kind id code message c).
Proof.
  intros Hc Hcode Hmessage.
  assert (IsTypedError (MakeError c code message 0) = true) as Herr
    by (apply IsTypedError_MakeError; try done; by destruct Hc as [-> | ->]).
  destruct kind; [exact Herr|..]; destruct Hc as [-> | ->];
    (split_and!; [done|done|done|]; by intros ? [= <-]).
Qed.

Lemma ValidateWorkContextLocked_canonical s context kind error :
  ValidateWorkContextLocked s context kind = inl error → IsCanonicalText error = true.
Proof.
  unfold ValidateWorkContextLocked.
  repeat (case_match; try (intros [= <-]; vm_compute; reflexivity); try done).
Qed.
End results.

(** ** A job is answered *)

(** The session is over: failed, stopped or never installed. *)
Definition torn_down (s : Impl) : Prop := session_closed s = true.

Definition job_context (job : DispatchJob.t) : WorkContext.t :=
  match DispatchJob.kind job with
  | kUnary => UnaryRequest.context (DispatchJob.unary job)
  | _ => OperationRequest.context (DispatchJob.operation job)
  end.

(** The endpoint of the active grant a request names. *)
Definition active_endpoint (s : Impl) (context : WorkContext.t)
    : option CapabilityEndpointContract.t :=
  ActiveEndpoint.endpoint <$> FindActiveEndpointLocked s (WorkContext.capability_id context)
                                (WorkContext.endpoint_id context).

(** [frame] is retained as the job's terminal. *)
Definition retains (s : Impl) (job : DispatchJob.t) (frame : WorkFrame) : Prop :=
  ∃ entry, replay_ s !! DispatchJob.work_id job = Some entry ∧
    ReplayEntry.kind entry = DispatchJob.kind job ∧
    ReplayEntry.fingerprint entry = DispatchJob.fingerprint job ∧
    replayed_frame (DispatchJob.kind job) entry = frame.

Section answered.
Context `{Protobuf}.

Lemma closed_CancelAllWorkLocked : frame session_closed CancelAllWorkLocked.
Proof. unfold CancelAllWorkLocked, request_cancellation. solve_frame. Qed.
Lemma closed_CancelActiveStreams : frame session_closed CancelActiveStreams.
Proof. unfold CancelActiveStreams, TryCancel. solve_frame. Qed.
Lemma closed_Log level message : frame session_closed (Log level message).
Proof. unfold Log. solve_frame. Qed.

Hint Resolve closed_CancelAllWorkLocked closed_CancelActiveStreams closed_Log : frame.

(** A computation after which the session is over. *)
Lemma torn_bind {A B} (m : C A) (k : A → C B) (s : Impl) :
  (∀ a, frame session_closed (k a)) → torn_down (m s).2 → torn_down ((m ≫= k) s).2.
Proof. intros Hk Hm. unfold torn_down, mbind, M_bind. by rewrite Hk. Qed.

Lemma SignalSessionFailure_locked_torn s reason :
  torn_down (SignalSessionFailure_locked (session_id_ s) reason s).2.
Proof.
  unfold SignalSessionFailure_locked. unfold mbind at 1, M_bind at 1.
  cbn [gets fst snd]. rewrite bool_decide_eq_true_2 by done. cbn [negb orb].
  case_match eqn:Hg.
  - unfold torn_down, session_closed. cbn [mret M_ret snd]. rewrite <-orb_assoc, (orb_comm _ (stop_requested_ s)).
    by rewrite Hg, orb_true_r.
  - apply torn_bind; [intros _; solve_frame|].
    unfold torn_down, session_closed. cbn [snd set_field modify]. by rewrite orb_true_r.
Qed.

Lemma SignalCurrentSessionFailure_torn s reason :
  torn_down (SignalCurrentSessionFailure reason s).2.
Proof.
  unfold SignalCurrentSessionFailure. unfold mbind at 1, M_bind at 1. cbn [gets fst snd].
  destruct (str_empty (session_id_ s)) eqn:Hid; cbn [when negb].
  - unfold torn_down, session_closed. cbn [mret M_ret snd]. by rewrite Hid.
  - apply torn_bind; [intros []; solve_frame|apply SignalSessionFailure_locked_torn].
Qed.

Lemma CommitTerminalFrame_retains s job frame :
  (CommitTerminalFrame job frame s).1 = kCommitted →
  retains (CommitTerminalFrame job frame s).2 job frame.
Proof.
  intros Hc. destruct (CommitTerminalFrame_committed s job frame Hc)
    as (unary & operation & digest & He & _ & _ & _ & _ & _ & _ & ->).
  unfold retains. simpl. eexists. rewrite lookup_insert_eq. split_and!; try done. simpl.
  unfold replay_entry in He.
  destruct (DispatchJob.kind job), frame; try done;
    apply bind_Some in He as (d & _ & He); by injection He as <- <- <-.
Qed.

(** Retained, or the session is over. *)
Definition answered (s : Impl) (job : DispatchJob.t) (P : WorkFrame → Prop) : Prop :=
  torn_down s ∨ ∃ frame, P frame ∧ retains s job frame.

Lemma commit_or_fail_answered s job frame reason (P : WorkFrame → Prop) :
  P frame → answered (commit_or_fail job frame reason s).2 job P.
Proof.
  intros HP. unfold commit_or_fail, mbind, M_bind. simpl.
  destruct (decide ((CommitTerminalFrame job frame s).1 = kCommitted)) as [Hc|Hc].
  - rewrite bool_decide_eq_true_2 by done. right. exists frame. split; [done|].
    by apply CommitTerminalFrame_retains.
  - rewrite bool_decide_eq_false_2 by done. left. apply SignalCurrentSessionFailure_torn.
Qed.

Context `{Environment} `{!Sequential}.

Lemma commit_with_fallback_answered s job frame (fallback : C WorkFrame) reason
    (P : WorkFrame → Prop) :
  P frame → (∀ s, P (fallback s).1) →
  answered (commit_with_fallback job frame fallback reason s).2 job P.
Proof.
  intros HP Hf. unfold commit_with_fallback. rewrite seq_preempt. unfold mbind, M_bind. simpl.
  set (r := CommitTerminalFrame job frame s).
  destruct (decide (r.1 = kTooLarge)) as [Ht|Ht].
  - rewrite (bool_decide_eq_true_2 (r.1 = kTooLarge)) by done.
    set (r' := CommitTerminalFrame job _ _).
    destruct (decide (r'.1 = kCommitted)) as [Hc|Hc].
    + rewrite bool_decide_eq_true_2 by done. right. eexists. split; [|by apply CommitTerminalFrame_retains].
      apply Hf.
    + rewrite bool_decide_eq_false_2 by done. left. apply SignalCurrentSessionFailure_torn.
  - rewrite (bool_decide_eq_false_2 (r.1 = kTooLarge)) by done. simpl.
    destruct (decide (r.1 = kCommitted)) as [Hc|Hc].
    + rewrite bool_decide_eq_true_2 by done. right. exists frame. split; [done|].
      by apply CommitTerminalFrame_retains.
    + rewrite bool_decide_eq_false_2 by done. left. apply SignalCurrentSessionFailure_torn.
Qed.

Lemma answered_bind {A} (m : C A) (k : A → C unit) s job P :
  (∀ a s, answered (k a s).2 job P) → answered ((m ≫= k) s).2 job P.
Proof. intros Hk. apply Hk. Qed.

Context `{!ErrorClassNumbers}.

(** What is retained satisfies the contract of the endpoint the request names. *)
Definition contract_terminal (b : CapabilityBinding) (job : DispatchJob.t) (frame : WorkFrame)
    : Prop :=
  ∀ endpoint,
    FindEndpoint (contract b) (WorkContext.endpoint_id (job_context job)) = Some endpoint →
    well_formed_terminal endpoint (DispatchJob.kind job) frame.

Lemma HandleUnary_answered s job binding b :
  DispatchJob.kind job = kUnary → capabilities (config_ s) !! binding = Some b →
  answered (HandleUnary job binding s).2 job (contract_terminal b job).
Proof.
  intros Hkind Hb. unfold HandleUnary. unfold mbind at 1, M_bind at 1. simpl. rewrite Hb.
  unfold contract_terminal, job_context. rewrite Hkind. unfold endpoint_for_input.
  destruct (FindEndpoint _ _) as [endpoint|] eqn:Hep; [destruct (ValidateInput _ _)|].
  - clear Hb. do 3 (apply answered_bind; clear s; intros ? s). apply commit_with_fallback_answered.
    + intros ? [= <-]. apply check_unary_result_well_formed.
    + intros s' ? _. by apply IsTypedError_MakeError.
  - apply answered_bind. clear s Hb. intros now s. apply commit_or_fail_answered.
    intros e _. exact (RejectedDispatch_well_formed e kUnary now (DispatchJob.work_id job)
      "input-schema-mismatch" "unary input does not match its contract" ERROR_CLASS_REJECTED
      (or_introl eq_refl) eq_refl eq_refl).
  - apply answered_bind. clear s Hb. intros now s. by apply commit_or_fail_answered.
Qed.

Lemma HandleOperation_answered s job binding b :
  DispatchJob.kind job = kOperation → capabilities (config_ s) !! binding = Some b →
  answered (HandleOperation job binding s).2 job (contract_terminal b job).
Proof.
  intros Hkind Hb. unfold HandleOperation. unfold mbind at 1, M_bind at 1. simpl. rewrite Hb.
  unfold contract_terminal, job_context. rewrite Hkind. unfold endpoint_for_input.
  destruct (FindEndpoint _ _) as [endpoint|] eqn:Hep; [destruct (ValidateInput _ _)|].
  - apply answered_bind. clear s Hb. intros announced s.
    case_match; [left; apply SignalCurrentSessionFailure_torn|].
    do 3 (apply answered_bind; clear s; intros ? s). apply commit_with_fallback_answered.
    + intros ? [= <-]. apply check_operation_result_well_formed.
    + intros s' e _.
      exact (well_formed_operation_failure e (DispatchJob.work_id job) (wall_clock_ s')
        ERROR_CLASS_RESOURCE_EXHAUSTED "response-too-large"
        "operation result exceeds the Work frame limit" 0 eq_refl eq_refl eq_refl).
  - apply answered_bind. clear s Hb. intros now s. apply commit_or_fail_answered.
    intros e _. exact (RejectedDispatch_well_formed e kOperation now (DispatchJob.work_id job)
      "input-schema-mismatch" "operation input does not match its contract" ERROR_CLASS_REJECTED
      (or_introl eq_refl) eq_refl eq_refl).
  - apply answered_bind. clear s Hb. intros now s. by apply commit_or_fail_answered.
Qed.

(** What a worker does after the handler keeps the answer. *)
Lemma answered_mono s s' job P :
  replay_ s' = replay_ s → (session_closed s = true → session_closed s' = true) →
  answered s job P → answered s' job P.
Proof.
  intros Hrep Hclosed [?|(frame & HP & Hret)]; [left; by apply Hclosed|].
  right. exists frame. split; [done|]. unfold retains. by rewrite Hrep.
Qed.

Lemma ReleaseWorkTokenLocked_answered id job P : keeps (λ s, answered s job P) (ReleaseWorkTokenLocked id).
Proof.
  intros s Hs. unfold ReleaseWorkTokenLocked. simpl. case_match; [|done]. by eapply answered_mono.
Qed.

Lemma ReleaseWorkTokenLocked_released id s : work_tokens_ (ReleaseWorkTokenLocked id s).2 !! id = None.
Proof.
  unfold ReleaseWorkTokenLocked. simpl. case_match eqn:Hid; [|done]. simpl. apply lookup_delete_eq.
Qed.

Definition outcome_of (s : Impl) := (work_tokens_ s, replay_ s, session_closed s).

Lemma QueueControlLocked_outcome f : frame outcome_of (QueueControlLocked f).
Proof. intros s. unfold QueueControlLocked. by repeat case_match. Qed.

Lemma drain_report_failed_outcome s :
  let s' := (drain_report_failed s).2 in
  work_tokens_ s' = work_tokens_ s ∧ replay_ s' = replay_ s ∧ session_closed s' = true.
Proof.
  unfold drain_report_failed, mbind, M_bind. simpl.
  set (s1 := s <| session_failed_ := _ |> <| accepting_work_ := _ |> <| state_ := _ |>
               <| last_error_ := _ |>).
  pose proof (core_CancelAllWorkLocked s1) as Hcore.
  rewrite closed_CancelAllWorkLocked.
  split_and!; [exact (f_equal co_tokens Hcore)|exact (f_equal co_replay Hcore)|].
  unfold session_closed. simpl. by rewrite orb_true_r.
Qed.

Lemma MaybeQueueDrainStatusLocked_outcome s :
  let s' := (MaybeQueueDrainStatusLocked s).2 in
  work_tokens_ s' = work_tokens_ s ∧ replay_ s' = replay_ s ∧
  (session_closed s = true → session_closed s' = true).
Proof.
  unfold MaybeQueueDrainStatusLocked. case_match; [done|].
  pose proof (QueueControlLocked_outcome (drain_status true 0) s) as Ho.
  destruct (QueueControlLocked _ s) as [[] s1]; injection Ho as Ht Hr Hc; simpl in *.
  - rewrite Ht, Hr. split_and!; try done. intros Hs. rewrite <-Hc in Hs. done.
  - destruct (drain_report_failed_outcome s1) as (-> & -> & ->). rewrite Ht, Hr. done.
Qed.

(** The job's token is gone and the job is answered. *)
Definition settled (s : Impl) (job : DispatchJob.t) (P : WorkFrame → Prop) : Prop :=
  work_tokens_ s !! DispatchJob.work_id job = None ∧ answered s job P.

Lemma release_and_report_settled s job P :
  answered s job P →
  settled (MaybeQueueDrainStatusLocked (ReleaseWorkTokenLocked (DispatchJob.work_id job) s).2).2
    job P.
Proof.
  intros Ha. pose proof (ReleaseWorkTokenLocked_released (DispatchJob.work_id job) s) as Hrel.
  apply (ReleaseWorkTokenLocked_answered (DispatchJob.work_id job)) in Ha.
  destruct (MaybeQueueDrainStatusLocked_outcome (ReleaseWorkTokenLocked (DispatchJob.work_id job) s).2)
    as (Ht & Hr & Hc).
  split; [by rewrite Ht|]. by eapply answered_mono.
Qed.

(** A finished count leaves both alone. *)
Lemma settled_count s job P : settled s job P → settled (job_finished s).2 job P.
Proof. intros [? Ha]. split; [done|]. by eapply answered_mono. Qed.

Lemma job_finished_answered s job P : answered s job P → answered (job_finished s).2 job P.
Proof. by apply answered_mono. Qed.

Lemma answered_weaken s job (P Q : WorkFrame → Prop) :
  (∀ frame, P frame → Q frame) → answered s job P → answered s job Q.
Proof. intros HPQ [?|(frame & ? & ?)]; [by left|]. right. eauto. Qed.

Lemma work_finished_answered s job P : answered s job P → answered (work_finished s).2 job P.
Proof. intros Ha. unfold work_finished. simpl. case_match; [|done]. by eapply answered_mono. Qed.

Lemma rejection_settled s job code message c reason (P : WorkFrame → Prop) :
  (∀ now, P (RejectedDispatch now (DispatchJob.kind job) (DispatchJob.work_id job) code message c)) →
  settled ((now ← UnixNanos;
            commit_or_fail job (RejectedDispatch now (DispatchJob.kind job)
              (DispatchJob.work_id job) code message c) reason ;;
            mret tt ;; EraseWorkToken (DispatchJob.work_id job)) s).2 job P.
Proof. intros HP. apply release_and_report_settled, commit_or_fail_answered, HP. Qed.

Lemma ValidateWorkContextLocked_endpoint s context kind binding endpoint :
  ValidateWorkContextLocked s context kind = inr (binding, endpoint) →
  ∃ b, capabilities (config_ s) !! binding = Some b ∧
    FindEndpoint (contract b) (WorkContext.endpoint_id context) = Some endpoint ∧
    active_endpoint s context = Some endpoint.
Proof.
  unfold ValidateWorkContextLocked, active_endpoint. do 2 (case_match; [done|]).
  destruct (FindActiveEndpointLocked s _ _) as [active|] eqn:Hact; [|done].
  repeat (case_match; [done|]). intros [= <- <-].
  unfold FindActiveEndpointLocked in Hact. repeat (case_match; try done). simplify_eq/=. eauto.
Qed.
End answered.


