(* ===== verification/Drain.v ===== *)
(** * Drain, and three behaviours at its edges

    When drain completion is reported, and concrete executions in which the code
    departs from what it means to do. *)

From S2P Require Import Prelude Text Digest Messages Clock Config State Queue Bounds.
From S2P Require Import Stream StreamFacts Sample Terminals Dispatch DispatchFacts.

(** ** Reporting drain completion *)

(** Queued and in-flight Work have reached zero. *)
Definition quiescent (s : Impl) : Prop :=
  in_flight_work_ s = 0 ∧ active_dispatch_jobs_ s = 0 ∧ dispatch_queue_ s = [].

(** The Control queue cannot take one more entry. *)
Definition control_blocked (s : Impl) : Prop :=
  maximum_control_queue (config_ s) ≤ size (control_queue_ s).

Definition control_frames (s : Impl) : list ControlFrame :=
  map (λ q, ControlRequest.frame (QueuedControlFrame.request q)) (control_queue_ s).

Section drain.
Context `{Protobuf}.

Lemma drain_report_failed_failed s : session_failed_ (drain_report_failed s).2 = true.
Proof.
  assert (frame session_failed_ CancelAllWorkLocked) as Hf
    by (unfold CancelAllWorkLocked, request_cancellation; solve_frame).
  unfold drain_report_failed, mbind, M_bind. cbn [fst snd]. by rewrite Hf.
Qed.

(** The check that reports. *)
Lemma MaybeQueueDrainStatusLocked_reports s :
  drain_requested_ s = true → drain_reported_ s = false → quiescent s → ¬ control_blocked s →
  let s' := (MaybeQueueDrainStatusLocked s).2 in
  (drain_reported_ s' = true ∧ control_frames s' = control_frames s ++ [drain_status true 0]) ∨
  session_failed_ s' = true.
Proof.
  intros Hreq Hrep (Hf & Ha & Hq) Hroom. unfold MaybeQueueDrainStatusLocked.
  rewrite Hreq, Hrep, Hf, Ha, Hq, bool_decide_eq_true_2 by done. simpl.
  unfold control_blocked in Hroom. rewrite (proj2 (Z.leb_gt _ _)) by lia.
  destruct (QueueControlLocked (drain_status true 0) s) as [[] s1] eqn:Hqc.
  - left. unfold QueueControlLocked in Hqc. case_match; [by destruct (control_queue_full _ _)|].
    injection Hqc as <-. split; [done|]. unfold control_frames. simpl. by rewrite map_app.
  - right. apply drain_report_failed_failed.
Qed.

(** Nothing is outstanding, so drain completion has been reported (or the session
    has failed, or the Control queue is full). *)
Definition drain_settled (s : Impl) : Prop :=
  drain_requested_ s = true → quiescent s → ¬ control_blocked s →
  drain_reported_ s = true ∨ session_failed_ s = true.

Lemma MaybeQueueDrainStatusLocked_quiet s :
  let s' := (MaybeQueueDrainStatusLocked s).2 in
  drain_requested_ s' = drain_requested_ s ∧
  (in_flight_work_ s', active_dispatch_jobs_ s') = (in_flight_work_ s, active_dispatch_jobs_ s) ∧
  dispatch_queue_ s' = dispatch_queue_ s.
Proof.
  unfold MaybeQueueDrainStatusLocked. case_match; [done|].
  assert (∀ s, drain_requested_ (drain_report_failed s).2 = drain_requested_ s ∧
    core (drain_report_failed s).2 = core s) as Hfail.
  { intros t. unfold drain_report_failed. split; [|revert t; change (frame core drain_report_failed);
      unfold drain_report_failed; solve_frame].
    revert t. change (frame drain_requested_ drain_report_failed).
    unfold drain_report_failed, CancelAllWorkLocked, request_cancellation. solve_frame. }
  destruct (QueueControlLocked (drain_status true 0) s) as [queued s1] eqn:Hq.
  assert (drain_requested_ s1 = drain_requested_ s ∧
    (in_flight_work_ s1, active_dispatch_jobs_ s1) = (in_flight_work_ s, active_dispatch_jobs_ s) ∧
    dispatch_queue_ s1 = dispatch_queue_ s) as (E1 & E2 & E3).
  { unfold QueueControlLocked in Hq. repeat case_match; by simplify_eq. }
  destruct queued; [done|]. destruct (Hfail s1) as [-> Hcore]. split; [done|].
  rewrite <-E2, <-E3. split; [exact (f_equal co_counts Hcore)|].
  exact (f_equal (fst ∘ co_dispatch) Hcore).
Qed.

Lemma MaybeQueueDrainStatusLocked_settles s : drain_settled (MaybeQueueDrainStatusLocked s).2.
Proof.
  intros Hreq Hq Hroom.
  destruct (MaybeQueueDrainStatusLocked_quiet s) as (Ereq & Ecounts & Equeue).
  assert (quiescent s) as Hq'.
  { destruct Hq as (? & ? & ?). injection Ecounts as E1 E2. unfold quiescent.
    by rewrite <-E1, <-E2, <-Equeue. }
  rewrite Ereq in Hreq.
  destruct (drain_reported_ s) eqn:Hrep.
  { unfold MaybeQueueDrainStatusLocked. rewrite Hreq, Hrep. by left. }
  destruct (decide (maximum_control_queue (config_ s) ≤ size (control_queue_ s))) as [Hb|Hb].
  { destruct Hroom. unfold MaybeQueueDrainStatusLocked.
    by rewrite (proj2 (Z.leb_le _ _) Hb), orb_true_r. }
  destruct (MaybeQueueDrainStatusLocked_reports s Hreq Hrep Hq' Hb) as [[? _]|?]; auto.
Qed.

Lemma MaybeQueueDrainStatusLocked_sound s :
  drain_reported_ s = false → drain_reported_ (MaybeQueueDrainStatusLocked s).2 = true →
  drain_requested_ s = true ∧ quiescent s ∧
  control_frames (MaybeQueueDrainStatusLocked s).2 = control_frames s ++ [drain_status true 0].
Proof.
  intros Hrep. unfold MaybeQueueDrainStatusLocked. case_match eqn:Hg; [simpl; congruence|].
  destruct (QueueControlLocked (drain_status true 0) s) as [[] s1] eqn:Hq.
  - intros _. guards. split_and!; try done. unfold QueueControlLocked in Hq.
    case_match; [by destruct (control_queue_full _ _)|]. injection Hq as <-.
    unfold control_frames. simpl. by rewrite map_app.
  - assert (drain_reported_ s1 = false) as Hs1.
    { unfold QueueControlLocked in Hq. repeat case_match; by simplify_eq. }
    assert (frame drain_reported_ drain_report_failed) as ->; [|congruence].
    unfold drain_report_failed, CancelAllWorkLocked, request_cancellation. solve_frame.
Qed.
End drain.

(** C32: Drain completion is reported soundly and, by every section that ends in
    the check, completely.  [drain_status] is queued only when drain was requested
    and no Work is queued or in flight; and after [BeginDrain], after a source
    job and after a handled token is erased, whatever other threads did in
    between, outstanding Work at zero means that completion has been reported,
    unless the session has failed or the Control queue is full. *)
Theorem drain_reported_at_quiescence `{Protobuf} `{Environment} s :
  (drain_reported_ s = false → drain_reported_ (MaybeQueueDrainStatusLocked s).2 = true →
   drain_requested_ s = true ∧ quiescent s ∧
   control_frames (MaybeQueueDrainStatusLocked s).2 = control_frames s ++ [drain_status true 0]) ∧
  drain_settled (BeginDrain s).2 ∧
  (∀ job, drain_settled (dispatch_source job s).2) ∧
  (∀ id, drain_settled (EraseWorkToken id s).2).
Proof.
  split; [apply MaybeQueueDrainStatusLocked_sound|].
  split_and!; intros; apply MaybeQueueDrainStatusLocked_settles.
Qed.

(** ** Completion that is never reported *)

Section executions.
Import Sample.

Definition then_ {A} (s : Impl) (m : C A) : Impl := (m s).2.

(** A request is queued, the Host drains, and a worker takes the job. *)
Definition drained_with_queued_work : Impl :=
  then_ (then_ (then_ ready (EnqueueUnary (unary "w-1") 1)) BeginDrain) DispatchIteration.

(** The same with the request cancelled while queued. *)
Definition drained_with_cancelled_work : Impl :=
  then_ (then_ (then_ (then_ ready (EnqueueUnary (unary "w-1") 1))
    (HandleCancellation (WorkCancellation.make (kWorkId "w-1") "stop") 2)) BeginDrain)
    DispatchIteration.
End executions.


(** ** Identities *)

Section identity_executions.
Import Sample.

(** A worker has taken [w-1]; the Host drains and delivers [w-1] again. *)
Definition taken : Impl := then_ (then_ ready (EnqueueUnary (unary "w-1") 1)) dispatch_take.
Definition taken_job : DispatchJob.t :=
  default DispatchJob.empty (dispatch_take (then_ ready (EnqueueUnary (unary "w-1") 1))).1.
Definition redelivered_while_draining : Impl :=
  then_ (then_ taken BeginDrain) (EnqueueUnary (unary "w-1") 2).

(** A stream [w-1] is opened and closed; then Work [w-1] is executed. *)
Definition reused_identity : Impl :=
  then_ (then_ (then_ (then_ (then_ ready (EnqueueSourceOpen (source_open "w-1") 1))
    DispatchIteration) (CloseSource "w-1" None)) (EnqueueUnary (unary "w-1") 2)) DispatchIteration.
End identity_executions.

Definition rejected_not_ready (entry : ReplayEntry.t) : bool :=
  bool_decide ((AdapterError.code <$> UnaryResponse.error_ (ReplayEntry.unary entry)) =
               Some "not-ready").


