(* ===== verification/Spec.v ===== *)
(** * Applying and deactivating instance specifications

    The operations of [src/src/spec.cpp] that change state: the transition from one
    specification to the next ([ApplyInstanceSpec]) and back to none
    ([DeactivateApplication]).  [transition_mutex_], held across a transition so
    that no two overlap, is not part of the state: a transition is one
    computation. *)

From S2P Require Import Prelude Text Digest Messages Clock Config State Queue Stream.

Section spec.
Context `{Protobuf} `{Environment}.

(** ** Guarded callbacks *)

Definition WaitForCallbacks : C unit :=
  wait_until (λ s, (in_flight_work_ s =? 0) && (active_dispatch_jobs_ s =? 0)).

Definition SafeStopCapability (binding_index : nat) : C unit :=
  config ← gets config_;
  match capabilities config !! binding_index with
  | Some binding =>
      when (cb_stop (callbacks binding))
        (safe_call "capability stop" (CallStop binding_index) ;; mret tt)
  | None => mret tt
  end.

Definition SafeClearInstanceSpec : C unit :=
  bound ← gets (λ s, cb_clear_instance_spec (callbacks_ s));
  when bound (safe_call "clear_instance_spec" CallClearInstanceSpec ;; mret tt).

(** ** Deactivation *)

(** Forget the specification and every source. *)
Definition forget_spec (s : Impl) : Impl :=
  s <| source_streams_ := ∅ |> <| closed_sources_ := ∅ |> <| source_state_bytes_ := 0 |>
    <| active_capabilities_ := ∅ |> <| active_spec_ := AdapterInstanceSpec.empty |>
    <| spec_revision_ := 0 |> <| spec_digest_ := "" |>
    <| capability_statuses_ := DisabledCapabilityStatuses (config_ s) |>.

(** The critical section: the active bindings, the open streams and whether a
    specification was active. *)
Definition Deactivate_locked : C (list nat * list SourceState.t * bool) :=
  put accepting_work_ := false ;;
  CancelAllWorkLocked ;;
  found ← gets (λ s,
    (map (λ active, ActiveCapability.binding_index active.2) (entries (active_capabilities_ s)),
     map snd (entries (source_streams_ s)),
     negb (spec_revision_ s =? 0)));
  modify forget_spec ;;
  mret found.

Definition source_closed_error (reason : string) : AdapterError.t :=
  MakeError ERROR_CLASS_CANCELLED "source-stream-closed"
    (if IsCanonicalText reason then reason else "source stream closed") 0.

Definition DeactivateApplicationUnlocked (reason : string) : C unit :=
  found ← Deactivate_locked;
  let '(bindings, streams, had_spec) := found in
  preempt ;;
  WaitForCallbacks ;;
  for_each SafeStopCapability (reverse bindings) ;;
  when had_spec SafeClearInstanceSpec ;;
  for_each (λ stream, NotifySourceClosed stream (source_closed_error reason)) streams.

Definition DeactivateApplication (reason : string) : C unit :=
  preempt ;; DeactivateApplicationUnlocked reason.

(** ** Application *)

Definition spec_answer (spec : AdapterInstanceSpec.t) (applied : bool)
    (error : option AdapterError.t) (statuses : list CapabilityStatus.t)
    : ApplyInstanceSpecResult.t :=
  ApplyInstanceSpecResult.make (AdapterInstanceSpec.revision spec)
    (AdapterInstanceSpec.spec_digest spec) applied error statuses.

Definition spec_refused (spec : AdapterInstanceSpec.t) (error_class : ErrorClass)
    (code message : string) (statuses : list CapabilityStatus.t) : ApplyInstanceSpecResult.t :=
  spec_answer spec false (Some (MakeError error_class code message 0)) statuses.

Definition session_stale (s : Impl) (expected_session : string) : bool :=
  negb (bool_decide (session_id_ s = expected_session)) || stop_requested_ s || session_failed_ s.

Definition begin_transition (spec : AdapterInstanceSpec.t)
    : C (option ApplyInstanceSpecResult.t) :=
  put desired_spec_ := spec ;;
  put state_ := kApplyingSpec ;;
  put accepting_work_ := false ;;
  CancelAllWorkLocked ;;
  mret None.

(** The first critical section: the answer, or [None] when the transition starts. *)
Definition ApplyInstanceSpec_locked (expected_session : string) (spec : AdapterInstanceSpec.t)
    : C (option ApplyInstanceSpecResult.t) := λ s,
  if session_stale s expected_session
  then (Some (spec_refused spec ERROR_CLASS_CANCELLED "stale-session"
                "instance spec belongs to a stale or stopping session" []), s)
  else if (AdapterInstanceSpec.revision spec =? spec_revision_ s) &&
          bool_decide (AdapterInstanceSpec.spec_digest spec = spec_digest_ s)
  then
    if negb (AdapterInstanceSpec_Equals spec (active_spec_ s))
    then (Some (spec_refused spec ERROR_CLASS_REJECTED "spec-content-mismatch"
                  "Host changed instance spec content without changing its identity" []), s)
    else (Some (spec_answer spec true None (capability_statuses_ s)), s)
  else if negb (spec_revision_ s =? 0) &&
          (AdapterInstanceSpec.revision spec <=? spec_revision_ s)
  then (Some (spec_refused spec ERROR_CLASS_REJECTED "stale-spec-revision"
                "instance spec revision did not advance" []), s)
  else if (spec_revision_ s =? 0) && negb (AdapterInstanceSpec_Equals spec (desired_spec_ s))
  then (Some (spec_refused spec ERROR_CLASS_REJECTED "initial-spec-mismatch"
                ("Host spec does not match the exact desired spec for this " +:+
                 "registered session") []), s)
  else begin_transition spec s.

(** [callbacks_.apply_instance_spec]: whether it succeeded, and [apply_error]. *)
Definition apply_top_level (spec : AdapterInstanceSpec.t) : C (bool * string) :=
  bound ← gets (λ s, cb_apply_instance_spec (callbacks_ s));
  if bound : bool then
    outcome ← call (CallApplyInstanceSpec spec);
    let '(applied, apply_error) :=
      match outcome with
      | Returned (applied, error) => (applied, error)
      | ThrewException what => (false, "apply_instance_spec threw: " +:+ what)
      | ThrewUnknown => (false, "apply_instance_spec threw an unknown exception")
      end in
    if applied : bool then mret (true, apply_error)
    else
      SafeClearInstanceSpec ;;
      mret (false, if IsCanonicalText apply_error then apply_error
                   else "application rejected the instance spec")
  else mret (true, "").

(** The loop over the grants: the bindings started, the key of the one that
    failed (empty when none did) and [apply_error]. *)
Fixpoint start_capabilities (spec : AdapterInstanceSpec.t)
    (grants : list (nat * EnabledCapability.t)) (started : list nat) (apply_error : string)
    : C (list nat * string * string) :=
  match grants with
  | [] => mret (started, "", apply_error)
  | (binding_index, grant) :: grants =>
      config ← gets config_;
      let bound := from_option (λ b, cb_start (callbacks b)) false
                     (capabilities config !! binding_index) in
      result ←
        (if bound then
           outcome ← call (CallStart binding_index spec grant);
           mret (match outcome with
                 | Returned (started_ok, error) => (started_ok, error)
                 | ThrewException what => (false, "capability start threw: " +:+ what)
                 | ThrewUnknown => (false, "capability start threw an unknown exception")
                 end)
         else mret (true, apply_error));
      let '(started_ok, apply_error) := result in
      if started_ok : bool
      then start_capabilities spec grants (started ++ [binding_index]) apply_error
      else mret (started, grant_key grant,
                 if IsCanonicalText apply_error then apply_error
                 else "capability start rejected " +:+ EnabledCapability.capability_id grant)
  end.

Definition set_status (key : string) (state : CapabilityState) (detail : string)
    (status : CapabilityStatus.t) : CapabilityStatus.t :=
  if bool_decide (status_key status = key)
  then status <| CapabilityStatus.state := state |> <| CapabilityStatus.detail := detail |>
  else status.

(** Undo a transition that did not complete. *)
Definition spec_apply_failed (spec : AdapterInstanceSpec.t) (top_level_applied : bool)
    (started : list nat) (failed_contract apply_error : string) : C ApplyInstanceSpecResult.t :=
  for_each SafeStopCapability (reverse started) ;;
  when top_level_applied SafeClearInstanceSpec ;;
  config ← gets config_;
  let statuses :=
    if str_empty failed_contract then DisabledCapabilityStatuses config
    else map (set_status failed_contract CAPABILITY_STATE_FAILED apply_error)
           (DisabledCapabilityStatuses config) in
  preempt ;;
  put capability_statuses_ := statuses ;;
  put state_ := kRegistered ;;
  mret (spec_refused spec ERROR_CLASS_PERMANENT "spec-apply-failed"
          (if str_empty apply_error then "instance spec apply failed" else apply_error) statuses).

Definition active_map (grants : list (nat * EnabledCapability.t)) : gmap string ActiveCapability.t :=
  fold_left (λ active (g : nat * EnabledCapability.t),
      let id := EnabledCapability.capability_id g.2 in
      match active !! id with
      | Some _ => active
      | None => <[id := ActiveCapability.make g.1 g.2]> active
      end) grants ∅.

Definition ready_statuses (config : ClientConfig) (grants : list (nat * EnabledCapability.t))
    : list CapabilityStatus.t :=
  fold_left (λ statuses (g : nat * EnabledCapability.t),
      map (set_status (grant_key g.2) CAPABILITY_STATE_READY "capability grant is active") statuses)
    grants (DisabledCapabilityStatuses config).

Definition pending_status (status : CapabilityStatus.t) : CapabilityStatus.t :=
  if bool_decide (CapabilityStatus.state status = CAPABILITY_STATE_READY)
  then status <| CapabilityStatus.state := CAPABILITY_STATE_CONFIGURING |>
              <| CapabilityStatus.detail := "capability ready callback is pending" |>
  else status.

(** The commit section: [false] when the session changed meanwhile. *)
Definition commit_spec (expected_session : string) (spec : AdapterInstanceSpec.t)
    (active : gmap string ActiveCapability.t) (statuses : list CapabilityStatus.t) : C bool := λ s,
  if session_stale s expected_session then (false, s)
  else
    (put active_capabilities_ := active ;;
     put active_spec_ := spec ;;
     put spec_revision_ := AdapterInstanceSpec.revision spec ;;
     put spec_digest_ := AdapterInstanceSpec.spec_digest spec ;;
     put capability_statuses_ := map pending_status statuses ;;
     put accepting_work_ := false ;;
     put state_ := kApplyingSpec ;;
     put ready_callbacks_complete_ := false ;;
     mret true) s.

(** [ready()] for each started binding: the first that threw. *)
Fixpoint ready_callbacks (started : list nat) : C (option nat) :=
  match started with
  | [] => mret None
  | binding_index :: started =>
      config ← gets config_;
      if from_option (λ b, cb_ready (callbacks b)) false (capabilities config !! binding_index)
      then
        result ← safe_call "capability ready callback" (CallReady binding_index);
        match result with
        | Some _ => ready_callbacks started
        | None => mret (Some binding_index)
        end
      else ready_callbacks started
  end.

Definition ready_failed (spec : AdapterInstanceSpec.t) (failed : nat)
    : C ApplyInstanceSpecResult.t :=
  config ← gets config_;
  let statuses :=
    match capabilities config !! failed with
    | Some binding =>
        map (set_status (contract_key (contract binding)) CAPABILITY_STATE_FAILED
               "capability ready callback failed") (DisabledCapabilityStatuses config)
    | None => DisabledCapabilityStatuses config
    end in
  DeactivateApplicationUnlocked "capability ready callback failed" ;;
  preempt ;;
  put capability_statuses_ := statuses ;;
  put state_ := kRegistered ;;
  put accepting_work_ := false ;;
  put ready_callbacks_complete_ := false ;;
  mret (spec_refused spec ERROR_CLASS_PERMANENT "ready-callback-failed"
          "capability ready callback failed after instance spec commit" statuses).

(** The last critical section: the pair may accept Work. *)
Definition activate_spec (expected_session : string) (statuses : list CapabilityStatus.t)
    : C unit := λ s,
  if bool_decide (session_id_ s = expected_session) && negb (session_failed_ s) &&
     negb (stop_requested_ s)
  then
    (put capability_statuses_ := statuses ;;
     put accepting_work_ := true ;;
     put state_ := kReady ;;
     put ready_callbacks_complete_ := true) s
  else (tt, s).

Definition spec_started (expected_session : string) (spec : AdapterInstanceSpec.t)
    (grants : list (nat * EnabledCapability.t)) (started : list nat)
    : C ApplyInstanceSpecResult.t :=
  config ← gets config_;
  let statuses := ready_statuses config grants in
  preempt ;;
  committed ← commit_spec expected_session spec (active_map grants) statuses;
  if negb committed then
    for_each SafeStopCapability (reverse started) ;;
    SafeClearInstanceSpec ;;
    mret (spec_refused spec ERROR_CLASS_CANCELLED "stale-session"
            "session changed before instance spec commit" [])
  else
    preempt ;;
    failed ← ready_callbacks started;
    match failed with
    | Some binding_index => ready_failed spec binding_index
    | None =>
        preempt ;;
        activate_spec expected_session statuses ;;
        Log kInfo ("full instance spec applied at revision " +:+
                   to_string (AdapterInstanceSpec.revision spec)) ;;
        mret (spec_answer spec true None statuses)
    end.

(** Apply a specification when none is active. *)
Definition install_spec (expected_session : string) (spec : AdapterInstanceSpec.t)
    (binding_indices : list nat) : C ApplyInstanceSpecResult.t :=
  top_level ← apply_top_level spec;
  let '(top_level_applied, apply_error) := top_level in
  let grants := zip binding_indices (AdapterInstanceSpec.capabilities spec) in
  result ← (if top_level_applied : bool
            then start_capabilities spec grants [] apply_error
            else mret ([], "", apply_error));
  let '(started, failed_contract, apply_error) := result in
  if negb top_level_applied || negb (bool_decide (length started = length binding_indices))
  then spec_apply_failed spec top_level_applied started failed_contract apply_error
  else spec_started expected_session spec grants started.

(** Replace the active specification: everything under [transition_mutex_] once the
    session is known to be current. *)
Definition replace_spec (expected_session : string) (spec : AdapterInstanceSpec.t)
    (binding_indices : list nat) : C ApplyInstanceSpecResult.t :=
  DeactivateApplicationUnlocked "instance spec replaced" ;;
  install_spec expected_session spec binding_indices.

Definition run_transition (expected_session : string) (spec : AdapterInstanceSpec.t)
    (binding_indices : list nat) : C ApplyInstanceSpecResult.t :=
  preempt ;;
  WaitForCallbacks ;;
  current ← CurrentSessionIs expected_session;
  stopping ← StopRequested;
  if negb current || stopping then
    mret (spec_refused spec ERROR_CLASS_CANCELLED "stale-session"
            "session changed while applying instance spec" [])
  else replace_spec expected_session spec binding_indices.

Definition ApplyInstanceSpec (expected_session : string) (spec : AdapterInstanceSpec.t)
    : C ApplyInstanceSpecResult.t :=
  config ← gets config_;
  match ValidateInstanceSpec config spec with
  | inl apply_error =>
      mret (spec_refused spec ERROR_CLASS_REJECTED "invalid-instance-spec" apply_error
              (DisabledCapabilityStatuses config))
  | inr binding_indices =>
      answer ← ApplyInstanceSpec_locked expected_session spec;
      match answer with
      | Some result => mret result
      | None => run_transition expected_session spec binding_indices
      end
  end.
End spec.
