(* ===== verification/SpecFacts.v ===== *)
(** * Properties of specification transitions

    The resource invariant for transitions in any environment, and their atomicity
    when no other thread interferes. *)

From S2P Require Import Prelude Text Digest Messages Clock Config State Queue Bounds.
From S2P Require Import Stream StreamFacts Sample Spec.

(** ** The resource invariant *)

Section spec_inv.
Context `{Protobuf} `{Environment}.

Lemma Deactivate_locked_state s :
  (Deactivate_locked s).2 =
  forget_spec (CancelAllWorkLocked (s <| accepting_work_ := false |>)).2.
Proof. reflexivity. Qed.

Lemma forget_spec_keeps s : Bounded s → Bounded (forget_spec s).
Proof. intros [Hl Hf Hc Hw Hd Hr Hs]. split; try done. by apply SourceInv_empty. Qed.

Lemma Deactivate_locked_keeps : keeps Bounded Deactivate_locked.
Proof.
  intros s Hs. rewrite Deactivate_locked_state. apply forget_spec_keeps.
  by apply (Bounded_frame _ core_CancelAllWorkLocked).
Qed.

Lemma ApplyInstanceSpec_locked_keeps session spec :
  keeps Bounded (ApplyInstanceSpec_locked session spec).
Proof.
  assert (frame view (begin_transition spec)) as Hbegin
    by (unfold begin_transition; solve_frame).
  apply Bounded_view. intros s. unfold ApplyInstanceSpec_locked.
  by repeat (case_match; try done).
Qed.

Lemma commit_spec_keeps session spec active statuses :
  keeps Bounded (commit_spec session spec active statuses).
Proof. apply Bounded_view. intros s. unfold commit_spec. by case_match. Qed.

Lemma activate_spec_keeps session statuses : keeps Bounded (activate_spec session statuses).
Proof. apply Bounded_view. intros s. unfold activate_spec. by case_match. Qed.
Hint Resolve Deactivate_locked_keeps ApplyInstanceSpec_locked_keeps commit_spec_keeps
  activate_spec_keeps : keeps.

Context `{!Rely Bounded}.

Lemma WaitForCallbacks_keeps : keeps Bounded WaitForCallbacks.
Proof. apply rely_wait. Qed.
Lemma SafeStopCapability_keeps binding : keeps Bounded (SafeStopCapability binding).
Proof. unfold SafeStopCapability. solve_keeps. Qed.
Lemma SafeClearInstanceSpec_keeps : keeps Bounded SafeClearInstanceSpec.
Proof. unfold SafeClearInstanceSpec. solve_keeps. Qed.
Hint Resolve WaitForCallbacks_keeps SafeStopCapability_keeps SafeClearInstanceSpec_keeps : keeps.

Lemma DeactivateApplicationUnlocked_keeps reason :
  keeps Bounded (DeactivateApplicationUnlocked reason).
Proof. unfold DeactivateApplicationUnlocked. solve_keeps. Qed.
Hint Resolve DeactivateApplicationUnlocked_keeps : keeps.

Lemma DeactivateApplication_keeps reason : keeps Bounded (DeactivateApplication reason).
Proof. unfold DeactivateApplication. solve_keeps. Qed.

Lemma apply_top_level_keeps spec : keeps Bounded (apply_top_level spec).
Proof. unfold apply_top_level, call. solve_keeps. Qed.

Lemma start_capabilities_keeps spec grants started error :
  keeps Bounded (start_capabilities spec grants started error).
Proof.
  revert started error. induction grants as [|[binding grant] grants IH]; intros started error;
    simpl; unfold call; solve_keeps.
Qed.

Lemma spec_apply_failed_keeps spec applied started failed error :
  keeps Bounded (spec_apply_failed spec applied started failed error).
Proof. unfold spec_apply_failed. solve_keeps. Qed.

Lemma ready_callbacks_keeps started : keeps Bounded (ready_callbacks started).
Proof. induction started as [|binding started IH]; simpl; solve_keeps. Qed.

Lemma ready_failed_keeps spec failed : keeps Bounded (ready_failed spec failed).
Proof. unfold ready_failed. solve_keeps. Qed.
Hint Resolve apply_top_level_keeps start_capabilities_keeps spec_apply_failed_keeps
  ready_callbacks_keeps ready_failed_keeps : keeps.

Lemma spec_started_keeps session spec grants started :
  keeps Bounded (spec_started session spec grants started).
Proof. unfold spec_started. solve_keeps. Qed.
Hint Resolve spec_started_keeps : keeps.

Lemma run_transition_keeps session spec indices :
  keeps Bounded (run_transition session spec indices).
Proof. unfold run_transition, replace_spec, CurrentSessionIs, StopRequested. solve_keeps. Qed.
Hint Resolve run_transition_keeps : keeps.

Lemma ApplyInstanceSpec_keeps session spec : keeps Bounded (ApplyInstanceSpec session spec).
Proof. unfold ApplyInstanceSpec. solve_keeps. Qed.
End spec_inv.

#[export] Hint Resolve WaitForCallbacks_keeps DeactivateApplication_keeps ApplyInstanceSpec_keeps
  : keeps.

(** ** Transitions are atomic *)

(** What identifies the active specification and the session. *)
Definition spec_fields (s : Impl) :=
  (spec_revision_ s, spec_digest_ s, active_spec_ s, active_capabilities_ s, accepting_work_ s,
   (session_id_ s, session_failed_ s, stop_requested_ s), config_ s).

(** No specification is active and no Work is accepted. *)
Definition no_spec (s : Impl) : Prop :=
  spec_revision_ s = 0 ∧ spec_digest_ s = "" ∧ active_spec_ s = AdapterInstanceSpec.empty ∧
  active_capabilities_ s = ∅ ∧ accepting_work_ s = false.

(** [spec] is active with its grants bound to [indices], and Work is accepted. *)
Definition runs_spec (s : Impl) (spec : AdapterInstanceSpec.t) (indices : list nat) : Prop :=
  spec_revision_ s = AdapterInstanceSpec.revision spec ∧
  spec_digest_ s = AdapterInstanceSpec.spec_digest spec ∧ active_spec_ s = spec ∧
  active_capabilities_ s = active_map (zip indices (AdapterInstanceSpec.capabilities spec)) ∧
  accepting_work_ s = true ∧ state_ s = kReady ∧ ready_callbacks_complete_ s = true.

Section atomic.
Context `{Protobuf} `{Environment} `{!Sequential}.

Section frames.
Context {F : Type} (f : Impl → F) (Hf : ∀ e s, f (s <| effects_ := effects_ s ++ [e] |>) = f s).

Lemma seq_call c : frame f (call c).
Proof.
  intros s. unfold call, mbind, M_bind. rewrite seq_invoke. apply Hf.
Qed.

Lemma seq_Log level message : frame f (Log level message).
Proof.
  apply frame_bind; [done|]. intros b. apply frame_when. apply frame_modify. intros s. apply Hf.
Qed.

Lemma seq_safe_call label c : frame f (safe_call label c).
Proof.
  unfold safe_call. apply frame_bind; [apply seq_call|].
  intros []; [done|apply frame_bind; [apply seq_Log|done]..].
Qed.

Lemma seq_safe label c (b : bool) : frame f (when b (safe_call label c ;; mret tt)).
Proof. apply frame_when, frame_bind; [apply seq_safe_call|done]. Qed.

Lemma seq_SafeStopCapability binding : frame f (SafeStopCapability binding).
Proof. apply frame_bind; [done|]. intros c. case_match; [apply seq_safe|done]. Qed.

Lemma seq_SafeClearInstanceSpec : frame f SafeClearInstanceSpec.
Proof. apply frame_bind; [done|]. intros b. apply seq_safe. Qed.

Lemma seq_NotifySourceClosed source error : frame f (NotifySourceClosed source error).
Proof. apply frame_bind; [done|]. intros c. case_match; [apply seq_safe|done]. Qed.

Lemma seq_WaitForCallbacks : frame f WaitForCallbacks.
Proof. intros s. unfold WaitForCallbacks. by rewrite seq_wait. Qed.

Lemma seq_preempt_frame : frame f preempt.
Proof. by rewrite seq_preempt. Qed.

Lemma seq_apply_top_level spec : frame f (apply_top_level spec).
Proof.
  apply frame_bind; [done|]. intros []; [|done].
  apply frame_bind; [apply (seq_call (CallApplyInstanceSpec spec))|]. intros outcome. repeat case_match; try done;
    (apply frame_bind; [apply seq_SafeClearInstanceSpec|done]).
Qed.

Lemma seq_start_capabilities spec grants started error :
  frame f (start_capabilities spec grants started error).
Proof.
  revert started error. induction grants as [|[binding grant] grants IH]; intros; [done|].
  simpl. apply frame_bind; [done|]. intros c. apply frame_bind.
  - case_match; [|done]. apply frame_bind; [apply (seq_call (CallStart binding spec grant))|done].
  - intros [[] e]; [apply IH|done].
Qed.

Lemma seq_ready_callbacks started : frame f (ready_callbacks started).
Proof.
  induction started as [|binding started IH]; [done|]. simpl. apply frame_bind; [done|]. intros c.
  case_match; [|done]. apply frame_bind; [apply (seq_safe_call _ (CallReady binding))|].
  by intros [].
Qed.
End frames.

Definition session_fields (s : Impl) := (session_id_ s, session_failed_ s, stop_requested_ s, config_ s).

Lemma session_CancelAllWorkLocked : frame session_fields CancelAllWorkLocked.
Proof. unfold CancelAllWorkLocked, request_cancellation. solve_frame. Qed.

Hint Resolve session_CancelAllWorkLocked : frame.

Lemma Deactivate_locked_spec s :
  no_spec (Deactivate_locked s).2 ∧ session_fields (Deactivate_locked s).2 = session_fields s.
Proof.
  rewrite Deactivate_locked_state.
  assert (frame accepting_work_ CancelAllWorkLocked) as Hf
    by (unfold CancelAllWorkLocked, request_cancellation; solve_frame).
  split; [split_and!; try done; exact (Hf (s <| accepting_work_ := false |>))|].
  exact (session_CancelAllWorkLocked (s <| accepting_work_ := false |>)).
Qed.

Lemma DeactivateApplicationUnlocked_spec s reason :
  no_spec (DeactivateApplicationUnlocked reason s).2 ∧
  session_fields (DeactivateApplicationUnlocked reason s).2 = session_fields s.
Proof.
  set (g := λ s, (no_spec s, session_fields s)).
  assert (g (DeactivateApplicationUnlocked reason s).2 = g (Deactivate_locked s).2) as Hg.
  { unfold DeactivateApplicationUnlocked. unfold mbind at 1, M_bind at 1. cbv zeta.
    destruct (Deactivate_locked s).1 as [[bindings streams] had].
    generalize (Deactivate_locked s).2. change (frame g (preempt ;; WaitForCallbacks ;;
      for_each SafeStopCapability (reverse bindings) ;; when had SafeClearInstanceSpec ;;
      for_each (λ stream, NotifySourceClosed stream (source_closed_error reason)) streams)).
    repeat (apply frame_bind; [|intros _]).
    - by apply seq_preempt_frame.
    - by apply seq_WaitForCallbacks.
    - apply frame_for_each. intros x. by apply seq_SafeStopCapability.
    - apply frame_when. by apply seq_SafeClearInstanceSpec.
    - apply frame_for_each. intros x. by apply seq_NotifySourceClosed. }
  destruct (Deactivate_locked_spec s) as [Hno Hsess].
  pose proof (f_equal fst Hg : no_spec _ = no_spec _) as Hg1.
  pose proof (f_equal snd Hg : session_fields _ = session_fields _) as Hg2.
  rewrite Hg1, Hg2. done.
Qed.

(** A refused transition leaves no specification behind. *)
Definition refused_clean (r : ApplyInstanceSpecResult.t) (s : Impl) : Prop :=
  ApplyInstanceSpecResult.applied r = false ∧ is_Some (ApplyInstanceSpecResult.error_ r) ∧ no_spec s.

Lemma spec_apply_failed_clean spec applied started failed error :
  hoare no_spec (spec_apply_failed spec applied started failed error) refused_clean.
Proof.
  assert (∀ A (m : C A), frame no_spec m → keeps no_spec m) as Hk
    by (intros A m Hm s; by rewrite Hm).
  unfold spec_apply_failed.
  eapply (hoare_bind _ _ (λ _, no_spec)); [apply Hk, frame_for_each; intros; by apply seq_SafeStopCapability|].
  intros _. eapply (hoare_bind _ _ (λ _, no_spec));
    [apply Hk, frame_when; by apply seq_SafeClearInstanceSpec|].
  intros _. eapply (hoare_bind _ _ (λ _, no_spec)); [by apply Hk|]. intros config.
  eapply (hoare_bind _ _ (λ _, no_spec)); [by apply Hk, seq_preempt_frame|]. intros _ s Hs.
  by split_and!.
Qed.

Lemma ready_failed_clean spec failed : hoare (λ _, True) (ready_failed spec failed) refused_clean.
Proof.
  unfold ready_failed. apply (hoare_bind _ _ (λ _ _, True)); [done|]. intros config.
  apply (hoare_bind _ _ (λ _, no_spec)).
  - intros t _. apply DeactivateApplicationUnlocked_spec.
  - intros _. rewrite seq_preempt. intros t (? & ? & ? & ? & ?). by split_and!.
Qed.

(** The specification is committed but its ready callbacks are pending. *)
Definition committed_spec (session : string) (spec : AdapterInstanceSpec.t)
    (active : gmap string ActiveCapability.t) (s : Impl) : Prop :=
  spec_revision_ s = AdapterInstanceSpec.revision spec ∧
  spec_digest_ s = AdapterInstanceSpec.spec_digest spec ∧ active_spec_ s = spec ∧
  active_capabilities_ s = active ∧ session_stale s session = false.

Lemma commit_spec_commits session spec active statuses s :
  session_stale s session = false →
  (commit_spec session spec active statuses s).1 = true ∧
  committed_spec session spec active (commit_spec session spec active statuses s).2.
Proof. intros Hs. unfold commit_spec. rewrite Hs. by split_and!. Qed.

Lemma activate_spec_runs session spec indices statuses s :
  committed_spec session spec (active_map (zip indices (AdapterInstanceSpec.capabilities spec))) s →
  runs_spec (activate_spec session statuses s).2 spec indices.
Proof.
  intros (? & ? & ? & ? & Hs). unfold activate_spec, session_stale in *.
  apply orb_false_iff in Hs as [[Hid Hstop]%orb_false_iff Hfail]. rewrite negb_false_iff in Hid.
  rewrite Hid, Hstop, Hfail. by split_and!.
Qed.

(** Applied completely, or refused and clean. *)
Definition transition_outcome (spec : AdapterInstanceSpec.t) (indices : list nat)
    (r : ApplyInstanceSpecResult.t) (s : Impl) : Prop :=
  (ApplyInstanceSpecResult.applied r = true ∧ runs_spec s spec indices) ∨ refused_clean r s.

Lemma spec_started_outcome session spec indices started :
  hoare (λ s, session_stale s session = false)
    (spec_started session spec (zip indices (AdapterInstanceSpec.capabilities spec)) started)
    (transition_outcome spec indices).
Proof.
  unfold spec_started. rewrite seq_preempt.
  set (grants := zip _ _). apply (hoare_bind _ _ (λ _ s, session_stale s session = false)); [by intros s|].
  intros config. apply (hoare_bind _ _ (λ _ s, session_stale s session = false)); [by intros s|]. intros _.
  apply (hoare_bind _ _ (λ c s, c = true ∧ committed_spec session spec (active_map grants) s)).
  { intros s. apply commit_spec_commits. }
  intros committed. apply (hoare_consequence _
    (λ s, committed = true ∧ committed_spec session spec (active_map grants) s) _ _
    (transition_outcome spec indices)); [|by intros s|by intros r s].
  destruct committed; simpl; [|by intros s []].
  apply (hoare_bind _ _ (λ _, committed_spec session spec (active_map grants))); [by intros s []|].
  intros _. apply (hoare_bind _ _ (λ _, committed_spec session spec (active_map grants))).
  { intros s Hs. by rewrite (seq_ready_callbacks (committed_spec session spec (active_map grants))). }
  intros [failed|].
  - eapply hoare_consequence; [apply ready_failed_clean|by intros s|]. intros r s Hr. by right.
  - apply (hoare_bind _ _ (λ _, committed_spec session spec (active_map grants))); [by intros s|]. intros _.
    apply (hoare_bind _ _ (λ _ s, runs_spec s spec indices)).
    { intros s. apply activate_spec_runs. }
    intros _. apply (hoare_bind _ _ (λ _ s, runs_spec s spec indices)).
    { intros s Hs. by rewrite (seq_Log (λ s, runs_spec s spec indices)). }
    intros _ s Hs. by left.
Qed.

Lemma replace_spec_outcome session spec indices :
  hoare (λ s, session_stale s session = false) (replace_spec session spec indices)
    (transition_outcome spec indices).
Proof.
  unfold replace_spec, install_spec.
  set (J := λ s, no_spec s ∧ session_stale s session = false).
  apply (hoare_bind _ _ (λ _, J)).
  { intros s Hs. destruct (DeactivateApplicationUnlocked_spec s "instance spec replaced")
      as [Hno Hsess]. split; [done|]. injection Hsess as E1 E2 E3 _. unfold session_stale in *.
    by rewrite E1, E2, E3. }
  intros _. apply (hoare_bind _ _ (λ _, J)).
  { intros s Hs. by rewrite (seq_apply_top_level J). }
  intros [applied error]. apply (hoare_bind _ _ (λ _, J)).
  { intros s Hs. destruct applied; [|done]. by rewrite (seq_start_capabilities J). }
  intros [[started failed] error']. case_match.
  - eapply hoare_consequence; [apply spec_apply_failed_clean|by intros s []|].
    intros r s Hr. by right.
  - eapply hoare_consequence; [apply spec_started_outcome|by intros s []|by intros r s].
Qed.

Lemma run_transition_outcome session spec indices :
  hoare (λ s, session_stale s session = false) (run_transition session spec indices)
    (transition_outcome spec indices).
Proof.
  unfold run_transition. rewrite seq_preempt.
  apply (hoare_bind _ _ (λ _ s, session_stale s session = false)); [by intros s|]. intros _.
  apply (hoare_bind _ _ (λ _ s, session_stale s session = false)).
  { intros s Hs. by rewrite (seq_WaitForCallbacks (λ s, session_stale s session)). }
  intros _. apply (hoare_bind _ _ (λ current s, current = true ∧ session_stale s session = false)).
  { intros s Hs. split; [|done]. simpl. unfold session_stale in Hs.
    apply orb_false_iff in Hs as [[Hid _]%orb_false_iff Hfail]. apply negb_false_iff in Hid.
    by rewrite Hid, Hfail. }
  intros current. apply (hoare_bind _ _
    (λ stopping s, current = true ∧ stopping = false ∧ session_stale s session = false)).
  { intros s [-> Hs]. split_and!; [done| |done]. simpl. unfold session_stale in Hs.
    by apply orb_false_iff in Hs as [[_ ?]%orb_false_iff _]. }
  intros stopping s (-> & -> & Hs). by apply replace_spec_outcome.
Qed.

Lemma ApplyInstanceSpec_locked_answer session spec s r :
  (ApplyInstanceSpec_locked session spec s).1 = Some r →
  (ApplyInstanceSpec_locked session spec s).2 = s ∧
  (ApplyInstanceSpecResult.applied r = true ↔ ApplyInstanceSpecResult.error_ r = None) ∧
  (ApplyInstanceSpecResult.applied r = true →
   AdapterInstanceSpec.revision spec = spec_revision_ s ∧
   AdapterInstanceSpec.spec_digest spec = spec_digest_ s ∧
   AdapterInstanceSpec_Equals spec (active_spec_ s) = true).
Proof.
  unfold ApplyInstanceSpec_locked. repeat (case_match; try done); intros [= <-];
    simpl; split_and!; try done; guards; by auto.
Qed.

Lemma ApplyInstanceSpec_locked_begins session spec s :
  (ApplyInstanceSpec_locked session spec s).1 = None →
  session_stale s session = false ∧
  (spec_revision_ s = 0 ∨ spec_revision_ s < AdapterInstanceSpec.revision spec) ∧
  session_fields (ApplyInstanceSpec_locked session spec s).2 = session_fields s.
Proof.
  assert (frame session_fields (begin_transition spec)) as Hb
    by (unfold begin_transition; solve_frame).
  unfold ApplyInstanceSpec_locked. repeat (case_match; try done). intros _.
  split_and!; [done| |apply Hb]. guards. lia.
Qed.
End atomic.


(** A registered client that has not applied a specification yet. *)
Definition sample_registered : Impl := Sample.ready
  <| state_ := kRegistered |> <| accepting_work_ := false |> <| spec_revision_ := 0 |>
  <| spec_digest_ := "" |> <| active_spec_ := AdapterInstanceSpec.empty |>
  <| active_capabilities_ := ∅ |>.

