(* ===== verification/Session.v ===== *)
(** * Registration, the session and its connection pairs

    [src/src/session.cpp] and [src/src/session_state.cpp]: one Register call per
    process, the state of the session and of each Control/Work connection pair,
    the supervisor that replaces failed pairs, start and stop.  The RPC layer is
    the parameter [Transport]; the stream threads run as part of the environment
    while the supervisor waits. *)

From S2P Require Import Prelude Text Digest Messages Clock Config State Queue Stream Spec.

(** ** gRPC *)

Inductive StatusCode : Type :=
| OK | FAILED_PRECONDITION | PERMISSION_DENIED | UNAUTHENTICATED | ABORTED
| OTHER_STATUS (code : Z).

#[export] Instance StatusCode_eq_dec : EqDecision StatusCode.
Proof. solve_decision. Defined.

Record Status : Type := mkStatus { error_code : StatusCode; error_message : string }.

Definition status_ok (status : Status) : bool := bool_decide (error_code status = OK).

Definition IsTerminalSessionStatus (status : Status) : bool :=
  bool_decide (error_code status = FAILED_PRECONDITION) ||
  bool_decide (error_code status = PERMISSION_DENIED) ||
  bool_decide (error_code status = UNAUTHENTICATED) ||
  bool_decide (error_code status = ABORTED).

(** [make_context] is [std::make_shared<grpc::ClientContext>()]; [rpc_register]
    blocks in [stub_->Register]. *)
Class Transport : Type := {
  make_context : C nat;
  rpc_register : RegisterRequest.t → C (Status * RegisterResponse.t);
}.

(** ** Registration *)

(** [SecureErase] overwrites the characters and empties the string. *)
Definition SecureErase (value : string) : string := "".

Definition ForgetBootstrapToken (config : ClientConfig) : ClientConfig :=
  config <| registration := (registration config)
    <| RegisterRequest.bootstrap_token :=
         SecureErase (RegisterRequest.bootstrap_token (registration config)) |> |>.

Definition minimum_terminal_replay_bytes (work_frame_bytes : Z) : Z :=
  u64 (work_frame_bytes + kCanonicalSha256TextBytes * 2).
Definition minimum_source_state_bytes (work_frame_bytes : Z) : Z :=
  u64 (work_frame_bytes * 2 + kCanonicalSha256TextBytes * 2).

(** What [Register] makes of the response. *)
Definition RegisteredFence (config : ClientConfig) (status : Status)
    (response : RegisterResponse.t) : string + SessionFence.t :=
  let work_frame_bytes := RegisterResponse.maximum_work_frame_bytes response in
  let digest_metadata_bytes := kCanonicalSha256TextBytes * 2 in
  if negb (status_ok status)
  then inl (if str_empty (error_message status) then "Register transport failed"
            else error_message status)
  else if negb (RegisterResponse.accepted response)
  then inl (if str_empty (AdapterError.message (RegisterResponse.error response))
            then "Register was rejected"
            else AdapterError.message (RegisterResponse.error response))
  else if str_empty (RegisterResponse.host_id response) ||
          str_empty (RegisterResponse.session_id response) ||
          negb (RegisterResponse.process_generation response =?
                RegisterRequest.process_generation (registration config)) ||
          (RegisterResponse.session_generation response =? 0) ||
          (RegisterResponse.runtime_epoch response =? 0)
  then inl "Register omitted or mismatched session fencing"
  else if negb (RegisterResponse.runtime_link_protocol_version response =?
                kRuntimeLinkProtocolVersion)
  then inl "Host did not select Runtime Link protocol version 2"
  else if (RegisterResponse.maximum_control_frame_bytes response =? 0) ||
          (work_frame_bytes =? 0)
  then inl "Host omitted mandatory Control/Work frame limits"
  else if (size_max - digest_metadata_bytes <? work_frame_bytes) ||
          ((size_max - digest_metadata_bytes) / 2 <? work_frame_bytes)
  then inl "negotiated Work frame limit cannot be represented"
  else if (maximum_control_queue_bytes config <?
           RegisterResponse.maximum_control_frame_bytes response) ||
          (maximum_work_queue_bytes config <? work_frame_bytes) ||
          (maximum_dispatch_queue_bytes config <? work_frame_bytes) ||
          (maximum_terminal_replay_bytes config <?
           minimum_terminal_replay_bytes work_frame_bytes) ||
          (maximum_source_state_bytes config <? minimum_source_state_bytes work_frame_bytes)
  then inl "configured byte budgets cannot hold one negotiated frame"
  else inr (SessionFence.make (RegisterResponse.host_id response)
    (RegisterResponse.session_id response) (RegisterResponse.session_generation response)
    (RegisterResponse.runtime_epoch response)
    (RegisterResponse.runtime_link_protocol_version response)
    (if RegisterResponse.heartbeat_interval_ms response =? 0 then kDefaultHeartbeatIntervalMs
     else Z.max kMinimumHeartbeatIntervalMs (RegisterResponse.heartbeat_interval_ms response))
    (RegisterResponse.maximum_control_frame_bytes response) work_frame_bytes 1).

Section session.
Context `{Protobuf} `{Environment} `{Transport}.

(** The first critical section: whether the one registration may be sent. *)
Definition begin_register (context : nat) : C (option string) := λ s,
  if registration_attempted_ s then (Some "Register is single-use for this process generation", s)
  else if stop_requested_ s then (Some "Register was cancelled before dispatch", s)
  else (None, s <| registration_attempted_ := true |> <| active_register_context_ := Some context |>).

Definition end_register (context : nat) : C unit := modify (λ s,
  if bool_decide (active_register_context_ s = Some context)
  then s <| active_register_context_ := None |> else s).

Definition Register : C (string + SessionFence.t) :=
  context ← make_context;
  refused ← begin_register context;
  match refused with
  | Some error => mret (inl error)
  | None =>
      config ← gets config_;
      preempt ;;
      answer ← rpc_register (registration config
        <| RegisterRequest.sdk_version := kClientVersion |>);
      modify (λ s, s <| config_ := ForgetBootstrapToken (config_ s) |>) ;;
      end_register context ;;
      config ← gets config_;
      mret (RegisteredFence config answer.1 answer.2)
  end.

(** ** Session and pair state *)

Definition InstallSession (fence : SessionFence.t) : C unit := modify (λ s,
  s <| session_failed_ := false |>
    <| host_id_ := SessionFence.host_id fence |>
    <| session_id_ := SessionFence.session_id fence |>
    <| session_generation_ := SessionFence.session_generation fence |>
    <| runtime_epoch_ := SessionFence.runtime_epoch fence |>
    <| runtime_link_protocol_version_ := SessionFence.runtime_link_protocol_version fence |>
    <| heartbeat_interval_ms_ := SessionFence.heartbeat_interval_ms fence |>
    <| maximum_control_frame_bytes_ := SessionFence.maximum_control_frame_bytes fence |>
    <| maximum_work_frame_bytes_ := SessionFence.maximum_work_frame_bytes fence |>
    <| connection_epoch_counter_ := SessionFence.connection_epoch fence |>
    <| desired_spec_ := initial_spec (config_ s) |>
    <| control_out_sequence_ := 0 |> <| work_out_sequence_ := 0 |>
    <| control_in_sequence_ := 0 |> <| work_in_sequence_ := 0 |>
    <| control_queue_ := [] |> <| work_queue_ := [] |> <| dispatch_queue_ := [] |>
    <| source_streams_ := ∅ |> <| closed_sources_ := ∅ |>
    <| control_queue_bytes_ := 0 |> <| work_queue_bytes_ := 0 |>
    <| dispatch_queue_bytes_ := 0 |> <| source_state_bytes_ := 0 |>
    <| capability_statuses_ := DisabledCapabilityStatuses (config_ s) |>
    <| accepting_work_ := false |> <| drain_requested_ := false |>
    <| drain_reported_ := false |> <| ready_callbacks_complete_ := false |>
    <| state_ := kRegistered |>).

Definition clear_sequences (s : Impl) : Impl :=
  s <| control_out_sequence_ := 0 |> <| work_out_sequence_ := 0 |>
    <| control_in_sequence_ := 0 |> <| work_in_sequence_ := 0 |>.

Definition clear_queues (s : Impl) : Impl :=
  s <| control_queue_ := [] |> <| work_queue_ := [] |> <| dispatch_queue_ := [] |>
    <| control_queue_bytes_ := 0 |> <| work_queue_bytes_ := 0 |> <| dispatch_queue_bytes_ := 0 |>.

(** [PrepareConnectionPairLocked] before and after its loop over the tokens. *)
Definition begin_pair (s : Impl) : Impl :=
  clear_queues (clear_sequences (s <| session_failed_ := false |>
    <| pair_ready_ := false |> <| work_attach_allowed_ := false |>
    <| work_attach_connection_epoch_ := 0 |>)).

Definition finish_pair (fence : SessionFence.t) (s : Impl) : Impl :=
  s <| closed_sources_ := ∅ |> <| source_state_bytes_ := 0 |>
    <| accepting_work_ := false |> <| drain_requested_ := false |> <| drain_reported_ := false |>
    <| ready_callbacks_complete_ := negb (spec_revision_ s =? 0) |>
    <| state_ := if SessionFence.connection_epoch fence =? 1 then kRegistered
                 else kReconnecting |>.

Definition PrepareConnectionPairLocked (fence : SessionFence.t) : C unit :=
  modify begin_pair ;; ReleaseAllWorkTokensLocked ;; modify (finish_pair fence).

Definition drop_pair_work (s : Impl) : Impl :=
  s <| source_streams_ := ∅ |> <| dispatch_queue_ := [] |> <| dispatch_queue_bytes_ := 0 |>.

(** The first critical section of [PreparePairReplacement]: the open sources. *)
Definition PreparePairReplacement_locked : C (list SourceState.t) :=
  put accepting_work_ := false ;;
  CancelAllWorkLocked ;;
  sources ← gets (λ s, map snd (entries (source_streams_ s)));
  modify drop_pair_work ;;
  mret sources.

Definition PreparePairReplacement : C unit :=
  sources ← PreparePairReplacement_locked;
  preempt ;;
  WaitForCallbacks ;;
  ReleaseAllWorkTokensLocked ;;
  preempt ;;
  stopping ← StopRequested;
  let error := MakeError ERROR_CLASS_CANCELLED "connection-pair-replaced"
    (if stopping : bool then "Runtime Link stopped"
     else "Runtime Link connection pair was replaced") 0 in
  for_each (λ source, NotifySourceClosed source error) sources.

(** [ClearConnectionStateLocked] before and after its loop over the tokens. *)
Definition begin_clear (s : Impl) : Impl :=
  clear_queues (s <| active_control_context_ := None |> <| active_work_context_ := None |>).

Definition finish_clear (s : Impl) : Impl :=
  clear_sequences (s <| work_attach_allowed_ := false |> <| pair_ready_ := false |>
    <| work_attach_connection_epoch_ := 0 |> <| session_failed_ := false |>
    <| accepting_work_ := false |> <| drain_requested_ := false |> <| drain_reported_ := false |>
    <| ready_callbacks_complete_ := negb (spec_revision_ s =? 0) |>).

Definition ClearConnectionStateLocked : C unit :=
  modify begin_clear ;; ReleaseAllWorkTokensLocked ;; modify finish_clear.

(** [ResetSessionLocked] before and after its loop over the tokens. *)
Definition begin_reset (s : Impl) : Impl :=
  clear_queues (s <| active_register_context_ := None |>
    <| active_control_context_ := None |> <| active_work_context_ := None |>
    <| host_id_ := "" |> <| session_id_ := "" |> <| session_generation_ := 0 |>
    <| runtime_epoch_ := 0 |> <| runtime_link_protocol_version_ := 0 |>
    <| heartbeat_interval_ms_ := 0 |> <| maximum_control_frame_bytes_ := 0 |>
    <| maximum_work_frame_bytes_ := 0 |> <| connection_epoch_counter_ := 0 |>
    <| spec_revision_ := 0 |> <| spec_digest_ := "" |>
    <| active_spec_ := AdapterInstanceSpec.empty |>
    <| desired_spec_ := AdapterInstanceSpec.empty |> <| active_capabilities_ := ∅ |>
    <| source_streams_ := ∅ |> <| closed_sources_ := ∅ |>).

Definition finish_reset (s : Impl) : Impl :=
  s <| replay_ := ∅ |> <| source_state_bytes_ := 0 |>
    <| terminal_replay_bytes_ := 0 |>
    <| capability_statuses_ := DisabledCapabilityStatuses (config_ s) |>
    <| accepting_work_ := false |> <| session_failed_ := false |>
    <| drain_requested_ := false |> <| drain_reported_ := false |>
    <| ready_callbacks_complete_ := false |> <| work_attach_allowed_ := false |>
    <| pair_ready_ := false |> <| work_attach_connection_epoch_ := 0 |>
    <| terminal_session_failure_ := false |> <| terminal_session_error_ := "" |>.

Definition ResetSessionLocked : C unit :=
  modify begin_reset ;; ReleaseAllWorkTokensLocked ;; modify finish_reset.

(** ** Session loss *)

(** The critical section: [None] when a stop is under way, else whether to notify. *)
Definition EnterSessionLost_locked (reason : string) : C (option bool) := λ s,
  if stop_requested_ s then (None, s)
  else
    (Some (negb (session_lost_reported_ s)),
     s <| terminal_session_failure_ := true |> <| terminal_session_error_ := reason |>
       <| session_failed_ := true |> <| accepting_work_ := false |>
       <| state_ := kSessionLost |> <| last_error_ := reason |>
       <| session_lost_reported_ := true |>).

Definition EnterSessionLost (reason : string) : C unit :=
  DeactivateApplication reason ;;
  preempt ;;
  entered ← EnterSessionLost_locked reason;
  match entered with
  | None => mret tt
  | Some notify =>
      Log kError ("Runtime Link session lost: " +:+ reason) ;;
      bound ← gets (λ s, cb_session_lost (callbacks_ s));
      when (notify && bound)
        (safe_call "session_lost callback" (CallSessionLost reason) ;; mret tt)
  end.

(** ** The supervisor *)

Definition WaitFor (milliseconds : Z) : C unit := wait_until stop_requested_.

(** The pair of [fence] is over. *)
Definition pair_over (fence : SessionFence.t) (s : Impl) : bool :=
  stop_requested_ s || session_failed_ s || terminal_session_failure_ s ||
  negb (bool_decide (session_id_ s = SessionFence.session_id fence)).

Definition attach_open (fence : SessionFence.t) (s : Impl) : bool :=
  work_attach_allowed_ s &&
  (work_attach_connection_epoch_ s =? SessionFence.connection_epoch fence).

(** Prepare the next pair; its fence. *)
Definition prepare_pair (session_fence : SessionFence.t) : C SessionFence.t :=
  epoch ← gets connection_epoch_counter_;
  let pair_fence := session_fence <| SessionFence.connection_epoch := epoch |> in
  PrepareConnectionPairLocked pair_fence ;;
  mret pair_fence.

(** Retire a pair whose threads have been joined; whether it had become ready. *)
Definition retire_pair : C bool :=
  ready ← gets pair_ready_;
  ClearConnectionStateLocked ;;
  mret ready.

(** Advance the epoch, or fail when it is exhausted. *)
Definition advance_epoch : C unit := modify (λ s,
  if connection_epoch_counter_ s =? u64_max
  then s <| terminal_session_failure_ := true |>
         <| terminal_session_error_ := "connection epoch is exhausted" |>
  else s <| connection_epoch_counter_ := u64 (connection_epoch_counter_ s + 1) |>
         <| state_ := kReconnecting |>).

Inductive SupervisorNext : Type :=
| SupervisorContinue (reconnect_delay reconnects_used : Z)
| SupervisorStopped
| SupervisorLost.

(** From the retired pair to the next attempt. *)
Definition after_pair (pair_was_ready : bool) (reconnect_delay reconnects_used : Z)
    : C SupervisorNext :=
  stopping ← StopRequested;
  if stopping : bool then mret SupervisorStopped
  else
    terminal ← TerminalSessionFailureRequested;
    if terminal : bool then
      reason ← gets terminal_session_error_;
      EnterSessionLost reason ;;
      mret SupervisorLost
    else
      config ← gets config_;
      let reconnects_used := if pair_was_ready then 0 else reconnects_used in
      let reconnect_delay := if pair_was_ready then reconnect_initial_delay_ms config
                             else reconnect_delay in
      if maximum_pair_reconnect_attempts config <=? reconnects_used then
        pair_error ← gets last_error_;
        EnterSessionLost ("paired Runtime Link reconnect budget exhausted" +:+
          (if str_empty pair_error then "" else ": " +:+ pair_error)) ;;
        mret SupervisorLost
      else
        advance_epoch ;;
        preempt ;;
        terminal ← TerminalSessionFailureRequested;
        if terminal : bool then
          EnterSessionLost "connection epoch is exhausted" ;;
          mret SupervisorLost
        else
          WaitFor reconnect_delay ;;
          mret (SupervisorContinue (NextBackoff (reconnect_max_delay_ms config) reconnect_delay)
                  (u64 (reconnects_used + 1))).

Definition SupervisorIteration (session_fence : SessionFence.t)
    (reconnect_delay reconnects_used : Z) : C SupervisorNext :=
  stopping ← StopRequested;
  if stopping : bool then mret SupervisorStopped
  else
    pair_fence ← prepare_pair session_fence;
    wait_until (λ s, pair_over pair_fence s || attach_open pair_fence s) ;;
    start_work ← gets (λ s, negb (pair_over pair_fence s) && attach_open pair_fence s);
    when start_work (wait_until (pair_over pair_fence)) ;;
    CancelActiveStreams ;;
    preempt ;;
    PreparePairReplacement ;;
    preempt ;;
    pair_was_ready ← retire_pair;
    preempt ;;
    after_pair pair_was_ready reconnect_delay reconnects_used.

(** The loop; [None] when it is still running after [fuel] iterations, else
    whether it ended because of a stop. *)
Fixpoint supervise (fuel : nat) (fence : SessionFence.t) (reconnect_delay reconnects_used : Z)
    : C (option bool) :=
  match fuel with
  | O => mret None
  | S fuel =>
      next ← SupervisorIteration fence reconnect_delay reconnects_used;
      match next with
      | SupervisorContinue reconnect_delay reconnects_used =>
          supervise fuel fence reconnect_delay reconnects_used
      | SupervisorStopped => mret (Some true)
      | SupervisorLost => mret (Some false)
      end
  end.

Definition SupervisorLoop (fuel : nat) : C unit :=
  registered ← Register;
  match registered with
  | inl registration_error =>
      stopping ← StopRequested;
      when (negb stopping) (EnterSessionLost ("registration failed: " +:+ registration_error))
  | inr fence =>
      InstallSession fence ;;
      config ← gets config_;
      ended ← supervise fuel fence (reconnect_initial_delay_ms config) 0;
      match ended with
      | Some true =>
          DeactivateApplication "Runtime Link supervisor stopped" ;;
          preempt ;;
          ResetSessionLocked ;;
          put state_ := kStopped
      | _ => mret tt
      end
  end.

(** ** Start, stop and snapshot *)

Definition start_ready (s : Impl) : bool :=
  bool_decide (state_ s = kReady) && ready_callbacks_complete_ s && pair_ready_ s.

(** The second critical section of [Start]: the error when already started. *)
Definition Start_locked : C (option string) := λ s,
  if negb (bool_decide (state_ s = kStopped)) || supervisor_running_ s ||
     negb (bool_decide (dispatch_threads_ s = 0%nat))
  then (Some "Adapter Runtime client is already started", s)
  else
    (None, s <| stop_requested_ := false |> <| session_failed_ := false |>
             <| terminal_session_failure_ := false |> <| session_lost_reported_ := false |>
             <| state_ := kConnecting |> <| last_error_ := "" |>
             <| terminal_session_error_ := "" |> <| replay_ := ∅ |>
             <| terminal_replay_bytes_ := 0 |> <| rejected_dispatches_ := 0 |>
             <| dropped_outbound_frames_ := 0 |>).

(** The critical section of [Stop]: [false] when there is nothing to stop. *)
Definition Stop_locked : C bool :=
  nothing ← gets (λ s, bool_decide (state_ s = kStopped) && negb (supervisor_running_ s) &&
                       bool_decide (dispatch_threads_ s = 0%nat));
  if nothing : bool then mret false
  else
    put stop_requested_ := true ;;
    put accepting_work_ := false ;;
    put state_ := kStopping ;;
    CancelAllWorkLocked ;;
    mret true.

(** What [Stop] clears once the threads have been joined. *)
Definition Stop_finish : C unit :=
  ResetSessionLocked ;;
  put state_ := kStopped ;;
  put dispatch_queue_ := [] ;;
  ReleaseAllWorkTokensLocked ;;
  put replay_ := ∅ ;;
  put terminal_replay_bytes_ := 0.

Definition Stop : C unit :=
  stopping ← Stop_locked;
  if negb stopping then mret tt
  else
    registration_context ← gets active_register_context_;
    TryCancel registration_context ;;
    CancelActiveStreams ;;
    wait_until (λ _, true) ;;
    modify (λ s, s <| supervisor_running_ := false |> <| dispatch_threads_ := 0%nat |>) ;;
    DeactivateApplication "client stopped" ;;
    preempt ;;
    Stop_finish.

(** [None] when the client became ready, else the error. *)
Definition Start : C (option string) :=
  attempted ← gets registration_attempted_;
  if attempted : bool then
    mret (Some "Adapter Runtime registration is single-use; start a new process generation")
  else
    config ← gets config_;
    match ValidateConfig config with
    | Refused validation_error => mret (Some validation_error)
    | Accepted =>
        preempt ;;
        refused ← Start_locked;
        match refused with
        | Some error => mret (Some error)
        | None =>
            modify (λ s, s <| supervisor_running_ := true |>
                           <| dispatch_threads_ := Z.to_nat (dispatch_workers config) |>) ;;
            wait_until (λ s, start_ready s || bool_decide (state_ s = kStopped) ||
                             bool_decide (state_ s = kSessionLost) || stop_requested_ s) ;;
            ready ← gets start_ready;
            if ready : bool then mret None
            else
              failure ← gets (λ s, if str_empty (last_error_ s)
                                   then "initial Runtime Link activation timed out"
                                   else last_error_ s);
              Stop ;;
              mret (Some failure)
        end
    end.

Record SessionSnapshot : Type := mkSessionSnapshot {
  snap_state : ClientState; snap_host_id : string; snap_session_id : string;
  snap_process_generation : Z; snap_session_generation : Z; snap_runtime_epoch : Z;
  snap_spec_revision : Z; snap_spec_digest : string; snap_protocol_version : Z;
  snap_heartbeat_interval_ms : Z; snap_in_flight_work : Z; snap_rejected_dispatches : Z;
  snap_dropped_outbound_frames : Z; snap_last_error : string;
  snap_capabilities : list CapabilityStatus.t
}.

Definition session : C SessionSnapshot := gets (λ s,
  mkSessionSnapshot (state_ s) (host_id_ s) (session_id_ s)
    (RegisterRequest.process_generation (registration (config_ s))) (session_generation_ s)
    (runtime_epoch_ s) (spec_revision_ s) (spec_digest_ s) (runtime_link_protocol_version_ s)
    (heartbeat_interval_ms_ s) (in_flight_work_ s) (rejected_dispatches_ s)
    (dropped_outbound_frames_ s) (last_error_ s) (capability_statuses_ s)).
End session.
