(* ===== verification/Link.v ===== *)
(** * The Control and Work streams

    [src/src/control.cpp] and [src/src/work.cpp]: the reader and the writer of each
    stream of a connection pair.  The gRPC stream and the clocks are the parameter
    [Streams]; a loop is cut off after a number of iterations ([fuel]). *)

From S2P Require Import Prelude Text Digest Messages Clock Config State Queue Stream.
From S2P Require Import Dispatch Spec Session.

(** Both streams of a pair and the clocks; [Read] and [Write] block, so the other
    threads run meanwhile. *)
Class Streams : Type := {
  control_read : C (option ControlResponse.t);
  control_write : ControlRequest.t → C bool;
  control_finish : C Status;
  work_read : C (option WorkResponse.t);
  work_write : WorkRequest.t → C bool;
  work_finish : C Status;
  steady_now : C Z;
}.

(** What a writer's critical section decides: return, wait again, or send. *)
Inductive WriterTurn (A : Type) : Type :=
| WriterReturn
| WriterAgain
| WriterSend (request : A).
#[global] Arguments WriterReturn {A}.
#[global] Arguments WriterAgain {A}.
#[global] Arguments WriterSend {A} _.

Section link.
Context `{Protobuf} `{Environment} `{Streams}.

Definition link_over (fence : SessionFence.t) (s : Impl) : bool :=
  stop_requested_ s || session_failed_ s ||
  negb (bool_decide (session_id_ s = SessionFence.session_id fence)).

(** ** Control *)

Definition IsTerminalSpecFailure (code : string) : bool :=
  bool_decide (code = "invalid-instance-spec") || bool_decide (code = "spec-content-mismatch") ||
  bool_decide (code = "initial-spec-mismatch") || bool_decide (code = "ready-callback-failed").

Definition BuildHeartbeatLocked (s : Impl) (ping_nonce : Z) : Heartbeat.t :=
  Heartbeat.make (wall_clock_ s) (spec_revision_ s) (spec_digest_ s) ping_nonce
    (capability_statuses_ s).

Definition stamp_control (fence : SessionFence.t) (frame : ControlFrame) : C ControlRequest.t := λ s,
  let sequence := u64 (control_out_sequence_ s + 1) in
  (ControlRequest.make (Some (StampHeaderLocked s fence (SessionFence.connection_epoch fence)
     sequence)) frame,
   s <| control_out_sequence_ := sequence |>).

(** The writer's critical section, with the next heartbeat deadline. *)
Definition control_turn (fence : SessionFence.t) (next_heartbeat now : Z)
    : C (WriterTurn ControlRequest.t * Z) := λ s,
  if link_over fence s then ((WriterReturn, next_heartbeat), s)
  else if next_heartbeat <=? now
  then
    let '(request, s) := stamp_control fence (heartbeat (BuildHeartbeatLocked s 0)) s in
    ((WriterSend request, NextAlignedHeartbeatDeadline (wall_clock_ s) now
        (SessionFence.heartbeat_interval_ms fence)), s)
  else
    let '(front, s) := PopControl s in
    match front with
    | Some frame =>
        let '(request, s) := stamp_control fence frame s in
        ((WriterSend request, next_heartbeat), s)
    | None => ((WriterAgain, next_heartbeat), s)
    end.

Definition open_attach_gate (fence : SessionFence.t) : C unit := modify (λ s,
  if bool_decide (session_id_ s = SessionFence.session_id fence) && negb (session_failed_ s) &&
     negb (stop_requested_ s) && negb (spec_revision_ s =? 0) && negb (str_empty (spec_digest_ s))
  then s <| work_attach_allowed_ := true |>
         <| work_attach_connection_epoch_ := SessionFence.connection_epoch fence |>
  else s).

Definition spec_result (frame : ControlFrame) : option ApplyInstanceSpecResult.t :=
  match frame with apply_instance_spec_result m => Some m | _ => None end.

(** One iteration: the next heartbeat deadline, or [None] when the writer returns. *)
Definition ControlWriterIteration (fence : SessionFence.t) (next_heartbeat : Z) : C (option Z) :=
  wait_until (λ s, link_over fence s || negb (bool_decide (control_queue_ s = []))) ;;
  now ← steady_now;
  turn ← control_turn fence next_heartbeat now;
  match turn.1 with
  | WriterReturn => mret None
  | WriterAgain => mret (Some turn.2)
  | WriterSend request =>
      preempt ;;
      let too_large := (0 <? SessionFence.maximum_control_frame_bytes fence) &&
        (SessionFence.maximum_control_frame_bytes fence <?
         Z.of_N (ControlRequest_ByteSizeLong request)) in
      written ← (if too_large then mret false else control_write request);
      if negb written then
        SignalSessionFailure (SessionFence.session_id fence)
          "Control outbound frame failed or exceeded limit" ;;
        mret None
      else
        match spec_result (ControlRequest.frame request) with
        | None => mret (Some turn.2)
        | Some result =>
            if ApplyInstanceSpecResult.applied result then
              open_attach_gate fence ;; mret (Some turn.2)
            else
              let error := default AdapterError.empty (ApplyInstanceSpecResult.error_ result) in
              let failure := "exact instance spec was not applied" +:+
                (if str_empty (AdapterError.message error) then ""
                 else ": " +:+ AdapterError.message error) in
              (if IsTerminalSpecFailure (AdapterError.code error)
               then SignalTerminalSessionFailure (SessionFence.session_id fence) failure
               else SignalSessionFailure (SessionFence.session_id fence) failure) ;;
              mret None
        end
  end.

Fixpoint ControlWriterLoop (fuel : nat) (fence : SessionFence.t) (next_heartbeat : Z) : C unit :=
  match fuel with
  | O => mret tt
  | S fuel =>
      next ← ControlWriterIteration fence next_heartbeat;
      match next with
      | Some next_heartbeat => ControlWriterLoop fuel fence next_heartbeat
      | None => mret tt
      end
  end.

(** Queue a Control frame or fail the session; whether it was queued. *)
Definition queue_control_or_fail (fence : SessionFence.t) (frame : ControlFrame) (reason : string)
    : C bool :=
  queued ← QueueControl frame;
  if queued : bool then mret true
  else SignalSessionFailure (SessionFence.session_id fence) reason ;; mret false.

Definition HandleControlResponse (fence : SessionFence.t) (response : ControlResponse.t)
    : C bool :=
  match ControlResponse.frame response with
  | kInstanceSpec spec =>
      result ← ApplyInstanceSpec (SessionFence.session_id fence) spec;
      preempt ;;
      queue_control_or_fail fence (apply_instance_spec_result result)
        "Control queue rejected spec result"
  | kPing nonce =>
      beat ← gets (λ s, BuildHeartbeatLocked s nonce);
      preempt ;;
      queue_control_or_fail fence (heartbeat beat) "Control queue rejected ping response"
  | kDrain => BeginDrain ;; mret true
  | kStop request => RequestRemoteStop request ;; mret false
  | kControlProtocolError error =>
      SignalTerminalSessionFailure (SessionFence.session_id fence)
        ("Host reported Control protocol error: " +:+ AdapterError.message error) ;;
      mret false
  | CONTROL_FRAME_NOT_SET =>
      SignalSessionFailure (SessionFence.session_id fence) "Host sent an empty Control frame" ;;
      mret false
  end.

(** One frame read from Control; whether the reader goes on. *)
Definition ControlFrameReceived (fence : SessionFence.t) (response : ControlResponse.t) : C bool :=
  if SessionFence.maximum_control_frame_bytes fence <?
     Z.of_N (ControlResponse_ByteSizeLong response)
  then
    SignalTerminalSessionFailure (SessionFence.session_id fence)
      "Host Control frame exceeds the negotiated limit" ;;
    mret false
  else
    verdict ← ValidateControlHeader (ControlResponse.header response) fence;
    match verdict with
    | Refused header_error =>
        SignalTerminalSessionFailure (SessionFence.session_id fence)
          ("invalid Control fence: " +:+ header_error) ;;
        mret false
    | Accepted => preempt ;; HandleControlResponse fence response
    end.

Fixpoint control_reader (fuel : nat) (fence : SessionFence.t) : C unit :=
  match fuel with
  | O => mret tt
  | S fuel =>
      stopping ← StopRequested;
      if stopping : bool then mret tt
      else
        response ← control_read;
        match response with
        | None => mret tt
        | Some response =>
            continue_ ← ControlFrameReceived fence response;
            if continue_ : bool then control_reader fuel fence else mret tt
        end
  end.

(** What a stream loop does once its stream has finished. *)
Definition stream_finished (fence : SessionFence.t) (name : string) (status : Status) : C unit :=
  stopping ← StopRequested;
  if negb stopping && IsTerminalSessionStatus status then
    SignalTerminalSessionFailure (SessionFence.session_id fence)
      (name +:+ " attachment was rejected: " +:+
       (if str_empty (error_message status) then "terminal gRPC status" else error_message status))
  else
    preempt ;;
    stopping ← StopRequested;
    preempt ;;
    current ← CurrentSessionIs (SessionFence.session_id fence);
    when (negb stopping && current)
      (SignalSessionFailure (SessionFence.session_id fence)
         (if status_ok status then name +:+ " stream closed"
          else name +:+ " stream failed: " +:+ error_message status)).

(** [opened] is whether [stub_->Control] returned a stream; the writer thread is
    part of the environment. *)
Definition ControlStreamLoop (fuel : nat) (fence : SessionFence.t) (context : nat) (opened : bool)
    : C unit :=
  if negb opened then
    SignalSessionFailure (SessionFence.session_id fence) "Control stream could not be opened"
  else
    stale ← gets (λ s, negb (bool_decide (session_id_ s = SessionFence.session_id fence)) ||
                       stop_requested_ s);
    (if stale : bool then TryCancel (Some context)
     else put active_control_context_ := Some context) ;;
    preempt ;;
    control_reader fuel fence ;;
    TryCancel (Some context) ;;
    preempt ;;
    status ← control_finish;
    modify (λ s, if bool_decide (active_control_context_ s = Some context)
                 then s <| active_control_context_ := None |> else s) ;;
    preempt ;;
    stream_finished fence "Control" status.

(** ** Work *)

Definition stamp_work (fence : SessionFence.t) (frame : WorkFrame) : C WorkRequest.t := λ s,
  let sequence := u64 (work_out_sequence_ s + 1) in
  (WorkRequest.make (Some (StampHeaderLocked s fence (SessionFence.connection_epoch fence)
     sequence)) frame,
   s <| work_out_sequence_ := sequence |>).

Definition attach_allowed (fence : SessionFence.t) (s : Impl) : bool :=
  work_attach_allowed_ s &&
  (work_attach_connection_epoch_ s =? SessionFence.connection_epoch fence) &&
  bool_decide (session_id_ s = SessionFence.session_id fence) && negb (session_failed_ s) &&
  negb (stop_requested_ s).

(** The first critical section: the attach frame, when its gate is open. *)
Definition work_attach (fence : SessionFence.t) : C (option WorkRequest.t) := λ s,
  if attach_allowed fence s
  then
    let '(request, s) := stamp_work fence
      (attach (WorkAttach.make (spec_revision_ s) (spec_digest_ s))) s in
    (Some request, s)
  else (None, s).

(** The section after the attach frame was written. *)
Definition pair_attached (fence : SessionFence.t) : C unit := modify (λ s,
  if attach_allowed fence s
  then s <| accepting_work_ := true |> <| state_ := kReady |>
         <| ready_callbacks_complete_ := true |> <| pair_ready_ := true |>
  else s).

Definition work_too_large (fence : SessionFence.t) (request : WorkRequest.t) : bool :=
  (0 <? SessionFence.maximum_work_frame_bytes fence) &&
  (SessionFence.maximum_work_frame_bytes fence <? Z.of_N (WorkRequest_ByteSizeLong request)).

Definition work_turn (fence : SessionFence.t) : C (WriterTurn WorkRequest.t) := λ s,
  if link_over fence s then (WriterReturn, s)
  else
    let '(front, s) := PopWork s in
    match front with
    | Some frame => let '(request, s) := stamp_work fence frame s in (WriterSend request, s)
    | None => (WriterAgain, s)
    end.

(** One iteration; whether the writer goes on. *)
Definition WorkWriterIteration (fence : SessionFence.t) : C bool :=
  wait_until (λ s, link_over fence s || negb (bool_decide (work_queue_ s = []))) ;;
  turn ← work_turn fence;
  match turn with
  | WriterReturn => mret false
  | WriterAgain => mret true
  | WriterSend request =>
      preempt ;;
      written ← (if work_too_large fence request then mret false else work_write request);
      if written : bool then mret true
      else
        SignalSessionFailure (SessionFence.session_id fence)
          "Work outbound frame failed or exceeded limit" ;;
        mret false
  end.

Fixpoint work_writer (fuel : nat) (fence : SessionFence.t) : C unit :=
  match fuel with
  | O => mret tt
  | S fuel =>
      continue_ ← WorkWriterIteration fence;
      if continue_ : bool then work_writer fuel fence else mret tt
  end.

Definition WorkWriterLoop (fuel : nat) (fence : SessionFence.t) : C unit :=
  request ← work_attach fence;
  match request with
  | None =>
      SignalSessionFailure (SessionFence.session_id fence)
        "WorkAttach gate was lost before the paired Work stream started"
  | Some request =>
      preempt ;;
      written ← (if work_too_large fence request then mret false else work_write request);
      if negb written then
        SignalSessionFailure (SessionFence.session_id fence)
          "mandatory WorkAttach could not be written"
      else
        pair_attached fence ;;
        preempt ;;
        work_writer fuel fence
  end.

Definition HandleWorkResponse (fence : SessionFence.t) (response : WorkResponse.t) : C bool :=
  let sequence := SessionHeader.frame_sequence (WorkResponse.header response) in
  match WorkResponse.frame response with
  | kUnaryRequest request => EnqueueUnary request sequence ;; mret true
  | kOperationRequest request => EnqueueOperation request sequence ;; mret true
  | kSourceOpenRequest request => EnqueueSourceOpen request sequence ;; mret true
  | kSourceCredit credit => GrantSourceCredit credit sequence ;; mret true
  | kCancellation cancellation => HandleCancellation cancellation sequence ;; mret true
  | kTerminalAcknowledgement acknowledgement =>
      HandleTerminalAcknowledgement acknowledgement sequence ;; mret true
  | kWorkProtocolError error =>
      SignalTerminalSessionFailure (SessionFence.session_id fence)
        ("Host reported Work protocol error: " +:+ AdapterError.message error) ;;
      mret false
  | WORK_FRAME_NOT_SET =>
      QueueWorkProtocolError sequence "Host sent an empty Work frame" ;; mret true
  end.

Definition WorkFrameReceived (fence : SessionFence.t) (response : WorkResponse.t) : C bool :=
  if SessionFence.maximum_work_frame_bytes fence <? Z.of_N (WorkResponse_ByteSizeLong response)
  then
    SignalTerminalSessionFailure (SessionFence.session_id fence)
      "Host Work frame exceeds the negotiated limit" ;;
    mret false
  else
    verdict ← ValidateWorkHeader (WorkResponse.header response) fence;
    match verdict with
    | Refused header_error =>
        SignalTerminalSessionFailure (SessionFence.session_id fence)
          ("invalid Work fence: " +:+ header_error) ;;
        mret false
    | Accepted => preempt ;; HandleWorkResponse fence response
    end.

Fixpoint work_reader (fuel : nat) (fence : SessionFence.t) : C unit :=
  match fuel with
  | O => mret tt
  | S fuel =>
      stopping ← StopRequested;
      if stopping : bool then mret tt
      else
        response ← work_read;
        match response with
        | None => mret tt
        | Some response =>
            continue_ ← WorkFrameReceived fence response;
            if continue_ : bool then work_reader fuel fence else mret tt
        end
  end.

Definition WorkStreamLoop (fuel : nat) (fence : SessionFence.t) (context : nat) (opened : bool)
    : C unit :=
  if negb opened then
    SignalSessionFailure (SessionFence.session_id fence) "Work stream could not be opened"
  else
    stale ← gets (λ s, negb (bool_decide (session_id_ s = SessionFence.session_id fence)) ||
                       stop_requested_ s);
    (if stale : bool then TryCancel (Some context)
     else put active_work_context_ := Some context) ;;
    preempt ;;
    work_reader fuel fence ;;
    TryCancel (Some context) ;;
    preempt ;;
    status ← work_finish;
    modify (λ s, if bool_decide (active_work_context_ s = Some context)
                 then s <| active_work_context_ := None |> else s) ;;
    preempt ;;
    stream_finished fence "Work" status.
End link.
