(* ===== verification/SessionFacts.v ===== *)
(** * Properties of the session and its pairs

    The resource invariant for installing, replacing and resetting a session, and
    what the replacement of a pair keeps and drops. *)

From S2P Require Import Prelude Text Digest Messages Clock Config State Queue Bounds.
From S2P Require Import Stream StreamFacts Sample Dispatch DispatchFacts Spec SpecFacts Session.

(** ** The resource invariant *)

Definition fence_limits_ok (fence : SessionFence.t) : Prop :=
  in_u32 (SessionFence.maximum_work_frame_bytes fence) ∧
  in_u32 (SessionFence.maximum_control_frame_bytes fence).

Lemma ControlInv_empty c : limits_ok (co_config c) → co_control c = ([], 0) → ControlInv c.
Proof. intros Hl Hc. unfold ControlInv. rewrite Hc. apply queue_clear; limits. Qed.
Lemma WorkInv_empty c : limits_ok (co_config c) → co_work c = ([], 0) → WorkInv c.
Proof. intros Hl Hc. unfold WorkInv. rewrite Hc. apply queue_clear; limits. Qed.
Lemma DispatchInv_empty c : limits_ok (co_config c) → co_dispatch c = ([], 0) → DispatchInv c.
Proof. intros Hl Hc. unfold DispatchInv. rewrite Hc. apply queue_clear; limits. Qed.

(** With empty queues only the tables matter. *)
Lemma Bounded_cleared s :
  limits_ok (config_ s) →
  in_u32 (maximum_work_frame_bytes_ s) ∧ in_u32 (maximum_control_frame_bytes_ s) →
  (control_queue_ s, control_queue_bytes_ s) = ([], 0) →
  (work_queue_ s, work_queue_bytes_ s) = ([], 0) →
  (dispatch_queue_ s, dispatch_queue_bytes_ s) = ([], 0) →
  ReplayInv (config_ s) (work_tokens_ s) (replay_ s) (terminal_replay_bytes_ s) →
  SourceInv (config_ s) (source_streams_ s) (closed_sources_ s) (source_state_bytes_ s) →
  Bounded s.
Proof.
  intros Hl Hf Hc Hw Hd Hr Hs.
  split; [done|done|by apply ControlInv_empty|by apply WorkInv_empty|by apply DispatchInv_empty
    |done|done].
Qed.

Lemma InstallSession_keeps fence : fence_limits_ok fence → keeps Bounded (InstallSession fence).
Proof.
  intros Hf s [Hl _ _ _ _ Hr _]. apply Bounded_cleared; try done. by apply SourceInv_empty.
Qed.

Lemma Bounded_clear_queues s : Bounded s → Bounded (clear_queues s).
Proof. intros [Hl Hf _ _ _ Hr Hs]. by apply Bounded_cleared. Qed.

Lemma Bounded_no_sources s :
  Bounded s → source_streams_ s = ∅ →
  Bounded (s <| closed_sources_ := ∅ |> <| source_state_bytes_ := 0 |>).
Proof.
  intros Hs Hno. apply (Bounded_sources s); [done|done|]. simpl. rewrite Hno.
  apply SourceInv_empty, (b_limits _ Hs).
Qed.

(** Releasing tokens touches the tokens and the byte counter, nothing else. *)
Definition ignores_tokens {F} (f : Impl → F) : Prop :=
  ∀ s tokens bytes, f (s <| terminal_replay_bytes_ := bytes |> <| work_tokens_ := tokens |>) = f s.

Lemma release_loop_frame {F} (f : Impl → F) fuel :
  ignores_tokens f → frame f (release_loop fuel).
Proof.
  intros Hf. induction fuel as [|fuel IH]; [done|]. simpl. apply frame_bind; [done|].
  intros [e|]; [|done]. apply frame_bind; [|done]. apply frame_modify. intros s.
  case_match; [|done]. apply Hf.
Qed.

Lemma ReleaseAllWorkTokensLocked_frame {F} (f : Impl → F) :
  ignores_tokens f → frame f ReleaseAllWorkTokensLocked.
Proof. intros Hf s. by apply release_loop_frame. Qed.

(** The loop empties the table. *)
Lemma release_loop_empties fuel s :
  (base.size (work_tokens_ s) ≤ fuel)%nat → work_tokens_ (release_loop fuel s).2 = ∅.
Proof.
  revert s. induction fuel as [|fuel IH]; intros s Hle.
  { simpl. apply map_size_empty_inv. lia. }
  simpl. unfold mbind, M_bind. cbn [gets fst snd].
  destruct (entries (work_tokens_ s)) as [|[id token] rest] eqn:He; simpl.
  { by apply entries_nil. }
  apply IH. simpl.
  assert (work_tokens_ s !! id = Some token) as Hid.
  { apply elem_of_entries. rewrite He. left. }
  rewrite Hid. simpl. rewrite (size_delete_Some _ _ _ Hid) in Hle. lia.
Qed.

Lemma ReleaseAllWorkTokensLocked_empties s :
  work_tokens_ (ReleaseAllWorkTokensLocked s).2 = ∅.
Proof. by apply release_loop_empties. Qed.

Lemma Bounded_begin_pair s : Bounded s → Bounded (begin_pair s).
Proof. intros Hs. apply Bounded_clear_queues. by apply (Bounded_same s). Qed.

Lemma Bounded_finish_pair fence s :
  Bounded s → source_streams_ s = ∅ → Bounded (finish_pair fence s).
Proof. intros Hs Hno. by apply (Bounded_same _ _ eq_refl (Bounded_no_sources s Hs Hno)). Qed.

(** The state each operation computes, in terms of its parts. *)
Lemma PrepareConnectionPairLocked_state fence s :
  (PrepareConnectionPairLocked fence s).2 =
  finish_pair fence (ReleaseAllWorkTokensLocked (begin_pair s)).2.
Proof. reflexivity. Qed.

Lemma PreparePairReplacement_locked_state s :
  (PreparePairReplacement_locked s).2 =
  drop_pair_work (CancelAllWorkLocked (s <| accepting_work_ := false |>)).2.
Proof. reflexivity. Qed.

Lemma ClearConnectionStateLocked_state s :
  (ClearConnectionStateLocked s).2 = finish_clear (ReleaseAllWorkTokensLocked (begin_clear s)).2.
Proof. reflexivity. Qed.

Lemma ResetSessionLocked_state s :
  (ResetSessionLocked s).2 = finish_reset (ReleaseAllWorkTokensLocked (begin_reset s)).2.
Proof. reflexivity. Qed.

Lemma PrepareConnectionPairLocked_keeps fence s :
  Bounded s → source_streams_ s = ∅ → Bounded (PrepareConnectionPairLocked fence s).2.
Proof.
  intros Hs Hno. rewrite PrepareConnectionPairLocked_state. apply Bounded_finish_pair.
  - apply ReleaseAllWorkTokensLocked_keeps. by apply Bounded_begin_pair.
  - by rewrite (ReleaseAllWorkTokensLocked_frame source_streams_).
Qed.

Lemma Bounded_drop_pair_work s : Bounded s → Bounded (drop_pair_work s).
Proof.
  intros [Hl Hf Hc Hw Hd Hr Hs]. split; try done; [by apply DispatchInv_empty|].
  destruct Hs as [Hdj Hsum Hb Hn Ht Hso Hcl]. simpl in *.
  pose proof (map_sum_nonneg _ _ (λ k v Hk, proj1 (Hso k v Hk))).
  pose proof (map_count_nonneg (source_streams_ s)).
  split; simpl; rewrite ?map_sum_empty; unfold map_count in *; rewrite ?map_size_empty; try done; lia.
Qed.

Lemma PreparePairReplacement_locked_keeps : keeps Bounded PreparePairReplacement_locked.
Proof.
  intros s Hs. rewrite PreparePairReplacement_locked_state. apply Bounded_drop_pair_work.
  apply (Bounded_frame _ core_CancelAllWorkLocked). by apply (Bounded_same s).
Qed.

Lemma Bounded_begin_clear s : Bounded s → Bounded (begin_clear s).
Proof. intros Hs. apply Bounded_clear_queues. by apply (Bounded_same s). Qed.

Lemma finish_clear_view s : view (finish_clear s) = view s.
Proof. reflexivity. Qed.

Lemma ClearConnectionStateLocked_keeps : keeps Bounded ClearConnectionStateLocked.
Proof.
  intros s Hs. rewrite ClearConnectionStateLocked_state.
  apply (Bounded_same (ReleaseAllWorkTokensLocked (begin_clear s)).2); [apply finish_clear_view|].
  apply ReleaseAllWorkTokensLocked_keeps. by apply Bounded_begin_clear.
Qed.

Lemma Bounded_begin_reset s : Bounded s → Bounded (begin_reset s).
Proof.
  intros [Hl Hf _ _ _ Hr Hs]. apply Bounded_cleared; try done.
  destruct Hs as [Hdj Hsum Hb Hn Ht Hso Hcl]. simpl in *.
  pose proof (source_bytes_nonneg _ _ _ _ (Build_SourceInv _ _ _ _ Hdj Hsum Hb Hn Ht Hso Hcl)).
  split; simpl; rewrite ?map_sum_empty; unfold map_count; rewrite ?map_size_empty; try done; limits.
Qed.

Lemma Bounded_finish_reset s :
  Bounded s → work_tokens_ s = ∅ → source_streams_ s = ∅ → closed_sources_ s = ∅ →
  Bounded (finish_reset s).
Proof.
  intros [Hl Hf Hc Hw Hd Hr Hs] Ht Hso Hcl. split; try done; simpl.
  - rewrite Ht. by apply ReplayInv_empty.
  - rewrite Hso, Hcl. by apply SourceInv_empty.
Qed.

Lemma ResetSessionLocked_keeps : keeps Bounded ResetSessionLocked.
Proof.
  intros s Hs. rewrite ResetSessionLocked_state. apply Bounded_finish_reset.
  - apply ReleaseAllWorkTokensLocked_keeps. by apply Bounded_begin_reset.
  - apply ReleaseAllWorkTokensLocked_empties.
  - by rewrite (ReleaseAllWorkTokensLocked_frame source_streams_).
  - by rewrite (ReleaseAllWorkTokensLocked_frame closed_sources_).
Qed.

(** [Stop] clears the replay table a second time; by then nothing is left. *)
Lemma Stop_finish_state s :
  (Stop_finish s).2 =
  (ReleaseAllWorkTokensLocked ((ResetSessionLocked s).2 <| state_ := kStopped |>
     <| dispatch_queue_ := [] |>)).2 <| replay_ := ∅ |> <| terminal_replay_bytes_ := 0 |>.
Proof. reflexivity. Qed.

Lemma Bounded_no_replay s :
  Bounded s → work_tokens_ s = ∅ → Bounded (s <| replay_ := ∅ |> <| terminal_replay_bytes_ := 0 |>).
Proof.
  intros [Hl Hf Hc Hw Hd Hr Hs] Ht. split; try done. simpl. rewrite Ht. by apply ReplayInv_empty.
Qed.

Lemma finish_reset_dispatch s : dispatch_queue_ (finish_reset s) = dispatch_queue_ s.
Proof. reflexivity. Qed.

Lemma ResetSessionLocked_dispatch s : dispatch_queue_ (ResetSessionLocked s).2 = [].
Proof.
  rewrite ResetSessionLocked_state, finish_reset_dispatch.
  by rewrite (ReleaseAllWorkTokensLocked_frame dispatch_queue_).
Qed.

Lemma Stop_finish_keeps : keeps Bounded Stop_finish.
Proof.
  intros s Hs. rewrite Stop_finish_state.
  pose proof (ResetSessionLocked_keeps s Hs) as Hr. pose proof (ResetSessionLocked_dispatch s) as Hd.
  destruct (ResetSessionLocked s) as [[] s1]. simpl in *.
  apply Bounded_no_replay; [|apply ReleaseAllWorkTokensLocked_empties].
  apply ReleaseAllWorkTokensLocked_keeps. apply (Bounded_same s1); [|done].
  unfold view. simpl. by rewrite Hd.
Qed.

Lemma Start_locked_keeps s :
  Bounded s → work_tokens_ s = ∅ → Bounded (Start_locked s).2.
Proof.
  intros Hs Ht. unfold Start_locked. case_match; [done|]. simpl.
  by apply (Bounded_same _ _ eq_refl (Bounded_no_replay s Hs Ht)).
Qed.

(** ** Pair replacement *)

(** The cancellation flag at [address] belongs to Work or a source that is open. *)
Definition live_flag (s : Impl) (address : nat) : Prop :=
  (∃ id token, work_tokens_ s !! id = Some token ∧
     WorkTokenState.cancellation token = Some address) ∨
  (∃ id source, source_streams_ s !! id = Some source ∧
     SourceState.cancellation source = Some address).

(** The loop of [CancelAllWorkLocked] sets every flag of its list. *)
Lemma request_all {A} (flag : A → CancellationRef) (xs : list A) s address :
  (address < length (cancellations_ s))%nat →
  (∃ x, x ∈ xs ∧ flag x = Some address) ∨ cancellations_ s !! address = Some true →
  cancellations_ (for_each (λ x, request_cancellation (flag x)) xs s).2 !! address = Some true.
Proof.
  revert s. induction xs as [|x xs IH]; intros s Hlen Hx.
  { simpl. destruct Hx as [(x & Hx & _)|Hx]; [by apply elem_of_nil in Hx|done]. }
  simpl. unfold mbind, M_bind. cbv zeta. apply IH.
  - destruct (flag x) as [b|]; simpl; by rewrite ?length_insert.
  - destruct Hx as [(y & [->|Hy]%elem_of_cons & Hflag)|Htrue]; [|by left; exists y|]; right.
    + rewrite Hflag. simpl. by rewrite list_lookup_insert_eq.
    + destruct (flag x) as [b|]; simpl; [|done].
      destruct (decide (b = address)) as [->|Hne]; [by rewrite list_lookup_insert_eq|].
      by rewrite list_lookup_insert_ne.
Qed.

Lemma CancelAllWorkLocked_requests s address :
  (address < length (cancellations_ s))%nat → live_flag s address →
  cancellations_ (CancelAllWorkLocked s).2 !! address = Some true.
Proof.
  intros Hlen Hlive. unfold CancelAllWorkLocked, mbind, M_bind. cbn [gets fst snd].
  set (cancel_tokens := for_each (λ token : string * WorkTokenState.t,
    request_cancellation (WorkTokenState.cancellation token.2)) (entries (work_tokens_ s))).
  assert (frame source_streams_ cancel_tokens) as Hframe
    by (apply frame_for_each; intros x; unfold request_cancellation; solve_frame).
  assert (frame (λ s, length (cancellations_ s)) cancel_tokens) as Hl.
  { apply frame_for_each. intros x u. destruct (WorkTokenState.cancellation x.2); simpl;
      by rewrite ?length_insert. }
  rewrite (Hframe s).
  apply (request_all (λ source : string * SourceState.t, SourceState.cancellation source.2));
    [by rewrite (Hl s)|].
  destruct Hlive as [(id & token & Hid & Hflag)|(id & source & Hid & Hflag)].
  - right. apply (request_all (λ token : string * WorkTokenState.t,
      WorkTokenState.cancellation token.2)); [done|]. left. exists (id, token).
    by split; [apply elem_of_entries|].
  - left. exists (id, source). by split; [apply elem_of_entries|].
Qed.

(** What a replaced pair leaves to the next one. *)
Definition retained_fields (s : Impl) :=
  (replay_ s, (host_id_ s, session_id_ s, session_generation_ s, runtime_epoch_ s,
   connection_epoch_counter_ s), (spec_revision_ s, spec_digest_ s, active_spec_ s,
   active_capabilities_ s, desired_spec_ s), (registration_attempted_ s, stop_requested_ s), config_ s).

Section session_keeps.
Context `{Protobuf} `{Environment} `{!Rely Bounded}.

Lemma PreparePairReplacement_keeps : keeps Bounded PreparePairReplacement.
Proof.
  unfold PreparePairReplacement. apply keeps_bind; [apply PreparePairReplacement_locked_keeps|].
  intros sources. solve_keeps.
Qed.

Lemma retire_pair_keeps : keeps Bounded retire_pair.
Proof.
  unfold retire_pair. apply keeps_bind; [auto with keeps|]. intros b.
  apply keeps_bind; [apply ClearConnectionStateLocked_keeps|auto with keeps].
Qed.
End session_keeps.

Section replacement.
Context `{Protobuf} `{Environment} `{!Sequential}.

#[local] Instance sequential_rely I : Rely I.
Proof.
  split.
  - intros c s Hs. by rewrite seq_invoke.
  - intros p s Hs. by rewrite seq_wait.
  - rewrite seq_preempt. intros s Hs. exact Hs.
Qed.

(** What only the first critical section of the replacement changes. *)
Definition pair_fields (s : Impl) :=
  (retained_fields s, source_streams_ s, accepting_work_ s, cancellations_ s).

Lemma CancelAllWorkLocked_frame {F} (f : Impl → F) :
  (∀ s flags, f (s <| cancellations_ := flags |>) = f s) → frame f CancelAllWorkLocked.
Proof.
  intros Hf. unfold CancelAllWorkLocked.
  assert (∀ ref, frame f (request_cancellation ref)) as Hreq
    by (intros [address|] s; [apply Hf|done]).
  repeat first [apply frame_bind; [|intros ?] | apply frame_for_each; intros ? | apply Hreq | done].
Qed.

Lemma drop_pair_work_fields s :
  (retained_fields (drop_pair_work s), source_streams_ (drop_pair_work s),
   accepting_work_ (drop_pair_work s), cancellations_ (drop_pair_work s)) =
  (retained_fields s, ∅, accepting_work_ s, cancellations_ s).
Proof. reflexivity. Qed.

Lemma PreparePairReplacement_locked_fields s :
  pair_fields (PreparePairReplacement_locked s).2 =
  (retained_fields s, ∅, false,
   cancellations_ (CancelAllWorkLocked (s <| accepting_work_ := false |>)).2).
Proof.
  unfold pair_fields. rewrite PreparePairReplacement_locked_state, drop_pair_work_fields.
  rewrite (CancelAllWorkLocked_frame retained_fields), (CancelAllWorkLocked_frame accepting_work_)
    by done.
  reflexivity.
Qed.

Lemma frame_hoare {F A} (f : Impl → F) (m : C A) v :
  frame f m → hoare (λ s, f s = v) m (λ _ s, f s = v).
Proof. intros Hm s <-. apply Hm. Qed.

Lemma PreparePairReplacement_fields s :
  hoare (eq s) PreparePairReplacement (λ _ s',
    pair_fields s' = pair_fields (PreparePairReplacement_locked s).2 ∧ work_tokens_ s' = ∅).
Proof.
  set (v := pair_fields (PreparePairReplacement_locked s).2).
  unfold PreparePairReplacement. apply (hoare_bind _ _ (λ _ u, pair_fields u = v));
    [by intros ? <-|]. clearbody v. intros sources.
  apply (hoare_bind _ _ (λ _ u, pair_fields u = v)); [by apply frame_hoare, seq_preempt_frame|intros _].
  apply (hoare_bind _ _ (λ _ u, pair_fields u = v)); [by apply frame_hoare, seq_WaitForCallbacks|intros _].
  apply (hoare_bind _ _ (λ _ u, pair_fields u = v ∧ work_tokens_ u = ∅)).
  { intros u Hu. split; [|apply ReleaseAllWorkTokensLocked_empties].
    by rewrite ReleaseAllWorkTokensLocked_frame. }
  intros _. set (g := λ u, (pair_fields u, work_tokens_ u)).
  apply (hoare_consequence _ (λ u, g u = (v, ∅)) _ _ (λ _ u, g u = (v, ∅)));
    [|intros u [E1 E2]; unfold g; by rewrite E1, E2
     |intros _ u E; exact (conj (f_equal fst E) (f_equal snd E))].
  apply frame_hoare.
  repeat first [by apply seq_NotifySourceClosed | by apply seq_preempt_frame | done
    | apply frame_bind; [|intros ?] | apply frame_for_each; intros ?].
Qed.

Lemma finish_clear_fields s :
  retained_fields (finish_clear s) = retained_fields s ∧
  source_streams_ (finish_clear s) = source_streams_ s ∧
  cancellations_ (finish_clear s) = cancellations_ s ∧
  work_tokens_ (finish_clear s) = work_tokens_ s ∧
  accepting_work_ (finish_clear s) = false ∧
  (control_queue_ (finish_clear s), work_queue_ (finish_clear s), dispatch_queue_ (finish_clear s)) =
  (control_queue_ s, work_queue_ s, dispatch_queue_ s).
Proof. done. Qed.

Lemma ClearConnectionStateLocked_fields s :
  let s' := (ClearConnectionStateLocked s).2 in
  retained_fields s' = retained_fields s ∧ source_streams_ s' = source_streams_ s ∧
  cancellations_ s' = cancellations_ s ∧ work_tokens_ s' = ∅ ∧ accepting_work_ s' = false ∧
  (control_queue_ s', work_queue_ s', dispatch_queue_ s') = ([], [], []).
Proof.
  cbv zeta. rewrite ClearConnectionStateLocked_state.
  destruct (finish_clear_fields (ReleaseAllWorkTokensLocked (begin_clear s)).2)
    as (-> & -> & -> & -> & -> & ->).
  rewrite ReleaseAllWorkTokensLocked_empties.
  split_and!; try done.
  - exact (ReleaseAllWorkTokensLocked_frame retained_fields (λ _ _ _, eq_refl) (begin_clear s)).
  - exact (ReleaseAllWorkTokensLocked_frame source_streams_ (λ _ _ _, eq_refl) (begin_clear s)).
  - exact (ReleaseAllWorkTokensLocked_frame cancellations_ (λ _ _ _, eq_refl) (begin_clear s)).
  - exact (ReleaseAllWorkTokensLocked_frame (λ u, (control_queue_ u, work_queue_ u, dispatch_queue_ u))
      (λ _ _ _, eq_refl) (begin_clear s)).
Qed.

Lemma retire_pair_state s : (retire_pair s).2 = (ClearConnectionStateLocked s).2.
Proof. reflexivity. Qed.

End replacement.

Module SamplePair.
Import Sample.

(** A ready client with one unary item admitted and not yet taken. *)
Definition with_work : Impl := (EnqueueUnary (unary "w-1") 1 ready).2.

Lemma Bounded_with_work : Bounded with_work.
Proof.
  pose proof (quiet_rely Bounded) as Hrely.
  pose proof (EnqueueUnary_keeps (unary "w-1") 1) as Hkeeps. unfold keeps, hoare in Hkeeps.
  unfold with_work. exact (Hkeeps ready Bounded_ready).
Qed.

Lemma with_work_live : live_flag with_work 0.
Proof.
  left. exists "w-1". destruct (work_tokens_ with_work !! "w-1") as [token|] eqn:E;
    vm_compute in E; [|discriminate E]. injection E as <-. by eexists.
Qed.
End SamplePair.

Import Sample.

