(* ===== verification/Registration.v ===== *)
(** * What an accepted registration guarantees

    [Register] refuses a session whose negotiated frame limits the configured byte
    budgets cannot hold.  The theorem of this file says the check is the right one:
    on the session it installs, every frame within the limits can be queued, every
    request can have its terminal reserved and every source can be accounted. *)

From S2P Require Import Prelude Text Digest Messages Clock Config State Queue Bounds.
From S2P Require Import Stream Sample Dispatch Session SessionFacts.

(** The fields of [RegisterResponse] the client narrows are [uint32]. *)
Definition response_in_range (r : RegisterResponse.t) : Prop :=
  in_u32 (RegisterResponse.maximum_control_frame_bytes r) ∧
  in_u32 (RegisterResponse.maximum_work_frame_bytes r) ∧
  in_u32 (RegisterResponse.heartbeat_interval_ms r).

(** The fence is the one the response names, for this process generation. *)
Record fence_matches (config : ClientConfig) (r : RegisterResponse.t) (f : SessionFence.t) : Prop := {
  fm_session : SessionFence.session_id f = RegisterResponse.session_id r;
  fm_named : str_empty (SessionFence.session_id f) = false;
  fm_generation : RegisterResponse.process_generation r =
    RegisterRequest.process_generation (registration config);
  fm_protocol : SessionFence.runtime_link_protocol_version f = 2;
  fm_epoch : SessionFence.connection_epoch f = 1;
  fm_heartbeat : kMinimumHeartbeatIntervalMs ≤ SessionFence.heartbeat_interval_ms f;
  fm_control : SessionFence.maximum_control_frame_bytes f =
    RegisterResponse.maximum_control_frame_bytes r;
  fm_work : SessionFence.maximum_work_frame_bytes f =
    RegisterResponse.maximum_work_frame_bytes r;
}.

(** The budgets hold one frame, one terminal and one source of the session. *)
Record budgets_hold (config : ClientConfig) (f : SessionFence.t) : Prop := {
  bh_control : 0 < SessionFence.maximum_control_frame_bytes f ≤ maximum_control_queue_bytes config;
  bh_work : 0 < SessionFence.maximum_work_frame_bytes f ≤ maximum_work_queue_bytes config;
  bh_dispatch : SessionFence.maximum_work_frame_bytes f ≤ maximum_dispatch_queue_bytes config;
  bh_replay : SessionFence.maximum_work_frame_bytes f + 2 * kCanonicalSha256TextBytes ≤
    maximum_terminal_replay_bytes config;
  bh_source : 2 * SessionFence.maximum_work_frame_bytes f + 2 * kCanonicalSha256TextBytes ≤
    maximum_source_state_bytes config;
}.

Lemma RegisteredFence_accepted config status r f :
  response_in_range r → RegisteredFence config status r = inr f →
  fence_matches config r f ∧ budgets_hold config f.
Proof.
  intros ([??] & [??] & [??]). unfold RegisteredFence.
  do 7 (case_match; [done|]). intros [= <-].
  unfold minimum_terminal_replay_bytes, minimum_source_state_bytes in *.
  guards. unfold kRuntimeLinkProtocolVersion, kCanonicalSha256TextBytes in *.
  rewrite !u64_id in * by (unfold in_u64, u32_max, u64_max in *; lia).
  split; split; simpl; unfold kCanonicalSha256TextBytes, kDefaultHeartbeatIntervalMs,
    kMinimumHeartbeatIntervalMs; try done; try lia.
  case_match; lia.
Qed.

Section registration.
Context `{Protobuf}.

(** The session as [InstallSession] leaves it, before any Work. *)
Record fresh_session (config : ClientConfig) (f : SessionFence.t) (s : Impl) : Prop := {
  fs_config : config_ s = config;
  fs_session : session_id_ s = SessionFence.session_id f;
  fs_open : session_failed_ s = false ∧ stop_requested_ s = false;
  fs_limits : maximum_control_frame_bytes_ s = SessionFence.maximum_control_frame_bytes f ∧
    maximum_work_frame_bytes_ s = SessionFence.maximum_work_frame_bytes f;
  fs_queues : (control_queue_ s, control_queue_bytes_ s, work_queue_ s, work_queue_bytes_ s,
    dispatch_queue_ s, dispatch_queue_bytes_ s) = ([], 0, [], 0, [], 0);
  fs_tables : (work_tokens_ s, replay_ s, terminal_replay_bytes_ s) = (∅, ∅, 0);
  fs_sources : (source_streams_ s, closed_sources_ s, source_state_bytes_ s) = (∅, ∅, 0);
}.

Lemma InstallSession_fresh config f s :
  config_ s = config → stop_requested_ s = false →
  (work_tokens_ s, replay_ s, terminal_replay_bytes_ s) = (∅, ∅, 0) →
  fresh_session config f (InstallSession f s).2.
Proof. by split. Qed.

Lemma Reserve_fits s job :
  str_empty (DispatchJob.work_id job) = false →
  map_count (replay_ s) + map_count (work_tokens_ s) < maximum_terminal_replay (config_ s) →
  in_u32 (maximum_work_frame_bytes_ s) → str_size (DispatchJob.fingerprint job) = 71 →
  0 ≤ terminal_replay_bytes_ s →
  terminal_replay_bytes_ s + maximum_work_frame_bytes_ s + 142 ≤
    maximum_terminal_replay_bytes (config_ s) →
  (ReserveTerminalReplayLocked job s).1.1 = true.
Proof.
  intros Hid Hroom [??] Hsize ? Hfit. unfold ReserveTerminalReplayLocked, kCanonicalSha256TextBytes.
  rewrite Hid, Hsize, (proj2 (Z.leb_gt _ _)) by done. cbn [orb].
  rewrite (u64_id (71 + 71)) by done. unfold size_max, u64_max, u32_max in *.
  rewrite (proj2 (Z.ltb_ge _ _)) by lia. rewrite u64_id by (unfold in_u64, u64_max; lia).
  by rewrite FitsByteBudget_true by lia.
Qed.

Lemma source_accounting_fits s job :
  in_u32 (maximum_work_frame_bytes_ s) → str_size (DispatchJob.fingerprint job) = 71 →
  0 ≤ DispatchJob.accounted_bytes job ≤ maximum_work_frame_bytes_ s →
  source_accounting s job =
    (false, DispatchJob.accounted_bytes job + (142 + maximum_work_frame_bytes_ s)).
Proof.
  intros [??] Hsize ?. unfold source_accounting, kCanonicalSha256TextBytes, size_max, u64_max, u32_max in *.
  rewrite Hsize. rewrite !(proj2 (Z.ltb_ge _ _)) by lia. f_equal; lia.
Qed.

(** C21: when [Register] accepts a response (whose limits are [uint32] values), the
    fence is the one the Host named, for this process generation, protocol version
    2 and connection epoch 1, with a heartbeat of at least 100 ms; and on the
    session [InstallSession] sets up under a configuration with positive limits,
    every Control and Work frame within the negotiated limits is queued, every
    request with a canonical digest has its terminal reserved, and every source
    whose request fits a frame is accounted without overflow inside its budget. *)
Theorem registration_admits_work config status response fence s :
  response_in_range response → positive_limits config = true → limits_ok config →
  RegisteredFence config status response = inr fence →
  config_ s = config → stop_requested_ s = false →
  (work_tokens_ s, replay_ s, terminal_replay_bytes_ s) = (∅, ∅, 0) →
  let s' := (InstallSession fence s).2 in
  fence_matches config response fence ∧
  (∀ frame, ControlFrameBytesLocked s' frame ≤ SessionFence.maximum_control_frame_bytes fence →
     (QueueControl frame s').1 = true) ∧
  (∀ frame, WorkFrameBytesLocked s' frame ≤ SessionFence.maximum_work_frame_bytes fence →
     (QueueWork frame s').1 = true) ∧
  (∀ job, str_empty (DispatchJob.work_id job) = false →
     str_size (DispatchJob.fingerprint job) = kCanonicalSha256TextBytes →
     (ReserveTerminalReplayLocked job s').1.1 = true ∧
     (0 ≤ DispatchJob.accounted_bytes job ≤ SessionFence.maximum_work_frame_bytes fence →
      (source_accounting s' job).1 = false ∧
      FitsByteBudget (source_state_bytes_ s') (source_accounting s' job).2
        (maximum_source_state_bytes config) = true)).
Proof.
  intros Hrange Hpos Hl Hreg Hconfig Hstop Htables s'.
  destruct (RegisteredFence_accepted _ _ _ _ Hrange Hreg) as [Hm [Hbc Hbw Hbd Hbr Hbs]].
  destruct (InstallSession_fresh config fence s Hconfig Hstop Htables)
    as [Hc Hsid [Hf Hst] [Hmc Hmw] Hq Ht Hs]. fold s' in Hc, Hsid, Hf, Hst, Hmc, Hmw, Hq, Ht, Hs.
  clearbody s'. injection Hq as Eq1 Eq2 Eq3 Eq4 _ _. injection Ht as Et1 Et2 Et3.
  injection Hs as _ _ Es3. unfold positive_limits in Hpos. guards.
  destruct Hrange as (_ & Hw & _). rewrite <-(fm_work _ _ _ Hm) in Hw.
  unfold limits_ok, in_u64 in Hl. destruct_and! Hl.
  assert (session_closed s' = false) as Hclosed
    by (unfold session_closed; by rewrite Hsid, Hf, Hst, (fm_named _ _ _ Hm)).
  split_and!; [done| | |].
  - intros frame Hfit. unfold QueueControl, QueueControlLocked.
    set (n := ControlFrameBytesLocked s' frame) in *.
    assert (0 ≤ n) by (subst n; unfold ControlFrameBytesLocked; lia). clearbody n.
    rewrite Hclosed, Hc, Eq1, Eq2, Hmc. unfold size. simpl.
    rewrite (proj2 (Z.leb_gt _ _)), (proj2 (Z.ltb_ge _ _)), FitsByteBudget_true by lia. done.
  - intros frame Hfit. unfold QueueWork, QueueWorkLocked.
    set (n := WorkFrameBytesLocked s' frame) in *.
    assert (0 ≤ n) by (subst n; unfold WorkFrameBytesLocked; lia). clearbody n.
    rewrite Hclosed, Hc, Eq3, Eq4, Hmw. unfold size. simpl.
    rewrite (proj2 (Z.leb_gt _ _)), (proj2 (Z.ltb_ge _ _)), FitsByteBudget_true by lia. done.
  - intros job Hid Hsize. unfold kCanonicalSha256TextBytes in *. split.
    + apply Reserve_fits; rewrite ?Hc, ?Hmw, ?Et1, ?Et2, ?Et3; try done.
      rewrite (map_count_empty (V := ReplayEntry.t)), (map_count_empty (V := WorkTokenState.t)). lia.
    + intros Hbytes. rewrite source_accounting_fits by (rewrite ?Hmw; done). simpl.
      split; [done|]. rewrite Es3, Hmw. apply FitsByteBudget_true; lia.
Qed.
End registration.

Module SampleRegistration.
Import Sample.

Definition response : RegisterResponse.t :=
  RegisterResponse.make true AdapterError.empty "host" "session-1"
    (RegisterRequest.process_generation (registration sample_config)) 1 5 2 0 4096 4096.
Definition fence : SessionFence.t :=
  SessionFence.make "host" "session-1" 1 5 2 1000 4096 4096 1.

Lemma registered : RegisteredFence sample_config (mkStatus OK "") response = inr fence.
Proof. reflexivity. Qed.
End SampleRegistration.

Import Sample.

Lemma registration_admits_work_witness :
  SessionFence.session_id SampleRegistration.fence = "session-1" ∧
  (QueueControl (heartbeat (Heartbeat.make 0 0 "" 0 []))
     (InstallSession SampleRegistration.fence idle).2).1 = true.
Proof.
  destruct (registration_admits_work sample_config (mkStatus OK "") SampleRegistration.response
    SampleRegistration.fence idle) as (Hm & Hc & _);
    [by vm_compute|by vm_compute|apply (b_limits _ Bounded_ready)|apply SampleRegistration.registered
    |done|done|done|].
  split; [exact (fm_session _ _ _ Hm)|]. apply Hc. by vm_compute.
Defined.
