(* ===== verification/Supervisor.v ===== *)
(** * The supervisor's reconnect budget

    The supervisor replaces failed connection pairs until it is stopped, the
    session fails terminally, or [maximum_pair_reconnect_attempts] pairs in a row
    fail without becoming ready.  This file shows that the budget ends the loop in
    any environment, and what exactly it does when nothing else happens. *)

From S2P Require Import Prelude Text Digest Messages Clock Config State Queue Bounds.
From S2P Require Import Stream StreamFacts Sample Dispatch Spec SpecFacts Session SessionFacts.

(** ** The budget ends the loop *)

(** No pair has become ready, under a budget of [n] attempts. *)
Definition not_ready_within (n : Z) (s : Impl) : Prop :=
  pair_ready_ s = false ∧ maximum_pair_reconnect_attempts (config_ s) = n.

(** What [not_ready_within] reads. *)
Definition budget_view (s : Impl) : bool * Z :=
  (pair_ready_ s, maximum_pair_reconnect_attempts (config_ s)).

Lemma budget_frame {A} n (m : C A) : frame budget_view m → keeps (not_ready_within n) m.
Proof. intros Hm s Hs. unfold not_ready_within in *. pose proof (Hm s) as [= -> ->]. done. Qed.

Ltac solve_budget := apply budget_frame; solve_frame.

Section budget.
Context `{Protobuf} `{Environment} (n : Z) `{!Rely (not_ready_within n)}.

Lemma safe_call_budget label c : keeps (not_ready_within n) (safe_call label c).
Proof.
  unfold safe_call, call, Log, emit. apply keeps_bind; [apply keeps_bind; [solve_budget|]|].
  - intros _. apply rely_invoke.
  - intros []; solve_budget.
Qed.

Lemma NotifySourceClosed_budget source error :
  keeps (not_ready_within n) (NotifySourceClosed source error).
Proof.
  unfold NotifySourceClosed, SafeSourceClosed. apply keeps_bind; [apply keeps_gets|]. intros config.
  case_match; [|apply keeps_ret]. apply keeps_when, keeps_bind; [apply safe_call_budget|].
  intros _. apply keeps_ret.
Qed.

Lemma prepare_pair_budget fence : keeps (not_ready_within n) (prepare_pair fence).
Proof.
  intros s Hs. unfold prepare_pair, mbind, M_bind. cbn [gets fst snd].
  rewrite PrepareConnectionPairLocked_state.
  set (s1 := (ReleaseAllWorkTokensLocked (begin_pair s)).2).
  assert (budget_view s1 = budget_view (begin_pair s)) as [= E1 E2]
    by by apply ReleaseAllWorkTokensLocked_frame.
  clearbody s1. split; [exact E1|]. exact (eq_trans E2 (proj2 Hs)).
Qed.

Lemma PreparePairReplacement_budget : keeps (not_ready_within n) PreparePairReplacement.
Proof.
  unfold PreparePairReplacement, PreparePairReplacement_locked.
  apply keeps_bind; [|intros sources].
  - apply budget_frame. repeat first [done | by apply CancelAllWorkLocked_frame
      | apply frame_bind; [|intros ?]].
  - repeat first [apply keeps_bind; [|intros ?] | apply rely_preempt | apply rely_wait
      | apply budget_frame; by apply ReleaseAllWorkTokensLocked_frame
      | apply keeps_for_each; intros ?; apply NotifySourceClosed_budget
      | apply keeps_gets | apply keeps_ret].
Qed.

(** A pair that is retired under [not_ready_within] was not ready. *)
Lemma retire_pair_budget :
  hoare (not_ready_within n) retire_pair (λ ready s, ready = false ∧ not_ready_within n s).
Proof.
  intros s Hs. split; [exact (proj1 Hs)|]. rewrite retire_pair_state, ClearConnectionStateLocked_state.
  set (s1 := (ReleaseAllWorkTokensLocked (begin_clear s)).2).
  assert (budget_view s1 = budget_view (begin_clear s)) as [= _ E2]
    by by apply ReleaseAllWorkTokensLocked_frame.
  clearbody s1. split; [done|]. exact (eq_trans E2 (proj2 Hs)).
Qed.

(** The next attempt is charged to the budget. *)
Definition charged (used : Z) (next : SupervisorNext) (s : Impl) : Prop :=
  ∀ delay' used', next = SupervisorContinue delay' used' →
    not_ready_within n s ∧ used < n ∧ used' = u64 (used + 1).

Lemma charged_end {A} P used next (m : C A) :
  (∀ d u, next ≠ SupervisorContinue d u) → hoare P (m ;; mret next) (charged used).
Proof.
  intros Hnext. apply (hoare_bind _ _ (λ _ _, True)); [done|]. intros _ s _ d u E.
  by destruct (Hnext d u).
Qed.

Lemma advance_epoch_budget : keeps (not_ready_within n) advance_epoch.
Proof. apply budget_frame, frame_modify. intros s. by case_match. Qed.

Lemma after_pair_budget delay used :
  hoare (not_ready_within n) (after_pair false delay used) (charged used).
Proof.
  set (I := not_ready_within n). unfold after_pair.
  eapply (hoare_bind _ _ (λ _, I)); [apply keeps_gets|]. intros []; [by intros s Hs d u|].
  eapply (hoare_bind _ _ (λ _, I)); [apply keeps_gets|]. intros [].
  { eapply (hoare_bind _ _ (λ _, I)); [apply keeps_gets|]. intros reason. by apply charged_end. }
  eapply (hoare_bind _ _ (λ config s, I s ∧ maximum_pair_reconnect_attempts config = n)).
  { intros s Hs. by split; [|apply Hs]. }
  intros config. cbv zeta iota. destruct (_ <=? used) eqn:Hused.
  { eapply (hoare_bind _ _ (λ _ _, True)); [done|]. intros error. by apply charged_end. }
  apply Z.leb_gt in Hused.
  apply (hoare_consequence _ (λ s, I s ∧ used < n) _ _ (charged used)); 
    [|intros s [? E]; split; [done|by rewrite <-E]|done].
  assert (∀ A (m : C A), keeps I m → hoare (λ s, I s ∧ used < n) m (λ _ s, I s ∧ used < n)) as Hk
    by (intros A m Hm s [??]; split; [by apply Hm|done]).
  eapply hoare_bind; [apply Hk, advance_epoch_budget|]. intros ?.
  eapply hoare_bind; [apply Hk, rely_preempt|]. intros ?.
  eapply hoare_bind; [apply Hk, keeps_gets|]. intros []; [by apply charged_end|].
  eapply hoare_bind; [apply Hk, rely_wait|]. intros ? s [HI Hn] d u [= <- <-]. done.
Qed.

Lemma SupervisorIteration_budget fence delay used :
  hoare (not_ready_within n) (SupervisorIteration fence delay used) (charged used).
Proof.
  set (I := not_ready_within n). unfold SupervisorIteration.
  eapply (hoare_bind _ _ (λ _, I)); [apply keeps_gets|]. intros []; [by intros s Hs d u|].
  eapply (hoare_bind _ _ (λ _, I)); [apply prepare_pair_budget|]. intros pair_fence.
  eapply (hoare_bind _ _ (λ _, I)); [apply rely_wait|]. intros _.
  eapply (hoare_bind _ _ (λ _, I)); [apply keeps_gets|]. intros start_work.
  eapply (hoare_bind _ _ (λ _, I)); [apply keeps_when, rely_wait|]. intros _.
  eapply (hoare_bind _ _ (λ _, I)); [unfold CancelActiveStreams, TryCancel, emit; solve_budget|]. intros _.
  eapply (hoare_bind _ _ (λ _, I)); [apply rely_preempt|]. intros _.
  eapply (hoare_bind _ _ (λ _, I)); [apply PreparePairReplacement_budget|]. intros _.
  eapply (hoare_bind _ _ (λ _, I)); [apply rely_preempt|]. intros _.
  eapply hoare_bind; [apply retire_pair_budget|]. intros ready.
  eapply (hoare_bind _ _ (λ _ s, ready = false ∧ I s)).
  { intros s [-> Hs]. split; [done|]. by apply rely_preempt. }
  intros _ s [-> Hs]. by apply after_pair_budget.
Qed.

Lemma supervise_budget fuel fence delay used s :
  in_u64 n → 0 ≤ used ≤ n → n - used < Z.of_nat fuel → not_ready_within n s →
  ∃ stopped, (supervise fuel fence delay used s).1 = Some stopped.
Proof.
  intros [_ Hn]. revert delay used s. induction fuel as [|fuel IH]; intros delay used s Hu Hf Hs; [lia|].
  simpl. unfold mbind, M_bind.
  pose proof (SupervisorIteration_budget fence delay used s Hs) as Hc.
  destruct (SupervisorIteration fence delay used s) as [next s1]. cbn [fst snd] in *.
  destruct next as [delay' used'| |]; [|by eexists..].
  destruct (Hc _ _ eq_refl) as (Hs1 & Hlt & ->).
  rewrite u64_id in * by (unfold in_u64; lia). apply IH; [lia..|done].
Qed.

(** C19: the supervisor's loop ends.  In any environment (any interleaving of the
    stream, dispatch and application threads, any callbacks) in which no connection
    pair becomes ready, the loop returns after at most
    [maximum_pair_reconnect_attempts + 1] pairs, whether stopped or lost. *)
Theorem reconnect_budget_ends_the_loop fence delay s :
  in_u64 n → not_ready_within n s →
  ∃ stopped, (supervise (S (Z.to_nat n)) fence delay 0 s).1 = Some stopped.
Proof. intros Hn. pose proof Hn as [??]. apply supervise_budget; [done|lia..]. Qed.
End budget.

(** ** What the budget does when every pair fails *)

Section exact.
Context `{Protobuf} `{Environment} `{!Sequential} (n : Z).

(** No stop, no terminal failure and no ready pair, under a budget of [n] attempts;
    the next pair's epoch is [epoch]. *)
Definition retrying (epoch : Z) (s : Impl) : Prop :=
  not_ready_within n s ∧ stop_requested_ s = false ∧ terminal_session_failure_ s = false ∧
  connection_epoch_counter_ s = epoch.

Definition retry_view (s : Impl) : bool * bool * Z :=
  (stop_requested_ s, terminal_session_failure_ s, connection_epoch_counter_ s).

Lemma retry_keeps {A} epoch (m : C A) :
  keeps (not_ready_within n) m → frame retry_view m → keeps (retrying epoch) m.
Proof.
  intros Hk Hm s (Hs & Hr). split; [by apply Hk|]. by pose proof (Hm s) as [= -> -> ->].
Qed.

Ltac solve_retry :=
  repeat first [done | by apply CancelAllWorkLocked_frame | by apply seq_preempt_frame
    | by apply seq_WaitForCallbacks | by apply ReleaseAllWorkTokensLocked_frame
    | by apply seq_SafeStopCapability | by apply seq_SafeClearInstanceSpec
    | by apply seq_NotifySourceClosed | apply frame_bind; [|intros ?] | apply frame_when
    | apply frame_for_each; intros ?].

Lemma retry_wait epoch p : keeps (retrying epoch) (wait_until p).
Proof. intros s Hs. by rewrite seq_wait. Qed.

Lemma retry_preempt epoch : keeps (retrying epoch) preempt.
Proof. rewrite seq_preempt. apply keeps_ret. Qed.

Lemma prepare_pair_retry epoch fence : keeps (retrying epoch) (prepare_pair fence).
Proof.
  apply retry_keeps; [apply prepare_pair_budget|].
  unfold prepare_pair, PrepareConnectionPairLocked. solve_retry.
Qed.

Lemma PreparePairReplacement_retry epoch : keeps (retrying epoch) PreparePairReplacement.
Proof.
  pose proof (sequential_rely (not_ready_within n)) as Hrely.
  apply retry_keeps; [by apply (PreparePairReplacement_budget n)|].
  unfold PreparePairReplacement, PreparePairReplacement_locked. solve_retry.
Qed.

Lemma retire_pair_retry epoch :
  hoare (retrying epoch) retire_pair (λ ready s, ready = false ∧ retrying epoch s).
Proof.
  intros s Hs. destruct (retire_pair_budget n s (proj1 Hs)) as [Hr _]. split; [done|].
  revert s Hs Hr. assert (keeps (retrying epoch) retire_pair) as Hk; [|intros s Hs _; by apply Hk].
  apply retry_keeps; [intros s Hs; by apply retire_pair_budget|].
  unfold retire_pair, ClearConnectionStateLocked. solve_retry.
Qed.

Lemma CancelActiveStreams_retry epoch : keeps (retrying epoch) CancelActiveStreams.
Proof.
  apply retry_keeps; unfold CancelActiveStreams, TryCancel, emit; [solve_budget|solve_frame].
Qed.

(** ** Losing the session *)

Definition lost_view (s : Impl) : bool * Z := (stop_requested_ s, connection_epoch_counter_ s).

Lemma Deactivate_lost_view reason : frame lost_view (DeactivateApplication reason).
Proof.
  unfold DeactivateApplication, DeactivateApplicationUnlocked.
  apply frame_bind; [by apply seq_preempt_frame|]. intros _.
  apply frame_bind; [unfold Deactivate_locked; solve_retry|]. intros [[bindings streams] had].
  solve_retry.
Qed.

Lemma EnterSessionLost_lost reason epoch :
  hoare (retrying epoch) (EnterSessionLost reason) (λ _ s,
    state_ s = kSessionLost ∧ connection_epoch_counter_ s = epoch).
Proof.
  set (lost := λ s, (state_ s, connection_epoch_counter_ s)). unfold EnterSessionLost.
  apply (hoare_bind _ _ (λ _ s, lost_view s = (false, epoch))).
  { intros s (_ & Hstop & _ & He). rewrite Deactivate_lost_view. unfold lost_view. by rewrite Hstop, He. }
  intros _. apply (hoare_bind _ _ (λ _ s, lost_view s = (false, epoch)));
    [by apply frame_hoare, seq_preempt_frame|]. intros _.
  apply (hoare_bind _ _ (λ entered s, is_Some entered ∧ lost s = (kSessionLost, epoch))).
  { intros s [= Hstop He]. unfold EnterSessionLost_locked. rewrite Hstop. split; [by eexists|].
    unfold lost. simpl. by rewrite He. }
  intros entered s [[notify ->] Hl].
  assert (frame lost (Log kError ("Runtime Link session lost: " +:+ reason) ;;
    bound ← gets (λ s, cb_session_lost (callbacks_ s));
    when (notify && bound)
      (safe_call "session_lost callback" (CallSessionLost reason) ;; mret tt))) as Hf.
  { apply frame_bind; [by apply seq_Log|]. intros _. apply frame_bind; [done|]. intros bound.
    by apply seq_safe. }
  specialize (Hf s). rewrite Hl in Hf. by injection Hf.
Qed.

(** What one iteration does: charge an attempt and advance the epoch, or lose the
    session. *)
Definition spent (epoch used : Z) (next : SupervisorNext) (s : Impl) : Prop :=
  if used <? n
  then ∃ delay, next = SupervisorContinue delay (used + 1) ∧ retrying (epoch + 1) s
  else next = SupervisorLost ∧ state_ s = kSessionLost ∧ connection_epoch_counter_ s = epoch.

Lemma advance_epoch_retry epoch :
  0 ≤ epoch < u64_max → hoare (retrying epoch) advance_epoch (λ _, retrying (epoch + 1)).
Proof.
  intros He s ((Hr & Hn) & Hstop & Hterm & Hepoch). unfold advance_epoch. simpl.
  rewrite Hepoch, (proj2 (Z.eqb_neq _ _)) by lia.
  rewrite u64_id by (unfold in_u64; lia). by split.
Qed.

Lemma after_pair_spent epoch delay used :
  0 ≤ epoch < u64_max → 0 ≤ used ≤ u64_max → n ≤ u64_max →
  hoare (retrying epoch) (after_pair false delay used) (spent epoch used).
Proof.
  intros He Hu Hn. set (I := retrying epoch). unfold after_pair.
  eapply (hoare_bind _ _ (λ stopping s, stopping = false ∧ I s)); [by intros s (? & ? & ?)|].
  intros stopping. apply hoare_pure. intros ->.
  eapply (hoare_bind _ _ (λ terminal s, terminal = false ∧ I s)); [by intros s (? & ? & ? & ?)|].
  intros terminal. apply hoare_pure. intros ->.
  eapply (hoare_bind _ _ (λ config s, maximum_pair_reconnect_attempts config = n ∧ I s));
    [by intros s Hs; split; [apply Hs|]|].
  intros config. apply hoare_pure. intros Hattempts. cbv zeta iota. rewrite Hattempts.
  unfold spent. destruct (Z.ltb_spec used n) as [Hlt|Hge].
  - rewrite (proj2 (Z.leb_gt _ _)) by done.
    eapply (hoare_bind _ _ (λ _, retrying (epoch + 1))); [by apply advance_epoch_retry|]. intros _.
    eapply (hoare_bind _ _ (λ _, retrying (epoch + 1))); [apply retry_preempt|]. intros _.
    eapply (hoare_bind _ _ (λ terminal s, terminal = false ∧ retrying (epoch + 1) s));
      [by intros s (? & ? & ? & ?)|].
    intros terminal. apply hoare_pure. intros ->.
    eapply (hoare_bind _ _ (λ _, retrying (epoch + 1))); [apply retry_wait|]. intros _ s Hs.
    eexists. by rewrite u64_id by (unfold in_u64; lia).
  - rewrite (proj2 (Z.leb_le _ _)) by done.
    eapply (hoare_bind _ _ (λ _, I)); [apply keeps_gets|]. intros error.
    eapply hoare_bind; [apply EnterSessionLost_lost|]. intros ? s Hs. by split.
Qed.

Lemma SupervisorIteration_spent fence epoch delay used :
  0 ≤ epoch < u64_max → 0 ≤ used ≤ u64_max → n ≤ u64_max →
  hoare (retrying epoch) (SupervisorIteration fence delay used) (spent epoch used).
Proof.
  intros He Hu Hn. set (I := retrying epoch). unfold SupervisorIteration.
  eapply (hoare_bind _ _ (λ stopping s, stopping = false ∧ I s)).
  { intros s Hs. split; [apply Hs|done]. }
  intros stopping. apply hoare_pure. intros ->.
  eapply (hoare_bind _ _ (λ _, I)); [apply prepare_pair_retry|]. intros pair_fence.
  eapply (hoare_bind _ _ (λ _, I)); [apply retry_wait|]. intros _.
  eapply (hoare_bind _ _ (λ _, I)); [apply keeps_gets|]. intros start_work.
  eapply (hoare_bind _ _ (λ _, I)); [apply keeps_when, retry_wait|]. intros _.
  eapply (hoare_bind _ _ (λ _, I)); [apply CancelActiveStreams_retry|]. intros _.
  eapply (hoare_bind _ _ (λ _, I)); [apply retry_preempt|]. intros _.
  eapply (hoare_bind _ _ (λ _, I)); [apply PreparePairReplacement_retry|]. intros _.
  eapply (hoare_bind _ _ (λ _, I)); [apply retry_preempt|]. intros _.
  eapply hoare_bind; [apply retire_pair_retry|]. intros ready. apply hoare_pure. intros ->.
  eapply (hoare_bind _ _ (λ _, I)); [apply retry_preempt|]. intros _. by apply after_pair_spent.
Qed.

Lemma supervise_spent fuel fence epoch delay used s :
  0 ≤ used ≤ n → n ≤ u64_max → 0 ≤ epoch → epoch + (n - used) < u64_max → retrying epoch s →
  let r := supervise fuel fence delay used s in
  if n - used <? Z.of_nat fuel
  then r.1 = Some false ∧ state_ r.2 = kSessionLost ∧
       connection_epoch_counter_ r.2 = epoch + (n - used)
  else r.1 = None ∧ connection_epoch_counter_ r.2 = epoch + Z.of_nat fuel.
Proof.
  revert epoch delay used s. induction fuel as [|fuel IH]; intros epoch delay used s Hu Hn He Hroom Hs.
  { simpl. rewrite (proj2 (Z.ltb_ge _ _)) by lia. destruct Hs as (_ & _ & _ & ->). split; [done|lia]. }
  cbv zeta. cbn [supervise]. unfold mbind, M_bind.
  pose proof (SupervisorIteration_spent fence epoch delay used ltac:(lia) ltac:(lia) Hn s Hs) as Hi.
  destruct (SupervisorIteration fence delay used s) as [next s1]. cbn [fst snd] in *.
  unfold spent in Hi. destruct (Z.ltb_spec used n) as [Hlt|Hge].
  - destruct Hi as (delay' & -> & Hs1).
    specialize (IH (epoch + 1) delay' (used + 1) s1 ltac:(lia) Hn ltac:(lia) ltac:(lia) Hs1).
    cbv zeta in IH. destruct (Z.ltb_spec (n - (used + 1)) (Z.of_nat fuel));
      destruct (Z.ltb_spec (n - used) (Z.of_nat (S fuel))); try lia;
      destruct_and! IH; split_and!; try done; lia.
  - destruct Hi as (-> & Hst & Hep). rewrite (proj2 (Z.ltb_lt _ _)) by lia. simpl.
    split_and!; [done|done|lia].
Qed.

(** C20: when every pair fails without becoming ready and nothing else intervenes,
    the supervisor makes exactly [maximum_pair_reconnect_attempts + 1] attempts: it
    is still running after that many minus one, and the next one leaves it in
    [kSessionLost].  Each attempt but the last advances the connection epoch by one,
    whether or not the pair received a frame. *)
Theorem reconnect_budget_exact fence delay epoch s :
  0 ≤ n ≤ u64_max → 0 ≤ epoch → epoch + n < u64_max → retrying epoch s →
  let attempts := Z.to_nat n in
  (supervise attempts fence delay 0 s).1 = None ∧
  connection_epoch_counter_ (supervise attempts fence delay 0 s).2 = epoch + n ∧
  (supervise (S attempts) fence delay 0 s).1 = Some false ∧
  state_ (supervise (S attempts) fence delay 0 s).2 = kSessionLost ∧
  connection_epoch_counter_ (supervise (S attempts) fence delay 0 s).2 = epoch + n.
Proof.
  intros Hn He Hroom Hs attempts.
  pose proof (supervise_spent attempts fence epoch delay 0 s ltac:(lia) ltac:(lia) He ltac:(lia) Hs)
    as Hrun.
  pose proof (supervise_spent (S attempts) fence epoch delay 0 s ltac:(lia) ltac:(lia) He ltac:(lia) Hs)
    as Hend.
  cbv zeta in Hrun, Hend. rewrite (proj2 (Z.ltb_ge _ _)) in Hrun by lia.
  rewrite (proj2 (Z.ltb_lt _ _)) in Hend by lia.
  destruct_and! Hrun. destruct_and! Hend. split_and!; try done; lia.
Qed.
End exact.

Import Sample.

Definition sample_fence : SessionFence.t :=
  SessionFence.make "host" "session-1" 1 5 2 1000 4096 4096 1.

Lemma reconnect_budget_ends_the_loop_witness :
  ∃ stopped, (supervise 9 sample_fence 250 0 idle).1 = Some stopped.
Proof.
  pose proof (quiet_rely (not_ready_within 8)) as Hrely.
  apply (reconnect_budget_ends_the_loop 8 sample_fence 250 idle); by vm_compute.
Defined.

Lemma reconnect_budget_exact_witness :
  (supervise 8 sample_fence 250 0 idle).1 = None ∧
  state_ (supervise 9 sample_fence 250 0 idle).2 = kSessionLost.
Proof.
  destruct (reconnect_budget_exact 8 sample_fence 250 0 idle) as (Hrun & _ & _ & Hlost & _);
    [by vm_compute..|]. split; [exact Hrun|exact Hlost].
Defined.
