(* ===== verification/LinkFacts.v ===== *)
(** * Fences and sequences of the streams

    Inbound frames are accepted exactly when they carry the identity of the
    reader's connection pair and increase the sequence; outbound frames leave in
    the order they were queued, with consecutive sequence numbers, under headers
    that the inbound check accepts. *)

From S2P Require Import Prelude Text Digest Messages Clock Config State Queue Bounds.
From S2P Require Import Stream Sample Dispatch Spec Session Link.

(** ** Inbound *)

Section inbound.
Context `{Protobuf}.

(** The identity a frame of the pair must carry. *)
Definition carries (config : ClientConfig) (fence : SessionFence.t) (header : SessionHeader.t)
    : Prop :=
  SessionHeader.instance_id header = RegisterRequest.instance_id (registration config) ∧
  SessionHeader.session_id header = SessionFence.session_id fence ∧
  SessionHeader.process_generation header =
    RegisterRequest.process_generation (registration config) ∧
  SessionHeader.session_generation header = SessionFence.session_generation fence ∧
  SessionHeader.runtime_epoch header = SessionFence.runtime_epoch fence ∧
  SessionHeader.connection_epoch header = SessionFence.connection_epoch fence.

Lemma ValidateHeaderLocked_accepted s header fence previous verdict sequence :
  0 ≤ previous →
  ValidateHeaderLocked s header fence (SessionFence.connection_epoch fence) previous =
    (verdict, sequence) →
  (verdict = Accepted ∧ carries (config_ s) fence header ∧
   previous < SessionHeader.frame_sequence header ∧
   sequence = SessionHeader.frame_sequence header) ∨
  (verdict ≠ Accepted ∧ sequence = previous ∧
   ¬ (carries (config_ s) fence header ∧ previous < SessionHeader.frame_sequence header)).
Proof.
  intros Hp. unfold ValidateHeaderLocked, carries. case_match eqn:Hid.
  - intros [= <- <-]. right. split_and!; [done|done|].
    intros [(E1 & E2 & E3 & E4 & E5 & E6) _].
    rewrite E1, E2, E3, E4, E5, E6, !bool_decide_true, !Z.eqb_refl in Hid by done. done.
  - case_match eqn:Hseq; intros [= <- <-].
    + right. split_and!; [done|done|]. intros [_ ?]. apply orb_true_iff in Hseq as [?|?]; guards; lia.
    + left. guards. split_and!; done || lia.
Qed.

(** A reader over the frames it reads, up to the first it refuses: the frames it
    handles. *)
Fixpoint read_work_headers (fence : SessionFence.t) (headers : list SessionHeader.t)
    : C (list SessionHeader.t) :=
  match headers with
  | [] => mret []
  | header :: rest =>
      verdict ← ValidateWorkHeader header fence;
      match verdict with
      | Refused _ => mret []
      | Accepted => handled ← read_work_headers fence rest; mret (header :: handled)
      end
  end.

(** The longest prefix of frames with the identity [carries] and sequences that
    increase from [previous]. *)
Inductive handled_prefix (config : ClientConfig) (fence : SessionFence.t)
    : Z → list SessionHeader.t → list SessionHeader.t → Prop :=
| handled_end previous : handled_prefix config fence previous [] []
| handled_next previous header rest handled :
    carries config fence header → previous < SessionHeader.frame_sequence header →
    handled_prefix config fence (SessionHeader.frame_sequence header) rest handled →
    handled_prefix config fence previous (header :: rest) (header :: handled)
| handled_stop previous header rest :
    ¬ (carries config fence header ∧ previous < SessionHeader.frame_sequence header) →
    handled_prefix config fence previous (header :: rest) [].

Lemma read_work_headers_spec fence headers s :
  0 ≤ work_in_sequence_ s →
  handled_prefix (config_ s) fence (work_in_sequence_ s) headers (read_work_headers fence headers s).1 ∧
  work_in_sequence_ (read_work_headers fence headers s).2 =
    default (work_in_sequence_ s)
      (SessionHeader.frame_sequence <$> last (read_work_headers fence headers s).1).
Proof.
  revert s. induction headers as [|header rest IH]; intros s Hp; [by split; [constructor|]|].
  simpl. unfold mbind, M_bind, ValidateWorkHeader.
  destruct (ValidateHeaderLocked s header fence _ _) as [verdict sequence] eqn:Hv.
  apply ValidateHeaderLocked_accepted in Hv as [(-> & Hid & Hlt & ->)|(Hr & -> & Hn)]; [| |done].
  - cbn [fst snd]. set (s1 := s <| work_in_sequence_ := _ |>).
    destruct (IH s1 ltac:(simpl; lia)) as [Hh Hl]. split; [by constructor|]. simpl. rewrite Hl.
    rewrite last_cons. by destruct (last (read_work_headers fence rest s1).1).
  - destruct verdict; [done|]. cbn [fst snd]. by split; [constructor|].
Qed.

End inbound.

(** ** Outbound *)

Section outbound.
Context `{Protobuf}.

(** [n] turns of the Work writer; it stops early when there is nothing to send. *)
Fixpoint work_turns (n : nat) (fence : SessionFence.t) : C (list WorkRequest.t) :=
  match n with
  | O => mret []
  | S n =>
      turn ← work_turn fence;
      match turn with
      | WriterSend request => rest ← work_turns n fence; mret (request :: rest)
      | _ => mret []
      end
  end.

(** The frame at position [i] of the queue under the sequence it is sent with. *)
Definition sent_frame (s : Impl) (fence : SessionFence.t) (sequence : Z)
    (queued : QueuedWorkFrame.t) : WorkRequest.t :=
  WorkRequest.make (Some (StampHeaderLocked s fence (SessionFence.connection_epoch fence) sequence))
    (WorkRequest.frame (QueuedWorkFrame.request queued)).

Fixpoint sent_frames (s : Impl) (fence : SessionFence.t) (sequence : Z)
    (queue : list QueuedWorkFrame.t) : list WorkRequest.t :=
  match queue with
  | [] => []
  | queued :: rest => sent_frame s fence (sequence + 1) queued :: sent_frames s fence (sequence + 1) rest
  end.

Lemma work_turn_sends fence s queued rest :
  link_over fence s = false → work_queue_ s = queued :: rest → 0 ≤ work_out_sequence_ s < u64_max →
  ∃ s', work_turn fence s = (WriterSend (sent_frame s fence (work_out_sequence_ s + 1) queued), s') ∧
    work_queue_ s' = rest ∧ work_out_sequence_ s' = work_out_sequence_ s + 1 ∧
    link_over fence s' = false ∧ config_ s' = config_ s.
Proof.
  intros Hl Hq Hseq. unfold work_turn, PopWork, stamp_work. rewrite Hl, Hq. simpl.
  rewrite (u64_id (work_out_sequence_ s + 1)) by (unfold in_u64; lia). by eexists.
Qed.

Lemma sent_frames_config s s' fence sequence queue :
  config_ s' = config_ s → sent_frames s' fence sequence queue = sent_frames s fence sequence queue.
Proof.
  intros Hc. revert sequence. induction queue as [|x queue IH]; intros sequence; [done|]. simpl.
  rewrite IH. unfold sent_frame, StampHeaderLocked. by rewrite Hc.
Qed.

Lemma work_turns_spec n fence s :
  link_over fence s = false → (n ≤ length (work_queue_ s))%nat →
  0 ≤ work_out_sequence_ s → work_out_sequence_ s + Z.of_nat n ≤ u64_max →
  (work_turns n fence s).1 = sent_frames s fence (work_out_sequence_ s) (take n (work_queue_ s)) ∧
  work_queue_ (work_turns n fence s).2 = drop n (work_queue_ s) ∧
  work_out_sequence_ (work_turns n fence s).2 = work_out_sequence_ s + Z.of_nat n.
Proof.
  revert s. induction n as [|n IH]; intros s Hl Hn H0 Hmax; [simpl; split_and!; [done..|lia]|].
  destruct (work_queue_ s) as [|queued rest] eqn:Hq; simpl in Hn; [lia|].
  destruct (work_turn_sends fence s queued rest Hl Hq ltac:(lia))
    as (s1 & Hturn & Hq1 & Hseq1 & Hl1 & Hc1).
  cbn [work_turns]. unfold mbind, M_bind. rewrite Hturn. cbn [fst snd].
  rewrite <-Hq1 in Hn. destruct (IH s1 Hl1 ltac:(lia) ltac:(lia) ltac:(lia)) as (H1 & H2 & H3).
  destruct (work_turns n fence s1) as [sent s2]. cbn [fst snd] in *. simpl.
  rewrite H1, H2, H3, Hq1, Hseq1, (sent_frames_config s s1) by done. split_and!; [done|done|lia].
Qed.

(** C24: while its pair is alive the Work writer sends the queued frames in the order
    they were queued, each exactly once, under consecutive sequence numbers and
    headers stamped with the pair's identity; what it has not sent stays queued. *)
Theorem work_writer_fifo n fence s :
  link_over fence s = false → (n ≤ length (work_queue_ s))%nat →
  0 ≤ work_out_sequence_ s → work_out_sequence_ s + Z.of_nat n ≤ u64_max →
  (work_turns n fence s).1 = sent_frames s fence (work_out_sequence_ s) (take n (work_queue_ s)) ∧
  work_queue_ (work_turns n fence s).2 = drop n (work_queue_ s) ∧
  work_out_sequence_ (work_turns n fence s).2 = work_out_sequence_ s + Z.of_nat n.
Proof. apply work_turns_spec. Qed.
End outbound.

(** ** Round trip *)

Section roundtrip.
Context `{Protobuf}.

Definition sent_header (request : WorkRequest.t) : option SessionHeader.t := WorkRequest.header_ request.

Lemma sent_headers_handled s config fence sequence previous queue :
  config_ s = config → previous ≤ sequence →
  handled_prefix config fence previous (omap sent_header (sent_frames s fence sequence queue))
    (omap sent_header (sent_frames s fence sequence queue)).
Proof.
  intros <-. revert sequence previous.
  induction queue as [|x queue IH]; intros sequence previous Hle; simpl; constructor; [done|simpl; lia|].
  by apply IH.
Qed.

Lemma handled_prefix_unique config fence previous headers handled handled' :
  handled_prefix config fence previous headers handled →
  handled_prefix config fence previous headers handled' → handled = handled'.
Proof.
  intros Hh. revert handled'. induction Hh; inversion 1; subst; try done; try tauto.
  f_equal. auto.
Qed.

(** C25: stamping and checking headers agree.  The frames a Work writer sends on a
    pair are all accepted, in order, by the header check of a peer with the same
    configuration identity and fence that has seen no later sequence. *)
Theorem stamped_headers_accepted n fence s peer :
  link_over fence s = false → (n ≤ length (work_queue_ s))%nat →
  0 ≤ work_in_sequence_ peer ≤ work_out_sequence_ s →
  work_out_sequence_ s + Z.of_nat n ≤ u64_max → config_ peer = config_ s →
  let headers := omap sent_header (work_turns n fence s).1 in
  length headers = n ∧ (read_work_headers fence headers peer).1 = headers.
Proof.
  intros Hl Hn Hpeer Hmax Hc headers. subst headers.
  destruct (work_turns_spec n fence s Hl Hn ltac:(lia) Hmax) as (-> & _ & _). split.
  - rewrite <-(length_take_le (work_queue_ s) n) at 2 by done.
    generalize (take n (work_queue_ s)), (work_out_sequence_ s).
    intros queue. induction queue as [|x queue IH]; intros sequence; [done|]. simpl. by rewrite IH.
  - eapply handled_prefix_unique; [apply read_work_headers_spec; lia|].
    apply sent_headers_handled; [done|lia].
Qed.
End roundtrip.

(** ** Witnesses *)

Module SampleLink.
Import Sample.

Definition fence : SessionFence.t := SessionFence.make "host" "session-1" 1 5 2 1000 4096 4096 1.

Definition header (epoch sequence : Z) : SessionHeader.t :=
  StampHeaderLocked ready fence epoch sequence.

(** A client with two protocol errors queued for the Host. *)
Definition two_queued : Impl :=
  (QueueWorkProtocolError 2 "second" (QueueWorkProtocolError 1 "first" ready).2).2.
End SampleLink.

Import Sample.


Lemma work_writer_fifo_witness :
  length (work_turns 2 SampleLink.fence SampleLink.two_queued).1 = 2%nat ∧
  work_queue_ (work_turns 2 SampleLink.fence SampleLink.two_queued).2 = [].
Proof.
  destruct (work_writer_fifo 2 SampleLink.fence SampleLink.two_queued) as (Hs & Hq & _);
    [by vm_compute|apply Nat.leb_le; by vm_compute|by vm_compute|by vm_compute|].
  rewrite Hs, Hq. split; by vm_compute.
Defined.

Lemma stamped_headers_accepted_witness :
  length (omap sent_header (work_turns 2 SampleLink.fence SampleLink.two_queued).1) = 2%nat.
Proof.
  apply (stamped_headers_accepted 2 SampleLink.fence SampleLink.two_queued ready);
    [by vm_compute|apply Nat.leb_le; by vm_compute|split; by vm_compute|by vm_compute|].
  by vm_compute.
Defined.
