(* ===== verification/System.v ===== *)
(** * The client as a system of threads

    The application's thread, the supervisor, the two readers and two writers of a
    connection pair and the dispatch workers interleave at the granularity of the
    critical sections of [mutex_].  [Step] is that relation: a section runs when
    its thread exists, with any arguments the thread could pass.  The theorems are
    about every state any interleaving reaches, without assumption on the
    environment. *)

From S2P Require Import Prelude Text Digest Messages Clock Config State Queue Bounds.
From S2P Require Import Stream StreamFacts Sample Dispatch DispatchFacts Spec SpecFacts Session Link SessionFacts.

(** ** Threads *)

(** Which threads exist: none ([Idle]); the supervisor and the dispatch workers, with
    no connection pair ([Between]) or with one ([Paired]); none, while [Stop]
    cleans up after joining them ([Joined]). *)
Inductive Phase : Type := Idle | Between | Paired | Joined.

#[export] Instance Phase_eq_dec : EqDecision Phase.
Proof. solve_decision. Defined.

(** Sections of the application's threads, in any phase ([Start] and [Stop] are not
    called concurrently). *)
Inductive UserSection : Type :=
| DoPublish (stream_id : string) (items : list string)
| DoClose (stream_id : string) (error : option AdapterError.t).

(** Sections that run while the supervisor and the dispatch workers exist. *)
Inductive WorkerSection : Type :=
| DoTake
| DoQueueWork (frame : WorkFrame)
| DoCommitTerminal (job : DispatchJob.t) (frame : WorkFrame)
| DoSourceOpened (job : DispatchJob.t) (decision : SourceOpenDecision.t)
| DoWorkStarted
| DoSourceFinished (dispatched : bool)
| DoWorkFinished (work_id : string)
| DoEraseToken (work_id : string)
| DoJobFinished
| DoCountRejected
| DoSignalFailure (session reason : string)
| DoSignalTerminal (session reason : string)
| DoForgetToken
| DoEndRegister (context : nat)
| DoReleaseTokens
| DoRetire
| DoAdvanceEpoch
| DoDeactivate
| DoSessionLost (reason : string)
| DoSupervisorStopped.

(** Sections of the readers and writers of a pair. *)
Inductive PairSection : Type :=
| DoControlHeader (header : SessionHeader.t) (fence : SessionFence.t)
| DoWorkHeader (header : SessionHeader.t) (fence : SessionFence.t)
| DoQueueControl (frame : ControlFrame)
| DoEnqueueUnary (request : UnaryRequest.t) (sequence now : Z)
| DoEnqueueOperation (request : OperationRequest.t) (sequence now : Z)
| DoEnqueueSource (request : SourceOpenRequest.t) (sequence now : Z)
| DoCredit (credit : SourceCredit.t)
| DoAcknowledge (acknowledgement : TerminalAcknowledgement.t)
| DoCancellation (cancellation : WorkCancellation.t)
| DoDrain
| DoRemoteStop
| DoApplySpec (session : string) (spec : AdapterInstanceSpec.t)
| DoCommitSpec (session : string) (spec : AdapterInstanceSpec.t)
    (active : gmap string ActiveCapability.t) (statuses : list CapabilityStatus.t)
| DoActivateSpec (session : string) (statuses : list CapabilityStatus.t)
| DoSpecFailed (statuses : list CapabilityStatus.t)
| DoReadyFailed (statuses : list CapabilityStatus.t)
| DoControlTurn (fence : SessionFence.t) (next_heartbeat now : Z)
| DoOpenGate (fence : SessionFence.t)
| DoWorkAttach (fence : SessionFence.t)
| DoPairAttached (fence : SessionFence.t)
| DoWorkTurn (fence : SessionFence.t)
| DoSetControlContext (context : option nat)
| DoSetWorkContext (context : option nat).

Section system.
Context `{Protobuf}.

Definition ignore {A} (m : C A) : C unit := m ;; mret tt.

Definition run_user (section : UserSection) : C unit :=
  match section with
  | DoPublish stream_id items => ignore (PublishSource stream_id items)
  | DoClose stream_id error => ignore (CloseSource stream_id error)
  end.

Definition run_worker (section : WorkerSection) : C unit :=
  match section with
  | DoTake => ignore dispatch_take
  | DoQueueWork frame => ignore (QueueWorkLocked frame)
  | DoCommitTerminal job frame => ignore (CommitTerminalFrame job frame)
  | DoSourceOpened job decision => ignore (HandleSourceOpen_locked job decision)
  | DoWorkStarted => work_started
  | DoSourceFinished dispatched =>
      when dispatched work_finished ;; job_finished ;; MaybeQueueDrainStatusLocked
  | DoWorkFinished work_id =>
      work_finished ;; job_finished ;; ReleaseWorkTokenLocked work_id ;; MaybeQueueDrainStatusLocked
  | DoEraseToken work_id => EraseWorkToken work_id
  | DoJobFinished => job_finished
  | DoCountRejected => modify count_rejected
  | DoSignalFailure session reason => ignore (SignalSessionFailure_locked session reason)
  | DoSignalTerminal session reason => ignore (SignalTerminalSessionFailure_locked session reason)
  | DoForgetToken => modify (λ s, s <| config_ := ForgetBootstrapToken (config_ s) |>)
  | DoEndRegister context => end_register context
  | DoReleaseTokens => ReleaseAllWorkTokensLocked
  | DoRetire => ignore retire_pair
  | DoAdvanceEpoch => advance_epoch
  | DoDeactivate => ignore Deactivate_locked
  | DoSessionLost reason => ignore (EnterSessionLost_locked reason)
  | DoSupervisorStopped => ResetSessionLocked ;; put state_ := kStopped
  end.

Definition run_pair (section : PairSection) : C unit :=
  match section with
  | DoControlHeader header fence => ignore (ValidateControlHeader header fence)
  | DoWorkHeader header fence => ignore (ValidateWorkHeader header fence)
  | DoQueueControl frame => ignore (QueueControlLocked frame)
  | DoEnqueueUnary request sequence now =>
      ignore (EnqueueDispatch_locked (unary_job request sequence now))
  | DoEnqueueOperation request sequence now =>
      ignore (EnqueueDispatch_locked (operation_job request sequence now))
  | DoEnqueueSource request sequence now =>
      ignore (EnqueueSourceOpen_locked request (source_open_job request sequence now))
  | DoCredit credit => ignore (GrantSourceCredit_locked credit)
  | DoAcknowledge acknowledgement => ignore (HandleTerminalAcknowledgement_locked acknowledgement)
  | DoCancellation cancellation => ignore (HandleCancellation_locked cancellation)
  | DoDrain => BeginDrain
  | DoRemoteStop =>
      put stop_requested_ := true ;; put accepting_work_ := false ;; put state_ := kStopping ;;
      CancelAllWorkLocked
  | DoApplySpec session spec => ignore (ApplyInstanceSpec_locked session spec)
  | DoCommitSpec session spec active statuses => ignore (commit_spec session spec active statuses)
  | DoActivateSpec session statuses => activate_spec session statuses
  | DoSpecFailed statuses => put capability_statuses_ := statuses ;; put state_ := kRegistered
  | DoReadyFailed statuses =>
      put capability_statuses_ := statuses ;; put state_ := kRegistered ;;
      put accepting_work_ := false ;; put ready_callbacks_complete_ := false
  | DoControlTurn fence next_heartbeat now => ignore (control_turn fence next_heartbeat now)
  | DoOpenGate fence => open_attach_gate fence
  | DoWorkAttach fence => ignore (work_attach fence)
  | DoPairAttached fence => pair_attached fence
  | DoWorkTurn fence => ignore (work_turn fence)
  | DoSetControlContext context => put active_control_context_ := context
  | DoSetWorkContext context => put active_work_context_ := context
  end.

(** [Start]'s second section and the threads it creates. *)
Definition start_threads (workers : nat) : C (option string) :=
  refused ← Start_locked;
  match refused with
  | Some error => mret (Some error)
  | None =>
      modify (λ s, s <| supervisor_running_ := true |> <| dispatch_threads_ := workers |>) ;;
      mret None
  end.

(** The state of the system, with the number of Register calls sent. *)
Record System : Type := mkSystem { phase : Phase; impl : Impl; registrations : nat }.

Inductive Step : System → System → Prop :=
| StepUser section p s n :
    Step (mkSystem p s n) (mkSystem p (run_user section s).2 n)
| StepEffect effect p s n :
    Step (mkSystem p s n) (mkSystem p (emit effect s).2 n)
| StepClock now p s n :
    Step (mkSystem p s n) (mkSystem p (s <| wall_clock_ := now |>) n)
| StepWorker section p s n :
    p = Between ∨ p = Paired →
    Step (mkSystem p s n) (mkSystem p (run_worker section s).2 n)
| StepPair section s n :
    Step (mkSystem Paired s n) (mkSystem Paired (run_pair section s).2 n)
| StepRegister context s n :
    Step (mkSystem Between s n)
      (mkSystem Between (begin_register context s).2
         (match (begin_register context s).1 with None => S n | Some _ => n end))
| StepInstall fence s n :
    fence_limits_ok fence →
    Step (mkSystem Between s n) (mkSystem Between (InstallSession fence s).2 n)
| StepPrepare fence s n :
    Step (mkSystem Between s n) (mkSystem Paired (PrepareConnectionPairLocked fence s).2 n)
| StepReplace s n :
    Step (mkSystem Paired s n) (mkSystem Between (PreparePairReplacement_locked s).2 n)
| StepStart workers p s n :
    p ≠ Joined →
    Step (mkSystem p s n)
      (mkSystem (match (start_threads workers s).1 with None => Between | Some _ => p end)
         (start_threads workers s).2 n)
| StepStop p s n :
    Step (mkSystem p s n) (mkSystem p (Stop_locked s).2 n)
| StepJoin s n :
    Step (mkSystem Between s n)
      (mkSystem Joined (s <| supervisor_running_ := false |> <| dispatch_threads_ := 0%nat |>) n)
| StepCleanup s n :
    Step (mkSystem Joined s n) (mkSystem Joined (Deactivate_locked s).2 n)
| StepStopped s n :
    Step (mkSystem Joined s n) (mkSystem Idle (Stop_finish s).2 n).

Definition initial (config : ClientConfig) (callbacks : ClientCallbacks) : System :=
  mkSystem Idle (Impl_new config callbacks) 0.

Inductive reachable (config : ClientConfig) (callbacks : ClientCallbacks) : System → Prop :=
| reach_initial : reachable config callbacks (initial config callbacks)
| reach_step x y : reachable config callbacks x → Step x y → reachable config callbacks y.

(** ** Every section keeps the resource invariant *)

Lemma ignore_keeps {A} I (m : C A) : keeps I m → keeps I (ignore m).
Proof. intros Hm. apply keeps_bind; [done|]. intros _. apply keeps_ret. Qed.

Lemma ignore_frame {A F} (f : Impl → F) (m : C A) : frame f m → frame f (ignore m).
Proof. intros Hm. by apply frame_bind. Qed.

Lemma run_user_bounded section : keeps Bounded (run_user section).
Proof. destruct section; apply ignore_keeps; [apply PublishSource_keeps|apply CloseSource_keeps]. Qed.

Lemma Signal_locked_view session reason :
  frame view (SignalSessionFailure_locked session reason) ∧
  frame view (SignalTerminalSessionFailure_locked session reason).
Proof. split; unfold SignalSessionFailure_locked, SignalTerminalSessionFailure_locked; solve_frame. Qed.

(** Forgetting the token leaves every limit alone. *)
Lemma ForgetBootstrapToken_bounded s :
  Bounded s → Bounded (s <| config_ := ForgetBootstrapToken (config_ s) |>).
Proof.
  intros [Hl Hf Hc Hw Hd [] []]. split; [exact Hl|exact Hf| | | | |].
  - destruct Hc. by split.
  - destruct Hw. by split.
  - destruct Hd. by split.
  - by split.
  - by split.
Qed.

Lemma end_register_view context : frame view (end_register context).
Proof. apply frame_modify. intros s. by case_match. Qed.

Lemma EnterSessionLost_locked_view reason : frame view (EnterSessionLost_locked reason).
Proof. intros s. unfold EnterSessionLost_locked. by case_match. Qed.

Lemma advance_epoch_view : frame view advance_epoch.
Proof. apply frame_modify. intros s. by case_match. Qed.

Lemma SupervisorStopped_keeps : keeps Bounded (ResetSessionLocked ;; put state_ := kStopped).
Proof.
  apply keeps_bind; [apply ResetSessionLocked_keeps|intros _]. by apply Bounded_view, frame_modify.
Qed.

Hint Resolve dispatch_take_keeps HandleSourceOpen_locked_keeps work_started_keeps
  work_finished_keeps job_finished_keeps MaybeQueueDrainStatusLocked_keeps EraseWorkToken_keeps
  retire_pair_keeps Deactivate_locked_keeps SupervisorStopped_keeps : keeps.
Hint Resolve end_register_view EnterSessionLost_locked_view advance_epoch_view : frame.
Hint Extern 1 (frame view (SignalSessionFailure_locked _ _)) =>
  apply Signal_locked_view : frame.
Hint Extern 1 (frame view (SignalTerminalSessionFailure_locked _ _)) =>
  apply Signal_locked_view : frame.

(** Take a section apart into operations whose lemmas are in the databases. *)
Ltac solve_section :=
  repeat first
    [ lazymatch goal with |- keeps _ (ignore _) => apply ignore_keeps end
    | solve [auto 2 with keeps]
    | apply Bounded_view; solve [auto 2 with frame]
    | apply Bounded_view; apply frame_modify; done
    | apply keeps_when
    | apply keeps_bind; [|intros ?] ].

Lemma run_worker_bounded section : keeps Bounded (run_worker section).
Proof.
  destruct section; cbn [run_worker]; solve_section.
  apply keeps_modify, ForgetBootstrapToken_bounded.
Qed.

Lemma ValidateControlHeader_view header fence : frame view (ValidateControlHeader header fence).
Proof. intros s. unfold ValidateControlHeader. by destruct (ValidateHeaderLocked _ _ _ _ _). Qed.
Lemma ValidateWorkHeader_view header fence : frame view (ValidateWorkHeader header fence).
Proof. intros s. unfold ValidateWorkHeader. by destruct (ValidateHeaderLocked _ _ _ _ _). Qed.
Lemma open_attach_gate_view fence : frame view (open_attach_gate fence).
Proof. intros s. unfold open_attach_gate. simpl. by case_match. Qed.
Lemma pair_attached_view fence : frame view (pair_attached fence).
Proof. intros s. unfold pair_attached. simpl. by case_match. Qed.
Lemma work_attach_view fence : frame view (work_attach fence).
Proof. intros s. unfold work_attach. by case_match. Qed.
Hint Resolve ValidateControlHeader_view ValidateWorkHeader_view open_attach_gate_view
  pair_attached_view work_attach_view : frame.

Lemma control_turn_keeps fence next_heartbeat now :
  keeps Bounded (control_turn fence next_heartbeat now).
Proof.
  intros s Hs. unfold control_turn. case_match; [done|]. case_match; [by apply (Bounded_same s)|].
  pose proof (PopControl_keeps s Hs) as Hp. destruct (PopControl s) as [[frame|] s1]; [|done].
  by apply (Bounded_same s1).
Qed.

Lemma work_turn_keeps fence : keeps Bounded (work_turn fence).
Proof.
  intros s Hs. unfold work_turn. case_match; [done|].
  pose proof (PopWork_keeps s Hs) as Hp. destruct (PopWork s) as [[frame|] s1]; [|done].
  by apply (Bounded_same s1).
Qed.

Lemma enqueue_unary_keeps request sequence now :
  keeps Bounded (EnqueueDispatch_locked (unary_job request sequence now)).
Proof. apply EnqueueDispatch_locked_keeps. simpl. lia. Qed.
Lemma enqueue_operation_keeps request sequence now :
  keeps Bounded (EnqueueDispatch_locked (operation_job request sequence now)).
Proof. apply EnqueueDispatch_locked_keeps. simpl. lia. Qed.
Lemma enqueue_source_keeps request sequence now :
  keeps Bounded (EnqueueSourceOpen_locked request (source_open_job request sequence now)).
Proof. apply EnqueueSourceOpen_locked_keeps; [simpl; lia|done]. Qed.

Hint Resolve enqueue_unary_keeps enqueue_operation_keeps enqueue_source_keeps
  control_turn_keeps work_turn_keeps GrantSourceCredit_locked_keeps
  HandleTerminalAcknowledgement_locked_keeps HandleCancellation_locked_keeps BeginDrain_keeps
  ApplyInstanceSpec_locked_keeps commit_spec_keeps activate_spec_keeps : keeps.

Lemma run_pair_bounded section : keeps Bounded (run_pair section).
Proof.
  destruct section; cbn [run_pair]; solve_section.
Qed.

(** ** What only thread management changes *)

(** Whether the supervisor exists, and whether Register was sent. *)
Definition steady (s : Impl) : bool * bool := (supervisor_running_ s, registration_attempted_ s).

(** The same with the open sources, which few sections change. *)
Definition still (s : Impl) := (steady s, source_streams_ s).

Lemma still_steady {A} (m : C A) : frame still m → frame steady m.
Proof. intros Hm s. exact (f_equal fst (Hm s)). Qed.

Lemma still_no_sources {A} (m : C A) : frame still m → keeps (λ s, source_streams_ s = ∅) m.
Proof. intros Hm s Hs. rewrite <-Hs. exact (f_equal snd (Hm s)). Qed.

Ltac by_cases := intros s; repeat (case_match; simpl); done.

Lemma still_CancelAllWorkLocked : frame still CancelAllWorkLocked.
Proof. by apply CancelAllWorkLocked_frame. Qed.
Lemma still_ReleaseAllWorkTokensLocked : frame still ReleaseAllWorkTokensLocked.
Proof. by apply ReleaseAllWorkTokensLocked_frame. Qed.
Lemma still_ReleaseWorkTokenLocked id : frame still (ReleaseWorkTokenLocked id).
Proof. unfold ReleaseWorkTokenLocked, modify. by_cases. Qed.
Lemma still_QueueWorkLocked frm : frame still (QueueWorkLocked frm).
Proof. unfold QueueWorkLocked. by_cases. Qed.
Lemma still_QueueControlLocked frm : frame still (QueueControlLocked frm).
Proof. unfold QueueControlLocked. by_cases. Qed.
Hint Resolve still_CancelAllWorkLocked still_ReleaseAllWorkTokensLocked
  still_ReleaseWorkTokenLocked still_QueueWorkLocked still_QueueControlLocked : frame.

Lemma still_drain_report_failed : frame still drain_report_failed.
Proof. unfold drain_report_failed. solve_frame. Qed.

Lemma still_MaybeQueueDrainStatusLocked : frame still MaybeQueueDrainStatusLocked.
Proof.
  intros s. unfold MaybeQueueDrainStatusLocked. case_match; [done|].
  pose proof (still_QueueControlLocked (drain_status true 0) s) as Hq.
  destruct (QueueControlLocked _ s) as [[] s1]; simpl in *; [done|].
  by rewrite still_drain_report_failed.
Qed.

Lemma still_RememberReplayLocked id entry : frame still (RememberReplayLocked id entry).
Proof. unfold RememberReplayLocked, modify. by_cases. Qed.

Lemma still_CommitTerminalFrame job frm : frame still (CommitTerminalFrame job frm).
Proof.
  intros s. destruct (decide ((CommitTerminalFrame job frm s).1 = kCommitted)) as [Hc|Hc];
    [|by destruct (CommitTerminalFrame_other s job frm Hc) as [->| ->]].
  apply CommitTerminalFrame_committed in Hc as (? & ? & ? & _ & _ & _ & _ & _ & _ & _ & ->).
  unfold convert_reservation. by case_match.
Qed.
Hint Resolve still_drain_report_failed still_MaybeQueueDrainStatusLocked
  still_RememberReplayLocked still_CommitTerminalFrame : frame.

Lemma still_dispatch_take : frame still dispatch_take.
Proof. unfold dispatch_take. by_cases. Qed.
Lemma still_work_finished : frame still work_finished.
Proof. unfold work_finished, modify. by_cases. Qed.
Lemma still_Signal session reason :
  frame still (SignalSessionFailure_locked session reason) ∧
  frame still (SignalTerminalSessionFailure_locked session reason).
Proof.
  split; (apply frame_bind; [done|]; intros []; [done|]);
    repeat first [apply still_CancelAllWorkLocked | apply frame_ret | apply frame_set_field; done
      | apply frame_bind; [|intros ?]].
Qed.
Lemma still_end_register context : frame still (end_register context).
Proof. unfold end_register, modify. by_cases. Qed.
Lemma still_EnterSessionLost_locked reason : frame still (EnterSessionLost_locked reason).
Proof. unfold EnterSessionLost_locked. by_cases. Qed.
Lemma still_advance_epoch : frame still advance_epoch.
Proof. unfold advance_epoch, modify. by_cases. Qed.
Lemma still_ClearConnectionStateLocked : frame still ClearConnectionStateLocked.
Proof. unfold ClearConnectionStateLocked. solve_frame. Qed.
Lemma still_retire_pair : frame still retire_pair.
Proof. unfold retire_pair. apply frame_bind; [done|]. intros b.
  apply frame_bind; [apply still_ClearConnectionStateLocked|done]. Qed.

Hint Resolve still_dispatch_take still_work_finished still_end_register
  still_EnterSessionLost_locked still_advance_epoch still_retire_pair : frame.

Lemma still_CommitSourceTerminalLocked id source frm :
  frame still (CommitSourceTerminalLocked id source frm).
Proof.
  intros s. unfold CommitSourceTerminalLocked. destruct (source_terminal frm) as [[named m]|]; [|done].
  case_match; [done|]. destruct (message_digest m) as [digest|]; [|done]. case_match; [done|].
  pose proof (still_QueueWorkLocked frm s) as Hq. by destruct (QueueWorkLocked frm s) as [[] s1].
Qed.

Lemma steady_CommitSourceTerminalLocked id source frm :
  frame steady (CommitSourceTerminalLocked id source frm).
Proof. apply still_steady, still_CommitSourceTerminalLocked. Qed.
Lemma steady_QueueWorkLocked frm : frame steady (QueueWorkLocked frm).
Proof. apply still_steady, still_QueueWorkLocked. Qed.

(** The same for the operations that open, change or close sources. *)
Ltac steady_commit :=
  match goal with
  | |- context [CommitSourceTerminalLocked ?id ?source ?frm ?s] =>
      pose proof (steady_CommitSourceTerminalLocked id source frm s);
      by destruct (CommitSourceTerminalLocked id source frm s) as [[] ?]
  | |- context [QueueWorkLocked ?frm ?s] =>
      pose proof (steady_QueueWorkLocked frm s); by destruct (QueueWorkLocked frm s) as [[] ?]
  end.

Lemma steady_HandleSourceOpen_locked job decision :
  frame steady (HandleSourceOpen_locked job decision).
Proof.
  intros s. unfold HandleSourceOpen_locked. destruct (source_current s job) as [source|]; [|done].
  do 2 (case_match; [done|]). case_match; [case_match; [done|]|]; steady_commit.
Qed.

Lemma steady_PublishSource id items : frame steady (PublishSource id items).
Proof.
  intros s. unfold PublishSource. case_match; [done|].
  destruct (source_streams_ s !! id) as [stream|]; [|done].
  do 8 (case_match; [done|]). steady_commit.
Qed.

Lemma steady_CloseSource id error : frame steady (CloseSource id error).
Proof.
  intros s. unfold CloseSource. destruct (source_streams_ s !! id) as [stream|]; [|by case_match].
  case_match; [by case_match|]. steady_commit.
Qed.

Lemma steady_GrantSourceCredit_locked credit : frame steady (GrantSourceCredit_locked credit).
Proof. unfold GrantSourceCredit_locked. by_cases. Qed.

Lemma steady_HandleTerminalAcknowledgement_locked ack :
  frame steady (HandleTerminalAcknowledgement_locked ack).
Proof. unfold HandleTerminalAcknowledgement_locked. by_cases. Qed.

Lemma steady_request ref s : steady (request_cancellation ref s).2 = steady s.
Proof. by destruct ref. Qed.

Lemma steady_HandleCancellation_locked cancellation :
  frame steady (HandleCancellation_locked cancellation).
Proof.
  intros s. unfold HandleCancellation_locked. destruct (WorkCancellation.identity cancellation); [| |done].
  - case_match; [done|]. case_match; [apply steady_request|done].
  - case_match; [done|]. destruct (source_streams_ s !! _) as [stream|]; [|by repeat case_match].
    case_match; [done|]. rewrite <-(steady_request (SourceState.cancellation stream) s).
    generalize (request_cancellation (SourceState.cancellation stream) s).2. intros s1.
    case_match; [done|]. case_match; [done|]. steady_commit.
Qed.

Lemma steady_ReserveTerminalReplayLocked job : frame steady (ReserveTerminalReplayLocked job).
Proof. unfold ReserveTerminalReplayLocked. by_cases. Qed.

Lemma steady_EnqueueDispatch_locked job : frame steady (EnqueueDispatch_locked job).
Proof.
  intros s. unfold EnqueueDispatch_locked. destruct (replay_ s !! _); [by repeat case_match|].
  do 6 (case_match; [done|]). simpl.
  match goal with |- context [ReserveTerminalReplayLocked ?j ?u] =>
    pose proof (steady_ReserveTerminalReplayLocked j u);
    by destruct (ReserveTerminalReplayLocked j u) as [[[] ?] ?]
  end.
Qed.

Lemma steady_reject_source job error overflow accounted :
  frame steady (reject_source job error overflow accounted).
Proof. intros s. unfold reject_source. case_match; [done|]. simpl. steady_commit. Qed.

Lemma steady_EnqueueSourceOpen_locked request job :
  frame steady (EnqueueSourceOpen_locked request job).
Proof.
  intros s. unfold EnqueueSourceOpen_locked. destruct (source_accounting s job) as [overflow accounted].
  case_match; [done|]. destruct (closed_sources_ s !! _); [by case_match|]. case_match; [done|].
  destruct (admit_source _ _ _ _ _); [done|by rewrite steady_reject_source|done].
Qed.

Lemma steady_ApplyInstanceSpec_locked session spec :
  frame steady (ApplyInstanceSpec_locked session spec).
Proof.
  assert (frame steady (begin_transition spec)) as Hbegin.
  { unfold begin_transition. repeat first [done | by apply CancelAllWorkLocked_frame
      | apply frame_bind; [|intros ?]]. }
  intros s. unfold ApplyInstanceSpec_locked. by repeat (case_match; try done).
Qed.

Lemma steady_spec_sections session spec active statuses :
  frame steady (commit_spec session spec active statuses) ∧
  frame steady (activate_spec session statuses).
Proof. split; intros s; unfold commit_spec, activate_spec; by case_match. Qed.

Lemma steady_turns fence next_heartbeat now :
  frame steady (control_turn fence next_heartbeat now) ∧ frame steady (work_turn fence).
Proof.
  split; intros s; unfold control_turn, work_turn, PopControl, PopWork; case_match; try done;
    repeat (case_match; simplify_eq; try done).
Qed.

Lemma steady_Deactivate_locked : frame steady Deactivate_locked.
Proof.
  unfold Deactivate_locked. repeat first [done | by apply CancelAllWorkLocked_frame
    | apply frame_bind; [|intros ?]].
Qed.

Lemma steady_ResetSessionLocked : frame steady ResetSessionLocked.
Proof.
  unfold ResetSessionLocked. repeat first [done | by apply ReleaseAllWorkTokensLocked_frame
    | apply frame_bind; [|intros ?]].
Qed.

(** The frames of every section. *)
Ltac frames :=
  repeat lazymatch goal with
  | |- frame _ (ignore _) => apply ignore_frame
  | |- frame _ (mbind _ _) => apply frame_bind; [|intros ?]
  | |- frame _ (when _ _) => apply frame_when
  | |- frame _ (modify _) => apply frame_modify; done
  | |- frame _ (set_field _ _) => apply frame_set_field; done
  | |- frame _ _ => first [solve [auto 2 with frame] | apply still_steady; solve [auto 2 with frame]]
  end.

Lemma run_user_steady section : frame steady (run_user section).
Proof. destruct section; apply ignore_frame; [apply steady_PublishSource|apply steady_CloseSource]. Qed.

Hint Resolve steady_HandleSourceOpen_locked steady_Deactivate_locked steady_ResetSessionLocked
  steady_GrantSourceCredit_locked steady_HandleTerminalAcknowledgement_locked
  steady_HandleCancellation_locked steady_EnqueueDispatch_locked steady_EnqueueSourceOpen_locked
  steady_ApplyInstanceSpec_locked : frame.
Hint Extern 1 (frame still (SignalSessionFailure_locked _ _)) => apply still_Signal : frame.
Hint Extern 1 (frame still (SignalTerminalSessionFailure_locked _ _)) => apply still_Signal : frame.
Hint Extern 1 (frame steady (commit_spec _ _ _ _)) => apply steady_spec_sections : frame.
Hint Extern 1 (frame steady (activate_spec _ _)) =>
  apply (steady_spec_sections _ AdapterInstanceSpec.empty ∅) : frame.
Hint Extern 1 (frame steady (control_turn _ _ _)) => apply steady_turns : frame.
Hint Extern 1 (frame steady (work_turn _)) => apply (steady_turns _ 0 0) : frame.

Lemma still_counters : frame still work_started ∧ frame still job_finished.
Proof. done. Qed.
Hint Extern 1 (frame still work_started) => apply still_counters : frame.
Hint Extern 1 (frame still job_finished) => apply still_counters : frame.

Lemma run_worker_steady section : frame steady (run_worker section).
Proof. destruct section; cbn [run_worker]; unfold EraseWorkToken; frames. Qed.

Lemma steady_open_attach_gate fence : frame steady (open_attach_gate fence).
Proof. unfold open_attach_gate, modify. by_cases. Qed.
Lemma steady_pair_attached fence : frame steady (pair_attached fence).
Proof. unfold pair_attached, modify. by_cases. Qed.
Lemma steady_work_attach fence : frame steady (work_attach fence).
Proof. unfold work_attach. by_cases. Qed.
Lemma steady_ValidateControlHeader header fence : frame steady (ValidateControlHeader header fence).
Proof. intros s. unfold ValidateControlHeader. by destruct (ValidateHeaderLocked _ _ _ _ _). Qed.
Lemma steady_ValidateWorkHeader header fence : frame steady (ValidateWorkHeader header fence).
Proof. intros s. unfold ValidateWorkHeader. by destruct (ValidateHeaderLocked _ _ _ _ _). Qed.
Hint Resolve steady_open_attach_gate steady_pair_attached steady_work_attach
  steady_ValidateControlHeader steady_ValidateWorkHeader : frame.

Lemma run_pair_steady section : frame steady (run_pair section).
Proof. destruct section; cbn [run_pair]; unfold BeginDrain; frames; done. Qed.

Lemma finish_reset_sources s : source_streams_ (finish_reset s) = source_streams_ s.
Proof. reflexivity. Qed.

Lemma ResetSessionLocked_sources s : source_streams_ (ResetSessionLocked s).2 = ∅.
Proof.
  rewrite ResetSessionLocked_state, finish_reset_sources.
  by rewrite (ReleaseAllWorkTokensLocked_frame source_streams_).
Qed.

(** With no source open, no worker section opens one. *)
Lemma run_worker_no_sources section :
  keeps (λ s, source_streams_ s = ∅) (run_worker section).
Proof.
  destruct section; cbn [run_worker]; unfold EraseWorkToken;
    try (apply still_no_sources; frames; done).
  - intros s Hs. unfold ignore, HandleSourceOpen_locked, source_current, mbind, M_bind.
    by rewrite Hs, lookup_empty.
  - apply ignore_keeps. intros s _. by rewrite Deactivate_locked_state.
  - apply keeps_bind; [intros s _; apply ResetSessionLocked_sources|]. intros _ s Hs. exact Hs.
Qed.

(** With no source open, the application's sections change nothing but a counter. *)
Lemma run_user_idle section s :
  source_streams_ s = ∅ →
  (run_user section s).2 = s ∨ (run_user section s).2 = count_dropped s.
Proof.
  intros Hs. destruct section; unfold run_user, ignore, mbind, M_bind; simpl.
  - unfold PublishSource. rewrite Hs, lookup_empty. case_match; by left.
  - unfold CloseSource. rewrite Hs, lookup_empty. case_match; [by right|by left].
Qed.

(** ** The sections that manage the threads *)

Lemma steady_PrepareConnectionPairLocked fence : frame steady (PrepareConnectionPairLocked fence).
Proof. unfold PrepareConnectionPairLocked. frames. Qed.

Lemma steady_PreparePairReplacement_locked : frame steady PreparePairReplacement_locked.
Proof. unfold PreparePairReplacement_locked. frames; done. Qed.

Lemma Stop_locked_frames : frame view Stop_locked ∧ frame steady Stop_locked.
Proof.
  split; (apply frame_bind; [done|]; intros []; [done|]); frames; done.
Qed.

Lemma start_threads_bounded workers s :
  Bounded s → work_tokens_ s = ∅ ∨ supervisor_running_ s = true →
  Bounded (start_threads workers s).2.
Proof.
  intros Hs Ht. unfold start_threads, mbind, M_bind.
  assert (Bounded (Start_locked s).2) as Hb.
  { destruct Ht as [Ht|Ht]; [by apply Start_locked_keeps|].
    unfold Start_locked. by rewrite Ht, orb_true_r. }
  destruct (Start_locked s) as [[error|] s1]; [done|]. by apply (Bounded_same s1).
Qed.

(** [Start] is refused while the supervisor exists; otherwise it creates it. *)
Lemma start_threads_steady workers s :
  match (start_threads workers s).1 with
  | Some _ => (start_threads workers s).2 = s
  | None => supervisor_running_ s = false ∧
      steady (start_threads workers s).2 = (true, registration_attempted_ s) ∧
      source_streams_ (start_threads workers s).2 = source_streams_ s
  end.
Proof.
  unfold start_threads, Start_locked, mbind, M_bind.
  destruct (negb (bool_decide (state_ s = kStopped)) || _ || _) eqn:Hg; simpl; [done|]. by guards.
Qed.

Lemma Stop_finish_empty s :
  work_tokens_ (Stop_finish s).2 = ∅ ∧ source_streams_ (Stop_finish s).2 = ∅ ∧
  registration_attempted_ (Stop_finish s).2 = registration_attempted_ s.
Proof.
  rewrite Stop_finish_state.
  pose proof (ResetSessionLocked_sources s) as Hs. pose proof (steady_ResetSessionLocked s) as Hr.
  generalize dependent (ResetSessionLocked s).2. intros s1 Hs1 Hr1.
  set (s2 := s1 <| state_ := kStopped |> <| dispatch_queue_ := [] |>).
  pose proof (ReleaseAllWorkTokensLocked_empties s2) as Ht.
  pose proof (still_ReleaseAllWorkTokensLocked s2) as Hstill.
  generalize dependent (ReleaseAllWorkTokensLocked s2).2. intros s3 Ht Hstill.
  split_and!; [exact Ht| |].
  - exact (eq_trans (f_equal snd Hstill) Hs1).
  - exact (eq_trans (f_equal (λ v, v.1.2) Hstill) (f_equal snd Hr1)).
Qed.

(** ** The invariant *)

Definition phase_ok (p : Phase) (s : Impl) : Prop :=
  match p with
  | Idle => work_tokens_ s = ∅ ∧ source_streams_ s = ∅
  | Between => supervisor_running_ s = true ∧ source_streams_ s = ∅
  | Paired => supervisor_running_ s = true
  | Joined => True
  end.

Record SystemInv (x : System) : Prop := {
  inv_bounded : Bounded (impl x);
  inv_phase : phase_ok (phase x) (impl x);
  inv_register : registrations x = if registration_attempted_ (impl x) then 1%nat else 0%nat;
}.

Lemma steady_running s s' : steady s' = steady s → supervisor_running_ s' = supervisor_running_ s.
Proof. by intros [= -> _]. Qed.
Lemma steady_registered s s' :
  steady s' = steady s → registration_attempted_ s' = registration_attempted_ s.
Proof. by intros [= _ ->]. Qed.

(** A section that keeps [Bounded] and [steady] keeps the invariant of a phase with
    threads, given that it opens no source between pairs. *)
Lemma SystemInv_section p s s' n :
  (p = Between ∨ p = Paired) → SystemInv (mkSystem p s n) → Bounded s' → steady s' = steady s →
  (p = Between → source_streams_ s' = ∅) → SystemInv (mkSystem p s' n).
Proof.
  intros Hp [Hb Hph Hr] Hb' Hst Hso. simpl in *. split; simpl; [done| |].
  - pose proof (steady_running _ _ Hst) as Hrun.
    destruct Hp as [->| ->]; simpl in *; rewrite Hrun; [|done]. split; [apply Hph|by apply Hso].
  - by rewrite (steady_registered _ _ Hst).
Qed.

(** A step that changes neither the accounting nor the threads. *)
Lemma SystemInv_same p s s' n :
  SystemInv (mkSystem p s n) → view s' = view s → steady s' = steady s →
  SystemInv (mkSystem p s' n).
Proof.
  intros [Hb Hph Hr] Hv Hst. simpl in *. split; simpl.
  - by apply (Bounded_same s).
  - assert (work_tokens_ s' = work_tokens_ s ∧ source_streams_ s' = source_streams_ s) as [Et Es].
    { unfold view in Hv. by simplify_eq. }
    pose proof (steady_running _ _ Hst) as Er.
    destruct p; simpl in *; rewrite ?Et, ?Es, ?Er; done.
  - by rewrite (steady_registered _ _ Hst).
Qed.

Lemma SystemInv_user section p s n :
  SystemInv (mkSystem p s n) → SystemInv (mkSystem p (run_user section s).2 n).
Proof.
  intros Hinv. pose proof Hinv as [Hb Hph Hr]. simpl in *.
  pose proof (run_user_bounded section s Hb) as Hb'. pose proof (run_user_steady section s) as Hst.
  destruct p.
  - destruct Hph as [_ Hs]. destruct (run_user_idle section s Hs) as [->| ->]; [done|].
    by apply (SystemInv_same _ s).
  - destruct Hph as [_ Hs]. destruct (run_user_idle section s Hs) as [->| ->]; [done|].
    by apply (SystemInv_same _ s).
  - apply (SystemInv_section _ s); auto. done.
  - split; simpl; [done|done|]. by rewrite (steady_registered _ _ Hst).
Qed.

Lemma SystemInv_start workers p s n :
  p ≠ Joined → SystemInv (mkSystem p s n) →
  SystemInv (mkSystem (match (start_threads workers s).1 with None => Between | Some _ => p end)
    (start_threads workers s).2 n).
Proof.
  intros Hp Hinv. pose proof Hinv as [Hb Hph Hr]. simpl in *.
  pose proof (start_threads_steady workers s) as Hst.
  assert (Bounded (start_threads workers s).2) as Hb'.
  { apply start_threads_bounded; [done|]. destruct p; naive_solver. }
  destruct (start_threads workers s) as [[error|] s']; simpl in *; [by subst|].
  destruct Hst as (Hrun & Hst & Hso). injection Hst as Hrun' Hreg'. split; simpl; [done| |].
  - split; [done|]. rewrite Hso. destruct p; simpl in Hph; [apply Hph|apply Hph|congruence|done].
  - by rewrite Hreg'.
Qed.

Lemma SystemInv_step x y : SystemInv x → Step x y → SystemInv y.
Proof.
  intros Hinv Hstep. destruct Hstep as [section p s n|effect p s n|now p s n|section p s n Hp
    |section s n|context s n|fence s n Hf|fence s n|s n|workers p s n Hp|p s n|s n|s n|s n].
  - by apply SystemInv_user.
  - by apply (SystemInv_same _ s).
  - by apply (SystemInv_same _ s).
  - pose proof Hinv as [Hb Hph Hr]. simpl in *. apply (SystemInv_section _ s); try done.
    + by apply run_worker_bounded.
    + apply run_worker_steady.
    + intros ->. apply run_worker_no_sources, Hph.
  - pose proof Hinv as [Hb Hph Hr]. simpl in *. apply (SystemInv_section _ s); auto; [| |done].
    + by apply run_pair_bounded.
    + apply run_pair_steady.
  - destruct Hinv as [Hb Hph Hr]. simpl in *. unfold begin_register.
    destruct (registration_attempted_ s) eqn:Ha; [split; simpl; [done..|by rewrite Ha]|].
    destruct (stop_requested_ s); [split; simpl; [done..|by rewrite Ha]|].
    split; simpl; [by apply (Bounded_same s)|done|by rewrite Hr].
  - pose proof Hinv as [Hb Hph Hr]. simpl in *. 
    apply (SystemInv_section _ s); [by left|done|by apply InstallSession_keeps|done|done].
  - destruct Hinv as [Hb [Hrun Hs] Hr]. simpl in *. 
    apply (SystemInv_section Paired s); [by right|by split|by apply PrepareConnectionPairLocked_keeps
      |apply steady_PrepareConnectionPairLocked|done].
  - destruct Hinv as [Hb Hrun Hr]. simpl in Hb, Hrun, Hr.
    pose proof (steady_PreparePairReplacement_locked s) as Hst.
    split; cbn [phase impl registrations phase_ok].
    + by apply PreparePairReplacement_locked_keeps.
    + split; [exact (eq_trans (steady_running _ _ Hst) Hrun)|].
      by rewrite PreparePairReplacement_locked_state.
    + by rewrite (steady_registered _ _ Hst).
  - by apply SystemInv_start.
  - apply (SystemInv_same _ s); [done|apply Stop_locked_frames..].
  - destruct Hinv as [Hb _ Hr]. split; simpl; [by apply (Bounded_same s)|done|done].
  - destruct Hinv as [Hb _ Hr]. split; cbn [phase impl registrations phase_ok] in *;
      [by apply Deactivate_locked_keeps|done|].
    by rewrite (steady_registered _ _ (steady_Deactivate_locked s)).
  - destruct Hinv as [Hb _ Hr]. destruct (Stop_finish_empty s) as (Ht & Hs & Ha).
    split; cbn [phase impl registrations phase_ok] in *; [by apply Stop_finish_keeps|done|by rewrite Ha].
Qed.

Lemma SystemInv_initial config callbacks :
  limits_ok config → SystemInv (initial config callbacks).
Proof.
  intros Hl. split; [|done|done]. apply Bounded_cleared; try done; [by apply ReplayInv_empty|].
  by apply SourceInv_empty.
Qed.

Lemma SystemInv_reachable config callbacks x :
  limits_ok config → reachable config callbacks x → SystemInv x.
Proof. intros Hl. induction 1; [by apply SystemInv_initial|by eapply SystemInv_step]. Qed.

(** C1: in every state that any interleaving of the client's threads reaches, with
    any requests, acknowledgements and cancellations from the Host and any behaviour
    of the application, every bounded structure is within its configured limits: the
    three queues in entries, bytes and frame sizes, the retained terminals together
    with the reservations, the open and closed sources; and every byte counter is
    exact (for sources, sufficient), so no counter ever wraps. *)
Theorem system_bounded config callbacks x :
  limits_ok config → reachable config callbacks x → Bounded (impl x).
Proof. intros Hl Hx. apply (SystemInv_reachable _ _ _ Hl Hx). Qed.

(** C2: a process sends at most one Register call, over any sequence of starts, stops
    and restarts, and [registration_attempted_] tells whether it did. *)
Theorem registration_single_use config callbacks x :
  limits_ok config → reachable config callbacks x →
  (registrations x ≤ 1)%nat ∧
  (registrations x = 1%nat ↔ registration_attempted_ (impl x) = true).
Proof.
  intros Hl Hx. rewrite (inv_register _ (SystemInv_reachable _ _ _ Hl Hx)).
  destruct (registration_attempted_ (impl x)); split; try lia; done.
Qed.

(** C22: a stopped client holds no Work identity and no source; no source is open
    while there is no connection pair, so preparing the next pair never forgets one
    that is still accounted; and [Start] never runs a second supervisor. *)
Theorem phases_hold_nothing_stale config callbacks x :
  limits_ok config → reachable config callbacks x →
  (phase x = Idle → work_tokens_ (impl x) = ∅ ∧ source_streams_ (impl x) = ∅) ∧
  (phase x = Between → source_streams_ (impl x) = ∅) ∧
  (phase x = Between ∨ phase x = Paired → ∀ workers,
     is_Some (start_threads workers (impl x)).1 ∧ (start_threads workers (impl x)).2 = impl x).
Proof.
  intros Hl Hx. destruct (SystemInv_reachable _ _ _ Hl Hx) as [_ Hph _]. split_and!.
  - intros Hp. by rewrite Hp in Hph.
  - intros Hp. rewrite Hp in Hph. apply Hph.
  - intros Hp workers. assert (supervisor_running_ (impl x) = true) as Hrun
      by (destruct Hp as [Hp|Hp]; rewrite Hp in Hph; [apply Hph|done]).
    pose proof (start_threads_steady workers (impl x)) as Hst.
    destruct (start_threads workers (impl x)) as [[error|] s]; simpl in *; [by subst; eauto|].
    destruct Hst as [Hno _]. congruence.
Qed.
End system.

(** ** An execution *)

Module SampleSystem.
Import Sample.

Definition fence : SessionFence.t := SessionFence.make "host" "session-1" 1 5 2 1000 4096 4096 1.
Definition callbacks_bound : ClientCallbacks := mkClientCallbacks true true true true true.

(** Started, registered, installed and with its first pair. *)
Definition s0 : Impl := Impl_new sample_config callbacks_bound.
Definition s1 : Impl := (start_threads 1 s0).2.
Definition s2 : Impl := (begin_register 7 s1).2.
Definition s3 : Impl := (InstallSession fence s2).2.
Definition s4 : Impl := (PrepareConnectionPairLocked fence s3).2.

Lemma started : (start_threads 1 s0).1 = None.
Proof. reflexivity. Qed.
Lemma registering : (begin_register 7 s1).1 = None.
Proof. reflexivity. Qed.

Lemma paired : reachable sample_config callbacks_bound (mkSystem Paired s4 1).
Proof.
  assert (reachable sample_config callbacks_bound (mkSystem Between s1 0)) as H1.
  { eapply reach_step; [apply reach_initial|].
    pose proof (StepStart 1 Idle s0 0 ltac:(done)) as Hs. rewrite started in Hs. exact Hs. }
  assert (reachable sample_config callbacks_bound (mkSystem Between s2 1)) as H2.
  { eapply reach_step; [exact H1|].
    pose proof (StepRegister 7 s1 0) as Hs. rewrite registering in Hs. exact Hs. }
  assert (reachable sample_config callbacks_bound (mkSystem Between s3 1)) as H3.
  { eapply reach_step; [exact H2|]. apply (StepInstall fence s2 1). by vm_compute. }
  eapply reach_step; [exact H3|]. apply (StepPrepare fence s3 1).
Qed.

Lemma limits : limits_ok sample_config.
Proof. exact (b_limits _ Bounded_ready). Qed.
End SampleSystem.

Import Sample.

Lemma system_bounded_witness : Bounded SampleSystem.s4.
Proof.
  exact (system_bounded sample_config SampleSystem.callbacks_bound (mkSystem Paired SampleSystem.s4 1)
    SampleSystem.limits SampleSystem.paired).
Defined.

Lemma registration_single_use_witness : registration_attempted_ SampleSystem.s4 = true.
Proof.
  apply (registration_single_use sample_config SampleSystem.callbacks_bound
    (mkSystem Paired SampleSystem.s4 1) SampleSystem.limits SampleSystem.paired).
  reflexivity.
Defined.

Lemma phases_hold_nothing_stale_witness :
  is_Some (start_threads 1 SampleSystem.s4).1.
Proof.
  apply (phases_hold_nothing_stale sample_config SampleSystem.callbacks_bound
    (mkSystem Paired SampleSystem.s4 1) SampleSystem.limits SampleSystem.paired).
  right. reflexivity.
Defined.
