(* ===== verification/Lifecycle.v ===== *)
(** * The life of a Work identity

    What the replay table promises the Host, as an abstract machine: which
    identities are in flight, which terminals are kept, and the five events that
    change them.  Every step of the system of threads is a sequence of those
    events, each brought about by the operation that may cause it; so a kept
    terminal is forgotten only by its exact acknowledgement or with its session. *)

From S2P Require Import Prelude Text Digest Messages Clock Config State Queue Bounds.
From S2P Require Import Stream StreamFacts Sample Terminals Dispatch DispatchFacts Admission.
From S2P Require Import Spec SpecFacts Session Link SessionFacts System.

(** ** The abstract machine *)

(** A kept terminal: the request it answers, the frame that is sent again on a
    redelivery, and the digest that releases it. *)
Record Promise : Type := mkPromise {
  promised_kind : DispatchKind;
  promised_fingerprint : string;
  promised_frame : WorkFrame;
  promised_digest : string
}.

Record Books : Type := mkBooks { flying : gset string; kept : gmap string Promise }.

Inductive Event : Type :=
| Admit (id : string)
| Retain (id : string) (promise : Promise)
| Land (ids : gset string)
| Acknowledge (id digest : string)
| EndSession.

Section lifecycle.
Context `{Protobuf}.

(** The digest of a promise is that of the message its frame carries. *)
Definition promise_ok (promise : Promise) : Prop :=
  ∃ message, terminal_message (promised_frame promise) = Some message ∧
             message_digest message = Some (promised_digest promise).

Inductive act : Event → Books → Books → Prop :=
| ActAdmit id f k : id ≠ "" → id ∉ f → k !! id = None →
    act (Admit id) (mkBooks f k) (mkBooks ({[id]} ∪ f) k)
| ActRetain id p f k : k !! id = None → promise_ok p →
    act (Retain id p) (mkBooks f k) (mkBooks f (<[id := p]> k))
| ActLand ids f k : ids ⊆ f → act (Land ids) (mkBooks f k) (mkBooks (f ∖ ids) k)
| ActAcknowledge id p f k : id ∉ f → k !! id = Some p →
    act (Acknowledge id (promised_digest p)) (mkBooks f k) (mkBooks f (delete id k))
| ActEnd f k : act EndSession (mkBooks f k) (mkBooks f ∅).

Inductive acts : list Event → Books → Books → Prop :=
| acts_nil b : acts [] b b
| acts_cons e es b1 b2 b3 : act e b1 b2 → acts es b2 b3 → acts (e :: es) b1 b3.

(** The abstraction of a client's state. *)
Definition promise_of (entry : ReplayEntry.t) : Promise :=
  mkPromise (ReplayEntry.kind entry) (ReplayEntry.fingerprint entry)
    (replayed_frame (ReplayEntry.kind entry) entry) (ReplayEntry.terminal_digest entry).

Definition books (s : Impl) : Books := mkBooks (dom (work_tokens_ s)) (promise_of <$> replay_ s).

(** Which step of the system may cause which event. *)
Inductive caused : System → System → Event → Prop :=
| CauseAdmit job s n :
    (EnqueueDispatch_locked job s).1 = Enqueued →
    caused (mkSystem Paired s n) (mkSystem Paired (EnqueueDispatch_locked job s).2 n)
      (Admit (DispatchJob.work_id job))
| CauseRetain job frame digest p s n :
    (CommitTerminalFrame job frame s).1 = kCommitted →
    caused (mkSystem p s n) (mkSystem p (CommitTerminalFrame job frame s).2 n)
      (Retain (DispatchJob.work_id job)
         (mkPromise (DispatchJob.kind job) (DispatchJob.fingerprint job) frame digest))
| CauseLand ids x y : caused x y (Land ids)
| CauseAcknowledge id digest s n :
    caused (mkSystem Paired s n)
      (mkSystem Paired (HandleTerminalAcknowledgement_locked
         (TerminalAcknowledgement.make (kWorkId id) digest) s).2 n)
      (Acknowledge id digest)
| CauseStart workers p s n :
    (start_threads workers s).1 = None →
    caused (mkSystem p s n) (mkSystem Between (start_threads workers s).2 n) EndSession
| CauseSupervisorStopped p s n :
    caused (mkSystem p s n) (mkSystem p (run_worker DoSupervisorStopped s).2 n) EndSession
| CauseStopped s n :
    caused (mkSystem Joined s n) (mkSystem Idle (Stop_finish s).2 n) EndSession.

(** ** Sections that leave the books alone *)

Definition ledger (s : Impl) := (work_tokens_ s, replay_ s).

Lemma ledger_view {A} (m : C A) : frame view m → frame ledger m.
Proof. intros Hm s. exact (f_equal (λ v, v.1.1.2.1) (Hm s)). Qed.

Lemma ledger_books s s' : ledger s' = ledger s → books s' = books s.
Proof. unfold ledger, books. by intros [= -> ->]. Qed.

Ltac ledger_cases := intros s; repeat (case_match; simpl); done.

Lemma ledger_QueueWorkLocked frm : frame ledger (QueueWorkLocked frm).
Proof. unfold QueueWorkLocked. ledger_cases. Qed.
Lemma ledger_QueueControlLocked frm : frame ledger (QueueControlLocked frm).
Proof. unfold QueueControlLocked. ledger_cases. Qed.
Lemma ledger_CancelAllWorkLocked : frame ledger CancelAllWorkLocked.
Proof. by apply CancelAllWorkLocked_frame. Qed.
Hint Resolve ledger_QueueWorkLocked ledger_QueueControlLocked ledger_CancelAllWorkLocked : frame.

Lemma ledger_drain_report_failed : frame ledger drain_report_failed.
Proof. unfold drain_report_failed. solve_frame. Qed.

Lemma ledger_MaybeQueueDrainStatusLocked : frame ledger MaybeQueueDrainStatusLocked.
Proof.
  intros s. unfold MaybeQueueDrainStatusLocked. case_match; [done|].
  pose proof (ledger_QueueControlLocked (drain_status true 0) s) as Hq.
  destruct (QueueControlLocked _ s) as [[] s1]; simpl in *; [done|].
  by rewrite ledger_drain_report_failed.
Qed.

Lemma ledger_dispatch_take : frame ledger dispatch_take.
Proof. unfold dispatch_take. ledger_cases. Qed.
Lemma ledger_counters : frame ledger work_started ∧ frame ledger job_finished ∧ frame ledger work_finished.
Proof. split_and!; [done..|]. unfold work_finished, modify. ledger_cases. Qed.

Lemma ledger_CommitSourceTerminalLocked id source frm :
  frame ledger (CommitSourceTerminalLocked id source frm).
Proof.
  intros s. unfold CommitSourceTerminalLocked. destruct (source_terminal frm) as [[named m]|]; [|done].
  case_match; [done|]. destruct (message_digest m) as [digest|]; [|done]. case_match; [done|].
  pose proof (ledger_QueueWorkLocked frm s) as Hq. by destruct (QueueWorkLocked frm s) as [[] s1].
Qed.

(** The last queueing of a source operation. *)
Ltac ledger_commit :=
  match goal with
  | |- context [CommitSourceTerminalLocked ?id ?source ?frm ?s] =>
      pose proof (ledger_CommitSourceTerminalLocked id source frm s);
      by destruct (CommitSourceTerminalLocked id source frm s) as [[] ?]
  | |- context [QueueWorkLocked ?frm ?s] =>
      pose proof (ledger_QueueWorkLocked frm s); by destruct (QueueWorkLocked frm s) as [[] ?]
  end.

Lemma ledger_HandleSourceOpen_locked job decision :
  frame ledger (HandleSourceOpen_locked job decision).
Proof.
  intros s. unfold HandleSourceOpen_locked. destruct (source_current s job) as [source|]; [|done].
  do 2 (case_match; [done|]). case_match; [case_match; [done|]|]; ledger_commit.
Qed.

Lemma ledger_PublishSource id items : frame ledger (PublishSource id items).
Proof.
  intros s. unfold PublishSource. case_match; [done|].
  destruct (source_streams_ s !! id) as [stream|]; [|done].
  do 8 (case_match; [done|]). ledger_commit.
Qed.

Lemma ledger_CloseSource id error : frame ledger (CloseSource id error).
Proof.
  intros s. unfold CloseSource. destruct (source_streams_ s !! id) as [stream|]; [|by case_match].
  case_match; [by case_match|]. ledger_commit.
Qed.

Lemma ledger_GrantSourceCredit_locked credit : frame ledger (GrantSourceCredit_locked credit).
Proof. unfold GrantSourceCredit_locked. ledger_cases. Qed.

Lemma ledger_request ref s : ledger (request_cancellation ref s).2 = ledger s.
Proof. by destruct ref. Qed.

Lemma ledger_HandleCancellation_locked cancellation :
  frame ledger (HandleCancellation_locked cancellation).
Proof.
  intros s. unfold HandleCancellation_locked. destruct (WorkCancellation.identity cancellation); [| |done].
  - case_match; [done|]. case_match; [apply ledger_request|done].
  - case_match; [done|]. destruct (source_streams_ s !! _) as [stream|]; [|by repeat case_match].
    case_match; [done|]. rewrite <-(ledger_request (SourceState.cancellation stream) s).
    generalize (request_cancellation (SourceState.cancellation stream) s).2. intros s1.
    case_match; [done|]. case_match; [done|]. ledger_commit.
Qed.

Lemma ledger_EnqueueSourceOpen_locked request job :
  frame ledger (EnqueueSourceOpen_locked request job).
Proof.
  intros s. unfold EnqueueSourceOpen_locked. destruct (source_accounting s job) as [overflow accounted].
  case_match; [done|]. destruct (closed_sources_ s !! _); [by case_match|]. case_match; [done|].
  destruct (admit_source _ _ _ _ _); [done| |done]. unfold reject_source. case_match; [done|].
  simpl. ledger_commit.
Qed.

Lemma ledger_ApplyInstanceSpec_locked session spec :
  frame ledger (ApplyInstanceSpec_locked session spec).
Proof.
  assert (frame ledger (begin_transition spec)) as Hbegin by (unfold begin_transition; solve_frame).
  intros s. unfold ApplyInstanceSpec_locked. by repeat (case_match; try done).
Qed.

Lemma ledger_spec_sections session spec active statuses :
  frame ledger (commit_spec session spec active statuses) ∧
  frame ledger (activate_spec session statuses).
Proof. split; intros s; unfold commit_spec, activate_spec; by case_match. Qed.

Lemma ledger_turns fence next_heartbeat now :
  frame ledger (control_turn fence next_heartbeat now) ∧ frame ledger (work_turn fence).
Proof.
  split; intros s; unfold control_turn, work_turn, PopControl, PopWork; case_match; try done;
    repeat (case_match; simplify_eq; try done).
Qed.

Lemma ledger_Deactivate_locked : frame ledger Deactivate_locked.
Proof. unfold Deactivate_locked. solve_frame. Qed.

(** ** Sections that only release tokens *)

Create HintDb releases.

Definition releases {A} (m : C A) : Prop :=
  ∀ s, work_tokens_ (m s).2 ⊆ work_tokens_ s ∧ replay_ (m s).2 = replay_ s.

Lemma releases_frame {A} (m : C A) : frame ledger m → releases m.
Proof. intros Hm s. pose proof (Hm s) as [= -> ->]. done. Qed.

Lemma releases_bind {A B} (m : C A) (f : A → C B) :
  releases m → (∀ a, releases (f a)) → releases (mbind f m).
Proof.
  intros Hm Hf s. unfold mbind, M_bind. specialize (Hm s). destruct (m s) as [a s1].
  destruct Hm as [Ht Hr], (Hf a s1) as [Ht' Hr']. simpl in *. split; [by etrans|congruence].
Qed.

Lemma releases_when b (m : C unit) : releases m → releases (when b m).
Proof. intros Hm. by destruct b. Qed.

Lemma releases_ignore {A} (m : C A) : releases m → releases (ignore m).
Proof. intros Hm. by apply releases_bind. Qed.

Lemma releases_ReleaseWorkTokenLocked id : releases (ReleaseWorkTokenLocked id).
Proof.
  intros s. unfold ReleaseWorkTokenLocked, modify. simpl. case_match; simpl; [|done].
  split; [apply delete_subseteq|done].
Qed.

Lemma releases_ReleaseAllWorkTokensLocked : releases ReleaseAllWorkTokensLocked.
Proof.
  intros s. rewrite ReleaseAllWorkTokensLocked_empties. split; [apply map_empty_subseteq|].
  by apply (ReleaseAllWorkTokensLocked_frame replay_).
Qed.

(** What surrounds a release of all tokens. *)
Lemma release_all_between (before after : Impl → Impl) s :
  ledger (before s) = ledger s → (∀ s', ledger (after s') = ledger s') →
  let s' := after (ReleaseAllWorkTokensLocked (before s)).2 in
  work_tokens_ s' ⊆ work_tokens_ s ∧ replay_ s' = replay_ s.
Proof.
  intros [= Hbt Hbr] Ha s'. pose proof (Ha (ReleaseAllWorkTokensLocked (before s)).2) as [= Hat Har].
  destruct (releases_ReleaseAllWorkTokensLocked (before s)) as [Ht Hr].
  subst s'. rewrite Hat, Har, Hr, <-Hbt, <-Hbr. done.
Qed.

Lemma releases_retire_pair : releases retire_pair.
Proof.
  intros s. rewrite retire_pair_state, ClearConnectionStateLocked_state.
  by apply (release_all_between begin_clear finish_clear).
Qed.

Lemma releases_PrepareConnectionPairLocked fence : releases (PrepareConnectionPairLocked fence).
Proof.
  intros s. rewrite PrepareConnectionPairLocked_state.
  by apply (release_all_between begin_pair (finish_pair fence)).
Qed.

Lemma releases_PreparePairReplacement_locked : releases PreparePairReplacement_locked.
Proof.
  apply releases_frame. intros s. rewrite PreparePairReplacement_locked_state.
  exact (ledger_CancelAllWorkLocked (s <| accepting_work_ := false |>)).
Qed.

Lemma releases_spec_sections session spec active statuses :
  releases (commit_spec session spec active statuses) ∧ releases (activate_spec session statuses).
Proof. split; apply releases_frame; apply (ledger_spec_sections _ spec active). Qed.
Lemma releases_turns fence next_heartbeat now :
  releases (control_turn fence next_heartbeat now) ∧ releases (work_turn fence).
Proof. split; apply releases_frame; apply (ledger_turns _ next_heartbeat now). Qed.
Lemma releases_counters : releases work_started ∧ releases job_finished ∧ releases work_finished.
Proof. split_and!; apply releases_frame, ledger_counters. Qed.

Hint Resolve ledger_HandleSourceOpen_locked ledger_MaybeQueueDrainStatusLocked
  ledger_dispatch_take ledger_PublishSource ledger_CloseSource ledger_GrantSourceCredit_locked
  ledger_HandleCancellation_locked ledger_EnqueueSourceOpen_locked
  ledger_ApplyInstanceSpec_locked ledger_Deactivate_locked end_register_view
  EnterSessionLost_locked_view advance_epoch_view ValidateControlHeader_view
  ValidateWorkHeader_view open_attach_gate_view pair_attached_view work_attach_view : frame.
Hint Extern 1 (frame view (SignalSessionFailure_locked _ _)) => apply Signal_locked_view : frame.
Hint Extern 1 (frame view (SignalTerminalSessionFailure_locked _ _)) =>
  apply Signal_locked_view : frame.
Hint Resolve releases_ReleaseWorkTokenLocked releases_ReleaseAllWorkTokensLocked
  releases_retire_pair : releases.
Hint Extern 1 (releases (commit_spec _ _ _ _)) => apply releases_spec_sections : releases.
Hint Extern 1 (releases (activate_spec _ _)) =>
  apply (releases_spec_sections _ AdapterInstanceSpec.empty ∅) : releases.
Hint Extern 1 (releases (control_turn _ _ _)) => apply releases_turns : releases.
Hint Extern 1 (releases (work_turn _)) => apply (releases_turns _ 0 0) : releases.
Hint Extern 1 (releases work_started) => apply releases_counters : releases.
Hint Extern 1 (releases job_finished) => apply releases_counters : releases.
Hint Extern 1 (releases work_finished) => apply releases_counters : releases.

(** Take a section apart into operations of the databases. *)
Ltac solve_releases :=
  repeat lazymatch goal with
  | |- releases (ignore _) => apply releases_ignore
  | |- releases (mbind _ _) => apply releases_bind; [|intros ?]
  | |- releases (when _ _) => apply releases_when
  | |- releases (gets _) => apply releases_frame, frame_gets
  | |- releases (modify _) => apply releases_frame, frame_modify; done
  | |- releases (set_field _ _) => apply releases_frame, frame_set_field; done
  | |- releases _ =>
      first [ solve [auto 2 with releases] | apply releases_frame; solve [auto 2 with frame]
            | apply releases_frame, ledger_view; solve [auto 2 with frame] ]
  end.

Lemma run_user_releases section : releases (run_user section).
Proof. destruct section; cbn [run_user]; solve_releases. Qed.

Lemma run_worker_releases section :
  match section with
  | DoCommitTerminal _ _ | DoSupervisorStopped => True
  | _ => releases (run_worker section)
  end.
Proof. destruct section; try exact I; cbn [run_worker]; unfold EraseWorkToken; solve_releases. Qed.

Lemma run_pair_releases section :
  match section with
  | DoEnqueueUnary _ _ _ | DoEnqueueOperation _ _ _ | DoAcknowledge _ => True
  | _ => releases (run_pair section)
  end.
Proof. destruct section; try exact I; cbn [run_pair]; unfold BeginDrain; solve_releases. Qed.

(** ** The simulation *)

(** The events of one step. *)
Definition simulates (x y : System) : Prop :=
  ∃ events, acts events (books (impl x)) (books (impl y)) ∧ Forall (caused x y) events.

Lemma simulates_one x y event :
  act event (books (impl x)) (books (impl y)) → caused x y event → simulates x y.
Proof.
  intros Ha Hc. exists [event]. split; [|by repeat constructor]. econstructor; [exact Ha|constructor].
Qed.

Lemma simulates_then x y event books' :
  act event (books (impl x)) books' → caused x y event →
  flying (books (impl y)) ⊆ flying books' → kept (books (impl y)) = kept books' → simulates x y.
Proof.
  intros Ha Hc Hf Hk. exists [event; Land (flying books' ∖ flying (books (impl y)))].
  split; [|by repeat constructor]. econstructor; [exact Ha|]. econstructor; [|constructor].
  destruct books' as [f k], (books (impl y)) as [f' k']. simpl in *. subst k'.
  assert (f' = f ∖ (f ∖ f')) as Hf' by (apply set_eq; intros id; destruct (decide (id ∈ f')); set_solver).
  rewrite Hf' at 2. constructor. set_solver.
Qed.

Lemma simulates_releases x y :
  work_tokens_ (impl y) ⊆ work_tokens_ (impl x) → replay_ (impl y) = replay_ (impl x) →
  simulates x y.
Proof.
  intros Ht Hr. apply (simulates_then x y (Land ∅) (books (impl x))); [|constructor| |].
  - unfold books. replace (mkBooks _ _) with
      (mkBooks (dom (work_tokens_ (impl x)) ∖ ∅) (promise_of <$> replay_ (impl x))) at 2
      by (f_equal; set_solver). constructor. set_solver.
  - simpl. by apply subseteq_dom.
  - simpl. by rewrite Hr.
Qed.

Lemma simulates_section {A} (m : C A) p s n :
  releases m → simulates (mkSystem p s n) (mkSystem p (m s).2 n).
Proof. intros Hm. apply simulates_releases; apply Hm. Qed.

Lemma replay_entry_promise job frame unary operation digest bytes :
  replay_entry job frame = Some (unary, operation, digest) →
  promise_of (ReplayEntry.make (DispatchJob.kind job) (DispatchJob.fingerprint job)
    unary operation digest bytes) =
  mkPromise (DispatchJob.kind job) (DispatchJob.fingerprint job) frame digest.
Proof.
  unfold replay_entry, promise_of. destruct (DispatchJob.kind job), frame; try done;
    intros (d & _ & Hd)%bind_Some; by injection Hd as <- <- <-.
Qed.

Lemma simulates_commit job frame p s n :
  Bounded s → simulates (mkSystem p s n) (mkSystem p (CommitTerminalFrame job frame s).2 n).
Proof.
  intros Hs. destruct (decide ((CommitTerminalFrame job frame s).1 = kCommitted)) as [Hc|Hc].
  - destruct (CommitTerminalFrame_state s job frame Hs Hc)
      as (entry & digest & unary & operation & He & Hentry & Hnew & Hrep & Htok & _).
    destruct (replay_entry_message job frame _ _ _ He) as (message & Hm & Hd).
    pose proof (replay_entry_promise job frame unary operation digest
      (ReplayEntry.accounted_bytes entry) He) as Hp.
    eapply simulates_then; [|by eapply (CauseRetain job frame digest)| |].
    + apply ActRetain; [cbn [impl]; by rewrite lookup_fmap, Hnew|]. by exists message.
    + simpl. rewrite Htok. apply subseteq_dom. unfold convert_reservation.
      case_match; [apply delete_subseteq|done].
    + simpl. rewrite Hrep, fmap_insert. f_equal. by subst entry.
  - apply simulates_releases; simpl;
      by destruct (CommitTerminalFrame_other s job frame Hc) as [->| ->].
Qed.

Definition queued_or_same (s : Impl) (r : DispatchDecision * Impl) : Prop :=
  r.1 = Enqueued ∨ ledger r.2 = ledger s.

Lemma EnqueueDispatch_ledger job s : queued_or_same s (EnqueueDispatch_locked job s).
Proof.
  unfold EnqueueDispatch_locked. destruct (replay_ s !! _); [right; by repeat case_match|].
  do 6 (case_match; [by right|]). simpl.
  match goal with |- context [ReserveTerminalReplayLocked ?j ?u] =>
    destruct (ReserveTerminalReplayLocked j u) as [[[] job'] s'] eqn:Hr end; [by left|right].
  by apply ReserveTerminalReplayLocked_false in Hr as [_ ->].
Qed.

Lemma simulates_enqueue job s n :
  Bounded s → simulates (mkSystem Paired s n) (mkSystem Paired (EnqueueDispatch_locked job s).2 n).
Proof.
  intros Hs. destruct (EnqueueDispatch_ledger job s) as [Hq|Hq].
  - pose proof (EnqueueDispatch_enqueued s job Hs Hq) as Ha.
    pose proof (CauseAdmit job s n Hq) as Hc.
    rewrite (EnqueueDispatch_admissible s job Hs Ha) in Hc |- *.
    destruct Ha as (Hid & Hrep & _ & _ & Htok & _). eapply simulates_one; [|exact Hc].
    unfold books. simpl. rewrite dom_insert_L. constructor; [done| |by rewrite lookup_fmap, Hrep].
    by apply not_elem_of_dom.
  - injection Hq as Ht Hr. apply simulates_releases; simpl; [by rewrite Ht|done].
Qed.

Lemma simulates_acknowledge ack s n :
  Bounded s →
  simulates (mkSystem Paired s n)
    (mkSystem Paired (HandleTerminalAcknowledgement_locked ack s).2 n).
Proof.
  intros Hs. destruct ack as [[id|id|] digest].
  - pose proof (CauseAcknowledge id digest s n) as Hc.
    destruct (ack_work_cases s id digest) as [[_ Hok]|[_ Hsame]];
      [|apply simulates_releases; simpl; by rewrite Hsame].
    rewrite (ack_work_ok s id digest Hs Hok) in Hc |- *.
    destruct Hok as (_ & _ & Ht & _ & _ & Hr).
    destruct (replay_ s !! id) as [entry|] eqn:He;
      [|apply simulates_releases; simpl; [done|by rewrite delete_id]].
    eapply simulates_one; [|exact Hc]. unfold books. simpl. rewrite <-(Hr entry) by done.
    rewrite fmap_delete. apply (ActAcknowledge id (promise_of entry)).
    + by apply not_elem_of_dom.
    + by rewrite lookup_fmap, He.
  - apply simulates_releases; unfold HandleTerminalAcknowledgement_locked; simpl; by repeat case_match.
  - apply simulates_releases; unfold HandleTerminalAcknowledgement_locked; simpl; by repeat case_match.
Qed.

Lemma simulates_end x y :
  work_tokens_ (impl y) ⊆ work_tokens_ (impl x) → replay_ (impl y) = ∅ →
  caused x y EndSession → simulates x y.
Proof.
  intros Ht Hr Hc. eapply simulates_then; [apply ActEnd|done| |].
  - by apply subseteq_dom.
  - simpl. by rewrite Hr.
Qed.

Lemma ledger_finish_reset s : ledger (finish_reset s) = (work_tokens_ s, ∅).
Proof. reflexivity. Qed.

Lemma ResetSessionLocked_ledger s : ledger (ResetSessionLocked s).2 = (∅, ∅).
Proof.
  rewrite ResetSessionLocked_state, ledger_finish_reset.
  by rewrite ReleaseAllWorkTokensLocked_empties.
Qed.

Lemma simulates_reset p s n :
  simulates (mkSystem p s n) (mkSystem p (run_worker DoSupervisorStopped s).2 n).
Proof.
  assert (ledger (run_worker DoSupervisorStopped s).2 = (∅, ∅)) as Hl.
  { pose proof (ResetSessionLocked_ledger s) as Hr. cbn [run_worker]. unfold mbind, M_bind.
    by destruct (ResetSessionLocked s) as [u s1]. }
  apply simulates_end; cbn [impl]; [|exact (f_equal snd Hl)|constructor].
  change (fst (ledger (run_worker DoSupervisorStopped s).2) ⊆ work_tokens_ s).
  rewrite Hl. apply map_empty_subseteq.
Qed.

Lemma simulates_stopped s n :
  simulates (mkSystem Joined s n) (mkSystem Idle (Stop_finish s).2 n).
Proof.
  apply simulates_end; cbn [impl]; [| |constructor].
  - destruct (Stop_finish_empty s) as [-> _]. apply map_empty_subseteq.
  - by rewrite Stop_finish_state.
Qed.

Lemma start_threads_ledger workers s :
  match (start_threads workers s).1 with
  | Some _ => (start_threads workers s).2 = s
  | None => ledger (start_threads workers s).2 = (work_tokens_ s, ∅)
  end.
Proof.
  unfold start_threads, Start_locked, mbind, M_bind.
  by destruct (negb (bool_decide (state_ s = kStopped)) || _ || _).
Qed.

Lemma simulates_start workers p s n :
  simulates (mkSystem p s n)
    (mkSystem (match (start_threads workers s).1 with None => Between | Some _ => p end)
       (start_threads workers s).2 n).
Proof.
  pose proof (CauseStart workers p s n) as Hc. pose proof (start_threads_ledger workers s) as Hl.
  destruct (start_threads workers s) as [[error|] s']; simpl in *.
  - subst. by apply simulates_releases.
  - injection Hl as Ht Hr. apply simulates_end; simpl; [by rewrite Ht|done|by apply Hc].
Qed.

Lemma step_simulates x y : SystemInv x → Step x y → simulates x y.
Proof.
  intros Hinv Hstep. pose proof (inv_bounded _ Hinv) as Hb. clear Hinv.
  destruct Hstep as [section p s n|effect p s n|now p s n|section p s n Hp
    |section s n|context s n|fence s n Hf|fence s n|s n|workers p s n Hp|p s n|s n|s n|s n];
    cbn [impl] in Hb.
  - apply simulates_section, run_user_releases.
  - by apply simulates_releases.
  - by apply simulates_releases.
  - pose proof (run_worker_releases section) as Hw.
    destruct section; try exact (simulates_section _ _ _ _ Hw).
    + by apply simulates_commit.
    + apply simulates_reset.
  - pose proof (run_pair_releases section) as Hw.
    destruct section; try exact (simulates_section _ _ _ _ Hw).
    + by apply simulates_enqueue.
    + by apply simulates_enqueue.
    + by apply simulates_acknowledge.
  - unfold begin_register. apply simulates_releases; cbn [impl]; by repeat case_match.
  - by apply simulates_releases.
  - apply simulates_releases; apply releases_PrepareConnectionPairLocked.
  - apply simulates_releases; apply releases_PreparePairReplacement_locked.
  - apply simulates_start.
  - apply (simulates_section Stop_locked), releases_frame, ledger_view, Stop_locked_frames.
  - by apply simulates_releases.
  - apply (simulates_section Deactivate_locked), releases_frame, ledger_Deactivate_locked.
  - apply simulates_stopped.
Qed.

(** ** What the machine promises *)

Lemma act_keeps event b b' id promise :
  act event b b' → kept b !! id = Some promise →
  kept b' !! id = Some promise ∨ event = Acknowledge id (promised_digest promise) ∨
  event = EndSession.
Proof.
  intros Ha Hk. destruct Ha as [id' f k Hid Hf Hn|id' p f k Hn Hp|ids f k Hs|id' p f k Hf Hn|f k];
    simpl in *; auto.
  - left. rewrite lookup_insert_ne; [done|]. by intros ->; simplify_eq.
  - destruct (decide (id' = id)) as [->|Hne]; [right; left; by simplify_eq|].
    left. by rewrite lookup_delete_ne.
Qed.

Lemma acts_keep events b b' id promise :
  acts events b b' → kept b !! id = Some promise →
  kept b' !! id = Some promise ∨ Acknowledge id (promised_digest promise) ∈ events ∨
  EndSession ∈ events.
Proof.
  intros Ha. induction Ha as [|e es b1 b2 b3 He _ IH]; intros Hk; [by left|].
  destruct (act_keeps _ _ _ _ _ He Hk) as [Hk'|[->| ->]]; [|set_solver..].
  destruct (IH Hk') as [?|[?|?]]; set_solver.
Qed.

(** The step from [a] to [b] releases the promise of [id], or ends the session. *)
Definition releases_promise (a b : System) (id : string) (promise : Promise) : Prop :=
  caused a b (Acknowledge id (promised_digest promise)) ∨ caused a b EndSession.

Lemma step_keeps a b id promise :
  SystemInv a → Step a b → kept (books (impl a)) !! id = Some promise →
  kept (books (impl b)) !! id = Some promise ∨ releases_promise a b id promise.
Proof.
  intros Ha Hs Hk. destruct (step_simulates a b Ha Hs) as (events & Hacts & Hc).
  rewrite Forall_forall in Hc. unfold releases_promise.
  destruct (acts_keep _ _ _ _ _ Hacts Hk) as [?|[?|?]]; auto.
Qed.

Lemma SystemInv_steps x y : SystemInv x → rtc Step x y → SystemInv y.
Proof. intros Hx. induction 1; eauto using SystemInv_step. Qed.

Lemma kept_not_admitted y z id promise :
  SystemInv y → kept (books (impl y)) !! id = Some promise → ¬ caused y z (Admit id).
Proof.
  intros Hy Hk Hc. inversion Hc as [job s n Hq| | | | | |]; subst. simpl in *.
  destruct (EnqueueDispatch_enqueued s job (inv_bounded _ Hy) Hq) as (_ & Hr & _).
  rewrite lookup_fmap, Hr in Hk. done.
Qed.


End lifecycle.

(** ** An execution *)

Module SampleLife.
Import Sample SampleSystem.

Definition frame : WorkFrame := unary_response SampleTerminals.response.

(** A terminal is committed on the first pair, and the pair is replaced. *)
Definition s5 : Impl := (run_worker (DoCommitTerminal SampleTerminals.job frame) s4).2.
Definition s6 : Impl := (PreparePairReplacement_locked s5).2.
Definition promise : Promise :=
  mkPromise kUnary (digest_of "a") frame SampleTerminals.digest.

Definition x4 : System := mkSystem Paired s4 1.
Definition x5 : System := mkSystem Paired s5 1.
Definition x6 : System := mkSystem Between s6 1.

Lemma committed : Step x4 x5.
Proof. apply StepWorker. by right. Qed.

Lemma replaced : Step x5 x6.
Proof. apply StepReplace. Qed.

Lemma answered : reachable sample_config callbacks_bound x5.
Proof. eapply reach_step; [exact paired|exact committed]. Qed.

Lemma promised : kept (books (impl x5)) !! "w-1" = Some promise.
Proof. vm_compute. reflexivity. Qed.
End SampleLife.

Import Sample.


