(* ===== verification/Callbacks.v ===== *)
(** * The order of application callbacks in a specification transition

    [effects_] records every callback the client makes.  This file says which ones
    [ApplyInstanceSpec] makes and in which order, for every answer of the
    application: what was started is stopped, once, in reverse order, and what was
    applied is cleared. *)

From S2P Require Import Prelude Text Digest Messages Clock Config State Queue Bounds.
From S2P Require Import Stream StreamFacts Sample Spec SpecFacts Session SessionFacts.

(** ** Traces *)

Definition called (e : Effect) : option Call :=
  match e with EffectCall c => Some c | _ => None end.

(** The callbacks made so far. *)
Definition calls (s : Impl) : list Call := omap called (effects_ s).

(** From a state with [I], [m] makes the calls [t] and ends with [Q]. *)
Definition traced {A} (I : Impl → Prop) (m : C A) (Q : A → list Call → Impl → Prop) : Prop :=
  ∀ s, I s → ∃ t, calls (m s).2 = calls s ++ t ∧ Q (m s).1 t (m s).2.

Lemma traced_ret {A} (I : Impl → Prop) (a : A) (Q : A → list Call → Impl → Prop) :
  (∀ s, I s → Q a [] s) → traced I (mret a) Q.
Proof. intros HQ s Hs. exists []. split; [by rewrite app_nil_r|by apply HQ]. Qed.

Lemma traced_bind {A B} (I : Impl → Prop) (m : C A) (k : A → C B)
    (R : A → list Call → Impl → Prop) (Q : B → list Call → Impl → Prop) :
  traced I m R → (∀ a t, traced (R a t) (k a) (λ b t', Q b (t ++ t'))) → traced I (m ≫= k) Q.
Proof.
  intros Hm Hk s Hs. destruct (Hm s Hs) as (t & Ht & HR). unfold mbind, M_bind.
  destruct (m s) as [a s1]. destruct (Hk a t s1 HR) as (t' & Ht' & HQ).
  exists (t ++ t'). split; [|done]. simpl in *. by rewrite Ht', Ht, (assoc_L (++)).
Qed.

Lemma traced_weaken {A} (I I' : Impl → Prop) (m : C A) (Q Q' : A → list Call → Impl → Prop) :
  traced I m Q → (∀ s, I' s → I s) → (∀ a t s, Q a t s → Q' a t s) → traced I' m Q'.
Proof. intros Hm HI HQ s Hs. destruct (Hm s (HI s Hs)) as (t & Ht & Hq). eauto. Qed.

Lemma traced_silent {A} (I : Impl → Prop) (m : C A) :
  frame calls m → keeps I m → traced I m (λ _ t s, t = [] ∧ I s).
Proof.
  intros Hc Hk s Hs. exists []. rewrite app_nil_r. split; [apply Hc|]. split; [done|by apply Hk].
Qed.

(** A computation that does nothing else, then the rest. *)
Lemma traced_then {A B} (I : Impl → Prop) (m : C A) (k : A → C B) (t : list Call)
    (Q : B → list Call → Impl → Prop) :
  traced I m (λ _ t' s, t' = t ∧ I s) → (∀ a, traced I (k a) (λ b t', Q b (t ++ t'))) →
  traced I (m ≫= k) Q.
Proof.
  intros Hm Hk. eapply traced_bind; [exact Hm|]. intros a t'.
  intros s [-> Hs]. by apply Hk.
Qed.

Lemma traced_pass {A B} (I : Impl → Prop) (a : A) (k : A → C B)
    (Q : B → list Call → Impl → Prop) : traced I (k a) Q → traced I (mret a ≫= k) Q.
Proof. intros Hk. exact Hk. Qed.

(** A computation that keeps [I] and makes calls with [φ]. *)
Lemma traced_seq {A B} (I : Impl → Prop) (m : C A) (k : A → C B) (φ : A → list Call → Prop)
    (Q : B → list Call → Impl → Prop) :
  traced I m (λ a t s, I s ∧ φ a t) →
  (∀ a t, φ a t → traced I (k a) (λ b t', Q b (t ++ t'))) → traced I (m ≫= k) Q.
Proof.
  intros Hm Hk. eapply traced_bind; [exact Hm|]. intros a t s [Hs Ht]. by apply Hk.
Qed.

(** ** The calls of each operation *)

Definition bound_in (config : ClientConfig) (flag : CapabilityCallbacks → bool) (binding : nat)
    (c : Call) : list Call :=
  if from_option (λ b, flag (callbacks b)) false (capabilities config !! binding) then [c] else [].

Definition stop_call (config : ClientConfig) (binding : nat) : list Call :=
  bound_in config cb_stop binding (CallStop binding).
Definition ready_call (config : ClientConfig) (binding : nat) : list Call :=
  bound_in config cb_ready binding (CallReady binding).
Definition start_call (config : ClientConfig) (spec : AdapterInstanceSpec.t)
    (grant : nat * EnabledCapability.t) : list Call :=
  bound_in config cb_start grant.1 (CallStart grant.1 spec grant.2).
Definition closed_call (config : ClientConfig) (reason : string) (source : SourceState.t)
    : list Call :=
  bound_in config cb_source_closed (SourceState.binding_index source)
    (CallSourceClosed (SourceState.binding_index source) (SourceState.request source)
       (source_closed_error reason)).
Definition clear_call (cbs : ClientCallbacks) : list Call :=
  if cb_clear_instance_spec cbs then [CallClearInstanceSpec] else [].
Definition apply_call (cbs : ClientCallbacks) (spec : AdapterInstanceSpec.t) : list Call :=
  if cb_apply_instance_spec cbs then [CallApplyInstanceSpec spec] else [].

(** The bindings a table of active capabilities names, in the order of its keys. *)
Definition active_bindings (active : gmap string ActiveCapability.t) : list nat :=
  map (λ entry, ActiveCapability.binding_index entry.2) (entries active).

(** What deactivation calls. *)
Definition deactivation_calls (s : Impl) (reason : string) : list Call :=
  (reverse (active_bindings (active_capabilities_ s)) ≫= stop_call (config_ s)) ++
  (if spec_revision_ s =? 0 then [] else clear_call (callbacks_ s)) ++
  (map snd (entries (source_streams_ s)) ≫= closed_call (config_ s) reason).

Section traces.
Context `{Protobuf} `{Environment} `{!Sequential}.

Section fixed.
Context {F : Type} (f : Impl → F) (Hf : ∀ e s, f (s <| effects_ := effects_ s ++ [e] |>) = f s).
Context (v : F) (config : ClientConfig) (cbs : ClientCallbacks).
Context (Hconfig : ∀ s, f s = v → config_ s = config) (Hcbs : ∀ s, f s = v → callbacks_ s = cbs).

Definition fixed (s : Impl) : Prop := f s = v.

Lemma traced_config {B} (k : ClientConfig → C B) Q :
  traced fixed (k config) Q → traced fixed (gets config_ ≫= k) Q.
Proof.
  intros Hk s Hs. unfold mbind, M_bind, gets. rewrite (Hconfig s Hs). by apply Hk.
Qed.

Lemma traced_flag {B} (flag : ClientCallbacks → bool) (k : bool → C B) Q :
  traced fixed (k (flag cbs)) Q → traced fixed (gets (λ s, flag (callbacks_ s)) ≫= k) Q.
Proof.
  intros Hk s Hs. unfold mbind, M_bind, gets. rewrite (Hcbs s Hs). by apply Hk.
Qed.

Lemma traced_call c : traced fixed (call c) (λ _ t s, t = [c] ∧ fixed s).
Proof.
  intros s Hs. exists [c]. unfold call, mbind, M_bind. simpl. rewrite seq_invoke. split_and!; [|done|].
  - unfold calls. simpl. by rewrite omap_app.
  - unfold fixed. by rewrite Hf.
Qed.

Lemma traced_Log level message : traced fixed (Log level message) (λ _ t s, t = [] ∧ fixed s).
Proof.
  apply traced_silent.
  - apply frame_bind; [done|]. intros b. apply frame_when, frame_modify. intros s.
    unfold calls. simpl. by rewrite omap_app, app_nil_r.
  - intros s Hs. unfold fixed. by rewrite (seq_Log f Hf).
Qed.

Lemma traced_safe_call label c :
  traced fixed (safe_call label c) (λ _ t s, t = [c] ∧ fixed s).
Proof.
  unfold safe_call. eapply traced_then; [apply traced_call|].
  intros []; [by apply traced_ret|..];
    (eapply traced_then; [apply traced_Log|intros ?; by apply traced_ret]).
Qed.

Lemma traced_safe label c b :
  traced fixed (when b (safe_call label c ;; mret tt))
    (λ _ t s, t = (if b : bool then [c] else []) ∧ fixed s).
Proof.
  destruct b; [|by apply traced_ret]. eapply traced_then; [apply traced_safe_call|].
  intros ?. apply traced_ret. intros s Hs. done.
Qed.

Lemma traced_SafeStopCapability binding :
  traced fixed (SafeStopCapability binding) (λ _ t s, t = stop_call config binding ∧ fixed s).
Proof.
  apply traced_config. unfold stop_call, bound_in.
  destruct (capabilities config !! binding) as [b|]; simpl; [|by apply traced_ret].
  apply (traced_safe "capability stop" (CallStop binding)).
Qed.

Lemma traced_NotifySourceClosed reason source :
  traced fixed (NotifySourceClosed source (source_closed_error reason))
    (λ _ t s, t = closed_call config reason source ∧ fixed s).
Proof.
  apply traced_config. unfold closed_call, bound_in.
  destruct (capabilities config !! _) as [b|]; simpl; [|by apply traced_ret].
  apply (traced_safe "source_closed" (CallSourceClosed _ _ _)).
Qed.

Lemma traced_SafeClearInstanceSpec :
  traced fixed SafeClearInstanceSpec (λ _ t s, t = clear_call cbs ∧ fixed s).
Proof.
  apply (traced_flag cb_clear_instance_spec).
  apply (traced_safe "clear_instance_spec" CallClearInstanceSpec).
Qed.

Lemma traced_for_each {X} (g : X → C unit) (h : X → list Call) xs :
  (∀ x, traced fixed (g x) (λ _ t s, t = h x ∧ fixed s)) →
  traced fixed (for_each g xs) (λ _ t s, t = (xs ≫= h) ∧ fixed s).
Proof.
  intros Hg. induction xs as [|x xs IH]; simpl; [by apply traced_ret|].
  eapply traced_then; [apply Hg|]. intros _.
  eapply traced_weaken; [exact IH|done|]. by intros _ t s [-> Hs].
Qed.

Lemma traced_apply_top_level spec :
  traced fixed (apply_top_level spec) (λ r t s, fixed s ∧
    if r.1 : bool then t = apply_call cbs spec
    else cb_apply_instance_spec cbs = true ∧ t = CallApplyInstanceSpec spec :: clear_call cbs).
Proof.
  apply (traced_flag cb_apply_instance_spec). unfold apply_call.
  destruct (cb_apply_instance_spec cbs); [|by apply traced_ret].
  eapply traced_then; [apply (traced_call (CallApplyInstanceSpec spec))|]. intros outcome.
  destruct outcome as [[[] e]|what|]; simpl; [by apply traced_ret|..];
    (eapply traced_then; [apply traced_SafeClearInstanceSpec|];
     intros _; apply traced_ret; intros s' Hs'; simpl; by rewrite app_nil_r).
Qed.

(** One start. *)
Lemma traced_start spec binding grant apply_error :
  traced fixed
    (if from_option (λ b, cb_start (callbacks b)) false (capabilities config !! binding) then
       outcome ← call (CallStart binding spec grant);
       mret (match outcome with
             | Returned (started_ok, error) => (started_ok, error)
             | ThrewException what => (false, "capability start threw: " +:+ what)
             | ThrewUnknown => (false, "capability start threw an unknown exception")
             end)
     else mret (true, apply_error))
    (λ _ t s, t = start_call config spec (binding, grant) ∧ fixed s).
Proof.
  unfold start_call, bound_in. simpl. case_match; [|by apply traced_ret].
  eapply traced_then; [apply (traced_call (CallStart binding spec grant))|].
  intros outcome. apply traced_ret. intros s Hs. by rewrite app_nil_r.
Qed.

(** [k] grants started; a failure is the one after them. *)
Lemma traced_start_capabilities spec grants started apply_error :
  traced fixed (start_capabilities spec grants started apply_error) (λ r t s, fixed s ∧
    ∃ k, (k ≤ length grants)%nat ∧ r.1.1 = started ++ take k (map fst grants) ∧
         t = (take (S k) grants ≫= start_call config spec)).
Proof.
  revert started apply_error. induction grants as [|[binding grant] grants IH]; intros started apply_error.
  { apply traced_ret. intros s Hs. split; [done|]. exists 0%nat. by rewrite app_nil_r. }
  cbn [start_capabilities]. apply traced_config.
  eapply traced_then; [apply traced_start|]. intros [[] e].
  - eapply traced_weaken; [apply IH|done|]. intros [[started' failed] e'] t s' (Hs' & k & Hk & Hst & ->).
    split; [done|]. exists (S k). simpl in *. split_and!; [lia| |done].
    by rewrite Hst, <-(assoc_L (++)).
  - apply traced_ret. intros s' Hs'. split; [done|]. exists 0%nat. simpl.
    split_and!; [lia|by rewrite app_nil_r|]. destruct grants; simpl; by rewrite ?app_nil_r.
Qed.

(** The calls of the [ready] loop: all bindings, or up to the one that failed. *)
Definition ready_outcome (started : list nat) (failed : option nat) (t : list Call) : Prop :=
  match failed with
  | None => t = (started ≫= ready_call config)
  | Some b => ∃ k, started !! k = Some b ∧ t = (take (S k) started ≫= ready_call config)
  end.

Lemma ready_outcome_cons binding started failed t :
  ready_outcome started failed t →
  ready_outcome (binding :: started) failed (ready_call config binding ++ t).
Proof. destruct failed as [b|]; simpl; [intros (k & Hk & ->); by exists (S k)|by intros ->]. Qed.

Lemma traced_ready_callbacks started :
  traced fixed (ready_callbacks started) (λ r t s, fixed s ∧ ready_outcome started r t).
Proof.
  induction started as [|binding started IH]; [by apply traced_ret|].
  cbn [ready_callbacks]. apply traced_config.
  pose proof (ready_outcome_cons binding started) as Hcons. unfold ready_call, bound_in in Hcons.
  case_match eqn:Hb.
  - eapply traced_then; [apply (traced_safe_call _ (CallReady binding))|]. intros [[]|].
    + eapply traced_weaken; [exact IH|done|]. intros r t s [Hs Ht]. split; [done|]. by apply Hcons.
    + apply traced_ret. intros s Hs. split; [done|]. exists 0%nat. split; [done|].
      simpl. unfold ready_call, bound_in. by rewrite Hb.
  - eapply traced_weaken; [exact IH|done|]. intros r t s [Hs Ht]. split; [done|]. by apply Hcons.
Qed.
End fixed.

(** Everything but the record of effects. *)
Definition mute (s : Impl) : Impl := s <| effects_ := [] |>.

Lemma mute_emit e s : mute (s <| effects_ := effects_ s ++ [e] |>) = mute s.
Proof. reflexivity. Qed.
Lemma mute_config s s' : mute s = mute s' → config_ s = config_ s'.
Proof. intros E. exact (f_equal config_ E). Qed.
Lemma mute_callbacks s s' : mute s = mute s' → callbacks_ s = callbacks_ s'.
Proof. intros E. exact (f_equal callbacks_ E). Qed.

(** The section of a deactivation makes no call and finds what the state holds. *)
Lemma Deactivate_locked_found s :
  (Deactivate_locked s).1 =
    (active_bindings (active_capabilities_ s), map snd (entries (source_streams_ s)),
     negb (spec_revision_ s =? 0)) ∧
  calls (Deactivate_locked s).2 = calls s ∧ config_ (Deactivate_locked s).2 = config_ s ∧
  callbacks_ (Deactivate_locked s).2 = callbacks_ s.
Proof.
  set (f := λ s, (active_capabilities_ s, source_streams_ s, spec_revision_ s, effects_ s,
                  config_ s, callbacks_ s)).
  assert (f (CancelAllWorkLocked (s <| accepting_work_ := false |>)).2 = f s) as Hc
    by (by rewrite (CancelAllWorkLocked_frame f)).
  unfold Deactivate_locked, mbind, M_bind. simpl.
  destruct (CancelAllWorkLocked (s <| accepting_work_ := false |>)) as [[] s1]. simpl in *.
  injection Hc as E1 E2 E3 E4 E5 E6. unfold active_bindings, calls. simpl.
  rewrite E1, E2, E3, E4, E5, E6. done.
Qed.

(** A wait of a thread that runs alone. *)
Lemma traced_wait {F} (f : Impl → F) v p : traced (fixed f v) (wait_until p) (λ _ t s, t = [] ∧ fixed f v s).
Proof. apply traced_silent; intros s; unfold fixed; by rewrite seq_wait. Qed.

Lemma traced_deactivate reason s0 :
  traced (λ s, s = s0) (DeactivateApplicationUnlocked reason)
    (λ _ t s, t = deactivation_calls s0 reason ∧ mute s = mute (Deactivate_locked s0).2).
Proof.
  destruct (Deactivate_locked_found s0) as (Hfound & Hcalls & Hconfig & Hcbs).
  apply (traced_bind _ _ _ (λ found t s, found = (Deactivate_locked s0).1 ∧ t = [] ∧
    s = (Deactivate_locked s0).2)).
  { intros s ->. exists []. by rewrite app_nil_r. }
  destruct (Deactivate_locked s0) as [found s1]. simpl in *. subst found.
  intros found t s (-> & -> & ->). set (v := mute s1).
  assert (∀ s, fixed mute v s → config_ s = config_ s0) as Hc
    by (intros s Hs; by rewrite (mute_config _ _ Hs)).
  assert (∀ s, fixed mute v s → callbacks_ s = callbacks_ s0) as Hb
    by (intros s Hs; by rewrite (mute_callbacks _ _ Hs)).
  cut (traced (fixed mute v)
    (preempt ;; WaitForCallbacks ;;
     for_each SafeStopCapability (reverse (active_bindings (active_capabilities_ s0))) ;;
     when (negb (spec_revision_ s0 =? 0)) SafeClearInstanceSpec ;;
     for_each (λ stream, NotifySourceClosed stream (source_closed_error reason))
       (map snd (entries (source_streams_ s0))))
    (λ _ t s, t = deactivation_calls s0 reason ∧ fixed mute v s)); [by intros Hr; apply Hr|].
  rewrite seq_preempt.
  apply traced_pass.
  eapply traced_then; [apply traced_wait|]. intros _.
  eapply traced_then.
  { apply (traced_for_each mute v). intros x. by apply traced_SafeStopCapability. }
  intros _. eapply (traced_then _ _ _ (if spec_revision_ s0 =? 0 then [] else clear_call (callbacks_ s0))).
  { destruct (spec_revision_ s0 =? 0); [by apply traced_ret|]. by apply traced_SafeClearInstanceSpec. }
  intros _. eapply traced_weaken.
  { apply (traced_for_each mute v). intros x. by apply (traced_NotifySourceClosed mute mute_emit v). }
  - done.
  - intros _ t s [-> Hs]. done.
Qed.

(** ** A transition *)

(** The callbacks of a transition, after the previous specification was deactivated,
    and whether it is reported as applied. *)
Inductive transition_trace (config : ClientConfig) (cbs : ClientCallbacks)
    (spec : AdapterInstanceSpec.t) (grants : list (nat * EnabledCapability.t))
    : bool → list Call → Prop :=
| TraceRejected :
    cb_apply_instance_spec cbs = true →
    transition_trace config cbs spec grants false
      (CallApplyInstanceSpec spec :: clear_call cbs)
| TraceStartFailed k :
    (k < length grants)%nat →
    transition_trace config cbs spec grants false
      (apply_call cbs spec ++ (take (S k) grants ≫= start_call config spec) ++
       (reverse (take k (map fst grants)) ≫= stop_call config) ++ clear_call cbs)
| TraceReadyFailed k :
    (k < length grants)%nat →
    transition_trace config cbs spec grants false
      (apply_call cbs spec ++ (grants ≫= start_call config spec) ++
       (take (S k) (map fst grants) ≫= ready_call config) ++
       (reverse (active_bindings (active_map grants)) ≫= stop_call config) ++ clear_call cbs)
| TraceApplied :
    transition_trace config cbs spec grants true
      (apply_call cbs spec ++ (grants ≫= start_call config spec) ++
       (map fst grants ≫= ready_call config)).

Lemma traced_spec_apply_failed v spec applied started failed error config cbs :
  (∀ s, fixed mute v s → config_ s = config) → (∀ s, fixed mute v s → callbacks_ s = cbs) →
  traced (fixed mute v) (spec_apply_failed spec applied started failed error)
    (λ r t _, ApplyInstanceSpecResult.applied r = false ∧
       t = (reverse started ≫= stop_call config) ++ (if applied : bool then clear_call cbs else [])).
Proof.
  intros Hc Hb. eapply traced_then.
  { apply (traced_for_each mute v). intros x. by apply traced_SafeStopCapability. }
  intros _. eapply (traced_then _ _ _ (if applied then clear_call cbs else [])).
  { destruct applied; [by apply traced_SafeClearInstanceSpec|by apply traced_ret]. }
  intros _ s Hs. exists []. rewrite seq_preempt, !app_nil_r. done.
Qed.

(** What the new specification looks like once it is committed. *)
Definition committed_fields (s : Impl) :=
  (config_ s, callbacks_ s, active_capabilities_ s, spec_revision_ s, source_streams_ s).

Lemma committed_emit e s :
  committed_fields (s <| effects_ := effects_ s ++ [e] |>) = committed_fields s.
Proof. reflexivity. Qed.

Lemma traced_ready_failed config cbs spec grants failed :
  AdapterInstanceSpec.revision spec ≠ 0 →
  traced (fixed committed_fields
            (config, cbs, active_map grants, AdapterInstanceSpec.revision spec, ∅))
    (ready_failed spec failed)
    (λ r t _, ApplyInstanceSpecResult.applied r = false ∧
       t = (reverse (active_bindings (active_map grants)) ≫= stop_call config) ++ clear_call cbs).
Proof.
  intros Hrev s Hs.
  destruct (traced_deactivate "capability ready callback failed" s s eq_refl) as (t & Ht & -> & _).
  exists (deactivation_calls s "capability ready callback failed"). split_and!.
  - rewrite <-Ht. unfold ready_failed. rewrite seq_preempt. reflexivity.
  - reflexivity.
  - unfold fixed, committed_fields in Hs. unfold deactivation_calls.
    injection Hs as -> -> -> -> ->. apply Z.eqb_neq in Hrev. rewrite Hrev.
    by rewrite app_nil_r.
Qed.

Lemma traced_spec_started v session spec grants config cbs :
  AdapterInstanceSpec.revision spec ≠ 0 →
  (∀ s, fixed mute v s → config_ s = config ∧ callbacks_ s = cbs ∧ source_streams_ s = ∅ ∧
                         session_stale s session = false) →
  traced (fixed mute v) (spec_started session spec grants (map fst grants))
    (λ r t _, transition_trace config cbs spec grants (ApplyInstanceSpecResult.applied r)
       (apply_call cbs spec ++ (grants ≫= start_call config spec) ++ t)).
Proof.
  intros Hrev Hv. unfold spec_started. rewrite seq_preempt.
  apply (traced_config _ v config); [naive_solver|].
  apply traced_pass.
  set (w := (config, cbs, active_map grants, AdapterInstanceSpec.revision spec,
             ∅ : gmap string SourceState.t)).
  apply (traced_bind _ _ _ (λ c t s, c = true ∧ t = [] ∧ fixed committed_fields w s)).
  { intros s Hs. exists []. rewrite app_nil_r. destruct (Hv s Hs) as (E1 & E2 & E3 & Hstale).
    unfold commit_spec. rewrite Hstale. split_and!; [done..|].
    unfold fixed, committed_fields, w. simpl. by rewrite E1, E2, E3. }
  intros c t s (-> & -> & Hs). revert s Hs.
  cut (traced (fixed committed_fields w)
    (mret () ;; failed ← ready_callbacks (map fst grants);
     match failed with
     | Some binding_index => ready_failed spec binding_index
     | None => mret () ;; activate_spec session (ready_statuses config grants) ;;
         Log kInfo ("full instance spec applied at revision " +:+
                    to_string (AdapterInstanceSpec.revision spec)) ;;
         mret (spec_answer spec true None (ready_statuses config grants))
     end)
    (λ r t _, transition_trace config cbs spec grants (ApplyInstanceSpecResult.applied r)
       (apply_call cbs spec ++ (grants ≫= start_call config spec) ++ t))); [by auto|].
  apply traced_pass.
  eapply traced_bind.
  { apply (traced_ready_callbacks committed_fields committed_emit w config).
    intros s Hs. exact (f_equal (λ x, x.1.1.1.1) Hs). }
  intros [failed|] t; simpl.
  - intros s (Hs & k & Hk & ->). apply lookup_lt_Some in Hk as Hlt. rewrite length_map in Hlt.
    destruct (traced_ready_failed config cbs spec grants failed Hrev s Hs) as (t' & Ht' & Ha & ->).
    exists ((reverse (active_bindings (active_map grants)) ≫= stop_call config) ++ clear_call cbs).
    split; [done|]. rewrite Ha. by apply TraceReadyFailed.
  - intros s (Hs & ->). exists []. rewrite !app_nil_r. split; [|apply TraceApplied].
    unfold Log, activate_spec, mbind, M_bind, when, emit, modify, gets. simpl.
    repeat (case_match; simpl); try done; unfold calls; simpl; by rewrite omap_app, app_nil_r.
Qed.

(** What a deactivated client still has. *)
Lemma deactivated_fields s0 session s :
  fixed mute (mute (Deactivate_locked s0).2) s →
  config_ s = config_ s0 ∧ callbacks_ s = callbacks_ s0 ∧ source_streams_ s = ∅ ∧
  session_stale s session = session_stale s0 session.
Proof.
  intros Hs. destruct (Deactivate_locked_found s0) as (_ & _ & Hc & Hb).
  pose proof (Deactivate_locked_spec s0) as [_ Hsess]. pose proof (Deactivate_locked_state s0) as Hst.
  split_and!.
  - by rewrite (mute_config _ _ Hs).
  - by rewrite (mute_callbacks _ _ Hs).
  - rewrite Hst in Hs. exact (f_equal source_streams_ Hs).
  - injection Hsess as E1 E2 E3 _. unfold session_stale. rewrite <-E1, <-E2, <-E3.
    exact (f_equal (λ s, session_stale s session) Hs).
Qed.

Lemma traced_install_spec v session spec indices config cbs :
  AdapterInstanceSpec.revision spec ≠ 0 →
  length indices = length (AdapterInstanceSpec.capabilities spec) →
  (∀ s, fixed mute v s → config_ s = config ∧ callbacks_ s = cbs ∧ source_streams_ s = ∅ ∧
                         session_stale s session = false) →
  let grants := zip indices (AdapterInstanceSpec.capabilities spec) in
  traced (fixed mute v) (install_spec session spec indices)
    (λ r t _, transition_trace config cbs spec grants (ApplyInstanceSpecResult.applied r) t).
Proof.
  intros Hrev Hlen Hv grants.
  assert (length grants = length indices) as Hgrants by (unfold grants; rewrite length_zip; lia).
  assert (∀ s, fixed mute v s → config_ s = config) as Hc by (intros s Hs; by apply Hv).
  assert (∀ s, fixed mute v s → callbacks_ s = cbs) as Hb by (intros s Hs; by apply Hv).
  eapply traced_seq; [by apply (traced_apply_top_level mute mute_emit v cbs)|].
  intros [[] error] t; cbn [fst negb orb]; fold grants.
  - intros ->. eapply traced_seq; [by apply (traced_start_capabilities mute mute_emit v config)|].
    intros [[started failed] error'] t (k & Hk & Hst & ->). cbn [fst app] in Hst. subst started.
    case_bool_decide as Hall; cbn [negb]; rewrite length_take, length_map in Hall.
    + rewrite !take_ge by (rewrite ?length_map; lia). by apply (traced_spec_started v).
    + eapply traced_weaken; [by apply (traced_spec_apply_failed v)|done|].
      intros r t s [-> ->]. apply TraceStartFailed. lia.
  - intros [Hbound ->]. apply traced_pass.
    eapply traced_weaken; [by apply (traced_spec_apply_failed v)|done|].
    intros r t s [-> ->]. cbn. rewrite app_nil_r. by apply TraceRejected.
Qed.

Lemma traced_replace_spec session spec indices s0 :
  AdapterInstanceSpec.revision spec ≠ 0 → session_stale s0 session = false →
  length indices = length (AdapterInstanceSpec.capabilities spec) →
  traced (λ s, s = s0) (replace_spec session spec indices)
    (λ r t _, ∃ t', t = deactivation_calls s0 "instance spec replaced" ++ t' ∧
       transition_trace (config_ s0) (callbacks_ s0) spec
         (zip indices (AdapterInstanceSpec.capabilities spec))
         (ApplyInstanceSpecResult.applied r) t').
Proof.
  intros Hrev Hstale Hlen.
  eapply traced_bind; [apply traced_deactivate|]. intros [] t s (-> & Hs).
  destruct (traced_install_spec (mute (Deactivate_locked s0).2) session spec indices (config_ s0)
    (callbacks_ s0) Hrev Hlen) with (s := s) as (t' & Ht' & Htrace); [|done|by eauto].
  intros s' Hs'. rewrite <-Hstale. by apply deactivated_fields.
Qed.

Lemma run_transition_alone session spec indices s :
  session_stale s session = false →
  run_transition session spec indices s = replace_spec session spec indices s.
Proof.
  unfold session_stale. intros [[Hid%negb_false_iff Hstop]%orb_false_iff Hfail]%orb_false_iff.
  unfold run_transition. rewrite seq_preempt.
  assert ((WaitForCallbacks s).2 = s) as Hw by apply seq_wait.
  unfold CurrentSessionIs, StopRequested, mbind, M_bind, gets. simpl.
  destruct (WaitForCallbacks s) as [[] s1]. simpl in *. subst s1. rewrite Hid, Hstop, Hfail. done.
Qed.

Lemma grants_loop_length config seen grants indices :
  grants_loop config seen grants = inr indices → length indices = length grants.
Proof.
  revert seen indices. induction grants as [|grant grants IH]; intros seen indices; simpl.
  { by intros [= <-]. }
  repeat (case_match; try done). intros [= <-]. simpl. f_equal. by eapply IH.
Qed.

(** The fields a transition reads before it changes them. *)
Definition transition_fields (s : Impl) :=
  (config_ s, callbacks_ s, active_capabilities_ s, spec_revision_ s, source_streams_ s, effects_ s).

Lemma begin_transition_fields spec : frame transition_fields (begin_transition spec).
Proof.
  unfold begin_transition. repeat first [done | by apply CancelAllWorkLocked_frame
    | apply frame_bind; [|intros ?]].
Qed.

Lemma ApplyInstanceSpec_locked_fields session spec :
  frame transition_fields (ApplyInstanceSpec_locked session spec).
Proof.
  pose proof (begin_transition_fields spec) as Hbegin.
  intros s. unfold ApplyInstanceSpec_locked. by repeat (case_match; try done).
Qed.


(** ** Losing the session *)

(** The call to the owner: once, and not while stopping. *)
Definition lost_call (s : Impl) (reason : string) : list Call :=
  if negb (stop_requested_ s) && negb (session_lost_reported_ s) && cb_session_lost (callbacks_ s)
  then [CallSessionLost reason] else [].

(** What the section of [EnterSessionLost] leaves behind. *)
Definition lost_fields (s : Impl) :=
  (state_ s, session_lost_reported_ s, active_capabilities_ s, callbacks_ s).

Lemma lost_emit e s : lost_fields (s <| effects_ := effects_ s ++ [e] |>) = lost_fields s.
Proof. reflexivity. Qed.

Lemma deactivated_lost s0 s :
  fixed mute (mute (Deactivate_locked s0).2) s →
  active_capabilities_ s = ∅ ∧
  (stop_requested_ s, session_lost_reported_ s, callbacks_ s) =
  (stop_requested_ s0, session_lost_reported_ s0, callbacks_ s0).
Proof.
  intros Hs. rewrite Deactivate_locked_state in Hs. split; [exact (f_equal active_capabilities_ Hs)|].
  set (f := λ s, (stop_requested_ s, session_lost_reported_ s, callbacks_ s)).
  pose proof (CancelAllWorkLocked_frame f (λ _ _, eq_refl) (s0 <| accepting_work_ := false |>)) as Hf.
  exact (eq_trans (f_equal f Hs) Hf).
Qed.

(** The critical section after the deactivation of [s]. *)
Lemma EnterSessionLost_section s reason t :
  traced (λ s', t = deactivation_calls s reason ∧ fixed mute (mute (Deactivate_locked s).2) s')
    (EnterSessionLost_locked reason)
    (λ entered t' s', t' = [] ∧ t = deactivation_calls s reason ∧
       entered = (if stop_requested_ s then None else Some (negb (session_lost_reported_ s))) ∧
       if stop_requested_ s then active_capabilities_ s' = ∅
       else fixed lost_fields (kSessionLost, true, ∅, callbacks_ s) s').
Proof.
  intros s' [-> Hs']. destruct (deactivated_lost s s' Hs') as (Hact & [= Hstop Hrep Hcbs]).
  exists []. rewrite app_nil_r. unfold EnterSessionLost_locked. rewrite Hstop, Hrep.
  destruct (stop_requested_ s); split_and!; try done.
  unfold fixed, lost_fields. simpl. by rewrite Hact, Hcbs.
Qed.

(** Telling the owner. *)
Lemma traced_lost_report s reason notify :
  traced (fixed lost_fields (kSessionLost, true, ∅, callbacks_ s))
    (Log kError ("Runtime Link session lost: " +:+ reason) ;;
     bound ← gets (λ s, cb_session_lost (callbacks_ s));
     when (notify && bound)
       (safe_call "session_lost callback" (CallSessionLost reason) ;; mret tt))
    (λ _ t s', t = (if notify && cb_session_lost (callbacks_ s) then [CallSessionLost reason] else []) ∧
       fixed lost_fields (kSessionLost, true, ∅, callbacks_ s) s').
Proof.
  eapply traced_then; [by apply traced_Log|]. intros _.
  apply (traced_flag lost_fields _ (callbacks_ s)); [by intros s' [= _ _ _ Hc]|].
  by apply (traced_safe lost_fields lost_emit _ "session_lost callback" (CallSessionLost reason)).
Qed.

End traces.


