(* ===== verification/Operations.v ===== *)
(** * The course of an operation

    What one operation adds to the outbound Work queue and to the calls of the
    application: [accepted], [started] and one terminal, in this order, and one
    handler call between them. *)

From S2P Require Import Prelude Text Digest Messages Clock Config State Queue Bounds.
From S2P Require Import Stream StreamFacts Sample Flow Terminals Dispatch DispatchFacts Handlers.
From S2P Require Import Spec SpecFacts Session SessionFacts Callbacks.

(** What happened between two states: the frames queued and the callbacks made. *)
Definition adds (s s' : Impl) (frames : list WorkFrame) (cs : list Call) : Prop :=
  queued_frames s' = queued_frames s ++ frames ∧ calls s' = calls s ++ cs.

Lemma adds_nothing s s' :
  work_queue_ s' = work_queue_ s → effects_ s' = effects_ s → adds s s' [] [].
Proof. intros Hq He. unfold adds, queued_frames, calls. by rewrite Hq, He, !app_nil_r. Qed.

Lemma adds_trans s1 s2 s3 f1 f2 c1 c2 :
  adds s1 s2 f1 c1 → adds s2 s3 f2 c2 → adds s1 s3 (f1 ++ f2) (c1 ++ c2).
Proof. intros [E1 E2] [E3 E4]. unfold adds. by rewrite E3, E4, E1, E2, <-!(assoc_L (++)). Qed.

Section operations.
Context `{Protobuf}.

Lemma adds_push s frame bytes s' :
  work_queue_ s' = work_queue_ s ++ [QueuedWorkFrame.make (WorkRequest.make None frame) bytes] →
  effects_ s' = effects_ s → adds s s' [frame] [].
Proof.
  intros Hq He. unfold adds, queued_frames, calls. rewrite Hq, He, map_app, app_nil_r. done.
Qed.

Lemma adds_QueueWork frame s :
  adds s (QueueWork frame s).2 (if (QueueWork frame s).1 then [frame] else []) [].
Proof.
  change (QueueWork frame s) with (QueueWorkLocked frame s).
  destruct (QueueWorkLocked frame s).1 eqn:Hr.
  - apply QueueWorkLocked_true in Hr as [-> _]. by eapply adds_push.
  - apply QueueWorkLocked_false in Hr as [->| ->]; by apply adds_nothing.
Qed.

Lemma calls_TryCancel context : frame calls (TryCancel context).
Proof.
  destruct context as [c|]; [|done]. apply frame_modify. intros s. unfold calls. simpl.
  by rewrite omap_app, app_nil_r.
Qed.
Lemma calls_Log level message : frame calls (Log level message).
Proof.
  apply frame_bind; [done|]. intros b. apply frame_when, frame_modify. intros s. unfold calls. simpl.
  by rewrite omap_app, app_nil_r.
Qed.
Lemma calls_CancelAllWorkLocked : frame calls CancelAllWorkLocked.
Proof. by apply CancelAllWorkLocked_frame. Qed.
Hint Resolve calls_TryCancel calls_Log calls_CancelAllWorkLocked : frame.

Lemma calls_SignalCurrentSessionFailure reason : frame calls (SignalCurrentSessionFailure reason).
Proof.
  unfold SignalCurrentSessionFailure, SignalSessionFailure, SignalSessionFailure_locked,
    CancelActiveStreams. solve_frame.
Qed.

Lemma adds_SignalCurrentSessionFailure reason s :
  adds s (SignalCurrentSessionFailure reason s).2 [] [].
Proof.
  unfold adds, queued_frames. rewrite calls_SignalCurrentSessionFailure, !app_nil_r.
  pose proof (core_SignalCurrentSessionFailure reason s) as Hc. split; [|done].
  f_equal. exact (f_equal (λ c, fst (co_work c)) Hc).
Qed.

Lemma adds_CommitTerminalFrame job frame s :
  adds s (CommitTerminalFrame job frame s).2
    (if bool_decide ((CommitTerminalFrame job frame s).1 = kCommitted) then [frame] else []) [].
Proof.
  case_bool_decide as Hc.
  - destruct (CommitTerminalFrame_committed s job frame Hc)
      as (unary & operation & digest & _ & _ & _ & _ & _ & _ & _ & ->).
    unfold convert_reservation. destruct (converted_reservation s job); by eapply adds_push.
  - destruct (CommitTerminalFrame_other s job frame Hc) as [->| ->]; by apply adds_nothing.
Qed.

(** How a computation that commits the terminal of [job] ends: one frame with [P] is
    queued and retained, or none is and the session is over. *)
Definition concludes (s s' : Impl) (job : DispatchJob.t) (P : WorkFrame → Prop) : Prop :=
  (torn_down s' ∧ adds s s' [] []) ∨
  ∃ frame, P frame ∧ retains s' job frame ∧ adds s s' [frame] [].

Lemma concludes_failure s s' job P reason :
  adds s s' [] [] → concludes s (SignalCurrentSessionFailure reason s').2 job P.
Proof.
  intros Ha. left. split; [apply SignalCurrentSessionFailure_torn|].
  exact (adds_trans _ _ _ [] [] [] [] Ha (adds_SignalCurrentSessionFailure reason s')).
Qed.

(** Commit, or fail the session. *)
Lemma commit_concludes s0 s job frame reason (P : WorkFrame → Prop) :
  P frame → adds s0 s [] [] →
  let r := CommitTerminalFrame job frame s in
  concludes s0 (when (negb (bool_decide (r.1 = kCommitted))) (SignalCurrentSessionFailure reason) r.2).2
    job P.
Proof.
  intros HP Ha r. pose proof (adds_trans _ _ _ _ _ _ _ Ha (adds_CommitTerminalFrame job frame s)) as Hadd.
  fold r in Hadd. case_bool_decide as Hc; simpl.
  - right. exists frame. split_and!; [done|by apply CommitTerminalFrame_retains|done].
  - by apply concludes_failure.
Qed.

Context `{Environment} `{!Sequential}.

Lemma commit_with_fallback_concludes s job frame (fallback : C WorkFrame) reason
    (P : WorkFrame → Prop) :
  P frame → (∀ s, P (fallback s).1 ∧ (fallback s).2 = s) →
  concludes s (commit_with_fallback job frame fallback reason s).2 job P.
Proof.
  intros HP Hf. pose proof (commit_concludes s s job frame reason P HP (adds_nothing _ _ eq_refl eq_refl)) as Hd.
  pose proof (adds_CommitTerminalFrame job frame s) as Ha.
  unfold commit_with_fallback. rewrite seq_preempt. unfold mbind, M_bind. simpl.
  destruct (CommitTerminalFrame job frame s) as [result s1]. simpl in *.
  destruct (decide (result = kTooLarge)) as [->|Ht];
    [|rewrite (bool_decide_eq_false_2 (result = kTooLarge)) by done; exact Hd].
  simpl in Ha |- *.
  destruct (Hf s1) as [HPf Hs1]. destruct (fallback s1) as [compact s2]. simpl in *. subst s2.
  by apply commit_concludes.
Qed.

(** ** The course of an operation *)

(** The handler call, when the binding has a handler. *)
Definition operation_call (config : ClientConfig) (binding : nat) (job : DispatchJob.t) : list Call :=
  bound_in config cb_operation binding
    (CallOperation binding (DispatchJob.operation job) (DispatchJob.cancellation job)).

(** A terminal event of the job. *)
Definition terminal_event_of (job : DispatchJob.t) (frame : WorkFrame) : Prop :=
  ∃ event, frame = operation_event event ∧ OperationEvent.work_id event = DispatchJob.work_id job ∧
           IsTerminal (OperationEvent.phase event) = true.

(** The frames and the handler calls of an operation, and its final state. *)
Inductive operation_course (job : DispatchJob.t) (handler : list Call) (s' : Impl)
    : list WorkFrame → list Call → Prop :=
| CourseAnswered frame :
    terminal_event_of job frame → retains s' job frame →
    operation_course job handler s' [frame] []
| CourseComplete now now' frame :
    terminal_event_of job frame → retains s' job frame →
    operation_course job handler s'
      [OperationFrame now (DispatchJob.work_id job) OPERATION_PHASE_ACCEPTED;
       OperationFrame now' (DispatchJob.work_id job) OPERATION_PHASE_STARTED; frame] handler
| CourseFailed : torn_down s' → operation_course job handler s' [] []
| CourseNotStarted now :
    torn_down s' →
    operation_course job handler s'
      [OperationFrame now (DispatchJob.work_id job) OPERATION_PHASE_ACCEPTED] []
| CourseNotCommitted now now' :
    torn_down s' →
    operation_course job handler s'
      [OperationFrame now (DispatchJob.work_id job) OPERATION_PHASE_ACCEPTED;
       OperationFrame now' (DispatchJob.work_id job) OPERATION_PHASE_STARTED] handler.

Lemma check_operation_result_terminal endpoint result :
  IsTerminal (OperationResult.phase (check_operation_result endpoint result)) = true.
Proof.
  unfold check_operation_result. case_match eqn:Hg; [done|]. case_match; [done|].
  by apply orb_false_iff in Hg as [[Hg%negb_false_iff _]%orb_false_iff _].
Qed.

Lemma queue_lifecycle_adds work_id s :
  let r := queue_lifecycle work_id s in
  ∃ now now', let accepted := OperationFrame now work_id OPERATION_PHASE_ACCEPTED in
  if r.1 : bool
  then adds s r.2 [accepted; OperationFrame now' work_id OPERATION_PHASE_STARTED] []
  else adds s r.2 [] [] ∨ adds s r.2 [accepted] [].
Proof.
  unfold queue_lifecycle. rewrite seq_preempt. unfold UnixNanos, mbind, M_bind, gets. simpl.
  set (accepted := OperationFrame (wall_clock_ s) work_id OPERATION_PHASE_ACCEPTED).
  exists (wall_clock_ s). pose proof (adds_QueueWork accepted s) as Ha. subst accepted.
  destruct (QueueWork _ s) as [[] s1]; simpl in *; [|exists 0; by left].
  exists (wall_clock_ s1).
  pose proof (adds_QueueWork (OperationFrame (wall_clock_ s1) work_id OPERATION_PHASE_STARTED) s1) as Hb.
  destruct (QueueWork _ s1) as [[] s2]; simpl in *; [|right];
    exact (adds_trans _ _ _ _ _ _ _ Ha Hb).
Qed.

Lemma call_handler_adds bound c s :
  adds s (call_handler bound c s).2 [] (if bound then [c] else []).
Proof.
  destruct bound; [|by apply adds_nothing]. simpl. unfold call, mbind, M_bind. simpl.
  rewrite seq_invoke. unfold adds, queued_frames, calls. simpl. by rewrite omap_app, app_nil_r.
Qed.

Lemma operation_result_adds outcome s : adds s (operation_result outcome s).2 [] [].
Proof.
  assert (∀ message (r : OperationResult.t),
    adds s ((Log kError message ;; mret r) s).2 [] []) as Hlog.
  { intros message r. unfold adds, queued_frames. unfold mbind, M_bind. simpl.
    rewrite calls_Log, !app_nil_r. split; [|done]. f_equal.
    exact (f_equal (λ c, fst (co_work c)) (core_Log kError message s)). }
  destruct outcome; [by apply adds_nothing|apply Hlog..].
Qed.

Lemma operation_frame_terminal job now endpoint result :
  terminal_event_of job
    (operation_frame (DispatchJob.work_id job) now (check_operation_result endpoint result)).
Proof. eexists. split_and!; [done..|apply check_operation_result_terminal]. Qed.

Lemma RejectedDispatch_terminal job now code message :
  terminal_event_of job
    (RejectedDispatch now kOperation (DispatchJob.work_id job) code message ERROR_CLASS_REJECTED).
Proof. by eexists. Qed.

Definition takes_course (s : Impl) (job : DispatchJob.t) (handler : list Call) (s' : Impl) : Prop :=
  ∃ frames cs, adds s s' frames cs ∧ operation_course job handler s' frames cs.

(** The handler's part, after the announcement. *)
Lemma handled_course s0 s1 s2 s3 job handler now now' :
  adds s0 s1 [OperationFrame now (DispatchJob.work_id job) OPERATION_PHASE_ACCEPTED;
              OperationFrame now' (DispatchJob.work_id job) OPERATION_PHASE_STARTED] [] →
  adds s1 s2 [] handler → concludes s2 s3 job (terminal_event_of job) →
  takes_course s0 job handler s3.
Proof.
  intros Ha Hh Hc. pose proof (adds_trans _ _ _ _ _ _ _ Ha Hh) as H02.
  destruct Hc as [[Ht Hadd]|(frame & HP & Hr & Hadd)];
    pose proof (adds_trans _ _ _ _ _ _ _ H02 Hadd) as H03; rewrite !app_nil_r in H03; simpl in H03.
  - eexists _, _. split; [exact H03|]. by apply CourseNotCommitted.
  - eexists _, _. split; [exact H03|]. by apply CourseComplete.
Qed.

End operations.

