(* ===== verification/Sources.v ===== *)
(** * The answer to a source-open request

    A pending source is answered by exactly one [SourceOpenResult], queued before
    anything can be published: the stream is then open with the credit the Host
    granted, or gone with the rejection retained as its terminal. *)

From S2P Require Import Prelude Text Digest Messages Clock Config State Queue Bounds.
From S2P Require Import Stream StreamFacts Sample Flow Terminals Dispatch DispatchFacts Handlers.
From S2P Require Import Spec SpecFacts Session SessionFacts Callbacks Operations.

Section sources.
Context `{Protobuf}.

(** What the handler's decision looks like once it is checked. *)
Definition decision_ok (endpoint : option CapabilityEndpointContract.t)
    (decision : SourceOpenDecision.t) : Prop :=
  if SourceOpenDecision.accepted decision
  then HasError (SourceOpenDecision.error decision) = false ∧
       (SourceOpenDecision.has_initial_payload decision = true →
        initial_payload_invalid endpoint (SourceOpenDecision.initial_payload decision) = false)
  else IsTypedError (SourceOpenDecision.error decision) = true.

Lemma check_source_decision_ok `{!ErrorClassNumbers} endpoint requested decision :
  decision_ok endpoint (check_source_decision endpoint requested decision).
Proof.
  unfold check_source_decision. destruct requested; [by apply IsTypedError_MakeError|].
  case_match eqn:Ha; [by apply IsTypedError_MakeError|].
  case_match eqn:Hr; [by apply IsTypedError_MakeError|].
  case_match eqn:Hi; [by apply IsTypedError_MakeError|]. unfold decision_ok.
  destruct (SourceOpenDecision.accepted decision); simpl in *.
  - apply orb_false_iff in Ha as [Ha _]. split; [done|]. intros Hini. by rewrite Hini in Hi.
  - by apply orb_false_iff in Hr as [_ Hr%negb_false_iff].
Qed.

(** The stream the Host may now credit and the application publish to. *)
Definition opened_source (job : DispatchJob.t) (source : SourceState.t) : SourceState.t :=
  let credit := SourceOpenRequest.initial_credit (DispatchJob.source_open job) in
  source <| SourceState.phase := kOpen |>
    <| SourceState.message_credit := CreditGrant.messages credit |>
    <| SourceState.byte_credit := CreditGrant.bytes credit |>.

(** The rejection [frame] is the retained terminal of the stream. *)
Definition retained_rejection (s : Impl) (id : string) (frame : WorkFrame) : Prop :=
  ∃ closed message, closed_sources_ s !! id = Some closed ∧
    ClosedSourceState.terminal_frame closed = WorkRequest.make None frame ∧
    source_terminal frame = Some (id, message) ∧
    message_digest message = Some (ClosedSourceState.terminal_digest closed).

(** How a pending source is answered. *)
Definition source_answered (s s' : Impl) (job : DispatchJob.t) (source : SourceState.t)
    (decision : SourceOpenDecision.t) : Prop :=
  let id := DispatchJob.work_id job in
  let frame := source_open_frame id decision in
  queued_frames s' = queued_frames s ++ [frame] ∧
  if SourceOpenDecision.accepted decision
  then source_streams_ s' = <[id := opened_source job source]> (source_streams_ s) ∧
       closed_sources_ s' = closed_sources_ s
  else source_streams_ s' = delete id (source_streams_ s) ∧ retained_rejection s' id frame.

Lemma HandleSourceOpen_locked_outcome job decision s source :
  source_current s job = Some source →
  connection_epoch_counter_ s = DispatchJob.connection_epoch job →
  let r := HandleSourceOpen_locked job decision s in
  r.1 = SourceFailPair ∨
  r.1 ≠ SourceFailPair ∧ (torn_down r.2 ∨ source_answered s r.2 job source decision).
Proof.
  intros Hc He. unfold HandleSourceOpen_locked. rewrite Hc, He, Z.eqb_refl. cbn [negb orb].
  rewrite orb_false_r. case_match eqn:Hclosed.
  { right. split; [done|]. left. unfold torn_down, session_closed. cbn [snd].
    rewrite <-orb_assoc, Hclosed. apply orb_true_r. }
  case_match; [by left|]. unfold source_answered.
  set (frame := source_open_frame (DispatchJob.work_id job) decision).
  destruct (SourceOpenDecision.accepted decision) eqn:Hacc.
  - case_match; [by left|]. pose proof (QueueWorkLocked_true s frame) as Hq.
    destruct (QueueWorkLocked frame s) as [[] s1]; [|by left]. destruct Hq as [Hs1 _]; [done|].
    cbn [snd] in Hs1. subst s1. right. split; [done|]. right. split_and!; [|done..].
    unfold queued_frames. simpl. by rewrite map_app.
  - pose proof (CommitSourceTerminalLocked_true s (DispatchJob.work_id job) source frame) as Hq.
    destruct (CommitSourceTerminalLocked _ _ _ s) as [[] s1]; [|by left].
    destruct Hq as (message & digest & Hm & _ & Hd & _ & _ & Hs1); [done|]. cbn [snd] in Hs1. subst s1.
    right. split; [by case_match|]. right. split_and!; [|done|].
    + unfold queued_frames. simpl. by rewrite map_app.
    + eexists _, message. simpl. rewrite lookup_insert_eq. done.
Qed.

Lemma source_answered_mute s1 s2 s1' s2' job source decision :
  mute s1 = mute s1' → mute s2 = mute s2' →
  source_answered s1 s2 job source decision → source_answered s1' s2' job source decision.
Proof.
  intros E1 E2. unfold source_answered, retained_rejection, queued_frames.
  rewrite <-(f_equal work_queue_ E1 : work_queue_ s1 = work_queue_ s1').
  rewrite <-(f_equal source_streams_ E1 : source_streams_ s1 = source_streams_ s1').
  rewrite <-(f_equal closed_sources_ E1 : closed_sources_ s1 = closed_sources_ s1').
  rewrite <-(f_equal work_queue_ E2 : work_queue_ s2 = work_queue_ s2').
  rewrite <-(f_equal source_streams_ E2 : source_streams_ s2 = source_streams_ s2').
  by rewrite <-(f_equal closed_sources_ E2 : closed_sources_ s2 = closed_sources_ s2').
Qed.

Context `{Environment} `{!Sequential}.

(** The handler's decision leaves the state alone. *)
Lemma source_decision_mute (requested bound : bool) rejection binding request token :
  frame mute (if requested then mret rejection
              else outcome ← call_handler bound (CallSourceOpen binding request token);
                   source_decision outcome).
Proof.
  destruct requested; [done|]. apply frame_bind.
  - destruct bound; [|done]. apply (seq_call mute mute_emit (CallSourceOpen binding request token)).
  - intros []; [done|apply frame_bind; [apply (seq_Log mute mute_emit)|done]..].
Qed.

(** The last section and what follows it. *)
Lemma source_open_conclusion s job source endpoint decision :
  source_current s job = Some source →
  connection_epoch_counter_ s = DispatchJob.connection_epoch job →
  decision_ok endpoint decision →
  hoare (λ s', mute s' = mute s)
    (outcome ← HandleSourceOpen_locked job decision;
     mret () ;;
     match outcome with
     | SourceDone => mret tt
     | SourceFailPair =>
         SignalCurrentSessionFailure "bounded Work queue could not send SourceOpenResult"
     | SourceNotify source => NotifySourceClosed source (SourceOpenDecision.error decision)
     end)
    (λ _ s', torn_down s' ∨
       ∃ decision, decision_ok endpoint decision ∧ source_answered s s' job source decision).
Proof.
  intros Hcur Hepoch Hok s1 Hs1. unfold mbind, M_bind. cbn [mret M_ret].
  assert (source_current s1 job = Some source) as Hcur1
    by (rewrite <-Hcur; exact (f_equal (λ s, source_current s job) Hs1)).
  assert (connection_epoch_counter_ s1 = DispatchJob.connection_epoch job) as Hepoch1
    by (rewrite <-Hepoch; exact (f_equal connection_epoch_counter_ Hs1)).
  pose proof (HandleSourceOpen_locked_outcome job decision s1 source Hcur1 Hepoch1) as Hr.
  destruct (HandleSourceOpen_locked job decision s1) as [outcome s2]. cbn [fst snd] in *.
  destruct Hr as [->|[Hne Hr]]; [left; apply SignalCurrentSessionFailure_torn|].
  assert (∀ s3, mute s3 = mute s2 → torn_down s3 ∨
    ∃ decision, decision_ok endpoint decision ∧ source_answered s s3 job source decision) as Hend.
  { intros s3 Hs3. destruct Hr as [Ht|Ha].
    - left. unfold torn_down. rewrite <-Ht. exact (f_equal session_closed Hs3).
    - right. exists decision. split; [done|]. by eapply source_answered_mute. }
  destruct outcome; [by apply Hend|done|]. apply Hend. apply (seq_NotifySourceClosed mute mute_emit).
Qed.

End sources.

(** ** An execution *)

Module SampleSource.
Import Sample.

(** A source-open request was admitted; its job is queued. *)
Definition pending : Impl :=
  (EnqueueSourceOpen_locked (source_open "w-3") (source_open_job (source_open "w-3") 7 now) ready).2.
Definition job : DispatchJob.t := default DispatchJob.empty (head (dispatch_queue_ pending)).
Definition source : SourceState.t :=
  default SourceState.empty (source_streams_ pending !! "w-3").
End SampleSource.

